(** * Ordered multiset partitions and the minimaj crystal

    A shallow embedding of [sage/combinat/multiset_partition_ordered.py].

    Letters are integers ([Z]).  A block is a Sage [Set] of letters and is
    modelled by a [gset Z]: equality of blocks is extensional, and the order
    in which [elements] lists a block is as unspecified as the iteration
    order of a Sage [Set].  An ordered multiset partition is the list of its
    blocks; [OrderedMultisetPartition.__eq__] compares exactly that list.

    Python exceptions are values of [result]. *)

From stdpp Require Import base option list sorting gmap strings pretty.

#[global] Set Warnings "-clear-no-such-hyp".

Open Scope Z_scope.

(** ** Python values and control *)

Module Py.

Inductive exn : Set :=
| IndexError | ValueError | AssertionError | UnboundLocalError
| TypeError | KeyError | NotImplementedError | ZeroDivisionError.

Inductive result (A : Type) : Type :=
| Ok (a : A)
| Raise (e : exn).
Global Arguments Ok {A} a.
Global Arguments Raise {A} e.

Definition bind {A B} (m : result A) (k : A → result B) : result B :=
  match m with Ok a => k a | Raise e => Raise e end.

Definition is_ok {A} (m : result A) : bool :=
  match m with Ok _ => true | Raise _ => false end.

(** [len(l)] *)
Definition len {A} (l : list A) : Z := Z.of_nat (length l).

(** [range(a, b)] *)
Definition range (a b : Z) : list Z := seqZ a (b - a).

(** [l[i]]: a negative index counts from the end. *)
Definition index {A} (l : list A) (i : Z) : result A :=
  let j := if decide (i < 0) then len l + i else i in
  if decide (j < 0) then Raise IndexError
  else match l !! Z.to_nat j with
       | Some a => Ok a
       | None => Raise IndexError
       end.

(** [a // b] on integers *)
Definition floordiv (a b : Z) : result Z :=
  if decide (b = 0) then Raise ZeroDivisionError else Ok (a / b).

(** [sorted(l)] on integers *)
Definition sorted (l : list Z) : list Z := merge_sort Z.le l.

(** [sum(l)] *)
Definition sum (l : list Z) : Z := foldr Z.add 0 l.

(** [prod(l)] *)
Definition prod (l : list Z) : Z := foldr Z.mul 1 l.

(** A [for] loop whose body may raise. *)
Fixpoint for_each {A S} (body : S → A → result S) (s : S) (l : list A)
  : result S :=
  match l with
  | [] => Ok s
  | a :: l => bind (body s a) (λ s', for_each body s' l)
  end.

(** [l[i] = x]: a negative index counts from the end. *)
Definition setitem {A} (l : list A) (i : Z) (x : A) : result (list A) :=
  let j := if decide (i < 0) then len l + i else i in
  if decide (j < 0) then Raise IndexError
  else if decide (j < len l) then Ok (<[Z.to_nat j := x]> l)
  else Raise IndexError.

(** A list comprehension with a condition that may raise. *)
Fixpoint comprehension_if {A} (cond : A → result bool) (l : list A)
  : result (list A) :=
  match l with
  | [] => Ok []
  | a :: l =>
      bind (cond a) (λ b,
        bind (comprehension_if cond l) (λ r, Ok (if b : bool then a :: r else r)))
  end.

(** A list comprehension whose element expression may raise. *)
Fixpoint comprehension {A B} (f : A → result B) (l : list A)
  : result (list B) :=
  match l with
  | [] => Ok []
  | a :: l => bind (f a) (λ b, bind (comprehension f l) (λ bs, Ok (b :: bs)))
  end.

End Py.

Import Py.

Global Instance result_ret : MRet result := @Ok.
Global Instance result_bind : MBind result := λ A B k m, Py.bind m k.

(** ** The entity: blocks and partitions *)

Abbreviation letter := Z.
Abbreviation block := (gset Z).
Abbreviation omp := (list (gset Z)).

(** Iterating over the blocks of a partition yields each block's letters in
    the block's own iteration order. *)
Definition iter_blocks (co : omp) : list (list Z) := elements <$> co.

(** [_concatenate(list_of_iters)] *)
Definition _concatenate {A} (list_of_iters : list (list A)) : list A :=
  mjoin list_of_iters.

(** [_get_multiset(co)] *)
Definition _get_multiset (co : omp) : list Z :=
  sorted (_concatenate (iter_blocks co)).

(** [_descents(w)]: positions [j] in [range(len(w)-1)] with [w[j] > w[j+1]].
    Both lookups are in range for every such [j]. *)
Definition is_descent (w : list Z) (j : Z) : bool :=
  match w !! Z.to_nat j, w !! Z.to_nat (j + 1) with
  | Some a, Some b => bool_decide (b < a)
  | _, _ => false
  end.

Definition _descents (w : list Z) : list Z :=
  filter (λ j, is_descent w j) (range 0 (len w - 1)).

(** The constructor drops empty blocks ([co = [block for block in co if block]]),
    so the blocks of an entity are nonempty. *)
Definition valid (c : omp) : Prop := Forall (λ B, B ≠ ∅) c.

Global Instance valid_dec c : Decision (valid c).
Proof. unfold valid. apply _. Defined.

(** ** Minimaj *)

(** The inner loop of [minimaj_blocks]: every letter [j] of the block is
    compared with [C[0][0]]. *)
Definition split_lower_upper (C : list (list Z)) (B : list Z)
  : result (list Z * list Z) :=
  for_each (λ '(lower, upper) j,
      C0 ← index C 0;
      c00 ← index C0 0;
      if decide (j ≤ c00) then Ok (lower ++ [j], upper)
      else Ok (lower, upper ++ [j]))
    ([], []) B.

(** [minimaj_blocks]: [self[-1]] first, then [self[-1-i]] for
    [i = 1 .. len(self)-1], that is the remaining blocks from right to left. *)
Definition minimaj_blocks (c : omp) : result (list (list Z)) :=
  match reverse c with
  | [] => Ok []
  | last :: rest =>
      for_each (λ C B,
          '(lower, upper) ← split_lower_upper C (elements B);
          Ok ((sorted upper ++ sorted lower) :: C))
        [sorted (elements last)] rest
  end.

(** [minimaj_word] *)
Definition minimaj_word (c : omp) : result (list Z) :=
  bb ← minimaj_blocks c; Ok (_concatenate bb).

(** [minimaj]: [sum(D) + len(D)] *)
Definition minimaj (c : omp) : result Z :=
  w ← minimaj_word c;
  let D := _descents w in Ok (sum D + len D).

(** [Set(l)] *)
Definition Set_ (l : list Z) : gset Z := list_to_set l.

(** The partition of Scenario 4. *)
Definition scenario4 : omp :=
  Set_ <$> [[1;5;7]; [2;4]; [5;6]; [4;6;8]; [1;3]; [1;2;3]].

(** The statistic in the words of the specification: position [pos] of the
    word contributes [pos + 1] when its letter exceeds the next one. *)
Fixpoint descent_sum_from (pos : Z) (w : list Z) : Z :=
  match w with
  | a :: (b :: _) as w' =>
      (if decide (b < a) then pos + 1 else 0) + descent_sum_from (pos + 1) w'
  | _ => 0
  end.

Definition descent_sum (w : list Z) : Z := descent_sum_from 0 w.

(** ** Auxiliary definitions for the proofs *)

(** One step of [minimaj_blocks] when the leftmost word built so far starts
    with [x]. *)
Definition mj_word (x : Z) (B : list Z) : list Z :=
  sorted (filter (λ j, ¬ j ≤ x) B) ++ sorted (filter (λ j, j ≤ x) B).

(** [minimaj_blocks] by recursion on the partition. *)
Fixpoint mj (c : omp) : list (list Z) :=
  match c with
  | [] => []
  | B :: c' =>
      match mj c' with
      | [] => [sorted (elements B)]
      | (W :: _) as C => mj_word (hd 0 W) (elements B) :: C
      end
  end.

(** ** External enumerators of the Sage library *)

Module Sage.

(** Modelled from the spec: [Compositions(n)], the integer-composition
    enumerator, which is not part of this module: every list of positive
    integers with sum [n], in the order Sage lists them
    ([[1,1,1], [1,2], [2,1], [3]] for [n = 3]). *)
Definition bump (a : list Z) : option (list Z) :=
  match a with
  | [] => None
  | x :: a => Some (x + 1 :: a)
  end.

Fixpoint Compositions (n : nat) : list (list Z) :=
  match n with
  | O => [[]]
  | S n' => ((λ a, 1 :: a) <$> Compositions n') ++ omap bump (Compositions n')
  end.

(** Modelled from the spec: [Compositions(n, length=k, max_part=m)], the
    compositions of [n] with [k] parts, none above [m]. *)
Definition Compositions_length_max (n : nat) (k m : Z) : list (list Z) :=
  filter (λ a, len a = k ∧ Forall (λ x, x ≤ m) a) (Compositions n).

(** Modelled from the spec: [IntegerListsLex(min_part=0, max_part=m,
    length=n)], every list of [n] integers between [0] and [m]. *)
Fixpoint IntegerListsLex (n : nat) (m : Z) : list (list Z) :=
  match n with
  | O => [[]]
  | S n' => a ← range 0 (m + 1); (λ w, a :: w) <$> IntegerListsLex n' m
  end.

(** Modelled from the spec: the same enumerator with [min_slope=0], which
    keeps the weakly increasing lists. *)
Definition IntegerListsLex_slope0 (n : nat) (m : Z) : list (list Z) :=
  filter (λ w, Sorted Z.le w) (IntegerListsLex n m).

(** Modelled from the spec: [cartesian_product] of a list of finite
    collections: every way to choose one member from each. *)
Fixpoint cartesian_product {A} (factors : list (list A)) : list (list A) :=
  match factors with
  | [] => [[]]
  | F :: factors => x ← F; (λ t, x :: t) <$> cartesian_product factors
  end.

(** Modelled from the spec: [Permutations_mset(mset)], the enumerator of the
    permutations of a multiset: every rearrangement of [mset], each listed
    once. *)
Fixpoint remove_first (x : Z) (l : list Z) : list Z :=
  match l with
  | [] => []
  | y :: l => if decide (x = y) then l else y :: remove_first x l
  end.

Fixpoint rearrangements (n : nat) (l : list Z) : list (list Z) :=
  match n with
  | O => [[]]
  | S n' =>
      x ← remove_dups l; (λ p, x :: p) <$> rearrangements n' (remove_first x l)
  end.

Definition Permutations_mset (mset : list Z) : list (list Z) :=
  rearrangements (length mset) mset.

(** Modelled from the spec: [Compositions(d, length=k, max_part=m)] and
    [Compositions(d, length=k)] for an integer [d] that may be negative, in
    which case there is no composition; [length=None] lifts the condition on
    the number of parts. *)
Definition Compositions_of (d : Z) (length : option Z) (max_part : option Z)
  : list (list Z) :=
  if decide (d < 0) then []
  else
    let l := Compositions (Z.to_nat d) in
    let l := match length with
             | Some k => filter (λ a, Py.len a = k) l
             | None => l
             end in
    match max_part with
    | Some m => filter (λ a, Forall (λ x, x ≤ m) a) l
    | None => l
    end.

(** Modelled from the spec: [Subsets_sk(A, a)], the k-subset enumerator:
    every subset of [A] with [a] elements, each listed once. *)
Fixpoint sublists_of_length (k : nat) (l : list Z) : list (list Z) :=
  match k, l with
  | O, _ => [[]]
  | S k', [] => []
  | S k', x :: l' =>
      ((λ t, x :: t) <$> sublists_of_length k' l') ++ sublists_of_length k l'
  end.

Definition Subsets_sk (A : gset Z) (a : Z) : list (gset Z) :=
  if decide (a < 0) then []
  else list_to_set <$> sublists_of_length (Z.to_nat a) (elements A).

(** Modelled from the spec: [IntegerListsLex(a, min_slope=1, min_part=p,
    max_part=q)]: the strictly increasing lists of integers between [p] and
    [q] with sum [a], each listed once. *)
Fixpoint sublists (l : list Z) : list (list Z) :=
  match l with
  | [] => [[]]
  | x :: l' => ((λ t, x :: t) <$> sublists l') ++ sublists l'
  end.

Definition IntegerListsLex_slope1 (a p q : Z) : list (list Z) :=
  filter (λ l, Py.sum l = a) (sublists (Py.range p (q + 1))).

End Sage.

(** ** Weights and families of a fixed multiset *)

(** [_get_weight(lst)]: the dictionary of letter frequencies. *)
Definition _get_weight (lst : list Z) : gmap Z Z :=
  foldl (λ out k, <[k := default 0 (out !! k) + 1]> out) ∅ lst.

(** Python orders pairs lexicographically. *)
Definition pair_le (p q : Z * Z) : Prop :=
  p.1 < q.1 ∨ (p.1 = q.1 ∧ p.2 ≤ q.2).

Global Instance pair_le_dec p q : Decision (pair_le p q).
Proof. unfold pair_le. apply _. Defined.

(** [OrderedMultisetPartitions_X.__init__]:
    [_Xtup = tuple([k for (k,v) in sorted(X) for _ in range(v)])], where [X]
    holds the items of the weight dictionary. *)
Definition _Xtup (X : list (Z * Z)) : list Z :=
  '(k, v) ← merge_sort pair_le X; replicate (Z.to_nat v) k.

(** [OrderedMultisetPartitions._has_valid_blocks]: every block is a nonempty
    sequence without repeated entries. *)
Definition block_ok (b : list Z) : bool :=
  bool_decide (b ≠ [] ∧ length (elements (Set_ b)) = length b).

Definition _has_valid_blocks (x : list (list Z)) : bool := forallb block_ok x.

(** [OrderedMultisetPartitions_X._has_valid_blocks] *)
Definition _has_valid_blocks_X (Xtup : list Z) (x : list (list Z)) : bool :=
  let no_repeats := _has_valid_blocks x in
  let valid_partition := bool_decide (sorted (_concatenate x) = Xtup) in
  no_repeats && valid_partition.

(** [OrderedMultisetPartitions(X)(lst)] for a multiset [X] given as a tuple
    or as a weight dictionary, and [lst] a sequence of blocks:
    [__classcall_private__] counts the letters of a tuple into a dictionary
    and returns [OrderedMultisetPartitions_X] of its items;
    [_element_constructor_] raises [AssertionError] unless [lst] belongs to
    the family. *)
Definition OMPs_X_of_weight (w : gmap Z Z) (lst : list (list Z)) : result omp :=
  if _has_valid_blocks_X (_Xtup (map_to_list w)) lst
  then Ok (Set_ <$> lst)
  else Raise AssertionError.

Definition OMPs_X (X : list Z) (lst : list (list Z)) : result omp :=
  OMPs_X_of_weight (_get_weight X) lst.

(** [OrderedMultisetPartition(co)] on a list of [Set]s: [__init__] deletes the
    empty blocks. *)
Definition OrderedMultisetPartition_of_sets (co : omp) : omp :=
  filter (λ B, B ≠ ∅) co.

(** ** Refinements *)

(** [max(lst)] raises [ValueError] on an empty list. *)
Definition py_max (lst : list Z) : result Z :=
  match lst with
  | [] => Raise ValueError
  | x :: l => Ok (foldl Z.max x l)
  end.

(** [_is_initial_segment(lst)]: [list(range(max(lst)+1)) == lst] *)
Definition _is_initial_segment (lst : list Z) : result bool :=
  m ← py_max lst; Ok (bool_decide (range 0 (m + 1) = lst)).

(** [sorted(set(w))] *)
Definition sorted_set (w : list Z) : list Z := sorted (elements (Set_ w)).

(** The body of [_refine_block] for one word [w]:
    [a[w[pos]].add(X[pos])] for [pos] in [range(n)]. *)
Definition label_blocks (X w : list Z) : result (list (gset Z)) :=
  m ← py_max w;
  for_each (λ a pos,
      wp ← index w pos;
      xp ← index X pos;
      s ← index a wp;
      Ok (<[Z.to_nat wp := s ∪ {[xp]}]> a))
    (replicate (Z.to_nat (m + 1)) ∅) (range 0 (len X)).

(** [_refine_block(S, strong)]; the returned [Set] of tuples of [Set]s.
    [list(S)] is [elements S], one listing of [S] without repetition; without
    [strong] the result is the same for every such listing. *)
Definition _refine_block (S : gset Z) (strong : bool)
  : result (gset (list (gset Z))) :=
  let X := elements S in
  let n := length X in
  let WordSet :=
    if strong then Sage.IntegerListsLex_slope0 n (len X - 1)
    else Sage.IntegerListsLex n (len X - 1) in
  out ← for_each (λ out w,
      b ← _is_initial_segment (sorted_set w);
      if b : bool then a ← label_blocks X w; Ok (out ++ [a]) else Ok out)
    [] WordSet;
  Ok (list_to_set out).

(** [finer(strong)] *)
Definition finer (self : omp) (strong : bool) : result (gset omp) :=
  let P := OMPs_X (_get_multiset self) in
  if bool_decide (self = []) then Ok {[ self ]}
  else
    factors ← comprehension (λ B, r ← _refine_block B strong; Ok (elements r)) self;
    let tmp := Sage.cartesian_product factors in
    out ← comprehension (λ c, P (iter_blocks (_concatenate c))) tmp;
    Ok (list_to_set out).

(** ** Coarsenings *)

(** [l[a:b]] for [0 <= a] and [0 <= b] *)
Definition slice {A} (l : list A) (a b : Z) : list A :=
  take (Z.to_nat b - Z.to_nat a) (drop (Z.to_nat a) l).

(** [_union_of_sets(list_of_sets)] *)
Definition _union_of_sets (list_of_sets : omp) : gset Z :=
  foldl (λ a b, a ∪ b) ∅ list_of_sets.

(** [fatten(grouping)]; [ValueError] when [grouping] does not sum to the
    length or when a union is not disjoint. *)
Definition fatten (self : omp) (grouping : list Z) : result omp :=
  if bool_decide (sum grouping ≠ len self) then Raise ValueError
  else
    '(valid, result) ← for_each (λ '(valid, result) i,
        let result_i :=
          slice self (sum (take (Z.to_nat i) grouping))
                     (sum (take (Z.to_nat (i + 1)) grouping)) in
        let strict_size := sum ((λ B, len (elements B)) <$> result_i) in
        let size := len (elements (_union_of_sets result_i)) in
        let valid := if decide (size < strict_size) then false else valid in
        Ok (valid, result ++ [_concatenate (iter_blocks result_i)]))
      (true, []) (range 0 (len grouping));
    if valid : bool then OMPs_X (_get_multiset self) result
    else Raise ValueError.

(** [fatter()]: a [ValueError] of [fatten] is caught, any other exception
    propagates. *)
Definition fatter (self : omp) : result (gset omp) :=
  for_each (λ out c,
      match fatten self c with
      | Ok x => Ok (out ∪ {[ x ]})
      | Raise ValueError => Ok out
      | Raise e => Raise e
      end)
    ∅ (Sage.Compositions (length self)).

(** ** [is_finer] *)

(** [while co1[0] == co2[0]: co1 = co1[1:]; co2 = co2[1:]].  The test reads
    [co1[0]] and then [co2[0]]; each raises [IndexError] on an empty list. *)
Fixpoint trim_common_prefix (co1 co2 : omp) : result (omp * omp) :=
  match co1 with
  | [] => Raise IndexError
  | B1 :: co1' =>
      match co2 with
      | [] => Raise IndexError
      | B2 :: co2' =>
          if decide (B1 = B2) then trim_common_prefix co1' co2'
          else Ok (co1, co2)
      end
  end.

(** [while co1[-1] == co2[-1]: co1 = co1[:-1]; co2 = co2[:-1]]: the same
    loop on the reversed lists. *)
Definition trim_common_suffix (co1 co2 : omp) : result (omp * omp) :=
  '(r1, r2) ← trim_common_prefix (reverse co1) (reverse co2);
  Ok (reverse r1, reverse r2).

(** [is_finer(co)] *)
Definition is_finer (self co : omp) : result bool :=
  let X := _concatenate (iter_blocks co) in
  co' ← OMPs_X_of_weight (_get_weight X) (iter_blocks co);
  if bool_decide (_get_weight (_get_multiset self) ≠ _get_weight (_get_multiset co'))
  then Ok false
  else
    '(co1, co2) ← trim_common_prefix self co;
    '(co1, co2) ← trim_common_suffix co1 co2;
    let co1 := OrderedMultisetPartition_of_sets co1 in
    let co2 := OrderedMultisetPartition_of_sets co2 in
    F ← finer co2 false;
    Ok (bool_decide (co1 ∈ F)).

Definition expand_items (X : list (Z * Z)) : list Z :=
  '(k, v) ← X; replicate (Z.to_nat v) k.

Definition positive_values (m : gmap Z Z) : Prop :=
  ∀ k v, m !! k = Some v → 0 < v.

(** The slice [result_i] taken in round [i] of [fatten], and the test that
    leaves [valid] unchanged. *)
Definition fatten_chunk (self : omp) (grouping : list Z) (i : Z) : omp :=
  slice self (sum (take (Z.to_nat i) grouping))
             (sum (take (Z.to_nat (i + 1)) grouping)).

Definition chunk_disjoint (chunk : omp) : bool :=
  bool_decide (¬ len (elements (_union_of_sets chunk))
                 < sum ((λ B, len (elements B)) <$> chunk)).

(** The value of a computation that returned. *)
Definition ok_value {A} (r : result A) : option A :=
  match r with Ok a => Some a | Raise _ => None end.

(** [label_blocks] by recursion on the word paired with the letters. *)
Definition label_fold (a : list (gset Z)) (wx : list (Z * Z)) : list (gset Z) :=
  foldl (λ a '(l, x), alter (λ s, s ∪ {[x]}) (Z.to_nat l) a) a wx.

(** [max] of a list with a default for the empty list. *)
Definition max_or_0 (w : list Z) : Z :=
  match w with [] => 0 | x :: l => foldl Z.max x l end.

(** The refinement that [_refine_block] builds from the word [w], and the
    test it applies to [w]. *)
Definition refinement_of_word (X w : list Z) : list (gset Z) :=
  label_fold (replicate (Z.to_nat (max_or_0 w + 1)) ∅) (zip w X).

Definition word_is_initial (w : list Z) : bool :=
  bool_decide (range 0 (max_or_0 (sorted_set w) + 1) = sorted_set w).

(** The refinements of a block, listed. *)
Definition refinements (B : gset Z) : list (list (gset Z)) :=
  match _refine_block B false with
  | Ok r => elements r
  | Raise _ => []
  end.

(** ** Derived attributes and the soll order *)

(** [size()]: [_n] is the sum of the letters when every letter is a positive
    integer, and [None] otherwise. *)
Definition size (c : omp) : option Z :=
  let multiset := _get_multiset c in
  if forallb (λ a, bool_decide (0 < a)) multiset then Some (sum multiset)
  else None.

(** [order()]: [sum([len(block) for block in self])] *)
Definition order (c : omp) : Z := sum ((λ B, len (elements B)) <$> c).

(** Python 2 orders [None] below every integer. *)
Definition py2_gt (a b : option Z) : bool :=
  match a, b with
  | Some x, Some y => bool_decide (y < x)
  | Some _, None => true
  | None, _ => false
  end.

(** Truth value of [_n]: [None] and [0] are false. *)
Definition truthy (n : option Z) : bool :=
  match n with
  | Some x => bool_decide (x ≠ 0)
  | None => false
  end.

(** [a > b] on Python sequences: decided at the first position where the
    entries differ, a proper extension being the greater. *)
Fixpoint seq_gt {A} (gt eq : A → A → bool) (a b : list A) : bool :=
  match a, b with
  | [], _ => false
  | _ :: _, [] => true
  | x :: a, y :: b => if eq x y then seq_gt gt eq a b else gt x y
  end.

(** Words over strings, compared letter by letter. *)
Definition word_gt (u v : list string) : bool :=
  seq_gt (λ s t, String.ltb t s) String.eqb u v.

Definition word_eq (u v : list string) : bool :=
  bool_decide (u = v).

(** [soll_gt(other)].  In the branch taken when both sizes are nonzero the
    names [co1] and [co2] are rebound and [w1], [w2] are never assigned, so
    [return w1 > w2] raises [UnboundLocalError]. *)
Definition soll_gt (self other : omp) : result bool :=
  let co1 := self in
  let co2 := OrderedMultisetPartition_of_sets other in
  if py2_gt (size co1) (size co2) then Ok true
  else if py2_gt (size co2) (size co1) then Ok false
  else if bool_decide (order co2 < order co1) then Ok true
  else if bool_decide (order co1 < order co2) then Ok false
  else if bool_decide (len co2 < len co1) then Ok true
  else if bool_decide (len co1 < len co2) then Ok false
  else if truthy (size co1) && truthy (size co2) then
    let co1 := (λ k, sum (elements k) :: sorted (elements k)) <$> co1 in
    let co2 := (λ k, sum (elements k) :: sorted (elements k)) <$> co2 in
    Raise UnboundLocalError
  else
    let w1 := (λ k, pretty <$> sorted (elements k)) <$> co1 in
    let w2 := (λ k, pretty <$> sorted (elements k)) <$> co2 in
    Ok (seq_gt word_gt word_eq w1 w2).

(** The partitions [C] and [D4] of the examples of [soll_gt]. *)
Definition soll_C : omp := Set_ <$> [[1;2]; [1;2;3]; [1;2]; [3]; [1]].
Definition soll_D4 : omp := Set_ <$> [[1;2]; [2;3]; [1;3]; [1;2]; [1]].

(** ** Families and their constraints *)

(** The values a constraint keyword carries: an integer, a list or tuple of
    integers, a dictionary of letter frequencies, the tuple of the items of
    such a dictionary, or a Sage [Set] of letters.  Where Python would apply
    an operation to a value of another shape than these, the model stops
    with [TypeError]. *)
Inductive value : Type :=
| VInt (n : Z)
| VList (l : list Z)
| VDict (d : gmap Z Z)
| VItems (l : list (Z * Z))
| VSet (s : gset Z).

Global Instance value_eq_dec : EqDecision value.
Proof. solve_decision. Defined.

(** [bool(val)] *)
Definition value_truthy (v : value) : bool :=
  match v with
  | VInt n => bool_decide (n ≠ 0)
  | VList l => bool_decide (l ≠ [])
  | VDict d => bool_decide (d ≠ ∅)
  | VItems l => bool_decide (l ≠ [])
  | VSet s => bool_decide (s ≠ ∅)
  end.

(** [dict(v)]; on a sequence of pairs the last pair of a key wins. *)
Definition value_dict (v : value) : result (gmap Z Z) :=
  match v with
  | VDict d => Ok d
  | VItems l => Ok (list_to_map (reverse l))
  | _ => Raise TypeError
  end.

(** [Set(range(1, A+1))] if [A in ZZ], else [Set(A)] *)
Definition value_alphabet (v : value) : result (gset Z) :=
  match v with
  | VInt n => Ok (list_to_set (range 1 (n + 1)))
  | VList l => Ok (list_to_set l)
  | VSet s => Ok s
  | VDict d => Ok (dom d)
  | VItems _ => Raise TypeError
  end.

(** An integer bound or Sage's [infinity]. *)
Inductive bound : Set := Fin (n : Z) | Infinity.

Definition bound_le (a b : bound) : bool :=
  match a, b with
  | Fin x, Fin y => bool_decide (x ≤ y)
  | _, Infinity => true
  | Infinity, Fin _ => false
  end.

Definition bound_eqb (a b : bound) : bool :=
  match a, b with
  | Fin x, Fin y => bool_decide (x = y)
  | Infinity, Infinity => true
  | _, _ => false
  end.

(** [constraints.get(key, default)] read as a bound *)
Definition get_bound (constraints : gmap string value) (key : string)
    (default : bound) : result bound :=
  match constraints !! key with
  | None => Ok default
  | Some (VInt n) => Ok (Fin n)
  | Some _ => Raise TypeError
  end.

(** [constraints.pop(key)] raises [KeyError] on a missing key. *)
Definition pop_required (constraints : gmap string value) (key : string)
  : result (value * gmap string value) :=
  match constraints !! key with
  | Some v => Ok (v, delete key constraints)
  | None => Raise KeyError
  end.

(** The base shapes returned by [__classcall_private__]. *)
Inductive family_class : Type :=
| OMPs_all_constraints
| OMPs_n (n : Z)
| OMPs_n_constraints (n : Z)
| OMPs_X_class (X : list (Z * Z))
| OMPs_X_constraints (X : list (Z * Z))
| OMPs_A (A : gset Z) (d : Z)
| OMPs_A_constraints (A : gset Z) (d : Z).

Record family : Type := {
  fam_class : family_class;
  fam_constraints : gmap string value;
  fam_full_constraints : gmap string value;
  fam_finite : bool
}.

(** The constraint vocabulary of the specification. *)
Definition recognized_keys : list string :=
  ["size"; "weight"; "alphabet"; "length"; "min_length"; "max_length";
   "order"; "min_order"; "max_order"]%string.

(** The names of the parameters of the functions a call of
    [OrderedMultisetPartitions] passes its keywords to:
    [__classcall_private__(self, ...)], [__init__(self, is_finite=None, ...)]
    and the [__init__(self, n, ...)], [__init__(self, X, ...)] and
    [__init__(self, A, d, ...)] of the classes with constraints, with the
    [cls] of the class call.  Python binds a keyword of such a name to the
    parameter, which has its value already, and raises [TypeError]; it does
    not reach the dictionary [constraints]. *)
Definition parameter_names : list string :=
  ["self"; "cls"; "is_finite"; "n"; "X"; "A"; "d"]%string.

(** [_is_finite(constraints)]; [None] counts as false. *)
Definition _is_finite (constraints : gmap string value) : bool :=
  if bool_decide (is_Some (constraints !! "weight"%string)
                  ∨ is_Some (constraints !! "size"%string)) then true
  else if bool_decide (is_Some (constraints !! "alphabet"%string)) then
    bool_decide (Exists (λ k, is_Some (constraints !! k))
                   ["length"; "max_length"; "order"; "max_order"]%string)
  else false.

(** The block of [__init__] shared by the length keywords and the order
    keywords: an exact value overrides the bounds, [min <= max] is asserted,
    and equal bounds collapse into the exact value. *)
Definition collapse_bounds (exact lo hi : string)
    (constraints : gmap string value) : result (gmap string value) :=
  let constraints :=
    if bool_decide (is_Some (constraints !! exact))
    then delete hi (delete lo constraints) else constraints in
  min_k ← get_bound constraints lo (Fin 0);
  max_k ← get_bound constraints hi Infinity;
  if negb (bound_le min_k max_k) then Raise AssertionError
  else if bound_eqb min_k max_k then
    '(vhi, constraints) ← pop_required constraints hi;
    let v := default vhi (constraints !! lo) in
    Ok (<[exact := v]> (delete lo constraints))
  else Ok constraints.

(** The first part of [OrderedMultisetPartitions.__init__]: the values of
    certain keywords are standardised, and keywords implied by others are
    dropped. *)
Definition init_constraints (constraints : gmap string value)
  : result (gmap string value) :=
  constraints ←
    match constraints !! "alphabet"%string with
    | Some A => s ← value_alphabet A; Ok (<["alphabet"%string := VSet s]> constraints)
    | None => Ok constraints
    end;
  constraints ←
    match constraints !! "weight"%string with
    | Some w =>
        X ← value_dict w;
        Ok (delete "size"%string (delete "max_order"%string
             (delete "order"%string (delete "min_order"%string
               (delete "alphabet"%string
                 (<["weight"%string := VDict X]> constraints))))))
    | None => Ok constraints
    end;
  constraints ← collapse_bounds "length" "min_length" "max_length" constraints;
  collapse_bounds "order" "min_order" "max_order" constraints.

(** [self.constraints]: the keywords with a true value, and [size], [order]
    and [length] whatever their value. *)
Definition kept_constraints (constraints : gmap string value)
  : gmap string value :=
  filter (λ kv, value_truthy kv.2 = true
                ∨ kv.1 ∈ ["size"; "order"; "length"]%string) constraints.

(** [self.full_constraints]; [hasattr(self, "_X")] and the like are read off
    the class [cls] of the object. *)
Definition full_constraints_of (cls : family_class)
    (self_constraints : gmap string value) : gmap string value :=
  let full := self_constraints in
  let full :=
    match cls with
    | OMPs_X_class X | OMPs_X_constraints X =>
        <["weight"%string := VDict (list_to_map (reverse X))]> full
    | _ => full
    end in
  let full :=
    match cls with
    | OMPs_n n | OMPs_n_constraints n => <["size"%string := VInt n]> full
    | _ => full
    end in
  match cls with
  | OMPs_A A d | OMPs_A_constraints A d =>
      <["order"%string := VInt d]> (<["alphabet"%string := VSet A]> full)
  | _ => full
  end.

(** [OrderedMultisetPartitions.__init__] with [is_finite] and the keywords
    [constraints], for an object of class [cls]. *)
Definition OMPs_init (cls : family_class) (is_finite : bool)
    (constraints : gmap string value) : result family :=
  constraints ← init_constraints constraints;
  let self_constraints := kept_constraints constraints in
  Ok {| fam_class := cls;
        fam_constraints := self_constraints;
        fam_full_constraints := full_constraints_of cls self_constraints;
        fam_finite := is_finite || _is_finite constraints |}.

(** The normalisation of the [weight] keyword in [__classcall_private__]:
    a dictionary is kept, a sequence of pairs is read with [dict], any other
    sequence as a weak composition; frequencies must be positive. *)
Definition weight_dict (w : value) : result (gmap Z Z) :=
  match w with
  | VDict d => Ok d
  | VItems (p :: l) => Ok (list_to_map (reverse (p :: l)))
  | VItems [] => Ok ∅
  | VList l =>
      Ok (list_to_map (reverse
            (filter (λ kv, 0 < kv.2) (zip ((λ i, i + 1) <$> range 0 (len l)) l))))
  | VSet s => if bool_decide (s = ∅) then Ok ∅ else Raise TypeError
  | VInt _ => Raise TypeError
  end.

Definition normalize_weight (constraints : gmap string value)
  : result (gmap string value) :=
  match constraints !! "weight"%string with
  | Some w =>
      d ← weight_dict w;
      if bool_decide (map_Forall (λ _ a, 0 < a) d)
      then Ok (<["weight"%string := VItems (map_to_list d)]> constraints)
      else Raise ValueError
  | None => Ok constraints
  end.

Definition normalize_alphabet (constraints : gmap string value)
  : result (gmap string value) :=
  match constraints !! "alphabet"%string with
  | Some A => s ← value_alphabet A; Ok (<["alphabet"%string := VSet s]> constraints)
  | None => Ok constraints
  end.

(** The first positional argument of the two-argument form, as a list:
    [range(1, alph+1)] for an integer. *)
Definition alphabet_list (alph : value) : result (list Z) :=
  match alph with
  | VInt n => Ok (range 1 (n + 1))
  | VList l => Ok l
  | VSet s => Ok (elements s)
  | VDict d => Ok (elements (dom d))
  | VItems _ => Raise TypeError
  end.

(** [OrderedMultisetPartitions] called with the positional arguments [args]
    and the keywords [constraints]: [__classcall_private__] followed by the
    [__init__] of the class it selects.  The keys of [constraints] are the
    keywords that reach the dictionary [**constraints], that is, keywords
    whose name is none of [parameter_names]. *)
Definition OrderedMultisetPartitions (args : list value)
    (constraints : gmap string value) : result family :=
  constraints ← normalize_weight constraints;
  constraints ← normalize_alphabet constraints;
  match args with
  | [alph; ord] =>
      alph ← alphabet_list alph;
      let A : gset Z := list_to_set alph in
      match ord with
      | VInt d =>
          if bool_decide (alph ≠ [] ∧ length (elements A) = length alph)
             && bool_decide (0 ≤ d)
          then
            let constraints := delete "order"%string (delete "alphabet"%string constraints) in
            if bool_decide (constraints = ∅)
            then OMPs_init (OMPs_A A d) true ∅
            else OMPs_init (OMPs_A_constraints A d) true constraints
          else if bool_decide (A = ∅) && bool_decide (d = 0)
          then OMPs_init (OMPs_A_constraints A d) true constraints
          else Raise ValueError
      | _ => Raise ValueError
      end
  | [X] =>
      match X with
      | VList l =>
          let constraints :=
            delete "order"%string (delete "alphabet"%string
              (delete "weight"%string (delete "size"%string constraints))) in
          let X_items := map_to_list (_get_weight l) in
          if bool_decide (constraints = ∅)
          then OMPs_init (OMPs_X_class X_items) true ∅
          else OMPs_init (OMPs_X_constraints X_items) true constraints
      | VDict d =>
          let constraints :=
            delete "order"%string (delete "alphabet"%string
              (delete "weight"%string (delete "size"%string constraints))) in
          let X_items := map_to_list d in
          if bool_decide (constraints = ∅)
          then OMPs_init (OMPs_X_class X_items) true ∅
          else OMPs_init (OMPs_X_constraints X_items) true constraints
      | VInt n =>
          if bool_decide (0 ≤ n) then
            let constraints := delete "size"%string constraints in
            if bool_decide (constraints = ∅)
            then OMPs_init (OMPs_n n) true ∅
            else OMPs_init (OMPs_n_constraints n) true
                   (<["size"%string := VInt n]> constraints)
          else Raise ValueError
      | VItems _ => Raise TypeError
      | VSet _ => Raise ValueError
      end
  | _ => OMPs_init OMPs_all_constraints false constraints
  end.

(** [pass_test(co, (key, tst))] inside [_satisfies_constraints]; it returns
    nothing ([None]) for a key it does not know. *)
Definition pass_test (co : omp) (key : string) (tst : value)
  : result (option bool) :=
  if bool_decide (key = "size"%string) then
    Ok (Some (bool_decide (VInt <$> size co = Some tst)))
  else if bool_decide (key = "length"%string) then
    Ok (Some (bool_decide (VInt (len co) = tst)))
  else if bool_decide (key = "min_length"%string) then
    match tst with VInt t => Ok (Some (bool_decide (t ≤ len co))) | _ => Raise TypeError end
  else if bool_decide (key = "max_length"%string) then
    match tst with VInt t => Ok (Some (bool_decide (len co ≤ t))) | _ => Raise TypeError end
  else if bool_decide (key = "weight"%string) then
    d ← value_dict tst; Ok (Some (bool_decide (_get_weight (_get_multiset co) = d)))
  else if bool_decide (key = "alphabet"%string) then
    s ← value_alphabet tst; Ok (Some (bool_decide (_union_of_sets co ⊆ s)))
  else if bool_decide (key = "order"%string) then
    Ok (Some (bool_decide (VInt (order co) = tst)))
  else if bool_decide (key = "min_order"%string) then
    match tst with VInt t => Ok (Some (bool_decide (t ≤ order co))) | _ => Raise TypeError end
  else if bool_decide (key = "max_order"%string) then
    match tst with VInt t => Ok (Some (bool_decide (order co ≤ t))) | _ => Raise TypeError end
  else Ok None.

(** [all(pass_test(co, (key,val)) for (key,val) in items if val)]: stops at
    the first test that does not hold. *)
Fixpoint all_pass (co : omp) (items : list (string * value)) : result bool :=
  match items with
  | [] => Ok true
  | (key, val) :: items =>
      if value_truthy val then
        r ← pass_test co key val;
        match r with
        | Some true => all_pass co items
        | _ => Ok false
        end
      else all_pass co items
  end.

(** [_satisfies_constraints(x)] *)
Definition _satisfies_constraints_blocks (self : family) (x : list (list Z))
  : result bool :=
  let X := _concatenate x in
  co ← OMPs_X_of_weight (_get_weight X) x;
  all_pass co (map_to_list (fam_full_constraints self)).

(** The same on an ordered multiset partition, whose blocks are iterated. *)
Definition _satisfies_constraints (self : family) (x : omp) : result bool :=
  _satisfies_constraints_blocks self (iter_blocks x).

(** A result with the keyword [k := v] added to the constraints it holds. *)
Definition with_keyword (k : string) (v : value)
    (r : result (gmap string value)) : result (gmap string value) :=
  match r with
  | Ok m => Ok (<[k := v]> m)
  | Raise e => Raise e
  end.

(** ** Families of a fixed multiset: cardinality and iteration *)

(** [_break_at_descents(alpha, weak)]: the loop compares [alpha[i-1]] with
    [alpha[i]] for [i] in [range(1, len(alpha))]. *)
Definition _break_at_descents (alpha : list Z) (weak : bool) : list (list Z) :=
  match alpha with
  | [] => []
  | a0 :: _ =>
      let '(Blocks, block) :=
        foldl (λ '(Blocks, block) '(prev, cur),
            if bool_decide (cur < prev) || (bool_decide (prev = cur) && weak)
            then (Blocks ++ [block], [cur])
            else (Blocks, block ++ [cur]))
          ([], [a0]) (zip alpha (tail alpha)) in
      if bool_decide (block ≠ []) then Blocks ++ [block] else Blocks
  end.

(** [OrderedMultisetPartitions_X.cardinality], for the family whose
    [_Xtup] is [Xtup]. *)
Definition cardinality_X (Xtup : list Z) : Z :=
  if bool_decide (Xtup = []) then 0
  else
    foldl (λ deg alpha,
        let fattest := _break_at_descents alpha true in
        deg + prod ((λ k, 2 ^ (len k - 1)) <$> fattest))
      0 (Sage.Permutations_mset Xtup).

(** [_iterator_weight(weight)] for a dictionary [weight], as the list of
    what it yields. *)
Definition _iterator_weight (weight : gmap Z Z) : result (list omp) :=
  let multiset :=
    k ← sorted (elements (dom weight));
    replicate (Z.to_nat (default 0 (weight !! k))) k in
  if bool_decide (multiset = []) then
    e ← OMPs_X_of_weight weight []; Ok [e]
  else
    yielded ← comprehension (λ alpha,
        let co := _break_at_descents alpha true in
        c ← OMPs_X_of_weight weight co;
        F ← finer c true;
        Ok (elements F))
      (Sage.Permutations_mset multiset);
    Ok (_concatenate yielded).

(** The count in the words of the specification: a permutation is cut at
    every non-ascent, and a run of length [L] contributes [2^(L-1)]. *)
Fixpoint runs (w : list Z) : list (list Z) :=
  match w with
  | [] => []
  | a :: w' =>
      match runs w' with
      | [] => [[a]]
      | r :: rs =>
          if decide (a < hd 0 r) then (a :: r) :: rs else [a] :: r :: rs
      end
  end.

Definition run_formula (X : list Z) : Z :=
  sum ((λ alpha, prod ((λ r, 2 ^ (len r - 1)) <$> runs alpha))
         <$> Sage.Permutations_mset X).

(** The first of a list of runs extended on the left by [pre]. *)
Definition glue (pre : list Z) (rs : list (list Z)) : list (list Z) :=
  match rs with
  | [] => [pre]
  | r :: rs => (pre ++ r) :: rs
  end.

(** ** Families of a fixed size: cardinality *)

(** Modelled from the spec: the symbolic polynomials in [t] of
    [sage.calculus.var], which are not part of this module, as lists of
    coefficients by increasing exponent; [1 + t**k], the product, and
    [coefficients()], which lists the pairs [[coefficient, exponent]] of the
    nonzero terms by increasing exponent. *)
Fixpoint poly_add (p q : list Z) : list Z :=
  match p, q with
  | [], _ => q
  | _, [] => p
  | a :: p, b :: q => (a + b) :: poly_add p q
  end.

Fixpoint poly_mul (p q : list Z) : list Z :=
  match p with
  | [] => []
  | a :: p => poly_add ((λ b, a * b) <$> q) (0 :: poly_mul p q)
  end.

Definition one_plus_t_pow (k : Z) : list Z :=
  poly_add [1] (replicate (Z.to_nat k) 0 ++ [1]).

Definition poly_prod (factors : list (list Z)) : list Z :=
  foldl (λ p f, poly_mul f p) [1] factors.

Definition coefficients (p : list Z) : list (Z * Z) :=
  filter (λ ce, ce.1 ≠ 0) (imap (λ i c, (c, Z.of_nat i)) p).

(** The table [orders] of [cardinality]. *)
Definition orders : gmap Z Z :=
  list_to_map [(0, 1); (1, 1); (2, 2); (3, 5); (4, 11); (5, 25)].

(** [OrderedMultisetPartitions_n.cardinality], for the family of size [n];
    a missing key of [orders] raises [KeyError]. *)
Definition cardinality_n (n : Z) : result Z :=
  if bool_decide (n ≤ 5) then
    match orders !! n with
    | Some c => Ok c
    | None => Raise KeyError
    end
  else
    let partspoly :=
      coefficients (poly_prod (one_plus_t_pow <$> range 1 (n + 1))) in
    let partspoly_coeff := λ d, ce ← index partspoly d; Ok (fst ce) in
    for_each (λ deg alpha,
        cs ← comprehension partspoly_coeff alpha;
        Ok (deg + prod cs))
      0 (Sage.Compositions (Z.to_nat n)).

(** The count in the words of the specification.  [distinct_parts m a] lists
    the partitions of [a] into distinct positive parts, none above [m], each
    as a decreasing list. *)
Fixpoint distinct_parts (m a : nat) : list (list nat) :=
  match m with
  | O => if decide (a = O) then [[]] else []
  | S m' =>
      distinct_parts m' a ++
      (if decide (S m' ≤ a)%nat
       then (λ p, S m' :: p) <$> distinct_parts m' (a - S m')
       else [])
  end.

(** The number of partitions of [a] into distinct positive parts. *)
Definition distinct_partition_count (a : Z) : Z :=
  len (distinct_parts (Z.to_nat a) (Z.to_nat a)).

Definition composition_formula (n : Z) : Z :=
  sum ((λ alpha, prod (distinct_partition_count <$> alpha))
         <$> Sage.Compositions (Z.to_nat n)).

(** The coefficient of [t^d] in a polynomial. *)
Definition coeff (p : list Z) (d : nat) : Z := default 0 (p !! d).

(** The product of [1 + t**k] for [k] from 1 to [n]. *)
Definition parts_poly (n : nat) : list Z :=
  poly_prod (one_plus_t_pow <$> range 1 (Z.of_nat n + 1)).

(** ** The minimaj bijection *)

(** [_partial_sum(lst)] *)
Definition _partial_sum (lst : list Z) : list Z :=
  foldl (λ result x, result ++ [default 0 (last result) + x]) [0] lst.

(** [shape_from_cardinality()] *)
Definition shape_from_cardinality (c : omp) : list Z :=
  (λ k, len (elements k)) <$> c.

(** [to_tableau()] *)
Definition to_tableau (self : omp) : result (list (list Z)) :=
  if bool_decide (self = []) then Ok []
  else
    bb ← minimaj_blocks self;
    b ← comprehension (λ block, index block 0) bb;
    let beginning := _partial_sum (shape_from_cardinality self) in
    let w := _concatenate bb in
    let D := [0] ++ _descents w ++ [len w] in
    for_each (λ pieces i,
        Di ← index D i;
        Di1 ← index D (i + 1);
        p ← comprehension (λ j, index w j)
               (filter (λ j, j ∉ beginning) (range (Di + 1) (Di1 + 1)));
        Ok (reverse p :: pieces))
      [b] (range 0 (len D - 1)).

(** The condition of the generator expression in [_to_minimaj_blocks]:
    [(mu[j][0] < i or j == breaks[f]) and (j == breaks[f+1] or i <= mu[j+1][0])] *)
Definition row_letter_goes_to (mu : list (list Z)) (bf bf1 j i : Z)
  : result bool :=
  muj ← index mu j;
  muj0 ← index muj 0;
  if bool_decide (muj0 < i) || bool_decide (j = bf) then
    if bool_decide (j = bf1) then Ok true
    else
      muj1 ← index mu (j + 1);
      muj10 ← index muj1 0;
      Ok (bool_decide (i ≤ muj10))
  else Ok false.

(** [_to_minimaj_blocks(T)] *)
Definition _to_minimaj_blocks (T : list (list Z)) : result (list (list Z)) :=
  Tlast ← index T (-1);
  let mu := (λ i, [i]) <$> Tlast in
  let breaks := [0] ++ _descents Tlast ++ [len mu - 1] in
  rows ← comprehension (λ i, r ← index T i; Ok (reverse r)) (range 0 (len T - 1));
  let T := reverse rows in
  for_each (λ mu f,
      bf ← index breaks f;
      bf1 ← index breaks (f + 1);
      for_each (λ mu j,
          muj ← index mu j;
          Tf ← index T f;
          extra ← comprehension_if (row_letter_goes_to mu bf bf1 j) Tf;
          setitem mu j (muj ++ extra))
        mu (range bf (bf1 + 1)))
    mu (range 0 (len breaks - 1)).

(** ** Membership, element construction and iteration of a family *)

(** [OrderedMultisetPartitions_n._has_valid_blocks] *)
Definition _has_valid_blocks_n (n : Z) (x : list (list Z)) : bool :=
  let no_repeats := _has_valid_blocks x in
  let nonnegative := forallb (λ i, bool_decide (0 < i)) (_concatenate x) in
  let valid_sum := bool_decide (sum (sum <$> x) = n) in
  no_repeats && nonnegative && valid_sum.

(** [OrderedMultisetPartitions_A._has_valid_blocks] *)
Definition _has_valid_blocks_A (A : gset Z) (d : Z) (x : list (list Z)) : bool :=
  let no_repeats := _has_valid_blocks x in
  let valid_order := bool_decide (sum (len <$> x) = d) in
  let valid_letters := bool_decide (Set_ (_concatenate x) ⊆ A) in
  no_repeats && valid_order && valid_letters.

(** [x in self] for a list or tuple [x] of blocks: [__contains__] hands over
    to the [_has_valid_blocks] of the class of [self]; the classes with
    constraints evaluate [valid and self._satisfies_constraints(x)]. *)
Definition contains (self : family) (x : list (list Z)) : result bool :=
  match fam_class self with
  | OMPs_all_constraints => Ok (_has_valid_blocks x)
  | OMPs_n n => Ok (_has_valid_blocks_n n x)
  | OMPs_n_constraints n =>
      if _has_valid_blocks_n n x then _satisfies_constraints_blocks self x
      else Ok false
  | OMPs_X_class X => Ok (_has_valid_blocks_X (_Xtup X) x)
  | OMPs_X_constraints X =>
      if _has_valid_blocks_X (_Xtup X) x then _satisfies_constraints_blocks self x
      else Ok false
  | OMPs_A A d => Ok (_has_valid_blocks_A A d x)
  | OMPs_A_constraints A d =>
      if _has_valid_blocks_A A d x then _satisfies_constraints_blocks self x
      else Ok false
  end.

(** [self(lst)], that is [_element_constructor_(lst)], for a sequence [lst] of
    blocks (the standard input): [omp = map(list, lst)] must belong to
    [self]; the element holds [map(Set, omp)]. *)
Definition element_constructor (self : family) (lst : list (list Z))
  : result omp :=
  b ← contains self lst;
  if b : bool then Ok (OrderedMultisetPartition_of_sets (Set_ <$> lst))
  else Raise AssertionError.

(** [_iterator_order(A, d, lengths)], as the list of what it yields;
    [lengths=None] is [None] here. *)
Definition _iterator_order (A : gset Z) (d : Z) (lengths : option (list Z))
  : result (list omp) :=
  P ← OMPs_init (OMPs_A A d) true ∅;
  let n := len (elements A) in
  lengths ←
    match lengths with
    | Some (k :: l) => Ok (k :: l)
    | _ =>
        if bool_decide (d ≠ 0) then
          q ← floordiv d n; Ok (range (Z.max 1 q) (d + 1))
        else Ok [0]
    end;
  yielded ← comprehension (λ k,
      if bool_decide (k = 0) && bool_decide (d = 0) then
        e ← element_constructor P []; Ok [e]
      else
        comprehension (λ co, element_constructor P (iter_blocks co))
          (alpha ← Sage.Compositions_of d (Some k) (Some n);
           Sage.cartesian_product ((λ a, Sage.Subsets_sk A a) <$> alpha)))
    lengths;
  Ok (_concatenate yielded).

(** [_iterator_size(size, length, alphabet)], as the list of what it yields. *)
Definition _iterator_size (size : Z) (length : option Z)
    (alphabet : option (gset Z)) : result (list omp) :=
  P ← OMPs_init (OMPs_n size) true ∅;
  match alphabet with
  | Some (alphabet) =>
      if bool_decide (alphabet ≠ ∅) then
        min_p ← index (sorted (elements alphabet)) 0;
        max_p ← index (sorted (elements alphabet)) (-1);
        comprehension (λ p, element_constructor P p)
          (filter (λ p, Set_ (_concatenate p) ⊆ alphabet)
            (alpha ← Sage.Compositions_of size length None;
             Sage.cartesian_product
               ((λ a, Sage.IntegerListsLex_slope1 a min_p (Z.min a max_p)) <$> alpha)))
      else
        comprehension (λ p, element_constructor P p)
          (alpha ← Sage.Compositions_of size length None;
           Sage.cartesian_product
             ((λ a, Sage.IntegerListsLex_slope1 a 1 a) <$> alpha))
  | None =>
      comprehension (λ p, element_constructor P p)
        (alpha ← Sage.Compositions_of size length None;
         Sage.cartesian_product
           ((λ a, Sage.IntegerListsLex_slope1 a 1 a) <$> alpha))
  end.

(** [constraints.get(key, default)] read as an integer *)
Definition get_int (constraints : gmap string value) (key : string)
    (default : Z) : result Z :=
  match constraints !! key with
  | None => Ok default
  | Some (VInt n) => Ok n
  | Some _ => Raise TypeError
  end.

(** [constraints.get(key, None)] read as an integer *)
Definition get_opt_int (constraints : gmap string value) (key : string)
  : result (option Z) :=
  match constraints !! key with
  | None => Ok None
  | Some (VInt n) => Ok (Some n)
  | Some _ => Raise TypeError
  end.

(** [min(a, b)] on bounds *)
Definition bound_min (a b : bound) : bound := if bound_le a b then a else b.

(** [_base_iterator(constraints)]: the list of what the iterator yields, or
    [None]. *)
Definition _base_iterator (constraints : gmap string value)
  : result (option (list omp)) :=
  if bool_decide (is_Some (constraints !! "weight"%string)) then
    match constraints !! "weight"%string with
    | Some (VDict d) => l ← _iterator_weight d; Ok (Some l)
    | Some (VList w) => d ← weight_dict (VList w); l ← _iterator_weight d; Ok (Some l)
    | _ => Raise TypeError
    end
  else if bool_decide (is_Some (constraints !! "size"%string)) then
    size ← get_int constraints "size" 0;
    length ← get_opt_int constraints "length";
    alphabet ←
      match constraints !! "alphabet"%string with
      | None => Ok None
      | Some (VSet s) => Ok (Some s)
      | Some _ => Raise TypeError
      end;
    l ← _iterator_size size length alphabet; Ok (Some l)
  else
    match constraints !! "alphabet"%string with
    | Some (VSet A) =>
        min_k ← get_int constraints "min_length" 0;
        max_k ← get_bound constraints "max_length" Infinity;
        min_ord ← get_int constraints "min_order" 0;
        max_ord ← get_bound constraints "max_order" Infinity;
        let max_k := bound_min max_k max_ord in
        length ← get_opt_int constraints "length";
        let '(min_k, max_k, min_ord, max_ord) :=
          match length with
          | Some k =>
              (k, Fin k, Z.max min_ord k,
               bound_min max_ord (Fin (len (elements A) * k)))
          | None => (min_k, max_k, min_ord, max_ord)
          end in
        ord ← get_opt_int constraints "order";
        '(min_k, max_k, min_ord, max_ord) ←
          match ord with
          | Some d =>
              let max_k := bound_min max_k (Fin d) in
              if bool_decide (d ≠ 0) then
                q ← floordiv d (len (elements A));
                Ok (Z.max 1 (Z.max min_k q), max_k, d, Fin d)
              else Ok (min_k, max_k, d, Fin d)
          | None => Ok (min_k, max_k, min_ord, max_ord)
          end;
        match max_k, max_ord with
        | Fin max_k, Fin max_ord =>
            l ← comprehension (λ ord,
                  _iterator_order A ord (Some (range min_k (max_k + 1))))
                (range min_ord (max_ord + 1));
            Ok (Some (_concatenate l))
        | _, _ => Ok None
        end
    | Some _ => Raise TypeError
    | None => Ok None
    end.

(** [list(self)]: with a base iterator, [__iter__] yields its members that
    satisfy the constraints; without one the iteration goes on for ever, and
    Sage refuses to list the family. *)
Definition list_family (self : family) : result (list omp) :=
  iterator ← _base_iterator (fam_full_constraints self);
  match iterator with
  | Some l =>
      yielded ← comprehension_if (_satisfies_constraints self) l;
      Ok (fmap (M := list) OrderedMultisetPartition_of_sets yielded)
  | None => Raise NotImplementedError
  end.

(** Modelled from the spec: [cardinality()] of a finite family whose class
    has no formula of its own counts the objects of the iteration. *)
Definition cardinality_from_iterator (self : family) : result Z :=
  l ← list_family self; Ok (len l).

(** ** The minimaj crystal *)

Module Crystals.

(** Modelled from the spec: the elementary letter crystal over
    [{1,...,n}], [Letters(['A', n-1])]: [B(a)] is the letter [a]. *)
Definition Letters (n a : Z) : result Z :=
  if bool_decide (1 ≤ a ≤ n) then Ok a else Raise ValueError.

(** Modelled from the spec: the tensor-product rule on a word of letters.
    For the operators of index [i] the letter [i] counts as [+] and the
    letter [i+1] as [-]; a [+] is matched with the nearest unmatched [-] on
    its left.  [bracket] returns the positions of the unmatched [+] and of
    the unmatched [-], the rightmost first. *)
Fixpoint bracket (i : Z) (w : list Z) (pos : nat) (plus minus : list nat)
  : list nat * list nat :=
  match w with
  | [] => (plus, minus)
  | a :: w =>
      if decide (a = i + 1) then bracket i w (S pos) plus (pos :: minus)
      else if decide (a = i) then
        match minus with
        | _ :: minus' => bracket i w (S pos) plus minus'
        | [] => bracket i w (S pos) (pos :: plus) minus
        end
      else bracket i w (S pos) plus minus
  end.

(** [w.f(i)]: the rightmost unmatched [+] becomes [i+1]; [None] if there is
    none. *)
Definition f (i : Z) (w : list Z) : option (list Z) :=
  match (bracket i w 0 [] []).1 with
  | p :: _ => Some (<[p := i + 1]> w)
  | [] => None
  end.

(** [w.e(i)]: the leftmost unmatched [-] becomes [i]; [None] if there is
    none. *)
Definition e (i : Z) (w : list Z) : option (list Z) :=
  match last (bracket i w 0 [] []).2 with
  | Some p => Some (<[p := i]> w)
  | None => None
  end.

(** Modelled from the spec: the closure of a set of generators under
    operators, by search until nothing new appears; [None] when [fuel]
    elements did not suffice. *)
Fixpoint closure {A} `{EqDecision A} (fuel : nat) (step : A → list A)
    (seen todo : list A) : option (list A) :=
  match todo with
  | [] => Some seen
  | x :: todo' =>
      match fuel with
      | O => None
      | S fuel' =>
          let new := filter (λ y, y ∉ seen ++ todo) (remove_dups (step x)) in
          closure fuel' step (seen ++ [x]) (todo' ++ new)
      end
  end.

End Crystals.

(** An element of the crystal: the pair [(w, breaks)]. *)
Definition Element : Type := list Z * list Z.

Record MinimajCrystal : Type := {
  crystal_n : Z;
  crystal_k : Z;
  crystal_ell : Z;
  _OMPs : family;
  module_generators : list Element
}.

(** The element of the crystal built from a tableau [t]: the word of the
    letters [B(a) for a in _concatenate(t)] as an element of the tensor
    product, with [breaks = tuple(_partial_sum([len(h) for h in t]))]. *)
Definition element_of_tableau (n : Z) (t : list (list Z)) : result Element :=
  word ← comprehension (Crystals.Letters n) (_concatenate t);
  let blocks := len <$> t in
  let breaks := _partial_sum blocks in
  Ok (word, breaks).

(** [MinimajCrystal.__init__(n, ell, k)].  Modelled from the spec: the
    tensor power [tensor([B]*ell)] has at least one factor; for [ell <= 0]
    the list of factors is empty, which [tensor] refuses. *)
Definition MinimajCrystal_init (n ell k : Z) : result MinimajCrystal :=
  if bool_decide (ell ≤ 0) then Raise AssertionError
  else
    OMPs ← OrderedMultisetPartitions [VInt n; VInt ell] {[ "length"%string := VInt k ]};
    cos ← list_family OMPs;
    gens ← comprehension (λ co, t ← to_tableau co; element_of_tableau n t) cos;
    Ok {| crystal_n := n; crystal_k := k; crystal_ell := ell;
          _OMPs := OMPs; module_generators := gens |}.

(** [MinimajCrystal._element_constructor_(x)] for a tuple [x] of blocks. *)
Definition crystal_element_constructor (self : MinimajCrystal)
    (x : list (list Z)) : result Element :=
  c ← element_constructor (_OMPs self) x;
  t ← to_tableau c;
  element_of_tableau (crystal_n self) t.

(** [MinimajCrystal.from_tableau(t)] *)
Definition from_tableau (self : MinimajCrystal) (t : list (list Z))
  : result Element :=
  mu ← _to_minimaj_blocks t;
  b ← contains (_OMPs self) mu;
  if b : bool then crystal_element_constructor self mu
  else Raise AssertionError.

(** [Element.to_tableau()] *)
Definition Element_to_tableau (self : Element) : result (list (list Z)) :=
  let '(w, breaks) := self in
  comprehension (λ j,
      bj ← index breaks j;
      bj1 ← index breaks (j + 1);
      comprehension (λ a, index w a) (range bj bj1))
    (range 0 (len breaks - 1)).

(** [Element._minimaj_blocks_from_word_pair()] *)
Definition _minimaj_blocks_from_word_pair (self : Element)
  : result (list (list Z)) :=
  t ← Element_to_tableau self; _to_minimaj_blocks t.

(** [Element.e(i)] and [Element.f(i)] *)
Definition Element_e (i : Z) (self : Element) : option Element :=
  let '(w, breaks) := self in
  match Crystals.e i w with
  | None => None
  | Some w => Some (w, breaks)
  end.

Definition Element_f (i : Z) (self : Element) : option Element :=
  let '(w, breaks) := self in
  match Crystals.f i w with
  | None => None
  | Some w => Some (w, breaks)
  end.

(** The neighbours of an element in the crystal graph, for the operators of
    index [1] to [n-1]. *)
Definition neighbours (n : Z) (b : Element) : list Element :=
  omap (λ i, Element_e i b) (range 1 n) ++ omap (λ i, Element_f i b) (range 1 n).

(** The elements of the crystal: the closure of the generators.  No element
    is met twice, and every element is a word of [ell] letters of
    [{1,...,n}] with the breaks of a generator, which bounds the search. *)
Definition crystal_list (self : MinimajCrystal) : option (list Element) :=
  let gens := remove_dups (module_generators self) in
  Crystals.closure
    (length gens * Z.to_nat (crystal_n self ^ crystal_ell self))
    (neighbours (crystal_n self)) [] gens.

(** ** Auxiliary definitions for the tableau bijection *)

(** A letter of the minimaj word with a mark on the first letter of each
    block; the tableau keeps the letters without a mark. *)
Definition unmarked (m : Z * bool) : list Z := if m.2 then [] else [m.1].

(** The rows of the tableau above the last one, read off the marked word:
    a new row starts after each descent. *)
Fixpoint marked_rows (mw : list (Z * bool)) : list (list Z) :=
  match mw with
  | [] => []
  | m :: mw' =>
      match mw' with
      | [] => [unmarked m]
      | m' :: _ =>
          if decide (m'.1 < m.1) then unmarked m :: marked_rows mw'
          else match marked_rows mw' with
               | p0 :: rest => (unmarked m ++ p0) :: rest
               | [] => [unmarked m]
               end
      end
  end.

(** The word [w] with a mark at the positions listed in [S]. *)
Fixpoint marked (S : list Z) (w : list Z) : list (Z * bool) :=
  match w with
  | [] => []
  | a :: w' => (a, bool_decide (0 ∈ S)) :: marked (Z.pred <$> S) w'
  end.

Definition mark_block (W : list Z) : list (Z * bool) :=
  match W with
  | [] => []
  | a :: W' => (a, true) :: ((λ x, (x, false)) <$> W')
  end.

Definition rows (Ws : list (list Z)) : list (list Z) :=
  marked_rows (mjoin (mark_block <$> Ws)).

(** The piece [[w[j] for j in range(x+1, y+1) if j not in S]] of
    [to_tableau]. *)
Definition segment (w S : list Z) (x y : Z) : result (list Z) :=
  comprehension (λ j, index w j) (filter (λ j, j ∉ S) (range (x + 1) (y + 1))).

(** The tableau with last row [b] under the rows [ps], listed from the
    bottom. *)
Definition tableau_of_rows (b : list Z) (ps : list (list Z)) : list (list Z) :=
  reverse (reverse <$> ps) ++ [b].

(** The loop over [j] of [_to_minimaj_blocks] for one row [p], with [j]
    running from [lo] to [hi]; [s] is the index compared with [j] in the
    test [j == breaks[f]].  In [_to_minimaj_blocks] itself [s = lo]. *)
Definition fill_blocks (mu : list (list Z)) (s lo hi : Z) (p : list Z)
  : result (list (list Z)) :=
  for_each (λ mu j,
      muj ← index mu j;
      extra ← comprehension_if (row_letter_goes_to mu s hi j) p;
      setitem mu j (muj ++ extra))
    mu (range lo (hi + 1)).

Definition fill_rows (mu : list (list Z)) (ws : list (Z * Z * Z * list Z))
  : result (list (list Z)) :=
  for_each (λ mu '(s, lo, hi, p), fill_blocks mu s lo hi p) mu ws.

(** The windows [(breaks[f], breaks[f], breaks[f+1], T[f])] of the outer
    loop, for [breaks = lo :: E]. *)
Fixpoint windows_of (lo : Z) (E : list Z) (ps : list (list Z))
  : list (Z * Z * Z * list Z) :=
  match E, ps with
  | e :: E', p :: ps' => (lo, lo, e, p) :: windows_of e E' ps'
  | _, _ => []
  end.

Definition shift_up (w : Z * Z * Z * list Z) : Z * Z * Z * list Z :=
  let '(s, lo, hi, p) := w in (Z.succ s, Z.succ lo, Z.succ hi, p).

(** What the loops of [_to_minimaj_blocks] build from the last row [bs] and
    the rows [ps] above it, block by block; [start] tells whether the block
    at hand opens a row. *)
Fixpoint recon (start : bool) (bs : list Z) (ps : list (list Z))
  : list (list Z) :=
  match bs with
  | [] => []
  | b0 :: bs' =>
      match bs' with
      | [] => [b0 :: filter (λ i, b0 < i ∨ start) (hd [] ps)]
      | b1 :: _ =>
          if decide (b1 < b0) then
            (b0 :: filter (λ i, b0 < i ∨ start) (hd [] ps)
                ++ filter (λ i, i ≤ b1) (hd [] (tail ps)))
            :: recon false bs' (tail ps)
          else
            (b0 :: filter (λ i, (b0 < i ∨ start) ∧ i ≤ b1) (hd [] ps))
            :: recon false bs' ps
      end
  end.

(** The windows whose first one carries [s] for the test [j == breaks[f]]. *)
Definition windows_from (s lo : Z) (E : list Z) (ps : list (list Z))
  : list (Z * Z * Z * list Z) :=
  match E, ps with
  | e :: E', p :: ps' => (s, lo, e, p) :: windows_of e E' ps'
  | _, _ => []
  end.

(** The first letter of a marked word. *)
Definition hd_letter (mw : list (Z * bool)) : Z := (hd (0, true) mw).1.

(** The crystal of words of length 3 into 2 blocks over [{1,2}], as
    [MinimajCrystal.__init__(2, 3, 2)] builds it. *)
Definition crystal_2_3_2 : MinimajCrystal :=
  {| crystal_n := 2; crystal_k := 2; crystal_ell := 3;
     _OMPs := {| fam_class := OMPs_A_constraints {[1; 2]} 3;
                 fam_constraints := {[ "length"%string := VInt 2 ]};
                 fam_full_constraints :=
                   {[ "length"%string := VInt 2;
                      "alphabet"%string := VSet {[1; 2]};
                      "order"%string := VInt 3 ]};
                 fam_finite := true |};
     module_generators :=
       [([2; 2; 1], [0; 1; 1; 3]); ([2; 1; 1], [0; 1; 3]);
        ([2; 1; 2], [0; 1; 3]); ([1; 2; 1], [0; 1; 1; 3])] |}.

(** ** The cardinality of a family of given alphabet and order *)

(** Modelled from the spec: [binomial(n, a)] on natural numbers, the number
    of subsets with [a] elements of a set with [n] elements. *)
Fixpoint choose (n a : nat) : nat :=
  match a, n with
  | O, _ => 1
  | S _, O => 0
  | S a', S n' => choose n' a' + choose n' a
  end.

Definition binomial (n a : Z) : Z :=
  if decide (n < 0 ∨ a < 0) then 0
  else Z.of_nat (choose (Z.to_nat n) (Z.to_nat a)).

(** The body of the loop over [k] in [OrderedMultisetPartitions_A.cardinality]:
    what the partitions with [k] blocks add to [deg]. *)
Definition cardinality_A_length (A : gset Z) (d k : Z) : Z :=
  let n := len (elements A) in
  sum ((λ alpha, prod ((λ a, binomial n a) <$> alpha))
         <$> Sage.Compositions_of d (Some k) (Some n)).

(** [OrderedMultisetPartitions_A.cardinality()] *)
Definition cardinality_A (A : gset Z) (d : Z) : result Z :=
  if bool_decide (d = 0) then Ok 0
  else
    min_length ← floordiv d (len (elements A));
    let max_length := d in
    Ok (foldl (λ deg k, deg + cardinality_A_length A d k) 0
          (range min_length (max_length + 1))).

(** ** Further methods of an ordered multiset partition *)

(** [letters()] *)
Definition letters (self : omp) : gset Z := _union_of_sets self.

(** [max_letter()]: [None] when no letter occurs. *)
Definition max_letter (self : omp) : result (option Z) :=
  if bool_decide (letters self = ∅) then Ok None
  else m ← py_max (elements (letters self)); Ok (Some m).

(** [weight()]: the dictionary [self._weight], which [__init__] computes
    as [_get_weight(self._multiset)]. *)
Definition weight (self : omp) : gmap Z Z := _get_weight (_get_multiset self).

(** [weight(as_weak_comp=True)].  The letters are integers, so the test
    [all(v in ZZ for v in w)] holds; on a partition without letters
    [self.max_letter()+1] adds [1] to [None]. *)
Definition weight_as_weak_comp (self : omp) : result (list Z) :=
  let w := weight self in
  m ← max_letter self;
  match m with
  | None => Raise TypeError
  | Some m => Ok ((λ i, default 0 (w !! i)) <$> range 1 (m + 1))
  end.

(** [shape_from_size()]; nothing is returned ([None]) when [_n] is [None]. *)
Definition shape_from_size (self : omp) : option (list Z) :=
  match size self with
  | Some _ => Some ((λ k, sum (elements k)) <$> self)
  | None => None
  end.

(** [self + other] *)
Definition add (self other : omp) : result omp :=
  let co := self ++ other in
  let X := _concatenate (iter_blocks co) in
  OMPs_X_of_weight (_get_weight X) (iter_blocks co).

(** [reversal()], for an element whose parent is [parent]. *)
Definition reversal (parent : family) (self : omp) : result omp :=
  element_constructor parent (iter_blocks (reverse self)).

(** Modelled from the spec: [IntegerListsLex(n, length=k)], the lists of [k]
    nonnegative integers with sum [n], the first entry decreasing. *)
Fixpoint weak_compositions (n k : nat) : list (list Z) :=
  match k with
  | O => if n is O then [[]] else []
  | S k' =>
      a ← reverse (seq 0 (S n));
      (λ w, Z.of_nat a :: w) <$> weak_compositions (n - a) k'
  end.

Definition IntegerListsLex_n_length (n k : Z) : list (list Z) :=
  if decide (n < 0 ∨ k < 0) then []
  else weak_compositions (Z.to_nat n) (Z.to_nat k).

(** [deconcatenate(k)] *)
Definition deconcatenate (self : omp) (k : Z) : result (gset (list omp)) :=
  P ← OrderedMultisetPartitions []
        {[ "alphabet"%string := VSet (letters self);
           "max_length"%string := VInt (len self) ]};
  out ← comprehension (λ c,
      let ps := (λ i, sum (take (Z.to_nat i) c)) <$> range 0 (k + 1) in
      comprehension (λ i,
          a ← index ps i;
          b ← index ps (i + 1);
          element_constructor P (iter_blocks (slice self a b)))
        (range 0 (len ps - 1)))
    (IntegerListsLex_n_length (len self) k);
  Ok (list_to_set out).

(** ** Shorthand input: lists of letters with zeros *)

(** [self.element_class(self, co)] on a list [co] of [Set]s.
    [OrderedMultisetPartition.__init__] deletes the empty blocks and hands
    the list to [ClonableArray.__init__], which runs [check()]: it raises
    [ValueError] unless the element is in [self]. *)
Definition element_class (self : family) (co : omp) : result omp :=
  let e := OrderedMultisetPartition_of_sets co in
  b ← contains self (iter_blocks e);
  if b : bool then Ok e else Raise ValueError.

(** [_from_zero_list(lst_with_zeros)]; [from_zero_lst[-1]] raises
    [IndexError] on an empty list.  [self._has_valid_blocks] is the method of
    the class of [self], which [contains] evaluates. *)
Definition _from_zero_list (self : family) (lst_with_zeros : list Z)
  : result omp :=
  let from_zero_lst := lst_with_zeros in
  last ← index from_zero_lst (-1);
  let from_zero_lst :=
    if bool_decide (last ≠ 0) then from_zero_lst ++ [0] else from_zero_lst in
  let '(co, block) :=
    foldl (λ '(co, block) a,
        if bool_decide (a = 0) then
          if bool_decide (block ≠ []) then (co ++ [block], []) else (co, block)
        else (co, block ++ [a]))
      ([], []) from_zero_lst in
  b ← contains self co;
  if b : bool then element_class self (Set_ <$> co)
  else Raise ValueError.

(** [from_list(lst)] on a list of integers *)
Definition from_list (self : family) (lst : list Z) : result omp :=
  if existsb (λ a, bool_decide (a < 0)) lst then Raise ValueError
  else if bool_decide (0 ∈ lst) then _from_zero_list self lst
  else element_class self ((λ x, Set_ [x]) <$> lst).

(** [OrderedMultisetPartition(co)] on a list [co] of integers, the user
    shortcut of [__classcall_private__]: the parent [P] is the family of the
    multiset of the nonzero entries, and the element is
    [P.element_class(P, P.from_list(co))]. *)
Definition OrderedMultisetPartition_of_list (co : list Z) : result omp :=
  if bool_decide (co = []) then
    P ← OrderedMultisetPartitions [VList []] ∅;
    element_class P []
  else
    let weight := _get_weight (filter (λ c, c ≠ 0) co) in
    P ← OMPs_init (OMPs_X_class (map_to_list weight)) true ∅;
    e ← from_list P co;
    element_class P e.

(** ** Splittings *)

(** [_split_block(S, k)]; the returned [Set] of tuples of [Set]s. *)
Definition _split_block (S : gset Z) (k : Z) : result (gset (list (gset Z))) :=
  let X := elements S in
  let n := length X in
  let WordSet := Sage.IntegerListsLex n (k - 1) in
  out ← for_each (λ out w,
      a ← for_each (λ a pos,
             wp ← index w pos;
             xp ← index X pos;
             s ← index a wp;
             setitem a wp (s ∪ {[xp]}))
           (replicate (Z.to_nat k) ∅) (range 0 (len X));
      Ok (out ++ [a]))
    [] WordSet;
  Ok (list_to_set out).

(** [zip] applied to the members of a tuple [t] of tuples (the starred
    argument of [split]): the list of the columns, as long as the shortest
    member of [t]. *)
Fixpoint zip_star {A} (t : list (list A)) : list (list A) :=
  match t with
  | [] => []
  | [x] => (λ a, [a]) <$> x
  | x :: t' => zip_with cons x (zip_star t')
  end.

(** [split(k)] *)
Definition split (self : omp) (k : Z) : result (gset (list omp)) :=
  P ← OrderedMultisetPartitions []
        {[ "alphabet"%string := VSet (letters self);
           "max_length"%string := VInt (len self) ]};
  if bool_decide (self = []) then Ok {[ replicate (Z.to_nat k) self ]}
  else
    factors ← comprehension (λ block,
        r ← _split_block block k; Ok (elements r)) self;
    let tmp := Sage.cartesian_product factors in
    for_each (λ out t,
        tup ← comprehension (λ c,
            element_constructor P
              (iter_blocks (filter (λ k, 0 < len (elements k)) c)))
          (zip_star t);
        Ok (out ∪ {[ tup ]}))
      ∅ tmp.

(** ** Auxiliary definitions for the further properties *)

(** One round of the loop of [_from_zero_list]. *)
Definition zero_list_step (st : list (list Z) * list Z) (a : Z)
  : list (list Z) * list Z :=
  let '(co, block) := st in
  if bool_decide (a = 0) then
    if bool_decide (block ≠ []) then (co ++ [block], []) else (co, block)
  else (co, block ++ [a]).

(** The list with zeros that writes the blocks [bs]: every block is followed
    by a zero. *)
Definition zero_list (bs : list (list Z)) : list Z :=
  mjoin ((λ b, b ++ [0]) <$> bs).

(** The position of the first part of [t] that holds [x]. *)
Definition part_index (t : list (gset Z)) (x : Z) : Z :=
  match list_find (λ s, x ∈ s) t with
  | Some (i, _) => Z.of_nat i
  | None => 0
  end.

(** A splitting of [S] into the parts [t]: the parts are pairwise disjoint
    and their union is [S]. *)
Definition is_splitting (S : gset Z) (t : list (gset Z)) : Prop :=
  ⋃ t = S ∧ ∀ i j a b, t !! i = Some a → t !! j = Some b → i ≠ j → a ## b.

(** [fine] groups into [coarse]: cutting the list of the blocks of [fine]
    into consecutive nonempty runs, one for each block of [coarse], every
    block of [coarse] is the union of the blocks of its run, and these are
    nonempty and pairwise disjoint. *)
Definition groups_into (fine coarse : omp) : Prop :=
  ∃ t : list omp,
    mjoin t = fine
    ∧ Forall2 (λ ch B, ch ≠ [] ∧ valid ch ∧ is_splitting B ch) t coarse.

(** ** [an_element] of the families of a fixed size and of a fixed multiset *)

(** [OrderedMultisetPartitions_n.an_element()], as a function of the
    composition [alpha] that [Compositions(n, max_part=n//3+1).an_element()]
    hands over. *)
Definition an_element_n (alpha : list Z) : omp :=
  let out :=
    foldl (λ out a,
        if bool_decide (a ∈ [1; 2; 4]) then out ++ [[a]]
        else if bool_decide (a `mod` 2 ≠ 0) then out ++ [[a / 2 + 1; a / 2]]
        else out ++ [[a / 2; a / 2 - 1; 1]])
      [] alpha in
  OrderedMultisetPartition_of_sets (Set_ <$> out).

(** The [for] loop of [OrderedMultisetPartitions_X.an_element]: the blocks
    of length [1] in front of [co] are taken over; the loop variable [i]
    keeps the position at which the loop stops, and is unbound when [co] is
    empty. *)
Fixpoint an_element_X_loop (co : list (list Z)) (j : Z)
    (elt : list (list Z)) (i : option Z) : list (list Z) * option Z :=
  match co with
  | [] => (elt, i)
  | b :: co' =>
      if bool_decide (len b = 1)
      then an_element_X_loop co' (j + 1) (elt ++ [b]) (Some j)
      else (elt, Some j)
  end.

(** [OrderedMultisetPartitions_X.an_element()] for the family [self] with
    [_Xtup = Xtup], as a function of the permutation [alpha] that
    [Permutations_mset(self._Xtup).an_element()] hands over.  The element is
    built by [self.element_class], which checks that it is in [self]. *)
Definition an_element_X (self : family) (Xtup alpha : list Z) : result omp :=
  if bool_decide (Xtup = []) then element_class self []
  else
    let co := _break_at_descents alpha true in
    let '(elt, i) := an_element_X_loop co 0 [] None in
    match i with
    | None => Raise UnboundLocalError
    | Some i =>
        coi ← index co i;
        let elt := elt ++ [take (Z.to_nat (len coi / 2 + 1)) coi] in
        let elt := elt ++ [drop (Z.to_nat (len coi / 2 + 1)) coi] in
        let elt := elt ++ drop (Z.to_nat (i + 1)) co in
        element_class self (Set_ <$> elt)
    end.


(** ** Major index *)

(** [enumerate(l)] *)
Definition enumerate {A} (l : list A) : list (Z * A) := zip (range 0 (len l)) l.

(** The order [p >= q] of Python on pairs of integers: lexicographic. *)
Definition pair_ge (p q : Z * Z) : Prop := q.1 < p.1 ∨ (q.1 = p.1 ∧ q.2 ≤ p.2).

Global Instance pair_ge_dec p q : Decision (pair_ge p q).
Proof. unfold pair_ge. apply _. Defined.

(** [sorted(l, reverse=True)] on pairs of integers *)
Definition sorted_reverse (l : list (Z * Z)) : list (Z * Z) := merge_sort pair_ge l.

(** [major_index()].  The list [maj] is taken over the positions
    [j in range(len(w)-1)] with [w[j] > w[j+1]], which is [_descents(w)]. *)
Definition major_index (self : omp) : result Z :=
  let ew := (λ k, enumerate (sorted (elements k))) <$> self in
  '(v, w) ← for_each (λ vw eblock,
      for_each (λ '(v, w) '(i, wj),
          vj ← index v (-1);
          let vj := if bool_decide (i = 0) then vj + 1 else vj in
          Ok (v ++ [vj], w ++ [wj]))
        vw (sorted_reverse eblock))
    ([0], []) ew;
  maj ← comprehension (λ j, index v (j + 1)) (_descents w);
  Ok (sum maj).

(** The greatest letter of a partition, the entry that
    [weight(as_weak_comp=True)] lists for the letter [i], and the pairs of a
    letter and its positive entry. *)
Definition greatest_letter (c : omp) : Z := max_or_0 (elements (letters c)).

Definition weak_comp_entry (c : omp) (i : Z) : Z := default 0 (weight c !! i).

Definition weak_comp_items (c : omp) : list (Z * Z) :=
  filter (λ kv : Z * Z, 0 < kv.2)
    ((λ i, (i, weak_comp_entry c i)) <$> range 1 (greatest_letter c + 1)).

(** The block that [OrderedMultisetPartitions_n.an_element] makes of the
    part [a]. *)
Definition an_element_n_block (a : Z) : list Z :=
  if bool_decide (a ∈ [1; 2; 4]) then [a]
  else if bool_decide (a `mod` 2 ≠ 0) then [a / 2 + 1; a / 2]
  else [a / 2; a / 2 - 1; 1].


(** The major index in terms of the blocks: a block with [m] letters that
    has [b] blocks before it counts [b * (m - 1)], and [b + 1] more if all
    letters of the block after it are below all of its letters. *)
Fixpoint major_index_of_blocks (b : Z) (c : omp) : Z :=
  match c with
  | [] => 0
  | B :: c' =>
      b * (len (elements B) - 1)
      + match c' with
        | B' :: _ =>
            if bool_decide (set_Forall (λ x, set_Forall (λ y, y < x) B') B)
            then b + 1 else 0
        | [] => 0
        end
      + major_index_of_blocks (b + 1) c'
  end.

(** The lists [v] (without its first entry) and [w] that the loop of
    [major_index] builds, and the sum of the entries of [v] at the descents
    of [w]. *)
Fixpoint major_index_v (t : Z) (c : omp) : list Z :=
  match c with
  | [] => []
  | B :: c' =>
      replicate (length (elements B) - 1) t ++ [t + 1] ++ major_index_v (t + 1) c'
  end.

Definition major_index_w (c : omp) : list Z :=
  mjoin ((λ B, reverse (sorted (elements B))) <$> c).

Fixpoint descent_weights (w vs : list Z) : Z :=
  match w, vs with
  | a :: w', t :: vs' =>
      match w' with
      | b :: _ => if decide (b < a) then t else 0
      | [] => 0
      end + descent_weights w' vs'
  | _, _ => 0
  end.

(** The keywords [min_length=2, max_length=2]. *)
Definition equal_length_bounds : gmap string value :=
  {[ "min_length"%string := VInt 2; "max_length"%string := VInt 2 ]}.

(** The order on pairs is total, transitive and antisymmetric. *)
Global Instance pair_ge_total : Total pair_ge.
Proof. intros [a b] [c d]. unfold pair_ge. cbn. lia. Qed.

Global Instance pair_ge_trans : Transitive pair_ge.
Proof. intros [a b] [c d] [e f]. unfold pair_ge. cbn. lia. Qed.

Global Instance pair_ge_antisymm : AntiSymm (=) pair_ge.
Proof.
  intros [a b] [c d]. unfold pair_ge. cbn. intros H1 H2.
  f_equal; lia.
Qed.

(** The blocks that [OrderedMultisetPartitions_X.an_element] hands over to
    [self.element_class] when [_Xtup] is not empty. *)
Definition an_element_X_blocks (alpha : list Z) : result (list (list Z)) :=
  let co := _break_at_descents alpha true in
  let '(elt, i) := an_element_X_loop co 0 [] None in
  match i with
  | None => Raise UnboundLocalError
  | Some i =>
      coi ← index co i;
      let elt := elt ++ [take (Z.to_nat (len coi / 2 + 1)) coi] in
      let elt := elt ++ [drop (Z.to_nat (len coi / 2 + 1)) coi] in
      let elt := elt ++ drop (Z.to_nat (i + 1)) co in
      Ok elt
  end.

(** * Lemmas and theorems *)

(** ** Python helpers *)

Ltac py_simpl := cbn [mbind result_bind Py.bind mret result_ret].

Lemma bind_Ok {A B} (m : result A) (k : A → result B) a :
  m = Ok a → (m ≫= k) = k a.
Proof. by intros ->. Qed.

Lemma index_0_cons {A} (a : A) l : index (a :: l) 0 = Ok a.
Proof. done. Qed.

Lemma for_each_app {A S} (body : S → A → result S) s l1 l2 :
  for_each body s (l1 ++ l2) = for_each body s l1 ≫= λ s', for_each body s' l2.
Proof.
  revert s. induction l1 as [|a l1 IH]; intros s; simpl; [done|].
  destruct (body s a) as [s'|e]; simpl; [apply IH|done].
Qed.

Lemma sorted_Permutation l : sorted l ≡ₚ l.
Proof. apply merge_sort_Permutation. Qed.

Lemma sorted_Sorted l : Sorted Z.le (sorted l).
Proof. apply (Sorted_merge_sort Z.le). Qed.

Lemma sorted_unique l1 l2 : l1 ≡ₚ l2 → sorted l1 = sorted l2.
Proof.
  intros Hp. apply (Sorted_unique Z.le); [apply sorted_Sorted..|].
  by rewrite !sorted_Permutation.
Qed.

Lemma sorted_nil_inv l : sorted l = [] → l = [].
Proof.
  intros H. apply Permutation_nil_r. by rewrite <-H, sorted_Permutation.
Qed.

(** ** Minimaj blocks *)

Lemma split_lower_upper_Ok x W C B lower upper :
  for_each (λ '(lower, upper) j,
      C0 ← index ((x :: W) :: C) 0;
      c00 ← index C0 0;
      if decide (j ≤ c00) then Ok (lower ++ [j], upper)
      else Ok (lower, upper ++ [j])) (lower, upper) B
  = Ok (lower ++ filter (λ j, j ≤ x) B, upper ++ filter (λ j, ¬ j ≤ x) B).
Proof.
  revert lower upper. induction B as [|j B IH]; intros lower upper; simpl.
  { by rewrite !app_nil_r. }
  rewrite filter_cons, (filter_cons (λ j, ¬ j ≤ x)).
  destruct (decide (j ≤ x)) as [Hj|Hj]; simpl.
  - rewrite IH. destruct (decide (¬ j ≤ x)); [done|]. by rewrite <-app_assoc.
  - rewrite IH. destruct (decide (¬ j ≤ x)); [|done]. by rewrite <-app_assoc.
Qed.

Lemma mj_word_Permutation x B : mj_word x B ≡ₚ B.
Proof.
  unfold mj_word. rewrite !sorted_Permutation.
  induction B as [|j B IH]; [done|].
  rewrite filter_cons, (filter_cons (λ j, j ≤ x)).
  destruct (decide (j ≤ x)), (decide (¬ j ≤ x)); try done; simpl.
  - by rewrite <-Permutation_middle, IH.
  - by rewrite IH.
Qed.

Lemma mj_length c : length (mj c) = length c.
Proof.
  induction c as [|B c IH]; simpl; [done|].
  revert IH. destruct (mj c); simpl; by intros <-.
Qed.

Lemma mj_block_Permutation c : Forall2 (λ W B, W ≡ₚ elements B) (mj c) c.
Proof.
  induction c as [|B c IH]; simpl; [constructor|].
  destruct (mj c) as [|W C] eqn:E.
  - inv IH. constructor; [apply sorted_Permutation|constructor].
  - constructor; [apply mj_word_Permutation|done].
Qed.

Lemma mj_nonempty c : valid c → Forall (λ W, W ≠ []) (mj c).
Proof.
  intros Hv. pose proof (mj_block_Permutation c) as HP.
  induction HP as [|W B C c' HW _ IH]; [constructor|].
  inv Hv. constructor; [|by apply IH].
  intros ->. apply Permutation_nil_l in HW. symmetry in HW.
  apply elements_empty_inv in HW.
  by apply leibniz_equiv in HW.
Qed.

Lemma mj_cons_nonempty B s :
  s ≠ [] → valid s →
  ∃ x W C, mj s = (x :: W) :: C ∧ mj (B :: s) = mj_word x (elements B) :: mj s.
Proof.
  intros Hs Hv. pose proof (mj_nonempty s Hv) as Hne.
  pose proof (mj_length s) as Hlen. simpl.
  destruct (mj s) as [|[|x W] C]; simpl in *.
  - destruct s; [done|discriminate].
  - by inv Hne.
  - by exists x, W, C.
Qed.

Lemma minimaj_loop_mj (rest s : omp) :
  s ≠ [] → valid s → valid rest →
  for_each (λ C B,
      '(lower, upper) ← split_lower_upper C (elements B);
      Ok ((sorted upper ++ sorted lower) :: C))
    (mj s) rest
  = Ok (mj (reverse rest ++ s)).
Proof.
  revert s. induction rest as [|B rest IH]; intros s Hs Hv Hr; [done|].
  inv Hr.
  destruct (mj_cons_nonempty B s Hs Hv) as (x & W & C & E1 & E2).
  cbn [for_each]. rewrite E1. unfold split_lower_upper at 1.
  rewrite split_lower_upper_Ok. py_simpl. cbn [app].
  rewrite <-E1. fold (mj_word x (elements B)). rewrite <-E2, IH.
  - by rewrite reverse_cons, <-app_assoc.
  - done.
  - by constructor.
  - done.
Qed.

Lemma minimaj_blocks_mj c : valid c → minimaj_blocks c = Ok (mj c).
Proof.
  intros Hv. unfold minimaj_blocks.
  destruct (reverse c) as [|last rest] eqn:E.
  { apply (f_equal reverse) in E. rewrite reverse_involutive in E. by subst. }
  apply (f_equal reverse) in E. rewrite reverse_involutive, reverse_cons in E.
  subst c. apply Forall_app in Hv as [Hr Hl].
  change [sorted (elements last)] with (mj [last]).
  rewrite minimaj_loop_mj; [done|done|done|].
  unfold valid. by apply Forall_reverse.
Qed.

Lemma minimaj_word_mj c : valid c → minimaj_word c = Ok (_concatenate (mj c)).
Proof. intros Hv. unfold minimaj_word. by rewrite minimaj_blocks_mj. Qed.

Lemma mj_concat_Permutation c :
  _concatenate (mj c) ≡ₚ _concatenate (iter_blocks c).
Proof.
  unfold _concatenate, iter_blocks.
  induction (mj_block_Permutation c) as [|W B C c' HW _ IH]; [done|].
  rewrite fmap_cons. simpl. by rewrite HW, IH.
Qed.

(** ** Descents *)

Lemma filter_fmap_comm {A B} (f : A → B) (P : B → Prop)
    `{!∀ y, Decision (P y)} (l : list A) :
  filter P (f <$> l) = f <$> filter (λ x, P (f x)) l.
Proof.
  induction l as [|x l IH]; [done|].
  rewrite fmap_cons, !filter_cons, IH. by destruct (decide (P (f x))).
Qed.

Lemma filter_ext_elem_of {A} (P1 P2 : A → Prop)
    `{!∀ x, Decision (P1 x), !∀ x, Decision (P2 x)} (l : list A) :
  (∀ x, x ∈ l → P1 x ↔ P2 x) → filter P1 l = filter P2 l.
Proof.
  induction l as [|a l IH]; intros HP; [done|].
  rewrite !filter_cons, IH by (intros; apply HP; by right).
  destruct (decide (P1 a)) as [H1|H1], (decide (P2 a)) as [H2|H2];
    try done; apply HP in H1 || apply HP in H2; try done; by left.
Qed.

Lemma range_0_succ n : 0 ≤ n → range 0 (Z.succ n) = 0 :: (Z.succ <$> range 0 n).
Proof.
  intros Hn. unfold range. rewrite seqZ_cons by lia.
  replace (Z.pred (Z.succ n - 0)) with (n - 0) by lia.
  f_equal. rewrite <-(fmap_add_seqZ 1 0).
  apply list_fmap_ext. intros _ x _. lia.
Qed.

Lemma is_descent_succ a w j : 0 ≤ j → is_descent (a :: w) (Z.succ j) = is_descent w j.
Proof.
  intros Hj. unfold is_descent.
  replace (Z.to_nat (Z.succ j)) with (S (Z.to_nat j)) by lia.
  replace (Z.to_nat (Z.succ j + 1)) with (S (Z.to_nat (j + 1))) by lia.
  done.
Qed.

Lemma _descents_short a : _descents [a] = [].
Proof. done. Qed.

Lemma _descents_cons a b w :
  _descents (a :: b :: w)
  = (if decide (b < a) then [0] else []) ++ (Z.succ <$> _descents (b :: w)).
Proof.
  unfold _descents.
  replace (len (a :: b :: w) - 1) with (Z.succ (len (b :: w) - 1))
    by (unfold len; simpl; lia).
  rewrite range_0_succ by (unfold len; simpl; lia).
  rewrite filter_cons, filter_fmap_comm.
  assert (filter (λ x, is_descent (a :: b :: w) (Z.succ x)) (range 0 (len (b :: w) - 1))
          = filter (λ j, is_descent (b :: w) j) (range 0 (len (b :: w) - 1))) as ->.
  { apply filter_ext_elem_of. intros j Hj. apply elem_of_seqZ in Hj.
    by rewrite is_descent_succ by lia. }
  unfold is_descent at 1. simpl.
  destruct (decide (b < a)) as [H|H], (decide (bool_decide (b < a))) as [H'|H'];
    try done; [destruct H'|destruct H; revert H']; by rewrite bool_decide_spec.
Qed.

Lemma _descents_nonneg w : Forall (λ j, 0 ≤ j) (_descents w).
Proof.
  apply Forall_forall. intros j Hj. unfold _descents in Hj.
  apply list_elem_of_filter in Hj as [_ Hj]. apply elem_of_seqZ in Hj. lia.
Qed.

Lemma sum_cons x l : sum (x :: l) = x + sum l.
Proof. done. Qed.

Lemma len_cons {A} (x : A) l : len (x :: l) = 1 + len l.
Proof. unfold len. simpl. lia. Qed.

Lemma len_nil {A} : len (@nil A) = 0.
Proof. done. Qed.

Lemma len_nonneg {A} (l : list A) : 0 ≤ len l.
Proof. unfold len. lia. Qed.

Lemma sum_app l1 l2 : sum (l1 ++ l2) = sum l1 + sum l2.
Proof.
  induction l1 as [|x l1 IH]; [done|].
  rewrite <-app_comm_cons, !sum_cons, IH. lia.
Qed.

Lemma sum_fmap_succ l : sum (Z.succ <$> l) = sum l + len l.
Proof.
  induction l as [|x l IH]; [done|].
  rewrite fmap_cons, !sum_cons, len_cons, IH. lia.
Qed.

Lemma len_app {A} (l1 l2 : list A) : len (l1 ++ l2) = len l1 + len l2.
Proof. unfold len. rewrite length_app. lia. Qed.

Lemma len_fmap {A B} (f : A → B) l : len (f <$> l) = len l.
Proof. unfold len. by rewrite length_fmap. Qed.

Lemma descent_sum_from_cons pos a b w :
  descent_sum_from pos (a :: b :: w)
  = (if decide (b < a) then pos + 1 else 0) + descent_sum_from (pos + 1) (b :: w).
Proof. done. Qed.

(** The code's [sum(D) + len(D)] is the sum of [position + 1] over descents,
    counted from any starting position. *)
Lemma descent_sum_from_descents pos w :
  descent_sum_from pos w = sum (_descents w) + (pos + 1) * len (_descents w).
Proof.
  revert pos. induction w as [|a [|b w] IH]; intros pos.
  { change (_descents []) with (@nil Z). rewrite (@len_nil Z). cbn. lia. }
  { change (_descents [a]) with (@nil Z). rewrite (@len_nil Z). cbn. lia. }
  rewrite _descents_cons, descent_sum_from_cons, IH.
  rewrite sum_app, len_app, sum_fmap_succ, len_fmap.
  destruct (decide (b < a)).
  - rewrite sum_cons, len_cons, (@len_nil Z). change (sum []) with 0. lia.
  - rewrite (@len_nil Z). change (sum []) with 0. lia.
Qed.

(** C10.  For every ordered multiset partition [c], [minimaj_word] returns a
    word, and sorting that word in increasing order yields [c.multiset()]. *)
Theorem minimaj_word_sorted_is_multiset (c : omp) (Hc : valid c) :
  ∃ w, minimaj_word c = Ok w ∧ sorted w = _get_multiset c.
Proof.
  exists (_concatenate (mj c)). split; [by apply minimaj_word_mj|].
  apply sorted_unique, mj_concat_Permutation.
Qed.

Lemma minimaj_word_sorted_is_multiset_witness :
  valid scenario4 ∧
  ∃ w, minimaj_word scenario4 = Ok w ∧ sorted w = _get_multiset scenario4.
Proof.
  assert (valid scenario4) as Hv by (apply (bool_decide_unpack _); by vm_compute).
  split; [exact Hv|]. exact (minimaj_word_sorted_is_multiset scenario4 Hv).
Defined.

(** C2.  For every ordered multiset partition, [minimaj()] is the sum over
    the descents of its minimaj word of (0-indexed descent position + 1); it
    is 0 on the empty partition and 30 on
    [[{1,5,7},{2,4},{5,6},{4,6,8},{1,3},{1,2,3}]]. *)
Theorem minimaj_is_descent_sum (c : omp) (Hc : valid c) :
  (∃ w, minimaj_word c = Ok w ∧ minimaj c = Ok (descent_sum w))
  ∧ minimaj [] = Ok 0
  ∧ minimaj scenario4 = Ok 30.
Proof.
  split; [|split; by vm_compute].
  exists (_concatenate (mj c)). split; [by apply minimaj_word_mj|].
  unfold minimaj. rewrite minimaj_word_mj by done. py_simpl.
  unfold descent_sum. rewrite descent_sum_from_descents. f_equal. lia.
Qed.

Lemma minimaj_is_descent_sum_witness :
  valid scenario4 ∧
  (∃ w, minimaj_word scenario4 = Ok w ∧ minimaj scenario4 = Ok (descent_sum w)).
Proof.
  assert (valid scenario4) as Hv by (apply (bool_decide_unpack _); by vm_compute).
  split; [exact Hv|]. exact (proj1 (minimaj_is_descent_sum scenario4 Hv)).
Defined.

(** ** Weights *)

Global Instance expand_items_Permutation :
  Proper ((≡ₚ) ==> (≡ₚ)) expand_items.
Proof. intros X Y HXY. unfold expand_items. by rewrite HXY. Qed.

Lemma expand_items_cons k v X :
  expand_items ((k, v) :: X) = replicate (Z.to_nat v) k ++ expand_items X.
Proof. done. Qed.

Lemma weight_step_items (m : gmap Z Z) k :
  positive_values m →
  positive_values (<[k := default 0 (m !! k) + 1]> m) ∧
  expand_items (map_to_list (<[k := default 0 (m !! k) + 1]> m))
    ≡ₚ k :: expand_items (map_to_list m).
Proof.
  intros Hpos. split.
  - intros k' v'. rewrite lookup_insert. case_decide.
    + intros [= <-]. destruct (m !! k) as [v|] eqn:E; simpl; [|lia].
      apply Hpos in E. lia.
    + apply Hpos.
  - destruct (m !! k) as [v|] eqn:E; simpl.
    + rewrite <-(map_to_list_delete m k v E), <-insert_delete_eq.
      rewrite map_to_list_insert by apply lookup_delete_eq.
      rewrite !expand_items_cons. apply Hpos in E.
      replace (Z.to_nat (v + 1)) with (S (Z.to_nat v)) by lia. done.
    + rewrite map_to_list_insert by done. by rewrite expand_items_cons.
Qed.

Lemma weight_fold_items (l : list Z) (m : gmap Z Z) :
  positive_values m →
  expand_items (map_to_list
    (foldl (λ out k, <[k := default 0 (out !! k) + 1]> out) m l))
  ≡ₚ l ++ expand_items (map_to_list m).
Proof.
  revert m. induction l as [|k l IH]; intros m Hpos; [done|].
  destruct (weight_step_items m k Hpos) as [Hpos' Hstep].
  cbn [foldl]. rewrite IH by done. rewrite Hstep.
  by rewrite <-Permutation_middle.
Qed.

Lemma get_weight_items l : expand_items (map_to_list (_get_weight l)) ≡ₚ l.
Proof.
  unfold _get_weight. rewrite weight_fold_items.
  - by rewrite map_to_list_empty, app_nil_r.
  - intros k v. by rewrite lookup_empty.
Qed.

Global Instance pair_le_total : Total pair_le.
Proof. intros [a b] [c d]. unfold pair_le; simpl. lia. Qed.

Global Instance pair_le_trans : Transitive pair_le.
Proof. intros [a b] [c d] [e f]. unfold pair_le; simpl. lia. Qed.

Lemma expand_items_sorted X :
  StronglySorted pair_le X → StronglySorted Z.le (expand_items X).
Proof.
  induction 1 as [|[k v] X HX IH Hall]; [constructor|].
  rewrite expand_items_cons. apply StronglySorted_app. split_and!.
  - intros x y Hx Hy. apply elem_of_replicate in Hx as [-> _].
    unfold expand_items in Hy. apply list_elem_of_bind in Hy as ([k' v'] & Hy & Hin).
    apply elem_of_replicate in Hy as [-> _].
    rewrite Forall_forall in Hall. apply Hall in Hin.
    unfold pair_le in Hin; simpl in Hin. lia.
  - generalize (Z.to_nat v). intros n. induction n as [|n IHn]; simpl; [constructor|].
    constructor; [done|]. apply Forall_forall. intros y Hy.
    apply elem_of_replicate in Hy as [-> _]. lia.
  - done.
Qed.

Lemma Xtup_get_weight l : _Xtup (map_to_list (_get_weight l)) = sorted l.
Proof.
  apply (Sorted_unique Z.le).
  - apply StronglySorted_Sorted. apply expand_items_sorted.
    apply (StronglySorted_merge_sort pair_le).
  - apply sorted_Sorted.
  - unfold _Xtup. change (expand_items (merge_sort pair_le (map_to_list (_get_weight l))) ≡ₚ sorted l).
    by rewrite merge_sort_Permutation, get_weight_items, sorted_Permutation.
Qed.

(** ** Element construction in a family of fixed multiset *)

Lemma Set_elements (B : gset Z) : Set_ (elements B) = B.
Proof. apply list_to_set_elements_L. Qed.

Lemma Set_iter_blocks (c : omp) : Set_ <$> iter_blocks c = c.
Proof.
  unfold iter_blocks. rewrite <-list_fmap_compose.
  rewrite <-(list_fmap_id c) at 2. apply list_fmap_ext.
  intros _ B _. apply Set_elements.
Qed.

Lemma block_ok_elements (B : gset Z) : B ≠ ∅ → block_ok (elements B) = true.
Proof.
  intros HB. apply bool_decide_eq_true. split.
  - intros E. apply HB, leibniz_equiv. by apply elements_empty_inv.
  - by rewrite Set_elements.
Qed.

Lemma _has_valid_blocks_iter (c : omp) :
  valid c → _has_valid_blocks (iter_blocks c) = true.
Proof.
  unfold _has_valid_blocks, iter_blocks. intros Hv.
  apply Is_true_true, forallb_True, Forall_fmap. eapply Forall_impl; [exact Hv|].
  intros B HB. simpl. by rewrite block_ok_elements.
Qed.

Lemma OMPs_X_Ok (X : list Z) (lst : list (list Z)) :
  _has_valid_blocks lst = true →
  _concatenate lst ≡ₚ X →
  OMPs_X X lst = Ok (Set_ <$> lst).
Proof.
  intros Hv HX. unfold OMPs_X, OMPs_X_of_weight, _has_valid_blocks_X.
  rewrite Hv, Xtup_get_weight. simpl.
  by rewrite bool_decide_eq_true_2 by by apply sorted_unique.
Qed.

Lemma OMPs_X_self (c : omp) :
  valid c → OMPs_X (_concatenate (iter_blocks c)) (iter_blocks c) = Ok c.
Proof.
  intros Hv. rewrite OMPs_X_Ok; [by rewrite Set_iter_blocks| |done].
  by apply _has_valid_blocks_iter.
Qed.

(** ** [is_finer] on equal arguments *)

Lemma trim_common_prefix_self (a : omp) :
  trim_common_prefix a a = Raise IndexError.
Proof.
  induction a as [|B a IH]; [done|]. simpl. by rewrite decide_True.
Qed.

(** ** Loops that cannot raise *)

Lemma for_each_pure {A S} (body : S → A → result S) (f : S → A → S) s l :
  (∀ s a, a ∈ l → body s a = Ok (f s a)) →
  for_each body s l = Ok (foldl f s l).
Proof.
  revert s. induction l as [|a l IH]; intros s Hb; [done|].
  cbn [for_each foldl]. rewrite Hb by left. cbn [Py.bind].
  apply IH. intros s' a' Ha'. apply Hb. by right.
Qed.

Lemma comprehension_pure {A B} (f : A → result B) (g : A → B) l :
  (∀ a, a ∈ l → f a = Ok (g a)) →
  comprehension f l = Ok (g <$> l).
Proof.
  induction l as [|a l IH]; intros Hf; [done|].
  cbn [comprehension]. rewrite Hf by left. cbn [Py.bind].
  rewrite IH by (intros a' Ha'; apply Hf; by right). done.
Qed.

(** ** Compositions *)

Lemma Compositions_ones n : replicate n 1 ∈ Sage.Compositions n.
Proof.
  induction n as [|n IH]; [by left|].
  cbn [Sage.Compositions replicate]. apply elem_of_app. left.
  apply list_elem_of_fmap. eauto.
Qed.

Lemma Compositions_spec n g :
  g ∈ Sage.Compositions n → Forall (λ x, 0 < x) g ∧ sum g = Z.of_nat n.
Proof.
  revert g. induction n as [|n IH]; intros g Hg.
  { apply list_elem_of_singleton in Hg as ->. by split. }
  cbn [Sage.Compositions] in Hg. apply elem_of_app in Hg as [Hg|Hg].
  - apply list_elem_of_fmap in Hg as (g' & -> & Hg').
    destruct (IH g' Hg') as [Hpos Hsum]. split.
    + constructor; [lia|done].
    + rewrite sum_cons, Hsum. lia.
  - apply list_elem_of_omap in Hg as (g' & Hg' & Hb).
    destruct (IH g' Hg') as [Hpos Hsum].
    destruct g' as [|x g']; [done|]. injection Hb as <-.
    inv Hpos. rewrite sum_cons in Hsum. split.
    + constructor; [lia|done].
    + rewrite sum_cons. lia.
Qed.

Lemma positive_sum_length g :
  Forall (λ x, 0 < x) g → len g ≤ sum g ∧ (len g = sum g → g = replicate (length g) 1).
Proof.
  induction 1 as [|x g Hx Hg [IH1 IH2]]; [done|].
  rewrite len_cons, sum_cons. split; [lia|].
  intros E. assert (x = 1) as -> by lia.
  cbn [length replicate]. f_equal. apply IH2. lia.
Qed.

(** ** [fatten] *)

Lemma keep_valid_flag (P : Prop) `{!Decision P} (v : bool) :
  (if decide P then false else v) = bool_decide (¬ P) && v.
Proof.
  destruct (decide P).
  - by rewrite bool_decide_eq_false_2 by tauto.
  - by rewrite bool_decide_eq_true_2 by done.
Qed.

Lemma fatten_loop (self : omp) (grouping : list Z) l v0 r0 :
  for_each (λ '(valid, result) i,
      let result_i :=
        slice self (sum (take (Z.to_nat i) grouping))
                   (sum (take (Z.to_nat (i + 1)) grouping)) in
      let strict_size := sum ((λ B, len (elements B)) <$> result_i) in
      let size := len (elements (_union_of_sets result_i)) in
      let valid := if decide (size < strict_size) then false else valid in
      Ok (valid, result ++ [_concatenate (iter_blocks result_i)]))
    (v0, r0) l
  = Ok (forallb (λ i, chunk_disjoint (fatten_chunk self grouping i)) l && v0,
        r0 ++ ((λ i, _concatenate (iter_blocks (fatten_chunk self grouping i))) <$> l)).
Proof.
  revert v0 r0. induction l as [|i l IH]; intros v0 r0.
  { cbn. by rewrite app_nil_r. }
  cbn [for_each]. cbn zeta. cbn [Py.bind]. rewrite IH.
  rewrite fmap_cons, <-app_assoc. cbn [forallb app]. do 2 f_equal.
  fold (fatten_chunk self grouping i). unfold chunk_disjoint at 2.
  rewrite keep_valid_flag, andb_assoc.
  by rewrite (andb_comm (bool_decide _)).
Qed.

Lemma fatten_unfold (self : omp) (grouping : list Z) :
  fatten self grouping =
    if bool_decide (sum grouping ≠ len self) then Raise ValueError
    else if forallb (λ i, chunk_disjoint (fatten_chunk self grouping i))
              (range 0 (len grouping))
    then OMPs_X (_get_multiset self)
           ((λ i, _concatenate (iter_blocks (fatten_chunk self grouping i)))
              <$> range 0 (len grouping))
    else Raise ValueError.
Proof.
  unfold fatten. case_bool_decide; [done|].
  rewrite fatten_loop. py_simpl. by rewrite andb_true_r.
Qed.

Lemma range_0_len {A} (l : list A) : range 0 (len l) = Z.of_nat <$> seq 0 (length l).
Proof.
  unfold range, len, seqZ. rewrite Z.sub_0_r, Nat2Z.id.
  apply list_fmap_ext. intros _ i _. lia.
Qed.

Lemma sum_nonneg g : Forall (λ x, 0 ≤ x) g → 0 ≤ sum g.
Proof. induction 1; [done|]. rewrite sum_cons. lia. Qed.

Lemma sum_take_S g (k : nat) x :
  g !! k = Some x → sum (take (S k) g) = sum (take k g) + x.
Proof.
  intros Hk. rewrite (take_S_r _ _ _ Hk), sum_app, sum_cons.
  change (sum []) with 0. lia.
Qed.

Lemma sum_take_le g (k : nat) :
  Forall (λ x, 0 ≤ x) g → 0 ≤ sum (take k g) ≤ sum g.
Proof.
  intros Hg. rewrite <-(take_drop k g) at 3. rewrite sum_app.
  pose proof (sum_nonneg (take k g) (Forall_take _ _ _ Hg)).
  pose proof (sum_nonneg (drop k g) (Forall_drop _ _ _ Hg)). lia.
Qed.

Lemma fatten_chunk_nat (c : omp) g (i : nat) :
  fatten_chunk c g (Z.of_nat i)
  = take (Z.to_nat (sum (take (S i) g)) - Z.to_nat (sum (take i g)))
      (drop (Z.to_nat (sum (take i g))) c).
Proof.
  unfold fatten_chunk, slice. rewrite Nat2Z.id.
  by replace (Z.to_nat (Z.of_nat i + 1)) with (S i) by lia.
Qed.

Lemma fatten_chunks_join (c : omp) g (k : nat) :
  Forall (λ x, 0 ≤ x) g → (k ≤ length g)%nat →
  mjoin ((λ i, fatten_chunk c g (Z.of_nat i)) <$> seq 0 k)
  = take (Z.to_nat (sum (take k g))) c.
Proof.
  intros Hg. induction k as [|k IH]; intros Hk; [done|].
  rewrite seq_S, fmap_app, join_app, IH by lia.
  cbn [fmap list_fmap mjoin list_join Nat.add].
  rewrite app_nil_r, fatten_chunk_nat, take_take_drop. f_equal.
  destruct (lookup_lt_is_Some_2 g k) as [x Hx]; [lia|].
  pose proof (sum_take_le g k Hg). pose proof (sum_take_le g (S k) Hg).
  rewrite (sum_take_S _ _ _ Hx) in *.
  rewrite Forall_forall in Hg. pose proof (Hg x (list_elem_of_lookup_2 _ _ _ Hx)). lia.
Qed.

Lemma fatten_chunks_cover (c : omp) g :
  Forall (λ x, 0 ≤ x) g → sum g = len c →
  mjoin (fatten_chunk c g <$> range 0 (len g)) = c.
Proof.
  intros Hg Hs. rewrite range_0_len, <-list_fmap_compose.
  change (fatten_chunk c g ∘ Z.of_nat) with (λ i, fatten_chunk c g (Z.of_nat i)).
  rewrite fatten_chunks_join by done. rewrite firstn_all, Hs.
  unfold len. rewrite Nat2Z.id. apply firstn_all.
Qed.

Lemma fatten_chunk_length (c : omp) g (i : nat) x :
  Forall (λ x, 0 ≤ x) g → sum g = len c → g !! i = Some x →
  length (fatten_chunk c g (Z.of_nat i)) = Z.to_nat x.
Proof.
  intros Hg Hs Hx. rewrite fatten_chunk_nat, length_take, length_drop.
  pose proof (sum_take_le g i Hg). pose proof (sum_take_le g (S i) Hg).
  rewrite (sum_take_S _ _ _ Hx) in *. unfold len in Hs.
  rewrite Forall_forall in Hg. pose proof (Hg x (list_elem_of_lookup_2 _ _ _ Hx)). lia.
Qed.

Lemma _union_of_sets_Set (chunk : omp) :
  _union_of_sets chunk = Set_ (_concatenate (iter_blocks chunk)).
Proof.
  unfold _union_of_sets, Set_, _concatenate, iter_blocks.
  assert (∀ acc : gset Z,
    foldl (λ a b, a ∪ b) acc chunk = acc ∪ list_to_set (mjoin (elements <$> chunk))) as H.
  { induction chunk as [|B chunk IH]; intros acc; cbn [foldl].
    - cbn. set_solver.
    - rewrite IH, fmap_cons. cbn [mjoin list_join].
      rewrite list_to_set_app_L, list_to_set_elements_L. set_solver. }
  rewrite H. set_solver.
Qed.

Lemma sum_len_iter_blocks (chunk : omp) :
  sum ((λ B, len (elements B)) <$> chunk) = len (_concatenate (iter_blocks chunk)).
Proof.
  unfold _concatenate, iter_blocks.
  induction chunk as [|B chunk IH]; [done|].
  rewrite !fmap_cons, sum_cons, IH. cbn [mjoin list_join]. by rewrite len_app.
Qed.

Lemma length_elements_Set_le (L : list Z) :
  (length (elements (Set_ L)) ≤ length L)%nat.
Proof.
  apply submseteq_length, NoDup_submseteq; [apply NoDup_elements|].
  intros x Hx. apply elem_of_elements in Hx. by apply elem_of_list_to_set in Hx.
Qed.

Lemma chunk_disjoint_block_ok (chunk : omp) :
  valid chunk → chunk ≠ [] → chunk_disjoint chunk = true →
  block_ok (_concatenate (iter_blocks chunk)) = true.
Proof.
  intros Hv Hne Hd. apply bool_decide_eq_true. split.
  - destruct chunk as [|B chunk]; [done|]. inv Hv.
    unfold _concatenate, iter_blocks. rewrite fmap_cons. cbn [mjoin list_join].
    intros E. apply app_eq_nil in E as [E _].
    apply elements_empty_inv, leibniz_equiv in E. done.
  - apply bool_decide_eq_true in Hd.
    rewrite _union_of_sets_Set, sum_len_iter_blocks in Hd.
    pose proof (length_elements_Set_le (_concatenate (iter_blocks chunk))).
    unfold len in Hd. lia.
Qed.

Lemma concat_iter_blocks_join (chunks : list omp) :
  _concatenate ((λ ch, _concatenate (iter_blocks ch)) <$> chunks)
  = _concatenate (iter_blocks (mjoin chunks)).
Proof.
  unfold _concatenate, iter_blocks.
  induction chunks as [|ch chunks IH]; [done|].
  rewrite fmap_cons. cbn [mjoin list_join]. rewrite fmap_app, join_app.
  by f_equal.
Qed.

Lemma fatten_result (c : omp) (g : list Z) :
  valid c → Forall (λ x, 0 < x) g → sum g = len c →
  fatten c g =
    if forallb chunk_disjoint (fatten_chunk c g <$> range 0 (len g))
    then Ok (Set_ <$> ((λ ch, _concatenate (iter_blocks ch))
                         <$> (fatten_chunk c g <$> range 0 (len g))))
    else Raise ValueError.
Proof.
  intros Hv Hg Hs. rewrite fatten_unfold.
  rewrite bool_decide_eq_false_2 by (intros H; by apply H).
  assert (Forall (λ x, 0 ≤ x) g) as Hg'.
  { eapply Forall_impl; [exact Hg|]. intros x Hx; simpl in *; lia. }
  rewrite <-(list_fmap_compose (fatten_chunk c g)).
  replace (forallb (λ i, chunk_disjoint (fatten_chunk c g i)) (range 0 (len g)))
    with (forallb chunk_disjoint (fatten_chunk c g <$> range 0 (len g))).
  2:{ generalize (range 0 (len g)). intros l.
      induction l as [|i l IH]; [done|]. rewrite fmap_cons. cbn [forallb].
      by rewrite IH. }
  destruct (forallb chunk_disjoint _) eqn:Hd; [|done].
  change ((λ ch, _concatenate (iter_blocks ch)) ∘ fatten_chunk c g)
    with (λ i, _concatenate (iter_blocks (fatten_chunk c g i))).
  apply OMPs_X_Ok.
  - unfold _has_valid_blocks. apply Is_true_true, forallb_True, Forall_fmap.
    apply Is_true_true, forallb_True in Hd. rewrite Forall_forall in Hd.
    rewrite range_0_len in Hd |- *. apply Forall_fmap, Forall_forall.
    intros i Hi. cbn [compose]. apply Is_true_true.
    assert (chunk_disjoint (fatten_chunk c g (Z.of_nat i)) = true) as Hdi.
    { apply Is_true_true, Hd. apply list_elem_of_fmap_2.
      by apply list_elem_of_fmap_2. }
    apply elem_of_seq in Hi as [_ Hi]. cbn [Nat.add] in Hi.
    destruct (lookup_lt_is_Some_2 g i Hi) as [x Hx].
    pose proof (fatten_chunk_length c g i x Hg' Hs Hx) as Hlen.
    rewrite Forall_forall in Hg.
    pose proof (Hg x (list_elem_of_lookup_2 _ _ _ Hx)) as Hpos.
    apply chunk_disjoint_block_ok.
    + rewrite fatten_chunk_nat. by apply Forall_take, Forall_drop.
    + intros E. rewrite E in Hlen. simpl in Hlen. lia.
    + done.
  - change (λ i, _concatenate (iter_blocks (fatten_chunk c g i)))
      with ((λ ch, _concatenate (iter_blocks ch)) ∘ fatten_chunk c g).
    rewrite list_fmap_compose.
    rewrite concat_iter_blocks_join, fatten_chunks_cover by done.
    unfold _get_multiset. by rewrite sorted_Permutation.
Qed.

Lemma fatten_length (c x : omp) (g : list Z) :
  valid c → Forall (λ x, 0 < x) g → sum g = len c →
  fatten c g = Ok x → length x = length g.
Proof.
  intros Hv Hg Hs. rewrite fatten_result by done.
  destruct (forallb _ _); [|done]. intros [= <-].
  rewrite !length_fmap. unfold range. rewrite length_seqZ. unfold len. lia.
Qed.

Lemma fatten_ValueError_or_Ok (c : omp) (g : list Z) :
  valid c → Forall (λ x, 0 < x) g → sum g = len c →
  fatten c g = Raise ValueError ∨ ∃ x, fatten c g = Ok x.
Proof.
  intros Hv Hg Hs. rewrite fatten_result by done.
  destruct (forallb _ _); eauto.
Qed.

Lemma singleton_chunks {A} (chunks : list (list A)) :
  Forall (λ ch, length ch = 1%nat) chunks →
  chunks = (λ B, [B]) <$> mjoin chunks.
Proof.
  induction 1 as [|ch chunks Hch _ IH]; [done|].
  destruct ch as [|B [|??]]; try done. cbn. by f_equal.
Qed.

Lemma sum_replicate_1 n : sum (replicate n 1) = Z.of_nat n.
Proof. induction n as [|n IH]; [done|]. cbn [replicate]. rewrite sum_cons. lia. Qed.

Lemma chunk_disjoint_singleton (B : gset Z) : chunk_disjoint [B] = true.
Proof.
  apply bool_decide_eq_true.
  rewrite _union_of_sets_Set, sum_len_iter_blocks.
  unfold _concatenate, iter_blocks. cbn. rewrite app_nil_r, Set_elements. lia.
Qed.

Lemma fatten_ones (c : omp) :
  valid c → fatten c (replicate (length c) 1) = Ok c.
Proof.
  intros Hv.
  assert (Forall (λ x, 0 < x) (replicate (length c) 1)) as Hg.
  { apply Forall_replicate. lia. }
  assert (Forall (λ x, 0 ≤ x) (replicate (length c) 1)) as Hg'.
  { apply Forall_replicate. lia. }
  assert (sum (replicate (length c) 1) = len c) as Hs by apply sum_replicate_1.
  rewrite fatten_result by done.
  pose proof (fatten_chunks_cover c _ Hg' Hs) as Hcover.
  set (chunks := fatten_chunk c (replicate (length c) 1) <$> _) in *.
  assert (chunks = (λ B, [B]) <$> c) as ->.
  { transitivity ((λ B, [B]) <$> mjoin chunks); [|by rewrite Hcover].
    apply singleton_chunks.
    unfold chunks. rewrite range_0_len. apply Forall_fmap, Forall_fmap, Forall_forall.
    intros i Hi. cbn [compose]. apply elem_of_seq in Hi as [_ Hi].
    rewrite length_replicate in Hi. cbn [Nat.add] in Hi.
    rewrite (fatten_chunk_length c _ i 1 Hg' Hs); [done|].
    by apply lookup_replicate_2. }
  replace (forallb chunk_disjoint ((λ B, [B]) <$> c)) with true.
  2:{ symmetry. apply Is_true_true, forallb_True, Forall_fmap, Forall_forall.
      intros B _. cbn [compose]. by rewrite chunk_disjoint_singleton. }
  f_equal. rewrite <-!list_fmap_compose. rewrite <-(list_fmap_id c) at 2.
  apply list_fmap_ext. intros _ B _. cbn.
  unfold _concatenate, iter_blocks. cbn. by rewrite app_nil_r, Set_elements.
Qed.

(** ** [fatter] *)

Lemma fatter_loop (F : list Z → result omp) (l : list (list Z)) (out0 : gset omp) :
  (∀ g, g ∈ l → F g = Raise ValueError ∨ ∃ x, F g = Ok x) →
  for_each (λ out c,
      match F c with
      | Ok x => Ok (out ∪ {[ x ]})
      | Raise ValueError => Ok out
      | Raise e => Raise e
      end) out0 l
  = Ok (out0 ∪ list_to_set (omap (λ g, ok_value (F g)) l)).
Proof.
  revert out0. induction l as [|g l IH]; intros out0 HF.
  { cbn. f_equal. set_solver. }
  cbn [for_each omap list_omap].
  destruct (HF g) as [E|[x E]]; [by left|..]; rewrite E; cbn [Py.bind ok_value].
  - apply IH. intros g' Hg'. apply HF. by right.
  - rewrite IH by (intros g' Hg'; apply HF; by right).
    f_equal. cbn [list_to_set foldr]. set_solver.
Qed.

Lemma fatter_spec (c : omp) :
  valid c →
  ∃ G, fatter c = Ok G ∧ c ∈ G ∧
       ∀ x, x ∈ G → (length x ≤ length c)%nat ∧ (length x = length c → x = c).
Proof.
  intros Hv. unfold fatter.
  assert (∀ g, g ∈ Sage.Compositions (length c) →
               Forall (λ x, 0 < x) g ∧ sum g = len c) as Hcomp.
  { intros g Hg. by apply Compositions_spec. }
  rewrite fatter_loop.
  2:{ intros g Hg. destruct (Hcomp g Hg). by apply fatten_ValueError_or_Ok. }
  eexists. split; [done|]. split.
  - apply elem_of_union. right. apply elem_of_list_to_set, list_elem_of_omap.
    exists (replicate (length c) 1). split; [apply Compositions_ones|].
    by rewrite fatten_ones.
  - intros x Hx. apply elem_of_union in Hx as [Hx|Hx]; [set_solver|].
    apply elem_of_list_to_set, list_elem_of_omap in Hx as (g & Hg & Hx).
    destruct (Hcomp g Hg) as [Hpos Hs].
    destruct (fatten c g) as [x'|] eqn:E; [|done]. injection Hx as ->.
    pose proof (fatten_length c x g Hv Hpos Hs E) as Hlen.
    destruct (positive_sum_length g Hpos) as [Hle Heq].
    unfold len in *. split; [lia|]. intros Hxc.
    rewrite Heq in E by lia.
    replace (length g) with (length c) in E by lia.
    rewrite fatten_ones in E by done. by injection E.
Qed.

(** ** Enumerators *)

Lemma elem_of_IntegerListsLex n m w :
  w ∈ Sage.IntegerListsLex n m ↔ length w = n ∧ Forall (λ a, 0 ≤ a ≤ m) w.
Proof.
  revert w. induction n as [|n IH]; intros w; cbn [Sage.IntegerListsLex].
  - rewrite list_elem_of_singleton. split.
    + by intros ->.
    + intros [Hl _]. by destruct w.
  - rewrite list_elem_of_bind. split.
    + intros (a & Hw & Ha). apply list_elem_of_fmap in Hw as (w' & -> & Hw').
      apply IH in Hw' as [Hl Hall]. apply elem_of_seqZ in Ha.
      split; [by cbn; f_equal|]. constructor; [lia|done].
    + intros [Hl Hall]. destruct w as [|a w]; [done|]. inv Hall.
      exists a. split.
      * apply list_elem_of_fmap. exists w. split; [done|]. apply IH.
        split; [by injection Hl|done].
      * apply elem_of_seqZ. lia.
Qed.

Lemma elem_of_cartesian_product {A} (factors : list (list A)) (t : list A) :
  t ∈ Sage.cartesian_product factors ↔ Forall2 (λ x F, x ∈ F) t factors.
Proof.
  revert t. induction factors as [|F factors IH]; intros t;
    cbn [Sage.cartesian_product].
  - rewrite list_elem_of_singleton. split; [by intros ->|by inv 1].
  - rewrite list_elem_of_bind. split.
    + intros (x & Ht & Hx). apply list_elem_of_fmap in Ht as (t' & -> & Ht').
      constructor; [done|by apply IH].
    + inv 1 as [|x ? t' ? Hx Ht']. exists x. split; [|done].
      apply list_elem_of_fmap. exists t'. split; [done|by apply IH].
Qed.

(** ** [max] *)

Lemma foldl_max_le x l : x ≤ foldl Z.max x l ∧ Forall (λ y, y ≤ foldl Z.max x l) l.
Proof.
  revert x. induction l as [|y l IH]; intros x; cbn [foldl]; [by split|].
  destruct (IH (Z.max x y)) as [H1 H2]. split; [lia|].
  constructor; [lia|done].
Qed.

Lemma foldl_max_elem x l : foldl Z.max x l ∈ x :: l.
Proof.
  revert x. induction l as [|y l IH]; intros x; cbn [foldl]; [by left|].
  specialize (IH (Z.max x y)). apply elem_of_cons in IH as [IH|IH].
  - rewrite IH. destruct (Z.max_spec x y) as [[_ ->]|[_ ->]].
    + right; by left.
    + by left.
  - right; by right.
Qed.

Lemma py_max_Ok w : w ≠ [] → py_max w = Ok (max_or_0 w).
Proof. by destruct w. Qed.

Lemma max_or_0_le w : Forall (λ y, y ≤ max_or_0 w) w.
Proof.
  destruct w as [|x l]; [constructor|]. cbn [max_or_0].
  destruct (foldl_max_le x l). by constructor.
Qed.

Lemma max_or_0_elem w : w ≠ [] → max_or_0 w ∈ w.
Proof. destruct w as [|x l]; [done|]. intros _. apply foldl_max_elem. Qed.

(** ** The labelling loop of [_refine_block] *)

Lemma index_nat {A} (l : list A) (i : nat) x :
  l !! i = Some x → index l (Z.of_nat i) = Ok x.
Proof.
  intros Hi. unfold index. cbn zeta.
  destruct (decide (Z.of_nat i < 0)) as [|_]; [lia|].
  destruct (decide (Z.of_nat i < 0)) as [|_]; [lia|].
  by rewrite Nat2Z.id, Hi.
Qed.

Lemma insert_as_alter {A} (f : A → A) (l : list A) i s :
  l !! i = Some s → <[i := f s]> l = alter f i l.
Proof.
  intros Hi. apply list_eq. intros j. destruct (decide (i = j)) as [->|Hij].
  - rewrite list_lookup_alter_eq, Hi. apply list_lookup_insert_eq.
    by eapply lookup_lt_Some.
  - by rewrite list_lookup_insert_ne, list_lookup_alter_ne.
Qed.

Lemma label_fold_length a wx : length (label_fold a wx) = length a.
Proof.
  revert a. induction wx as [|[l x] wx IH]; intros a; [done|].
  cbn. unfold label_fold in IH. by rewrite IH, length_alter.
Qed.

Lemma label_fold_snoc a wx l x :
  label_fold a (wx ++ [(l, x)])
  = alter (λ s, s ∪ {[x]}) (Z.to_nat l) (label_fold a wx).
Proof. unfold label_fold. by rewrite foldl_app. Qed.

Lemma label_loop (X w : list Z) (a : list (gset Z)) (n : nat) :
  (n ≤ length w)%nat → length w = length X →
  Forall (λ l, 0 ≤ l < len a) w →
  for_each (λ a pos,
      wp ← index w pos;
      xp ← index X pos;
      s ← index a wp;
      Ok (<[Z.to_nat wp := s ∪ {[xp]}]> a))
    a (Z.of_nat <$> seq 0 n)
  = Ok (label_fold a (take n (zip w X))).
Proof.
  intros Hn Hlen Hw. induction n as [|n IH]; [done|].
  rewrite seq_S, fmap_app, for_each_app, IH by lia. py_simpl.
  cbn [Nat.add fmap list_fmap for_each]. py_simpl.
  destruct (lookup_lt_is_Some_2 w n) as [wn Hwn]; [lia|].
  destruct (lookup_lt_is_Some_2 X n) as [xn Hxn]; [lia|].
  rewrite (index_nat _ _ _ Hwn), (index_nat _ _ _ Hxn). py_simpl.
  rewrite Forall_forall in Hw.
  pose proof (Hw wn (list_elem_of_lookup_2 _ _ _ Hwn)) as Hr.
  set (a' := label_fold a (take n (zip w X))).
  destruct (lookup_lt_is_Some_2 a' (Z.to_nat wn)) as [s Hs].
  { unfold a'. rewrite label_fold_length. unfold len in Hr. lia. }
  rewrite <-(Z2Nat.id wn) at 1 by lia. rewrite (index_nat _ _ _ Hs). py_simpl.
  f_equal. rewrite (insert_as_alter (λ s, s ∪ {[xn]}) _ _ _ Hs).
  assert (zip w X !! n = Some (wn, xn)) as Hz.
  { by rewrite lookup_zip_with, Hwn, Hxn. }
  by rewrite (take_S_r _ _ _ Hz), label_fold_snoc.
Qed.

Lemma label_blocks_Ok (X w : list Z) :
  w ≠ [] → length w = length X → Forall (λ l, 0 ≤ l) w →
  label_blocks X w
  = Ok (label_fold (replicate (Z.to_nat (max_or_0 w + 1)) ∅) (zip w X)).
Proof.
  intros Hne Hlen Hw. unfold label_blocks. rewrite py_max_Ok by done. py_simpl.
  rewrite range_0_len, <-Hlen, label_loop; [| lia | done |].
  - by rewrite firstn_all2 by (rewrite length_zip; lia).
  - pose proof (max_or_0_le w) as Hmax.
    rewrite Forall_forall in Hw, Hmax |- *. intros l Hl.
    specialize (Hw l Hl). specialize (Hmax l Hl). cbn in Hmax.
    unfold len. rewrite length_replicate. lia.
Qed.

Lemma alter_add_elements (a : list (gset Z)) i s x :
  a !! i = Some s → x ∉ s →
  mjoin (elements <$> alter (λ s, s ∪ {[x]}) i a) ≡ₚ x :: mjoin (elements <$> a).
Proof.
  revert i. induction a as [|s0 a IH]; intros [|i] Hi Hx; try done.
  - injection Hi as ->. cbn. rewrite (union_comm_L s).
    by rewrite elements_union_singleton.
  - cbn. cbn in Hi. rewrite (IH i Hi Hx). by rewrite Permutation_middle.
Qed.

Lemma label_fold_grows a wx i s :
  a !! i = Some s → ∃ s', label_fold a wx !! i = Some s' ∧ s ⊆ s'.
Proof.
  revert a s. induction wx as [|[l x] wx IH]; intros a s Hi.
  { eauto. }
  cbn. destruct (decide (Z.to_nat l = i)) as [<-|Hne].
  - destruct (IH (alter (λ s, s ∪ {[x]}) (Z.to_nat l) a) (s ∪ {[x]}))
      as (s' & Hs' & Hsub).
    { by rewrite list_lookup_alter_eq, Hi. }
    exists s'. split; [done|set_solver].
  - apply IH. by rewrite list_lookup_alter_ne.
Qed.

Lemma label_fold_member a wx l x :
  (l, x) ∈ wx → (Z.to_nat l < length a)%nat →
  ∃ s, label_fold a wx !! Z.to_nat l = Some s ∧ x ∈ s.
Proof.
  revert a. induction wx as [|[l' x'] wx IH]; intros a Hin Hl.
  { by apply elem_of_nil in Hin. }
  apply elem_of_cons in Hin as [[= <- <-]|Hin].
  - destruct (lookup_lt_is_Some_2 a (Z.to_nat l) Hl) as [s Hs].
    destruct (label_fold_grows (alter (λ s, s ∪ {[x]}) (Z.to_nat l) a) wx
                (Z.to_nat l) (s ∪ {[x]})) as (s' & Hs' & Hsub).
    { by rewrite list_lookup_alter_eq, Hs. }
    exists s'. split; [done|set_solver].
  - cbn. apply IH; [done|]. by rewrite length_alter.
Qed.

Lemma label_fold_elements a wx (A : list Z) :
  Forall (λ l, (Z.to_nat l < length a)%nat) wx.*1 →
  NoDup (A ++ wx.*2) →
  mjoin (elements <$> a) ≡ₚ A →
  mjoin (elements <$> label_fold a wx) ≡ₚ A ++ wx.*2.
Proof.
  revert a A. induction wx as [|[l x] wx IH]; intros a A Hl Hnd HA.
  { cbn. by rewrite app_nil_r. }
  rewrite !fmap_cons in *. cbn [fst snd] in *. inv Hl.
  destruct (lookup_lt_is_Some_2 a (Z.to_nat l)) as [s Hs]; [done|].
  assert (x ∉ A) as HxA.
  { apply NoDup_app in Hnd as (_ & Hd & _). intros Hx. apply (Hd x Hx). by left. }
  assert (x ∉ s) as Hxs.
  { intros Hx. apply HxA. rewrite <-HA. apply list_elem_of_join.
    exists (elements s). split; [by apply elem_of_elements|].
    apply list_elem_of_fmap. exists s. split; [done|].
    by eapply list_elem_of_lookup_2. }
  cbn. unfold label_fold in IH. rewrite (IH _ (x :: A)).
  - by rewrite <-Permutation_middle.
  - by rewrite length_alter.
  - cbn. by rewrite Permutation_middle.
  - by rewrite (alter_add_elements _ _ _ _ Hs Hxs), HA.
Qed.

(** ** [_refine_block] *)

Lemma for_each_collect {A B} (test : A → result bool) (mk : A → result B)
    (test' : A → bool) (mk' : A → B) (l : list A) (out0 : list B) :
  (∀ w, w ∈ l → test w = Ok (test' w) ∧ mk w = Ok (mk' w)) →
  for_each (λ out w,
      b ← test w;
      if b : bool then a ← mk w; Ok (out ++ [a]) else Ok out) out0 l
  = Ok (out0 ++ omap (λ w, if test' w then Some (mk' w) else None) l).
Proof.
  revert out0. induction l as [|w l IH]; intros out0 H.
  { cbn. by rewrite app_nil_r. }
  destruct (H w) as [Ht Hm]; [by left|].
  cbn [for_each omap list_omap]. rewrite Ht. py_simpl.
  destruct (test' w).
  - rewrite Hm. py_simpl. rewrite IH by (intros; apply H; by right).
    by rewrite <-app_assoc.
  - apply IH. intros; apply H; by right.
Qed.

Lemma elem_of_sorted_set w x : x ∈ sorted_set w ↔ x ∈ w.
Proof.
  unfold sorted_set, Set_. rewrite sorted_Permutation, elem_of_elements.
  apply elem_of_list_to_set.
Qed.

Lemma max_or_0_ext l1 l2 :
  l1 ≠ [] → (∀ x, x ∈ l1 ↔ x ∈ l2) → max_or_0 l1 = max_or_0 l2.
Proof.
  intros Hne H. assert (l2 ≠ []) as Hne2.
  { destruct l1 as [|x l1]; [done|]. intros ->.
    by apply (elem_of_nil x), H; left. }
  pose proof (max_or_0_elem l1 Hne) as H1. pose proof (max_or_0_elem l2 Hne2) as H2.
  pose proof (max_or_0_le l1) as L1. pose proof (max_or_0_le l2) as L2.
  rewrite Forall_forall in L1, L2.
  apply H in H1. apply H in H2. specialize (L1 _ H2). specialize (L2 _ H1).
  cbn in *. lia.
Qed.

Section refine_block.
Context (B : gset Z) (w : list Z).
Hypothesis HB : B ≠ ∅.
Hypothesis Hlen : length w = length (elements B).
Hypothesis Hnonneg : Forall (λ l, 0 ≤ l) w.

Lemma word_nonempty : w ≠ [].
Proof.
  intros ->. destruct (elements B) eqn:E; [|done].
  by apply elements_empty_inv, leibniz_equiv in E.
Qed.

Lemma max_word_nonneg : 0 ≤ max_or_0 w.
Proof.
  pose proof (max_or_0_elem w word_nonempty).
  rewrite Forall_forall in Hnonneg. by apply Hnonneg.
Qed.

Lemma _is_initial_segment_word :
  _is_initial_segment (sorted_set w) = Ok (word_is_initial w).
Proof.
  unfold _is_initial_segment. rewrite py_max_Ok; [done|].
  intros E. pose proof word_nonempty as Hne.
  destruct w as [|x w']; [done|].
  assert (x ∈ sorted_set (x :: w')) as Hx by (apply elem_of_sorted_set; by left).
  rewrite E in Hx. by apply elem_of_nil in Hx.
Qed.

Lemma refinement_length :
  length (refinement_of_word (elements B) w) = Z.to_nat (max_or_0 w + 1).
Proof. unfold refinement_of_word. by rewrite label_fold_length, length_replicate. Qed.

Lemma refinement_nonempty : refinement_of_word (elements B) w ≠ [].
Proof.
  intros E. apply (f_equal length) in E. rewrite refinement_length in E.
  pose proof max_word_nonneg. simpl in E. lia.
Qed.

Lemma refinement_elements :
  mjoin (elements <$> refinement_of_word (elements B) w) ≡ₚ elements B.
Proof.
  unfold refinement_of_word.
  rewrite (label_fold_elements _ _ []).
  - by rewrite snd_zip by lia.
  - rewrite fst_zip by lia. rewrite length_replicate.
    pose proof (max_or_0_le w) as Hmax.
    rewrite Forall_forall in Hnonneg, Hmax |- *. intros l Hl.
    specialize (Hnonneg l Hl). specialize (Hmax l Hl). cbn in Hmax. lia.
  - rewrite snd_zip by lia. apply NoDup_elements.
  - generalize (Z.to_nat (max_or_0 w + 1)). intros k.
    induction k as [|k IH]; [done|]. cbn. by rewrite elements_empty.
Qed.

Lemma refinement_valid :
  word_is_initial w = true → valid (refinement_of_word (elements B) w).
Proof.
  intros Hinit. apply bool_decide_eq_true in Hinit.
  rewrite (max_or_0_ext (sorted_set w) w) in Hinit.
  2:{ intros E. pose proof word_nonempty as Hne. destruct w as [|x w']; [done|].
      assert (x ∈ sorted_set (x :: w')) as Hx by (apply elem_of_sorted_set; by left).
      rewrite E in Hx. by apply elem_of_nil in Hx. }
  2:{ apply elem_of_sorted_set. }
  apply Forall_lookup. intros j s Hj.
  pose proof (lookup_lt_Some _ _ _ Hj) as Hjlt. rewrite refinement_length in Hjlt.
  assert (Z.of_nat j ∈ w) as Hjw.
  { apply elem_of_sorted_set. rewrite <-Hinit. apply elem_of_seqZ. lia. }
  apply list_elem_of_lookup in Hjw as [pos Hpos].
  destruct (lookup_lt_is_Some_2 (elements B) pos) as [x Hx].
  { rewrite <-Hlen. by eapply lookup_lt_Some. }
  destruct (label_fold_member (replicate (Z.to_nat (max_or_0 w + 1)) ∅)
              (zip w (elements B)) (Z.of_nat j) x) as (s' & Hs' & Hxs').
  { apply list_elem_of_lookup. exists pos.
    by rewrite lookup_zip_with, Hpos, Hx. }
  { rewrite length_replicate. lia. }
  rewrite Nat2Z.id in Hs'. unfold refinement_of_word in Hj.
  rewrite Hj in Hs'. injection Hs' as <-. set_solver.
Qed.
End refine_block.

Lemma max_or_0_replicate_0 n : max_or_0 (replicate n 0) = 0.
Proof.
  destruct n as [|n]; [done|].
  pose proof (max_or_0_elem (replicate (S n) 0)) as H.
  apply elem_of_replicate in H; [|done]. by destruct H.
Qed.

Lemma word_is_initial_zeros n : word_is_initial (replicate (S n) 0) = true.
Proof.
  apply bool_decide_eq_true.
  assert (sorted_set (replicate (S n) 0) = [0]) as ->; [|done].
  unfold sorted_set. assert (Set_ (replicate (S n) 0) = {[0]}) as ->.
  { unfold Set_. apply set_eq. intros x.
    rewrite elem_of_list_to_set, elem_of_replicate. set_solver. }
  by rewrite elements_singleton.
Qed.

Lemma _refine_block_spec (B : gset Z) :
  B ≠ ∅ →
  ∃ R, _refine_block B false = Ok R ∧ [B] ∈ R ∧
       ∀ a, a ∈ R → a ≠ [] ∧ valid a ∧ mjoin (elements <$> a) ≡ₚ elements B.
Proof.
  intros HB. unfold _refine_block.
  set (X := elements B). set (WordSet := Sage.IntegerListsLex (length X) (len X - 1)).
  assert (∀ w, w ∈ WordSet → length w = length X ∧ Forall (λ l, 0 ≤ l) w) as HW.
  { intros w Hw. apply elem_of_IntegerListsLex in Hw as [Hl Hall]. split; [done|].
    eapply Forall_impl; [exact Hall|]. intros l Hl'; simpl in *; lia. }
  rewrite (for_each_collect _ _ word_is_initial (refinement_of_word X)).
  2:{ intros w Hw. destruct (HW w Hw) as [Hl Hn]. split.
      - by apply (_is_initial_segment_word B).
      - apply label_blocks_Ok; [|done|done]. by apply (word_nonempty B). }
  py_simpl. eexists. split; [done|]. cbn [app]. split.
  - apply elem_of_list_to_set, list_elem_of_omap.
    destruct (length X) as [|n] eqn:En.
    { destruct X eqn:E; [|done]. by apply elements_empty_inv, leibniz_equiv in E. }
    exists (replicate (S n) 0). split.
    + apply elem_of_IntegerListsLex. split; [by rewrite length_replicate|].
      apply Forall_replicate. unfold len. lia.
    + rewrite word_is_initial_zeros. f_equal.
      assert (length (replicate (S n) 0) = length (elements B)) as Hl.
      { by rewrite length_replicate. }
      assert (Forall (λ l, 0 ≤ l) (replicate (S n) 0)) as Hn.
      { by apply Forall_replicate. }
      pose proof (refinement_length B (replicate (S n) 0)) as Hlen.
      pose proof (refinement_elements B _ Hl Hn) as Hel.
      rewrite max_or_0_replicate_0 in Hlen.
      fold X in Hlen, Hel.
      destruct (refinement_of_word X (replicate (S n) 0)) as [|s [|??]]; try done.
      f_equal. cbn in Hel. rewrite app_nil_r in Hel.
      apply set_eq. intros x. by rewrite <-!elem_of_elements, Hel.
  - intros a Ha.
    apply elem_of_list_to_set, list_elem_of_omap in Ha as (w & Hw & Ha).
    destruct (HW w Hw) as [Hl Hn].
    destruct (word_is_initial w) eqn:Hi; [|done]. injection Ha as <-.
    split_and!.
    + by apply refinement_nonempty.
    + by apply refinement_valid.
    + by apply refinement_elements.
Qed.

(** ** [finer] *)

Lemma refinements_spec (B : gset Z) :
  B ≠ ∅ →
  (_refine_block B false ≫= λ r, Ok (elements r)) = Ok (refinements B) ∧
  [B] ∈ refinements B ∧
  ∀ a, a ∈ refinements B →
       a ≠ [] ∧ valid a ∧ mjoin (elements <$> a) ≡ₚ elements B.
Proof.
  intros HB. destruct (_refine_block_spec B HB) as (R & HR & HBR & Hall).
  unfold refinements. rewrite HR. py_simpl. split; [done|]. split.
  - by apply elem_of_elements.
  - intros a Ha. apply Hall. by apply elem_of_elements.
Qed.

Lemma choice_of_refinements (c : omp) (t : list omp) :
  valid c →
  Forall2 (λ a F, a ∈ F) t (refinements <$> c) →
  valid (mjoin t) ∧
  (length c ≤ length (mjoin t))%nat ∧
  _concatenate (iter_blocks (mjoin t)) ≡ₚ _concatenate (iter_blocks c).
Proof.
  intros Hv. revert t. induction Hv as [|B c HB Hv IH]; intros t Ht.
  { apply Forall2_nil_inv_r in Ht as ->. split_and!; [constructor|done|done]. }
  rewrite fmap_cons in Ht. apply Forall2_cons_inv_r in Ht as (a & t' & Ha & Ht' & ->).
  destruct (IH t' Ht') as (IH1 & IH2 & IH3).
  destruct (refinements_spec B HB) as (_ & _ & Hall).
  destruct (Hall a Ha) as (Hne & Hva & Hel).
  change (mjoin (a :: t')) with (a ++ mjoin t'). split_and!.
  - by apply Forall_app.
  - rewrite length_app. cbn [length]. destruct a; [done|]. cbn [length]. lia.
  - unfold _concatenate, iter_blocks in *. rewrite fmap_app, join_app, fmap_cons.
    change (mjoin (elements B :: (elements <$> c)))
      with (elements B ++ mjoin (elements <$> c)).
    by rewrite Hel, IH3.
Qed.

Lemma finer_spec (c : omp) :
  valid c →
  ∃ F, finer c false = Ok F ∧ c ∈ F ∧
       ∀ x, x ∈ F → (length c ≤ length x)%nat.
Proof.
  intros Hv. unfold finer. case_bool_decide as Hc.
  { subst c. eexists. split; [done|]. split; [set_solver|].
    intros x Hx. cbn. lia. }
  rewrite (comprehension_pure _ refinements).
  2:{ intros B HB. unfold valid in Hv. rewrite Forall_forall in Hv.
      by destruct (refinements_spec B (Hv B HB)) as [-> _]. }
  py_simpl.
  rewrite (comprehension_pure _ mjoin).
  2:{ intros t Ht. apply elem_of_cartesian_product in Ht.
      destruct (choice_of_refinements c t Hv Ht) as (H1 & H2 & H3).
      rewrite OMPs_X_Ok.
      - by rewrite Set_iter_blocks.
      - by apply _has_valid_blocks_iter.
      - rewrite H3. unfold _get_multiset. by rewrite sorted_Permutation. }
  py_simpl. eexists. split; [done|]. split.
  - apply elem_of_list_to_set, list_elem_of_fmap.
    exists ((λ B, [B]) <$> c). split.
    + clear. induction c as [|B c IH]; [done|]. cbn. by f_equal.
    + apply elem_of_cartesian_product. clear Hc.
      induction Hv as [|B c HB Hv IH]; [constructor|].
      rewrite !fmap_cons. constructor; [|done].
      by destruct (refinements_spec B HB) as (_ & ? & _).
  - intros x Hx. apply elem_of_list_to_set, list_elem_of_fmap in Hx as (t & -> & Ht).
    apply elem_of_cartesian_product in Ht.
    by destruct (choice_of_refinements c t Hv Ht) as (_ & ? & _).
Qed.

(** C6.  For every ordered multiset partition [c], [c.finer()] and
    [c.fatter()] return, and their intersection is exactly [{c}]. *)
Theorem finer_fatter_fixed_point (c : omp) (Hc : valid c) :
  ∃ F G, finer c false = Ok F ∧ fatter c = Ok G ∧ F ∩ G = {[ c ]}.
Proof.
  destruct (finer_spec c Hc) as (F & HF & HcF & HlenF).
  destruct (fatter_spec c Hc) as (G & HG & HcG & HlenG).
  exists F, G. split; [done|]. split; [done|].
  apply set_eq. intros x. rewrite elem_of_intersection, elem_of_singleton. split.
  - intros [HxF HxG]. destruct (HlenG x HxG) as [Hle Heq].
    specialize (HlenF x HxF). apply Heq. lia.
  - by intros ->.
Qed.

Lemma finer_fatter_fixed_point_witness :
  valid (Set_ <$> [[1;4;5]; [2]; [1;7]]) ∧
  ∃ F G, finer (Set_ <$> [[1;4;5]; [2]; [1;7]]) false = Ok F ∧
         fatter (Set_ <$> [[1;4;5]; [2]; [1;7]]) = Ok G ∧
         F ∩ G = {[ Set_ <$> [[1;4;5]; [2]; [1;7]] ]}.
Proof.
  assert (valid (Set_ <$> [[1;4;5]; [2]; [1;7]])) as Hv
    by (apply (bool_decide_unpack _); by vm_compute).
  split; [exact Hv|]. exact (finer_fatter_fixed_point _ Hv).
Defined.

(** C7 (the code departs from the claim).  For every ordered multiset
    partition [a], [a.is_finer(a)] raises [IndexError] instead of returning
    [True], although [a] is a member of [a.finer()]. *)
Theorem is_finer_self_raises (a : omp) (Ha : valid a) :
  is_finer a a = Raise IndexError ∧
  ∃ F, finer a false = Ok F ∧ a ∈ F.
Proof.
  split.
  - unfold is_finer.
    change (OMPs_X_of_weight (_get_weight (_concatenate (iter_blocks a))))
      with (OMPs_X (_concatenate (iter_blocks a))).
    rewrite OMPs_X_self by done. py_simpl.
    rewrite bool_decide_eq_false_2 by (intros H; by apply H).
    by rewrite trim_common_prefix_self.
  - destruct (finer_spec a Ha) as (F & HF & HaF & _). eauto.
Qed.

Lemma is_finer_self_raises_witness :
  valid (Set_ <$> [[1;4]; [2]]) ∧
  is_finer (Set_ <$> [[1;4]; [2]]) (Set_ <$> [[1;4]; [2]]) = Raise IndexError.
Proof.
  assert (valid (Set_ <$> [[1;4]; [2]])) as Hv
    by (apply (bool_decide_unpack _); by vm_compute).
  split; [exact Hv|]. exact (proj1 (is_finer_self_raises _ Hv)).
Defined.

(** ** [soll_gt] *)

(** C8 (the code departs from the claim).  For partitions with the same
    nonzero size, the same order and the same length, [soll_gt] raises
    [UnboundLocalError] instead of comparing the block sequences; this is the
    case of the documented call [C.soll_gt(D4)]. *)
Theorem soll_gt_numeric_raises (a b : omp) (n : Z)
    (Hb : valid b)
    (Hsa : size a = Some n) (Hsb : size b = Some n) (Hn : n ≠ 0)
    (Hord : order a = order b) (Hlen : len a = len b) :
  soll_gt a b = Raise UnboundLocalError.
Proof.
  unfold soll_gt, OrderedMultisetPartition_of_sets.
  assert (filter (λ B, B ≠ ∅) b = b) as ->.
  { clear -Hb. induction Hb as [|B b HB Hb IH]; [done|].
    by rewrite filter_cons_True, IH. }
  rewrite Hsa, Hsb, Hord, Hlen. cbn [py2_gt truthy].
  rewrite !(bool_decide_eq_false_2 (_ < _)) by lia.
  by rewrite (bool_decide_eq_true_2 (n ≠ 0)).
Qed.

Lemma soll_gt_numeric_raises_witness :
  soll_gt soll_C soll_D4 = Raise UnboundLocalError.
Proof.
  apply (soll_gt_numeric_raises soll_C soll_D4 16).
  - apply (bool_decide_unpack _); by vm_compute.
  - by vm_compute.
  - by vm_compute.
  - done.
  - by vm_compute.
  - by vm_compute.
Defined.

(** ** Keywords outside the vocabulary *)

Section unknown_keyword.
Context (k : string) (v : value).
Hypothesis Hk : k ∉ recognized_keys.

Lemma unknown_ne (s : string) : s ∈ recognized_keys → k ≠ s.
Proof using Hk. intros Hs ->. by apply Hk. Qed.

Lemma unknown_ne' (s : string) : s ∈ recognized_keys → s ≠ k.
Proof using Hk. intros Hs <-. by apply Hk. Qed.

Local Ltac known := unfold recognized_keys; set_solver.

Lemma normalize_weight_insert cs :
  normalize_weight (<[k := v]> cs) = with_keyword k v (normalize_weight cs).
Proof using Hk.
  unfold normalize_weight. rewrite lookup_insert_ne by (apply unknown_ne; known).
  destruct (cs !! "weight"%string) as [w|]; [|done].
  destruct (weight_dict w) as [d|e]; [|done]. py_simpl.
  case_bool_decide; [|done]. cbn.
  by rewrite insert_insert_ne by (apply unknown_ne'; known).
Qed.

Lemma normalize_alphabet_insert cs :
  normalize_alphabet (<[k := v]> cs) = with_keyword k v (normalize_alphabet cs).
Proof using Hk.
  unfold normalize_alphabet. rewrite lookup_insert_ne by (apply unknown_ne; known).
  destruct (cs !! "alphabet"%string) as [A|]; [|done].
  destruct (value_alphabet A) as [s|e]; [|done]. py_simpl. cbn.
  by rewrite insert_insert_ne by (apply unknown_ne'; known).
Qed.

Lemma get_bound_insert cs key default :
  key ∈ recognized_keys → get_bound (<[k := v]> cs) key default = get_bound cs key default.
Proof using Hk.
  intros Hkey. unfold get_bound. by rewrite lookup_insert_ne by by apply unknown_ne.
Qed.

Lemma collapse_bounds_insert exact lo hi cs :
  exact ∈ recognized_keys → lo ∈ recognized_keys → hi ∈ recognized_keys →
  collapse_bounds exact lo hi (<[k := v]> cs)
  = with_keyword k v (collapse_bounds exact lo hi cs).
Proof using Hk.
  intros He Hl Hh. unfold collapse_bounds.
  rewrite lookup_insert_ne by by apply unknown_ne.
  assert ((if bool_decide (is_Some (cs !! exact))
           then delete hi (delete lo (<[k := v]> cs)) else <[k := v]> cs)
          = <[k := v]> (if bool_decide (is_Some (cs !! exact))
                        then delete hi (delete lo cs) else cs)) as ->.
  { case_bool_decide; [|done].
    by rewrite !delete_insert_ne by by apply unknown_ne'. }
  set (cs' := if bool_decide _ then _ else _).
  rewrite !get_bound_insert by done.
  destruct (get_bound cs' lo (Fin 0)) as [min_k|e]; [|done]. py_simpl.
  destruct (get_bound cs' hi Infinity) as [max_k|e]; [|done]. py_simpl.
  destruct (negb (bound_le min_k max_k)); [done|].
  destruct (bound_eqb min_k max_k); [|done].
  unfold pop_required. rewrite lookup_insert_ne by by apply unknown_ne.
  destruct (cs' !! hi) as [vhi|]; [|done]. py_simpl.
  rewrite delete_insert_ne by by apply unknown_ne'.
  rewrite lookup_insert_ne by by apply unknown_ne.
  rewrite delete_insert_ne by by apply unknown_ne'.
  cbn. by rewrite insert_insert_ne by by apply unknown_ne'.
Qed.

Lemma init_constraints_insert cs :
  init_constraints (<[k := v]> cs) = with_keyword k v (init_constraints cs).
Proof using Hk.
  unfold init_constraints.
  rewrite lookup_insert_ne by (apply unknown_ne; known).
  assert (∀ m : gmap string value,
    (collapse_bounds "length" "min_length" "max_length" (<[k := v]> m)
       ≫= collapse_bounds "order" "min_order" "max_order")
    = with_keyword k v
        (collapse_bounds "length" "min_length" "max_length" m
           ≫= collapse_bounds "order" "min_order" "max_order")) as Hcollapse.
  { intros m. rewrite collapse_bounds_insert by known.
    destruct (collapse_bounds "length" _ _ m) as [m'|e]; [|done].
    cbn [with_keyword]. py_simpl. by rewrite collapse_bounds_insert by known. }
  assert (∀ m : gmap string value,
    (match <[k := v]> m !! "weight"%string with
     | Some w =>
         X ← value_dict w;
         Ok (delete "size"%string (delete "max_order"%string
              (delete "order"%string (delete "min_order"%string
                (delete "alphabet"%string
                  (<["weight"%string := VDict X]> (<[k := v]> m)))))))
     | None => Ok (<[k := v]> m)
     end)
    = with_keyword k v
       (match m !! "weight"%string with
        | Some w =>
            X ← value_dict w;
            Ok (delete "size"%string (delete "max_order"%string
                 (delete "order"%string (delete "min_order"%string
                   (delete "alphabet"%string
                     (<["weight"%string := VDict X]> m))))))
        | None => Ok m
        end)) as Hweight.
  { intros m. rewrite lookup_insert_ne by (apply unknown_ne; known).
    destruct (m !! "weight"%string) as [w|]; [|done].
    destruct (value_dict w) as [X|e]; [|done]. py_simpl. cbn.
    rewrite (insert_insert_ne _ "weight"%string k) by (apply unknown_ne'; known).
    by rewrite !delete_insert_ne by (apply unknown_ne'; known). }
  destruct (cs !! "alphabet"%string) as [A|].
  - destruct (value_alphabet A) as [s|e]; [|done]. py_simpl.
    rewrite (insert_insert_ne _ "alphabet"%string k) by (apply unknown_ne'; known).
    rewrite Hweight.
    destruct (match <["alphabet"%string := VSet s]> cs !! "weight"%string with
              | Some w => _ | None => _ end) as [m|e]; [|done].
    cbn [with_keyword]. py_simpl. apply Hcollapse.
  - py_simpl. rewrite Hweight.
    destruct (match cs !! "weight"%string with
              | Some w => _ | None => _ end) as [m|e]; [|done].
    cbn [with_keyword]. py_simpl. apply Hcollapse.
Qed.

Lemma is_ok_OMPs_init cls b m :
  is_ok (OMPs_init cls b m) = is_ok (init_constraints m).
Proof. unfold OMPs_init. by destruct (init_constraints m). Qed.

Lemma is_ok_with_keyword r : is_ok (with_keyword k v r) = is_ok r.
Proof. by destruct r. Qed.

Lemma OMPs_init_insert_ok cls b m :
  is_ok (OMPs_init cls b (<[k := v]> m)) = is_ok (init_constraints m).
Proof using Hk.
  by rewrite is_ok_OMPs_init, init_constraints_insert, is_ok_with_keyword.
Qed.

Lemma full_constraints_of_lookup cls m :
  full_constraints_of cls m !! k = m !! k.
Proof using Hk.
  unfold full_constraints_of.
  destruct cls; rewrite ?lookup_insert_ne by (apply unknown_ne'; known); done.
Qed.

Lemma OMPs_init_insert_stored cls b m fam :
  OMPs_init cls b (<[k := v]> m) = Ok fam →
  value_truthy v = true →
  fam_constraints fam !! k = Some v ∧ fam_full_constraints fam !! k = Some v.
Proof using Hk.
  unfold OMPs_init. rewrite init_constraints_insert.
  destruct (init_constraints m) as [m'|e]; [|done]. cbn [with_keyword]. py_simpl.
  intros [= <-] Hv. cbn [fam_constraints fam_full_constraints].
  rewrite full_constraints_of_lookup.
  assert (kept_constraints (<[k := v]> m') !! k = Some v) as H; [|done].
  unfold kept_constraints. apply map_lookup_filter_Some. split.
  - apply lookup_insert_eq.
  - by left.
Qed.

Lemma init_choice cls1 cls2 b (m : gmap string value) :
  is_ok (if bool_decide (m = ∅) then OMPs_init cls1 b ∅ else OMPs_init cls2 b m)
  = is_ok (init_constraints m).
Proof.
  case_bool_decide as Hm; rewrite is_ok_OMPs_init; [by subst m|done].
Qed.

Lemma insert_not_empty (m : gmap string value) :
  bool_decide (<[k := v]> m = ∅) = false.
Proof. apply bool_decide_eq_false, insert_non_empty. Qed.

Lemma classcall_insert args cs :
  (∃ e, OrderedMultisetPartitions args (<[k := v]> cs) = Raise e ∧
        is_ok (OrderedMultisetPartitions args cs) = false) ∨
  (∃ cls b m,
     OrderedMultisetPartitions args (<[k := v]> cs)
       = OMPs_init cls b (<[k := v]> m) ∧
     is_ok (OrderedMultisetPartitions args cs) = is_ok (init_constraints m)).
Proof using Hk.
  unfold OrderedMultisetPartitions.
  rewrite normalize_weight_insert.
  destruct (normalize_weight cs) as [c1|e]; [|left; by exists e].
  cbn [with_keyword]. py_simpl. rewrite normalize_alphabet_insert.
  destruct (normalize_alphabet c1) as [c2|e]; [|left; by exists e].
  cbn [with_keyword]. py_simpl.
  destruct args as [|a1 [|a2 [|a3 args]]].
  - right. exists OMPs_all_constraints, false, c2. by rewrite is_ok_OMPs_init.
  - destruct a1 as [n|l|d|l|s].
    + case_bool_decide; [|left; by eexists].
      rewrite !delete_insert_ne by (apply unknown_ne'; known).
      rewrite insert_insert_ne by (apply unknown_ne'; known).
      rewrite insert_not_empty. right.
      exists (OMPs_n_constraints n), true,
        (<["size"%string := VInt n]> (delete "size"%string c2)).
      split; [done|]. case_bool_decide as Hm; rewrite !is_ok_OMPs_init; [|done].
      rewrite Hm. by vm_compute.
    + rewrite !delete_insert_ne by (apply unknown_ne'; known).
      rewrite insert_not_empty. right. do 3 eexists. split; [done|].
      apply init_choice.
    + rewrite !delete_insert_ne by (apply unknown_ne'; known).
      rewrite insert_not_empty. right. do 3 eexists. split; [done|].
      apply init_choice.
    + left. by eexists.
    + left. by eexists.
  - destruct (alphabet_list a1) as [alph|e]; [|left; by exists e]. py_simpl.
    destruct a2 as [d| | | |]; try (left; by eexists).
    destruct (bool_decide (alph ≠ [] ∧ _) && bool_decide (0 ≤ d)).
    + rewrite !delete_insert_ne by (apply unknown_ne'; known).
      rewrite insert_not_empty. right. do 3 eexists. split; [done|].
      apply init_choice.
    + destruct (bool_decide (list_to_set alph = ∅) && bool_decide (d = 0));
        [|left; by eexists].
      right. do 3 eexists. split; [done|]. by rewrite is_ok_OMPs_init.
  - right. exists OMPs_all_constraints, false, c2. by rewrite is_ok_OMPs_init.
Qed.

Lemma pass_test_unknown co tst : pass_test co k tst = Ok None.
Proof using Hk.
  unfold pass_test.
  by rewrite !bool_decide_eq_false_2 by (apply unknown_ne; known).
Qed.

Lemma all_pass_unknown co items :
  (k, v) ∈ items → value_truthy v = true → all_pass co items ≠ Ok true.
Proof using Hk.
  intros Hin Hv. induction items as [|[key val] items IH].
  { by apply elem_of_nil in Hin. }
  cbn [all_pass]. apply elem_of_cons in Hin as [[= <- <-]|Hin].
  - by rewrite Hv, pass_test_unknown.
  - destruct (value_truthy val); [|by apply IH].
    destruct (pass_test co key val) as [[[|]|]|e]; try done. by apply IH.
Qed.
End unknown_keyword.




(** ** Cardinality of the family of a fixed multiset *)

Lemma runs_cons_hd x w : ∃ r rs, runs (x :: w) = (x :: r) :: rs.
Proof.
  cbn [runs]. destruct (runs w) as [|r rs]; [by exists [], []|].
  destruct (decide (x < hd 0 r)); eauto.
Qed.

Lemma runs_cons x w :
  runs (x :: w)
  = match runs w with
    | [] => [[x]]
    | r :: rs => if decide (x < hd 0 r) then (x :: r) :: rs else [x] :: r :: rs
    end.
Proof. done. Qed.

Lemma break_loop_runs (w : list Z) (Blocks : list (list Z)) (pre : list Z) (x : Z) :
  (let '(Blocks', block) :=
     foldl (λ '(Blocks, block) '(prev, cur),
         if bool_decide (cur < prev) || (bool_decide (prev = cur) && true)
         then (Blocks ++ [block], [cur])
         else (Blocks, block ++ [cur]))
       (Blocks, pre ++ [x]) (zip (x :: w) w) in
   if bool_decide (block ≠ []) then Blocks' ++ [block] else Blocks')
  = Blocks ++ glue pre (runs (x :: w)).
Proof.
  revert Blocks pre x. induction w as [|y w IH]; intros Blocks pre x.
  { cbn. rewrite bool_decide_eq_true_2; [done|]. by destruct pre. }
  cbn [zip_with foldl].
  destruct (runs_cons_hd y w) as (r & rs & Hr).
  destruct (bool_decide (y < x) || (bool_decide (x = y) && true)) eqn:Hc.
  - rewrite (IH _ [] y). rewrite (runs_cons x (y :: w)), Hr. cbn [hd glue app].
    rewrite decide_False.
    2:{ apply orb_true_iff in Hc as [Hc|Hc].
        - apply bool_decide_eq_true in Hc. lia.
        - rewrite andb_true_r in Hc. apply bool_decide_eq_true in Hc. lia. }
    cbn [glue]. by rewrite <-app_assoc.
  - rewrite (IH _ (pre ++ [x]) y). rewrite (runs_cons x (y :: w)), Hr. cbn [hd glue].
    rewrite decide_True.
    2:{ apply orb_false_iff in Hc as [Hc1 Hc2]. rewrite andb_true_r in Hc2.
        apply bool_decide_eq_false in Hc1, Hc2. lia. }
    cbn [glue]. by rewrite <-app_assoc.
Qed.

Lemma _break_at_descents_runs (alpha : list Z) :
  _break_at_descents alpha true = runs alpha.
Proof.
  destruct alpha as [|x w]; [done|]. unfold _break_at_descents. cbn [tail].
  pose proof (break_loop_runs w [] [] x) as H. cbn [app] in H.
  rewrite H. destruct (runs_cons_hd x w) as (r & rs & ->). done.
Qed.

Lemma foldl_add_sum {A} (f : A → Z) (l : list A) (deg : Z) :
  foldl (λ deg a, deg + f a) deg l = deg + sum (f <$> l).
Proof.
  revert deg. induction l as [|a l IH]; intros deg; cbn [foldl].
  - cbn. lia.
  - rewrite IH, fmap_cons, sum_cons. lia.
Qed.

Lemma cardinality_X_formula (X : list Z) :
  X ≠ [] → cardinality_X X = run_formula X.
Proof.
  intros HX. unfold cardinality_X, run_formula.
  rewrite bool_decide_eq_false_2 by done. rewrite foldl_add_sum, Z.add_0_l.
  f_equal. apply list_fmap_ext. intros _ alpha _.
  by rewrite _break_at_descents_runs.
Qed.

(** C1 (the code departs from the claim).  For a nonempty multiset the
    cardinality is the sum over its permutations of the product of
    [2^(L-1)] over the runs obtained by cutting at every non-ascent, and it
    is 5 for the weight [{1:2, 4:1}].  For the empty multiset the code
    returns 0, where the formula gives 1 and the iteration of the same
    family yields exactly one partition. *)
Theorem cardinality_X_empty_multiset (X : list Z) (HX : X ≠ []) :
  cardinality_X X = run_formula X ∧
  cardinality_X [1; 1; 4] = 5 ∧
  cardinality_X [] = 0 ∧
  run_formula [] = 1 ∧
  _iterator_weight ∅ = Ok [[]].
Proof.
  split; [by apply cardinality_X_formula|]. by vm_compute.
Qed.

Lemma cardinality_X_empty_multiset_witness :
  cardinality_X [1; 1; 4] = run_formula [1; 1; 4] ∧ cardinality_X [] = 0.
Proof.
  assert ([1; 1; 4] ≠ []) as H by done.
  destruct (cardinality_X_empty_multiset [1; 1; 4] H) as (H1 & _ & H2 & _).
  by split.
Defined.

(** ** Cardinality of the family of a fixed size *)

Lemma coeff_nil d : coeff [] d = 0.
Proof. done. Qed.

Lemma coeff_cons_0 a p : coeff (a :: p) 0 = a.
Proof. done. Qed.

Lemma coeff_cons_S a p d : coeff (a :: p) (S d) = coeff p d.
Proof. done. Qed.

Lemma coeff_poly_add p q d : coeff (poly_add p q) d = coeff p d + coeff q d.
Proof.
  revert q d. induction p as [|a p IH]; intros [|b q] d; cbn [poly_add];
    rewrite ?coeff_nil; try lia.
  destruct d as [|d]; [done|]. rewrite !coeff_cons_S. apply IH.
Qed.

Lemma coeff_scale a q d : coeff ((λ b, a * b) <$> q) d = a * coeff q d.
Proof.
  unfold coeff. rewrite list_lookup_fmap. destruct (q !! d); cbn; lia.
Qed.

Lemma coeff_poly_mul_cons a p q d :
  coeff (poly_mul (a :: p) q) d
  = a * coeff q d + match d with O => 0 | S d' => coeff (poly_mul p q) d' end.
Proof.
  cbn [poly_mul]. rewrite coeff_poly_add, coeff_scale. by destruct d.
Qed.

Lemma coeff_poly_mul_add p1 p2 q d :
  coeff (poly_mul (poly_add p1 p2) q) d
  = coeff (poly_mul p1 q) d + coeff (poly_mul p2 q) d.
Proof.
  revert p2 d. induction p1 as [|a p1 IH]; intros [|b p2] d; cbn [poly_add].
  - done.
  - cbn [poly_mul]. rewrite coeff_nil. lia.
  - change (poly_mul [] q) with (@nil Z). rewrite coeff_nil. lia.
  - rewrite !coeff_poly_mul_cons. destruct d as [|d]; [lia|]. rewrite IH. lia.
Qed.

Lemma coeff_poly_mul_monomial j q d :
  coeff (poly_mul (replicate j 0 ++ [1]) q) d
  = if decide (j ≤ d)%nat then coeff q (d - j) else 0.
Proof.
  revert d. induction j as [|j IH]; intros d.
  - cbn [replicate app]. rewrite coeff_poly_mul_cons. cbn [poly_mul].
    rewrite decide_True by lia. rewrite Nat.sub_0_r.
    destruct d; rewrite ?coeff_nil; lia.
  - cbn [replicate app]. rewrite coeff_poly_mul_cons. destruct d as [|d].
    + rewrite decide_False by lia. lia.
    + rewrite IH. cbn [Nat.sub]. destruct (decide (j ≤ d)%nat).
      * rewrite decide_True by lia. lia.
      * rewrite decide_False by lia. lia.
Qed.

Lemma coeff_mul_one_plus_t_pow (k : nat) q d :
  coeff (poly_mul (one_plus_t_pow (Z.of_nat k)) q) d
  = coeff q d + if decide (k ≤ d)%nat then coeff q (d - k) else 0.
Proof.
  unfold one_plus_t_pow. rewrite Nat2Z.id, coeff_poly_mul_add.
  rewrite coeff_poly_mul_monomial. f_equal.
  change [1] with (replicate 0 0 ++ [1]). rewrite coeff_poly_mul_monomial.
  rewrite decide_True by lia. by rewrite Nat.sub_0_r.
Qed.

Lemma parts_poly_S n :
  parts_poly (S n) = poly_mul (one_plus_t_pow (Z.of_nat (S n))) (parts_poly n).
Proof.
  unfold parts_poly, poly_prod, range.
  replace (Z.of_nat (S n) + 1 - 1) with (Z.of_nat (S n)) by lia.
  rewrite seqZ_S, fmap_app, foldl_app. cbn [fmap list_fmap foldl].
  replace (Z.of_nat n + 1 - 1) with (Z.of_nat n) by lia.
  do 2 f_equal. lia.
Qed.

Lemma coeff_parts_poly n d :
  coeff (parts_poly n) d = len (distinct_parts n d).
Proof.
  revert d. induction n as [|n IH]; intros d.
  - cbn [distinct_parts]. destruct d as [|d]; [done|].
    rewrite decide_False by done. by destruct d.
  - rewrite parts_poly_S, coeff_mul_one_plus_t_pow, !IH.
    cbn [distinct_parts]. rewrite len_app. f_equal.
    destruct (decide (S n ≤ d)%nat); [|done]. by rewrite len_fmap.
Qed.

Lemma distinct_parts_0_nonempty m : (1 ≤ length (distinct_parts m 0))%nat.
Proof.
  induction m as [|m IH]; [vm_compute; lia|].
  cbn [distinct_parts]. rewrite length_app. lia.
Qed.

Lemma distinct_parts_above m d j :
  (d ≤ m)%nat → distinct_parts (m + j) d = distinct_parts m d.
Proof.
  intros Hd. induction j as [|j IH]; [by rewrite Nat.add_0_r|].
  rewrite Nat.add_succ_r. cbn [distinct_parts].
  rewrite decide_False by lia. by rewrite app_nil_r.
Qed.

Lemma distinct_parts_self_nonempty d : (1 ≤ length (distinct_parts d d))%nat.
Proof.
  destruct d as [|d]; [vm_compute; lia|]. cbn [distinct_parts].
  rewrite decide_True by lia. rewrite length_app, length_fmap, Nat.sub_diag.
  pose proof (distinct_parts_0_nonempty d). lia.
Qed.

Lemma coeff_parts_poly_count (n d : nat) :
  (d ≤ n)%nat →
  coeff (parts_poly n) d = distinct_partition_count (Z.of_nat d) ∧
  coeff (parts_poly n) d ≠ 0.
Proof.
  intros Hd. rewrite coeff_parts_poly. unfold distinct_partition_count.
  rewrite Nat2Z.id. replace n with (d + (n - d))%nat by lia.
  rewrite distinct_parts_above by lia. split; [done|].
  pose proof (distinct_parts_self_nonempty d). unfold len. lia.
Qed.

Lemma filter_prefix {A} (P : A → Prop) `{!∀ x, Decision (P x)} (l : list A) m :
  Forall P (take m l) → take m (filter P l) = take m l.
Proof.
  revert m. induction l as [|x l IH]; intros [|m] Hall; try done.
  cbn [take] in Hall. inv Hall. rewrite filter_cons_True by done.
  cbn [take]. f_equal. by apply IH.
Qed.

Lemma coefficients_lookup (p : list Z) (n d : nat) :
  (∀ i, (i ≤ n)%nat → coeff p i ≠ 0) → (d ≤ n)%nat →
  coefficients p !! d = Some (coeff p d, Z.of_nat d).
Proof.
  intros Hp Hd. unfold coefficients.
  assert (∀ i, (i ≤ n)%nat → p !! i = Some (coeff p i)) as Hlook.
  { intros i Hi. specialize (Hp i Hi). unfold coeff in *.
    by destruct (p !! i). }
  rewrite <-(lookup_take_lt _ (S n)) by lia.
  rewrite filter_prefix.
  - rewrite lookup_take_lt by lia. rewrite list_lookup_imap, Hlook by lia. done.
  - apply Forall_lookup. intros i [c e] Hi.
    pose proof (lookup_lt_Some _ _ _ Hi) as Hlt.
    rewrite length_take in Hlt.
    rewrite lookup_take_lt in Hi by lia.
    rewrite list_lookup_imap, Hlook in Hi by lia. cbn in Hi.
    injection Hi as <- <-. cbn. apply Hp. lia.
Qed.

Lemma part_le_sum g x : Forall (λ y, 0 < y) g → x ∈ g → 0 < x ≤ sum g.
Proof.
  induction 1 as [|y g Hy Hg IH]; intros Hx.
  { by apply elem_of_nil in Hx. }
  rewrite sum_cons. pose proof (sum_nonneg g) as Hs.
  assert (0 ≤ sum g).
  { apply Hs. eapply Forall_impl; [exact Hg|]. intros z Hz; simpl in *; lia. }
  apply elem_of_cons in Hx as [->|Hx]; [lia|]. specialize (IH Hx). lia.
Qed.

Lemma partspoly_coeff_Ok (n : nat) (d : Z) :
  0 < d ≤ Z.of_nat n →
  (index (coefficients (poly_prod (one_plus_t_pow <$> range 1 (Z.of_nat n + 1)))) d
     ≫= λ ce, Ok (fst ce))
  = Ok (distinct_partition_count d).
Proof.
  intros Hd. fold (parts_poly n).
  rewrite <-(Z2Nat.id d) by lia.
  rewrite (index_nat _ _ (coeff (parts_poly n) (Z.to_nat d), Z.of_nat (Z.to_nat d))).
  - py_simpl. cbn [fst]. f_equal.
    by destruct (coeff_parts_poly_count n (Z.to_nat d)) as [-> _]; [lia|].
  - apply (coefficients_lookup _ n); [|lia].
    intros i Hi. by apply coeff_parts_poly_count.
Qed.

Lemma cardinality_n_large (n : Z) :
  5 < n → cardinality_n n = Ok (composition_formula n).
Proof.
  intros Hn. unfold cardinality_n, composition_formula.
  rewrite bool_decide_eq_false_2 by lia.
  rewrite (for_each_pure _
    (λ deg alpha, deg + prod (distinct_partition_count <$> alpha))).
  - by rewrite foldl_add_sum, Z.add_0_l.
  - intros deg alpha Halpha. apply Compositions_spec in Halpha as [Hpos Hsum].
    rewrite (comprehension_pure _ distinct_partition_count); [done|].
    intros d Hd. pose proof (part_le_sum alpha d Hpos Hd) as Hle.
    rewrite Hsum in Hle. rewrite <-(Z2Nat.id n) at 1 by lia.
    apply partspoly_coeff_Ok. lia.
Qed.

(** C4.  For every nonnegative integer [n], the cardinality of the family of
    size [n] is the sum over the compositions of [n] of the product over the
    parts of the number of partitions of a part into distinct positive
    parts; for [n] from 0 to 5 it is 1, 1, 2, 5, 11, 25. *)
Theorem cardinality_n_composition_formula (n : Z) (Hn : 0 ≤ n) :
  cardinality_n n = Ok (composition_formula n) ∧
  cardinality_n <$> [0; 1; 2; 3; 4; 5] = Ok <$> [1; 1; 2; 5; 11; 25].
Proof.
  split; [|by vm_compute].
  destruct (decide (5 < n)) as [H|H]; [by apply cardinality_n_large|].
  assert (n = 0 ∨ n = 1 ∨ n = 2 ∨ n = 3 ∨ n = 4 ∨ n = 5) as Hcases by lia.
  destruct Hcases as [->|[->|[->|[->|[->| ->]]]]]; by vm_compute.
Qed.

Lemma cardinality_n_composition_formula_witness :
  cardinality_n 7 = Ok (composition_formula 7).
Proof.
  assert (0 ≤ 7) as H by lia.
  exact (proj1 (cardinality_n_composition_formula 7 H)).
Defined.

(** ** The minimaj crystal of words of length 4 into 2 blocks over [{1,2,3}] *)

(** C5. The minimaj crystal built with [n = 3], [ell = 4], [k = 2] has
    exactly 15 elements: the search from its generators ends with a list [L]
    of 15 distinct elements, which is closed under the operators [e_i] and
    [f_i] for [i = 1, 2] (and is the list of the generators itself).  This
    number is the cardinality of the family of ordered multiset partitions
    over the alphabet [{1,2,3}] of order 4 with exactly 2 blocks, whether the
    family is built as [OrderedMultisetPartitions(3, 4, length=2)], as the
    crystal does, or from the keywords [alphabet], [order] and [length]; it
    is also what the partitions with 2 blocks add to the count of
    [OrderedMultisetPartitions_A.cardinality] for this alphabet and order. *)
Theorem minimaj_crystal_3_4_2_has_15_elements :
  ∃ (B : MinimajCrystal) (L : list Element),
    MinimajCrystal_init 3 4 2 = Ok B
    ∧ crystal_list B = Some L
    ∧ length L = 15%nat
    ∧ NoDup L
    ∧ L = module_generators B
    ∧ forallb (λ b, forallb (λ b', bool_decide (b' ∈ L)) (neighbours 3 b)) L = true
    ∧ cardinality_from_iterator (_OMPs B) = Ok (len L)
    ∧ (fam ← OrderedMultisetPartitions []
                {[ "alphabet"%string := VSet {[1; 2; 3]};
                   "order"%string := VInt 4;
                   "length"%string := VInt 2 ]};
       cardinality_from_iterator fam) = Ok (len L)
    ∧ cardinality_A_length {[1; 2; 3]} 4 2 = len L.
Proof.
  eexists. eexists.
  split; [vm_compute; reflexivity|].
  split; [vm_compute; reflexivity|].
  split; [reflexivity|].
  split; [apply (bool_decide_unpack _); vm_compute; reflexivity|].
  split; [reflexivity|].
  split; [vm_compute; reflexivity|].
  split; [vm_compute; reflexivity|].
  split; vm_compute; reflexivity.
Qed.

(** ** The tableau of an ordered multiset partition *)

Lemma comprehension_ext {A B} (f g : A → result B) l :
  (∀ a, a ∈ l → f a = g a) → comprehension f l = comprehension g l.
Proof.
  induction l as [|a l IH]; intros H; [done|].
  cbn [comprehension]. rewrite H by left.
  rewrite IH by (intros; apply H; by right). done.
Qed.

Lemma comprehension_fmap {A B C} (f : B → result C) (g : A → B) l :
  comprehension f (g <$> l) = comprehension (λ a, f (g a)) l.
Proof.
  induction l as [|a l IH]; [done|].
  cbn [comprehension fmap list_fmap]. by rewrite <-IH.
Qed.

Lemma index_succ_cons {A} (a : A) l i :
  0 ≤ i → index (a :: l) (Z.succ i) = index l i.
Proof.
  intros Hi. unfold index. cbn zeta.
  destruct (decide (Z.succ i < 0)) as [|_]; [lia|].
  destruct (decide (i < 0)) as [|_]; [lia|].
  destruct (decide (Z.succ i < 0)) as [|_]; [lia|].
  destruct (decide (i < 0)) as [|_]; [lia|].
  by rewrite Z2Nat.inj_succ.
Qed.

Lemma elem_of_range j a b : j ∈ range a b ↔ a ≤ j < b.
Proof. unfold range. rewrite elem_of_seqZ. lia. Qed.

Lemma range_cons a b : a < b → range a b = a :: range (Z.succ a) b.
Proof.
  intros H. unfold range.
  replace (b - a) with (Z.succ (b - Z.succ a)) by lia.
  rewrite seqZ_cons by lia. do 2 f_equal; lia.
Qed.

Lemma range_nil a b : b ≤ a → range a b = [].
Proof. intros H. unfold range. by rewrite seqZ_nil by lia. Qed.

Lemma range_succ a b : range (Z.succ a) (Z.succ b) = Z.succ <$> range a b.
Proof.
  unfold range. replace (Z.succ b - Z.succ a) with (b - a) by lia.
  rewrite <-(Z.add_1_r a), Z.add_comm.
  rewrite <-fmap_add_seqZ. apply list_fmap_ext. intros; lia.
Qed.

Lemma comprehension_range_index {A B} (F : A → result B) (l : list A) :
  comprehension (λ i, x ← index l i; F x) (range 0 (len l)) = comprehension F l.
Proof.
  induction l as [|a l IH]; [done|].
  rewrite len_cons, Z.add_comm, Z.add_1_r.
  rewrite range_0_succ by apply len_nonneg.
  cbn [comprehension]. rewrite index_0_cons. py_simpl.
  rewrite comprehension_fmap.
  rewrite (comprehension_ext _ (λ i, x ← index l i; F x)).
  - by rewrite IH.
  - intros i Hi. apply elem_of_range in Hi. by rewrite index_succ_cons by lia.
Qed.

Lemma elem_of_fmap_pred (S : list Z) j : j ∈ Z.pred <$> S ↔ Z.succ j ∈ S.
Proof.
  rewrite list_elem_of_fmap. split.
  - intros (y & -> & Hy). by replace (Z.succ (Z.pred y)) with y by lia.
  - intros H. exists (Z.succ j). split; [lia|done].
Qed.

Lemma segment_shift a w S x y :
  -1 ≤ x → segment (a :: w) S (Z.succ x) (Z.succ y) = segment w (Z.pred <$> S) x y.
Proof.
  intros Hx. unfold segment.
  rewrite !Z.add_1_r, range_succ, filter_fmap_comm, comprehension_fmap.
  rewrite (filter_ext_elem_of _ (λ j, j ∉ Z.pred <$> S)).
  - apply comprehension_ext. intros j Hj.
    apply list_elem_of_filter in Hj as [_ Hj]. apply elem_of_range in Hj.
    apply index_succ_cons. lia.
  - intros j _. by rewrite elem_of_fmap_pred.
Qed.

Lemma segment_first a w S y :
  -1 ≤ y →
  segment (a :: w) S (-1) (Z.succ y)
  = r ← segment w (Z.pred <$> S) (-1) y;
    Ok (unmarked (a, bool_decide (0 ∈ S)) ++ r).
Proof.
  intros Hy. unfold segment.
  replace (-1 + 1) with 0 by lia. rewrite !Z.add_1_r.
  rewrite range_0_succ by lia.
  rewrite filter_cons, filter_fmap_comm.
  rewrite (filter_ext_elem_of (λ x, Z.succ x ∉ S) (λ j, j ∉ Z.pred <$> S))
    by (intros j _; by rewrite elem_of_fmap_pred).
  set (js := filter _ (range 0 (Z.succ y))).
  assert (comprehension (λ j, index (a :: w) j) (Z.succ <$> js)
          = comprehension (λ j, index w j) js) as Hc.
  { rewrite comprehension_fmap. apply comprehension_ext. intros j Hj.
    apply list_elem_of_filter in Hj as [_ Hj]. apply elem_of_range in Hj.
    apply index_succ_cons. lia. }
  unfold unmarked. cbn [fst snd].
  destruct (decide (0 ∉ S)) as [H0|H0].
  - rewrite bool_decide_eq_false_2 by done.
    cbn [comprehension]. rewrite index_0_cons. py_simpl. rewrite Hc.
    by destruct (comprehension _ js).
  - rewrite bool_decide_eq_true_2 by (by apply dec_stable).
    rewrite Hc. by destruct (comprehension _ js).
Qed.

Lemma bind_Ok_inv {A B} (m : result A) (k : A → result B) b :
  (m ≫= k) = Ok b → ∃ a, m = Ok a ∧ k a = Ok b.
Proof. destruct m as [a|e]; [by exists a|done]. Qed.

Lemma zip_fmap_both {A B} (f : A → B) (l1 l2 : list A) :
  zip (f <$> l1) (f <$> l2) = (λ p, (f p.1, f p.2)) <$> zip l1 l2.
Proof.
  revert l2. induction l1 as [|x l1 IH]; intros [|y l2]; try done.
  cbn. by rewrite <-IH.
Qed.

Lemma zip_cons {A B} (x : A) (y : B) l1 l2 :
  zip (x :: l1) (y :: l2) = (x, y) :: zip l1 l2.
Proof. done. Qed.

Lemma segments_shift a w S (E1 E2 : list Z) :
  Forall (λ j, 0 ≤ j) E1 →
  comprehension (λ '(x, y), segment (a :: w) S x y)
    (zip (Z.succ <$> E1) (Z.succ <$> E2))
  = comprehension (λ '(x, y), segment w (Z.pred <$> S) x y) (zip E1 E2).
Proof.
  intros HE. rewrite zip_fmap_both, comprehension_fmap.
  apply comprehension_ext. intros [x y] Hxy. cbn [fst snd].
  apply segment_shift. apply elem_of_zip_l in Hxy.
  rewrite Forall_forall in HE. specialize (HE _ Hxy). cbn in HE. lia.
Qed.

Lemma marked_rows_by_index w S :
  w ≠ [] → len w ∈ S →
  comprehension (λ '(x, y), segment w S x y)
    (zip (-1 :: _descents w ++ [len w]) (_descents w ++ [len w]))
  = Ok (marked_rows (marked S w)).
Proof.
  revert S. induction w as [|a w IH]; intros S Hne Hlen; [done|].
  destruct w as [|b w].
  { rewrite _descents_short. cbn [app zip zip_with comprehension].
    change (len [a]) with (Z.succ 0). rewrite segment_first by lia.
    unfold segment. replace (-1 + 1) with 0 by lia.
    rewrite (range_cons 0 (0 + 1)), range_nil by lia.
    rewrite filter_cons, decide_False, filter_nil.
    2:{ intros H. apply H. by apply elem_of_fmap_pred. }
    cbn. by rewrite app_nil_r. }
  assert (len (b :: w) ∈ Z.pred <$> S) as Hlen'.
  { apply elem_of_fmap_pred. by rewrite len_cons, Z.add_comm, Z.add_1_r in Hlen. }
  specialize (IH (Z.pred <$> S) ltac:(done) Hlen').
  rewrite _descents_cons.
  set (w' := b :: w) in *.
  replace (len (a :: w')) with (Z.succ (len w'))
    by (rewrite len_cons; lia).
  assert (Forall (λ j, 0 ≤ j) (_descents w' ++ [len w'])) as HE.
  { apply Forall_app. split; [apply _descents_nonneg|].
    apply Forall_singleton, len_nonneg. }
  rewrite <-app_assoc.
  replace ((Z.succ <$> _descents w') ++ [Z.succ (len w')])
    with (Z.succ <$> (_descents w' ++ [len w']))
    by (by rewrite fmap_app).
  destruct (_descents w' ++ [len w']) as [|e1 E] eqn:HEq.
  { by destruct (_descents w'). }
  apply Forall_cons in HE as [He1 HE'].
  rewrite zip_cons in IH. cbn [comprehension] in IH.
  apply bind_Ok_inv in IH as (p0 & Hp0 & IH).
  apply bind_Ok_inv in IH as (rest & Hrest & IH).
  injection IH as IH.
  cbn [marked]. fold (marked (Z.pred <$> S) w').
  change (marked_rows ((a, bool_decide (0 ∈ S)) :: marked (Z.pred <$> S) w'))
    with (marked_rows ((a, bool_decide (0 ∈ S)) :: marked (Z.pred <$> S) (b :: w))).
  cbn [marked marked_rows fst].
  change ((b, bool_decide (0 ∈ Z.pred <$> S))
            :: marked (Z.pred <$> Z.pred <$> S) w)
    with (marked (Z.pred <$> S) w').
  rewrite <-IH.
  pose proof (segments_shift a w' S (e1 :: E) E (Forall_cons_2 _ _ _ He1 HE')) as Hsh.
  rewrite fmap_cons in Hsh |- *.
  destruct (decide (b < a)) as [Hd|Hd].
  - cbn [app]. rewrite !zip_cons. cbn [comprehension].
    change 0 with (Z.succ (-1)) at 1.
    rewrite (segment_first a w' S (-1)) by lia.
    change (Z.succ (-1)) with 0.
    change (segment (a :: w') S 0 (Z.succ e1))
      with (segment (a :: w') S (Z.succ (-1)) (Z.succ e1)).
    rewrite segment_shift by lia. rewrite Hp0.
    rewrite Hsh, Hrest.
    unfold segment at 1. replace (-1 + 1) with 0 by lia.
    rewrite range_nil by lia. cbn. by rewrite app_nil_r.
  - cbn [app]. rewrite !zip_cons. cbn [comprehension].
    rewrite segment_first by lia. rewrite Hp0.
    rewrite Hsh, Hrest.
    done.
Qed.

Lemma for_each_ext {A S} (f g : S → A → result S) s l :
  (∀ s a, a ∈ l → f s a = g s a) → for_each f s l = for_each g s l.
Proof.
  revert s. induction l as [|a l IH]; intros s H; [done|].
  cbn [for_each]. rewrite H by left.
  destruct (g s a) as [s'|e]; [|done]. py_simpl.
  apply IH. intros; apply H; by right.
Qed.

Lemma for_each_pieces {A} (G : A → result (list Z)) (acc : list (list Z)) l :
  for_each (λ pieces i, p ← G i; Ok (reverse p :: pieces)) acc l
  = ps ← comprehension G l; Ok (reverse (reverse <$> ps) ++ acc).
Proof.
  revert acc. induction l as [|a l IH]; intros acc; [done|].
  cbn [for_each comprehension].
  destruct (G a) as [p|e]; [|done]. py_simpl. rewrite IH.
  destruct (comprehension G l) as [ps|e]; [|done]. py_simpl.
  by rewrite fmap_cons, reverse_cons, <-app_assoc.
Qed.

Lemma index_lookup {A} (l : list A) i :
  0 ≤ i →
  index l i = match l !! Z.to_nat i with Some a => Ok a | None => Raise IndexError end.
Proof.
  intros Hi. unfold index. cbn zeta.
  destruct (decide (i < 0)) as [|_]; [lia|].
  by destruct (decide (i < 0)) as [|_]; [lia|].
Qed.

Lemma index_consecutive {A B} (D : list A) (F : A * A → result B) i :
  0 ≤ i →
  (Di ← index D i; Di1 ← index D (i + 1); F (Di, Di1))
  = x ← index (zip D (tail D)) i; F x.
Proof.
  intros Hi. rewrite !index_lookup by lia.
  rewrite lookup_zip_with, lookup_tail.
  replace (Z.to_nat (i + 1)) with (S (Z.to_nat i)) by lia.
  destruct (D !! Z.to_nat i) as [x|]; [|done].
  by destruct (D !! S (Z.to_nat i)) as [y|].
Qed.

Lemma len_zip_tail {A} (D : list A) : range 0 (len (zip D (tail D))) = range 0 (len D - 1).
Proof.
  destruct D as [|d D]; [done|].
  unfold len. rewrite length_zip_with. cbn [tail length]. f_equal. lia.
Qed.

Lemma comprehension_consecutive {A B} (D : list A) (F : A * A → result B) :
  comprehension (λ i, Di ← index D i; Di1 ← index D (i + 1); F (Di, Di1))
    (range 0 (len D - 1))
  = comprehension F (zip D (tail D)).
Proof.
  rewrite <-(comprehension_range_index F (zip D (tail D))), len_zip_tail.
  apply comprehension_ext. intros i Hi. apply elem_of_range in Hi.
  apply index_consecutive. lia.
Qed.

(** *** Partial sums and the marks on the minimaj word *)

Lemma _partial_sum_acc (acc : list Z) a l :
  foldl (λ result x, result ++ [default 0 (last result) + x]) (acc ++ [a]) l
  = acc ++ ((λ x, a + x) <$> _partial_sum l).
Proof.
  revert acc a. induction l as [|n l IH]; intros acc a.
  { cbn. by rewrite Z.add_0_r. }
  unfold _partial_sum. cbn [foldl]. rewrite last_snoc. cbn [default].
  rewrite IH.
  change ([0] ++ [default 0 (last [0]) + n]) with ([0] ++ [n]).
  rewrite (IH [0] n). cbn [app fmap list_fmap]. rewrite Z.add_0_r.
  rewrite <-app_assoc. cbn [app]. do 2 f_equal.
  rewrite <-list_fmap_compose. apply list_fmap_ext. intros; cbn; lia.
Qed.

Lemma _partial_sum_cons n l :
  _partial_sum (n :: l) = 0 :: ((λ x, n + x) <$> _partial_sum l).
Proof.
  unfold _partial_sum at 1. cbn [foldl]. cbn [last default].
  change ([0] ++ [0 + n]) with ([0] ++ [n]). by rewrite _partial_sum_acc.
Qed.

Lemma _partial_sum_nonneg l :
  Forall (λ x, 0 ≤ x) l → Forall (λ x, 0 ≤ x) (_partial_sum l).
Proof.
  induction 1 as [|n l Hn Hl IH]; [by repeat constructor|].
  rewrite _partial_sum_cons. constructor; [done|].
  apply Forall_fmap. eapply Forall_impl; [exact IH|]. cbn. intros; lia.
Qed.

Lemma _partial_sum_total (Ws : list (list Z)) :
  len (mjoin Ws) ∈ _partial_sum (len <$> Ws).
Proof.
  induction Ws as [|W Ws IH]; [by left|].
  rewrite fmap_cons, _partial_sum_cons. right.
  change (mjoin (W :: Ws)) with (W ++ mjoin Ws). rewrite len_app.
  apply list_elem_of_fmap. by exists (len (mjoin Ws)).
Qed.

Lemma marked_ext S1 S2 w :
  (∀ j, 0 ≤ j < len w → j ∈ S1 ↔ j ∈ S2) → marked S1 w = marked S2 w.
Proof.
  revert S1 S2. induction w as [|a w IH]; intros S1 S2 H; [done|].
  cbn [marked]. f_equal.
  - f_equal. apply bool_decide_ext, H. rewrite len_cons. pose proof (len_nonneg w). lia.
  - apply IH. intros j Hj. rewrite !elem_of_fmap_pred. apply H.
    rewrite len_cons. lia.
Qed.

Lemma marked_app S u v :
  marked S (u ++ v) = marked S u ++ marked ((λ x, x - len u) <$> S) v.
Proof.
  revert S. induction u as [|a u IH]; intros S.
  { cbn [app marked]. f_equal. rewrite <-(list_fmap_id S) at 1.
    apply list_fmap_ext. intros; cbn. rewrite (@len_nil Z). lia. }
  cbn [app marked]. rewrite IH. do 3 f_equal.
  rewrite <-list_fmap_compose. apply list_fmap_ext. intros; cbn.
  rewrite len_cons. lia.
Qed.

Lemma marked_none S W :
  (∀ j, 0 ≤ j < len W → j ∉ S) → marked S W = (λ x, (x, false)) <$> W.
Proof.
  revert S. induction W as [|a W IH]; intros S H; [done|].
  cbn [marked fmap list_fmap]. f_equal.
  - f_equal. apply bool_decide_eq_false_2, H. rewrite len_cons.
    pose proof (len_nonneg W). lia.
  - apply IH. intros j Hj. rewrite elem_of_fmap_pred. apply H.
    rewrite len_cons. lia.
Qed.

Lemma marked_block S W :
  0 ∈ S → (∀ j, 1 ≤ j < len W → j ∉ S) → marked S W = mark_block W.
Proof.
  intros H0 H. destruct W as [|a W]; [done|].
  cbn [marked mark_block]. rewrite bool_decide_eq_true_2 by done. f_equal.
  apply marked_none. intros j Hj. rewrite elem_of_fmap_pred. apply H.
  rewrite len_cons. lia.
Qed.

Lemma marked_minimaj_word (Ws : list (list Z)) :
  Forall (λ W, W ≠ []) Ws →
  marked (_partial_sum (len <$> Ws)) (mjoin Ws) = mjoin (mark_block <$> Ws).
Proof.
  induction 1 as [|W Ws HW HWs IH]; [done|].
  rewrite !fmap_cons, _partial_sum_cons.
  change (mjoin (W :: Ws)) with (W ++ mjoin Ws).
  change (mjoin (mark_block W :: (mark_block <$> Ws)))
    with (mark_block W ++ mjoin (mark_block <$> Ws)).
  rewrite marked_app. f_equal.
  - apply marked_block; [by left|]. intros j Hj Hin.
    apply elem_of_cons in Hin as [->|Hin]; [lia|].
    apply list_elem_of_fmap in Hin as (x & -> & Hx).
    assert (Forall (λ x, 0 ≤ x) (_partial_sum (len <$> Ws))) as Hnn.
    { apply _partial_sum_nonneg, Forall_fmap, Forall_true.
      intros; apply len_nonneg. }
    rewrite Forall_forall in Hnn. specialize (Hnn x Hx).
    cbn in Hnn. lia.
  - rewrite <-IH. apply marked_ext. intros j Hj.
    rewrite fmap_cons, <-list_fmap_compose.
    rewrite elem_of_cons.
    assert (0 < len W) by (destruct W; [done|rewrite len_cons; pose proof (len_nonneg W); lia]).
    rewrite (list_fmap_ext _ id (_partial_sum (len <$> Ws))), list_fmap_id
      by (intros; cbn; lia).
    split; [intros [?|?]; [lia|done]|by right].
Qed.

Lemma shape_from_cardinality_mj c : shape_from_cardinality c = len <$> mj c.
Proof.
  unfold shape_from_cardinality.
  pose proof (mj_block_Permutation c) as H.
  induction H as [|W B Ws c' HW _ IH]; [done|].
  rewrite !fmap_cons, IH. f_equal. unfold len. by rewrite HW.
Qed.

Lemma _partial_sum_0 l : 0 ∈ _partial_sum l.
Proof. destruct l; [by left|]. rewrite _partial_sum_cons. by left. Qed.

Lemma segment_from_0 w S y :
  0 ∈ S → 0 ≤ y → segment w S 0 y = segment w S (-1) y.
Proof.
  intros H0 Hy. unfold segment. replace (-1 + 1) with 0 by lia.
  rewrite (range_cons 0) by lia. rewrite filter_cons, decide_False; [done|].
  by intros H.
Qed.

Lemma to_tableau_rows c :
  valid c → c ≠ [] →
  to_tableau c = Ok (tableau_of_rows (hd 0 <$> mj c) (rows (mj c))).
Proof.
  intros Hv Hne. unfold to_tableau.
  rewrite bool_decide_eq_false_2 by done.
  rewrite (minimaj_blocks_mj c Hv). py_simpl.
  pose proof (mj_nonempty c Hv) as Hnb.
  rewrite (comprehension_pure _ (hd 0)); cycle 1.
  { intros W HW. rewrite Forall_forall in Hnb. specialize (Hnb W HW).
    destruct W; [done|]. apply index_0_cons. }
  py_simpl. cbn zeta.
  set (w := _concatenate (mj c)).
  set (S := _partial_sum (shape_from_cardinality c)).
  set (D := [0] ++ _descents w ++ [len w]).
  rewrite (for_each_ext _ (λ pieces i,
    p ← (Di ← index D i; Di1 ← index D (i + 1);
         (λ '(x, y), segment w S x y) (Di, Di1));
    Ok (reverse p :: pieces))); cycle 1.
  { intros pieces i _. destruct (index D i); [|done].
    by destruct (index D (i + 1)). }
  rewrite for_each_pieces.
  pose proof (comprehension_consecutive D (λ '(x, y), segment w S x y)) as Hcc.
  cbv beta iota in Hcc. rewrite Hcc. clear Hcc.
  assert (w ≠ []) as Hw.
  { subst w. destruct c as [|B c]; [done|].
    pose proof (mj_length (B :: c)) as Hl.
    destruct (mj (B :: c)) as [|W Ws]; [done|].
    apply Forall_cons in Hnb as [HW _]. by destruct W. }
  assert (len w ∈ S) as HS.
  { subst S w. rewrite shape_from_cardinality_mj. apply _partial_sum_total. }
  pose proof (marked_rows_by_index w S Hw HS) as HA.
  subst D. cbn [app tail].
  destruct (_descents w ++ [len w]) as [|e1 E] eqn:HE.
  { by destruct (_descents w). }
  assert (0 ≤ e1) as He1.
  { assert (Forall (λ j, 0 ≤ j) (_descents w ++ [len w])) as HF.
    { apply Forall_app. split; [apply _descents_nonneg|].
      apply Forall_singleton, len_nonneg. }
    rewrite HE in HF. by apply Forall_cons in HF as [? _]. }
  rewrite zip_cons in HA |- *. cbn [comprehension] in HA |- *.
  rewrite segment_from_0 by (done || apply _partial_sum_0).
  rewrite HA. py_simpl. unfold tableau_of_rows, rows.
  subst S w. rewrite shape_from_cardinality_mj.
  unfold _concatenate. by rewrite marked_minimaj_word.
Qed.

(** ** From the tableau back to the blocks *)

Lemma for_each_fmap {A B S} (f : S → B → result S) (g : A → B) s l :
  for_each f s (g <$> l) = for_each (λ s a, f s (g a)) s l.
Proof.
  revert s. induction l as [|a l IH]; intros s; [done|].
  cbn [fmap list_fmap for_each]. destruct (f s (g a)); [apply IH|done].
Qed.

Lemma for_each_range_index {A S} (body : S → A → result S) s (l : list A) :
  for_each (λ s i, x ← index l i; body s x) s (range 0 (len l))
  = for_each body s l.
Proof.
  revert s. induction l as [|a l IH]; intros s; [done|].
  rewrite len_cons, Z.add_comm, Z.add_1_r.
  rewrite range_0_succ by apply len_nonneg.
  cbn [for_each]. rewrite index_0_cons. py_simpl.
  destruct (body s a) as [s'|e]; [|done]. py_simpl.
  rewrite for_each_fmap, <-IH.
  apply for_each_ext. intros s'' i Hi. apply elem_of_range in Hi.
  by rewrite index_succ_cons by lia.
Qed.

Lemma comprehension_if_ext {A} (f g : A → result bool) l :
  (∀ a, a ∈ l → f a = g a) → comprehension_if f l = comprehension_if g l.
Proof.
  induction l as [|a l IH]; intros H; [done|].
  cbn [comprehension_if]. rewrite H by left.
  rewrite IH by (intros; apply H; by right). done.
Qed.

Lemma comprehension_if_pure {A} (f : A → result bool) (P : A → Prop)
    `{!∀ a, Decision (P a)} l :
  (∀ a, a ∈ l → f a = Ok (bool_decide (P a))) →
  comprehension_if f l = Ok (filter P l).
Proof.
  induction l as [|a l IH]; intros Hf; [done|].
  cbn [comprehension_if]. rewrite Hf by left. cbn [Py.bind].
  rewrite IH by (intros; apply Hf; by right). cbn [Py.bind].
  rewrite filter_cons. destruct (decide (P a)).
  - by rewrite bool_decide_eq_true_2.
  - by rewrite bool_decide_eq_false_2.
Qed.

Lemma setitem_0_cons {A} (x : A) mu v : setitem (x :: mu) 0 v = Ok (v :: mu).
Proof.
  unfold setitem. cbn zeta.
  destruct (decide (0 < 0)) as [|_]; [lia|].
  destruct (decide (0 < 0)) as [|_]; [lia|].
  rewrite len_cons. pose proof (len_nonneg mu).
  by destruct (decide (0 < 1 + len mu)) as [_|]; [|lia].
Qed.

Lemma setitem_succ_cons {A} (x : A) mu j v :
  0 ≤ j → setitem (x :: mu) (Z.succ j) v = mu' ← setitem mu j v; Ok (x :: mu').
Proof.
  intros Hj. unfold setitem. cbn zeta.
  destruct (decide (Z.succ j < 0)) as [|_]; [lia|].
  destruct (decide (j < 0)) as [|_]; [lia|].
  destruct (decide (Z.succ j < 0)) as [|_]; [lia|].
  destruct (decide (j < 0)) as [|_]; [lia|].
  rewrite len_cons.
  destruct (decide (j < len mu)), (decide (Z.succ j < 1 + len mu)); try lia; [|done].
  by rewrite Z2Nat.inj_succ.
Qed.

Lemma row_letter_shift x mu s hi j i :
  0 ≤ j →
  row_letter_goes_to (x :: mu) (Z.succ s) (Z.succ hi) (Z.succ j) i
  = row_letter_goes_to mu s hi j i.
Proof.
  intros Hj. unfold row_letter_goes_to.
  rewrite index_succ_cons by done.
  replace (Z.succ j + 1) with (Z.succ (j + 1)) by lia.
  rewrite index_succ_cons by lia.
  rewrite (bool_decide_ext (Z.succ j = Z.succ s) (j = s)) by lia.
  by rewrite (bool_decide_ext (Z.succ j = Z.succ hi) (j = hi)) by lia.
Qed.

Lemma fill_blocks_shift x mu s lo hi p :
  0 ≤ lo →
  fill_blocks (x :: mu) (Z.succ s) (Z.succ lo) (Z.succ hi) p
  = mu' ← fill_blocks mu s lo hi p; Ok (x :: mu').
Proof.
  intros Hlo. unfold fill_blocks.
  rewrite !Z.add_1_r, range_succ, for_each_fmap.
  assert (Forall (λ j, 0 ≤ j) (range lo (Z.succ hi))) as Hjs.
  { apply Forall_forall. intros j Hj. apply elem_of_range in Hj. lia. }
  revert mu. induction Hjs as [|j js Hj _ IH]; intros mu; [done|].
  cbn [for_each]. rewrite index_succ_cons by done.
  destruct (index mu j) as [muj|e]; [|done]. py_simpl.
  rewrite (comprehension_if_ext _ (row_letter_goes_to mu s hi j))
    by (intros; by apply row_letter_shift).
  destruct (comprehension_if _ p) as [extra|e]; [|done]. py_simpl.
  rewrite setitem_succ_cons by done.
  destruct (setitem mu j (muj ++ extra)) as [mu'|e]; [|done]. py_simpl.
  apply IH.
Qed.

Lemma fill_rows_shift x mu ws :
  Forall (λ w, 0 ≤ w.1.1.2) ws →
  fill_rows (x :: mu) (shift_up <$> ws)
  = mu' ← fill_rows mu ws; Ok (x :: mu').
Proof.
  intros Hws. unfold fill_rows. rewrite for_each_fmap.
  revert mu. induction Hws as [|[[[s lo] hi] p] ws Hlo _ IH]; intros mu; [done|].
  cbn [for_each shift_up]. cbn in Hlo.
  rewrite fill_blocks_shift by done.
  destruct (fill_blocks mu s lo hi p) as [mu'|e]; [|done]. py_simpl.
  apply IH.
Qed.

Lemma row_letter_last b0 X rest s i :
  row_letter_goes_to ((b0 :: X) :: rest) s 0 0 i
  = Ok (bool_decide (b0 < i ∨ bool_decide (s = 0))).
Proof.
  unfold row_letter_goes_to. rewrite index_0_cons. py_simpl.
  rewrite index_0_cons. py_simpl.
  repeat case_bool_decide; cbn; try done; exfalso; cbn in *; intuition lia.
Qed.

Lemma row_letter_inner b0 X b1 Y rest s hi i :
  hi ≠ 0 →
  row_letter_goes_to ((b0 :: X) :: (b1 :: Y) :: rest) s hi 0 i
  = Ok (bool_decide ((b0 < i ∨ bool_decide (s = 0)) ∧ i ≤ b1)).
Proof.
  intros Hhi. unfold row_letter_goes_to. rewrite index_0_cons. py_simpl.
  rewrite index_0_cons. py_simpl.
  change (0 + 1) with (Z.succ 0). rewrite index_succ_cons by done.
  rewrite index_0_cons. py_simpl. rewrite index_0_cons. py_simpl.
  repeat case_bool_decide; cbn; try done; exfalso; cbn in *; intuition lia.
Qed.

Lemma fill_blocks_0 (P : Z → Prop) `{!∀ i, Decision (P i)} b0 X rest s hi p :
  0 ≤ hi →
  (∀ i, i ∈ p →
     row_letter_goes_to ((b0 :: X) :: rest) s hi 0 i = Ok (bool_decide (P i))) →
  fill_blocks ((b0 :: X) :: rest) s 0 hi p
  = fill_blocks ((b0 :: X ++ filter P p) :: rest) s 1 hi p.
Proof.
  intros Hhi Hc. unfold fill_blocks.
  rewrite (range_cons 0) by lia. cbn [for_each].
  rewrite index_0_cons. py_simpl.
  rewrite (comprehension_if_pure _ P) by done. py_simpl.
  by rewrite setitem_0_cons.
Qed.

Lemma fill_blocks_empty mu s lo hi p : hi < lo → fill_blocks mu s lo hi p = Ok mu.
Proof. intros H. unfold fill_blocks. by rewrite range_nil by lia. Qed.

Lemma windows_of_shift lo E ps :
  windows_of (Z.succ lo) (Z.succ <$> E) ps = shift_up <$> windows_of lo E ps.
Proof.
  revert lo ps. induction E as [|e E IH]; intros lo [|p ps]; try done.
  cbn [fmap list_fmap windows_of shift_up]. f_equal. apply IH.
Qed.

Lemma windows_of_lo lo E ps :
  Forall (λ e, 0 ≤ e) (lo :: E) → Forall (λ w, 0 ≤ w.1.1.2) (windows_of lo E ps).
Proof.
  revert lo ps. induction E as [|e E IH]; intros lo [|p ps] H; try by constructor.
  apply Forall_cons in H as [Hlo H]. cbn [windows_of].
  constructor; [done|]. by apply IH.
Qed.

Lemma fill_rows_cons mu s lo hi p ws :
  fill_rows mu ((s, lo, hi, p) :: ws)
  = fill_blocks mu s lo hi p ≫= λ mu', fill_rows mu' ws.
Proof. done. Qed.

Lemma recon_cons2 start b0 b1 bs ps :
  recon start (b0 :: b1 :: bs) ps
  = if decide (b1 < b0) then
      (b0 :: filter (λ i, b0 < i ∨ start) (hd [] ps)
          ++ filter (λ i, i ≤ b1) (hd [] (tail ps)))
      :: recon false (b1 :: bs) (tail ps)
    else
      (b0 :: filter (λ i, (b0 < i ∨ start) ∧ i ≤ b1) (hd [] ps))
      :: recon false (b1 :: bs) ps.
Proof. done. Qed.

Lemma recon_by_windows bs ps s :
  bs ≠ [] → s ≤ 0 → (length (_descents bs) < length ps)%nat →
  fill_rows ((λ i, [i]) <$> bs)
    (windows_from s 0 (_descents bs ++ [len bs - 1]) ps)
  = Ok (recon (bool_decide (s = 0)) bs ps).
Proof.
  revert ps s. induction bs as [|b0 bs IH]; intros ps s Hne Hs Hps; [done|].
  destruct bs as [|b1 bs].
  { rewrite _descents_short in Hps |- *.
    destruct ps as [|p0 ps]; [cbn in Hps; lia|].
    change (len [b0] - 1) with 0.
    cbn [app windows_from windows_of fmap list_fmap].
    rewrite fill_rows_cons.
    rewrite (fill_blocks_0 (λ i, b0 < i ∨ bool_decide (s = 0)))
      by (done || intros; apply row_letter_last).
    rewrite fill_blocks_empty by lia. done. }
  rewrite recon_cons2.
  rewrite _descents_cons in Hps |- *.
  set (w' := b1 :: bs) in *.
  replace (len (b0 :: w') - 1) with (Z.succ (len w' - 1))
    by (rewrite len_cons; lia).
  rewrite <-app_assoc.
  replace ((Z.succ <$> _descents w') ++ [Z.succ (len w' - 1)])
    with (Z.succ <$> (_descents w' ++ [len w' - 1]))
    by (by rewrite fmap_app).
  assert (Forall (λ j, 0 ≤ j) (_descents w' ++ [len w' - 1])) as HE.
  { apply Forall_app. split; [apply _descents_nonneg|].
    apply Forall_singleton. subst w'. rewrite len_cons.
    pose proof (len_nonneg bs). lia. }
  assert (∀ ps' s', s' ≤ 0 → (length (_descents w') < length ps')%nat →
     fill_rows ((λ i, [i]) <$> w')
       (windows_from s' 0 (_descents w' ++ [len w' - 1]) ps')
     = Ok (recon (bool_decide (s' = 0)) w' ps')) as IH'.
  { intros. by apply IH. }
  clear IH.
  destruct (_descents w' ++ [len w' - 1]) as [|e1 E] eqn:HEq.
  { by destruct (_descents w'). }
  apply Forall_cons in HE as [He1 HE].
  rewrite (fmap_cons Z.succ).
  change ((λ i, [i]) <$> b0 :: w') with ([b0] :: ((λ i : Z, [i]) <$> w')).
  assert (∃ Y rest, (λ i : Z, [i]) <$> w' = (b1 :: Y) :: rest) as (Y & rest & Hmu).
  { by exists [], ((λ i : Z, [i]) <$> bs). }
  destruct (decide (b1 < b0)) as [Hd|Hd].
  - destruct ps as [|p0 [|p1 ps]];
      [cbn in Hps; lia|rewrite length_app, length_fmap in Hps; cbn in Hps; lia|].
    cbn [app windows_from windows_of hd tail].
    rewrite !fill_rows_cons.
    rewrite Hmu.
    rewrite (fill_blocks_0 (λ i, b0 < i ∨ bool_decide (s = 0)))
      by (done || intros; apply row_letter_last).
    rewrite fill_blocks_empty by lia. py_simpl. rewrite fill_rows_cons.
    rewrite (fill_blocks_0 (λ i, i ≤ b1)); [|lia|]; cycle 1.
    { intros i _. rewrite row_letter_inner by lia.
      f_equal. apply bool_decide_ext.
      rewrite (bool_decide_eq_true_2 (0 = 0)) by done. cbn. intuition. }
    rewrite <-Hmu, <-fill_rows_cons.
    rewrite windows_of_shift.
    change ((0, 1, Z.succ e1, p1) :: (shift_up <$> windows_of e1 E ps))
      with (shift_up <$> ((-1, 0, e1, p1) :: windows_of e1 E ps)).
    rewrite fill_rows_shift.
    2:{ constructor; [done|]. apply windows_of_lo. by constructor. }
    change ((-1, 0, e1, p1) :: windows_of e1 E ps)
      with (windows_from (-1) 0 (e1 :: E) (p1 :: ps)).
    rewrite IH'; [done|lia|].
    rewrite length_app, length_fmap in Hps. cbn in Hps |- *. lia.
  - destruct ps as [|p0 ps]; [cbn in Hps; lia|].
    cbn [app windows_from windows_of hd tail].
    rewrite !fill_rows_cons.
    rewrite Hmu.
    rewrite (fill_blocks_0 (λ i, (b0 < i ∨ bool_decide (s = 0)) ∧ i ≤ b1));
      [|lia|]; cycle 1.
    { intros i _. apply row_letter_inner. lia. }
    rewrite <-Hmu, <-fill_rows_cons.
    rewrite windows_of_shift.
    replace ((s, 1, Z.succ e1, p0) :: (shift_up <$> windows_of e1 E ps))
      with (shift_up <$> ((s - 1, 0, e1, p0) :: windows_of e1 E ps)).
    2:{ cbn [fmap list_fmap shift_up]. do 4 f_equal. lia. }
    rewrite fill_rows_shift.
    2:{ constructor; [done|]. apply windows_of_lo. by constructor. }
    change ((s - 1, 0, e1, p0) :: windows_of e1 E ps)
      with (windows_from (s - 1) 0 (e1 :: E) (p0 :: ps)).
    rewrite IH'; [|lia|].
    + py_simpl. by rewrite (bool_decide_eq_false_2 (s - 1 = 0)) by lia.
    + rewrite app_nil_l, length_fmap in Hps. done.
Qed.

Lemma index_last {A} (l : list A) x : index (l ++ [x]) (-1) = Ok x.
Proof.
  unfold index. cbn zeta.
  destruct (decide (-1 < 0)) as [_|]; [|lia].
  rewrite len_app, len_cons, (@len_nil A). pose proof (len_nonneg l).
  destruct (decide (len l + (1 + 0) + -1 < 0)) as [|_]; [lia|].
  replace (Z.to_nat (len l + (1 + 0) + -1)) with (length l + 0)%nat
    by (unfold len; lia).
  by rewrite lookup_app_r, Nat.add_comm, Nat.add_sub by lia.
Qed.

Lemma index_app_l {A} (l1 l2 : list A) i :
  0 ≤ i < len l1 → index (l1 ++ l2) i = index l1 i.
Proof.
  intros Hi. rewrite !index_lookup by lia.
  by rewrite lookup_app_l by (unfold len in Hi; lia).
Qed.

Lemma index_Some {A} (l : list A) i x :
  0 ≤ i → l !! Z.to_nat i = Some x → index l i = Ok x.
Proof. intros Hi Hx. by rewrite index_lookup, Hx. Qed.

Lemma fill_rows_zip mu lo E ps :
  for_each (λ mu '(lo, hi, p), fill_blocks mu lo lo hi p) mu
    (zip (zip (lo :: E) E) ps)
  = fill_rows mu (windows_of lo E ps).
Proof.
  revert mu lo ps. induction E as [|e E IH]; intros mu lo [|p ps]; try done.
  rewrite !zip_cons. cbn [for_each windows_of]. rewrite fill_rows_cons.
  destruct (fill_blocks mu lo lo e p) as [mu'|err]; [|done]. py_simpl.
  apply IH.
Qed.

Lemma _to_minimaj_blocks_recon b ps :
  b ≠ [] → (length (_descents b) < length ps)%nat →
  _to_minimaj_blocks (tableau_of_rows b ps) = Ok (recon true b ps).
Proof.
  intros Hb Hps. unfold _to_minimaj_blocks, tableau_of_rows.
  set (L := reverse (reverse <$> ps)).
  rewrite index_last. py_simpl.
  replace (len (L ++ [b]) - 1) with (len L)
    by (rewrite len_app, len_cons, (@len_nil (list Z)); lia).
  rewrite (comprehension_ext _ (λ i, r ← index L i; Ok (reverse r))); cycle 1.
  { intros i Hi. apply elem_of_range in Hi. by rewrite index_app_l by lia. }
  rewrite comprehension_range_index.
  rewrite (comprehension_pure _ reverse) by done. py_simpl.
  replace (reverse (reverse <$> L)) with ps; cycle 1.
  { subst L. rewrite fmap_reverse, reverse_involutive, <-list_fmap_compose.
    rewrite <-(list_fmap_id ps) at 1. apply list_fmap_ext.
    intros; cbn. by rewrite reverse_involutive. }
  cbn zeta. rewrite len_fmap.
  set (mu0 := (λ i : Z, [i]) <$> b).
  set (E := _descents b ++ [len b - 1]).
  change ([0] ++ E) with (0 :: E).
  set (l := zip (zip (0 :: E) E) ps).
  assert (len (0 :: E) - 1 = len l) as Hl.
  { subst l E. unfold len.
    rewrite !length_zip_with. cbn [length]. rewrite !length_app. cbn [length]. lia. }
  rewrite Hl.
  rewrite (for_each_ext _ (λ mu f,
    t ← index l f; (λ mu '(lo, hi, p), fill_blocks mu lo lo hi p) mu t)); cycle 1.
  { intros mu f Hf. apply elem_of_range in Hf.
    assert (is_Some (l !! Z.to_nat f)) as [[[lo hi] p] Ht].
    { apply lookup_lt_is_Some. unfold len in Hf. lia. }
    rewrite (index_Some l f _ ltac:(lia) Ht). py_simpl.
    subst l. apply lookup_zip_with_Some in Ht as (xy & p' & Heq & Hxy & Hp).
    injection Heq as <- <-.
    apply lookup_zip_with_Some in Hxy as (x & y & Heq & Hx & Hy).
    injection Heq as <- <-.
    rewrite (index_Some _ f _ ltac:(lia) Hx). py_simpl.
    rewrite (index_Some (0 :: E) (f + 1) hi); [|lia|]; cycle 1.
    { replace (Z.to_nat (f + 1)) with (S (Z.to_nat f)) by lia. done. }
    py_simpl. unfold fill_blocks. apply for_each_ext. intros mu' j _.
    destruct (index mu' j) as [muj|e]; [|done]. py_simpl.
    by rewrite (index_Some _ f _ ltac:(lia) Hp). }
  rewrite for_each_range_index. subst l. rewrite fill_rows_zip.
  replace (windows_of 0 E ps) with (windows_from 0 0 E ps)
    by (by destruct E, ps).
  subst E mu0. by rewrite recon_by_windows.
Qed.

(** ** The rows of a minimaj word, and the blocks rebuilt from them *)

Lemma marked_rows_cons2 m m' mw :
  marked_rows (m :: m' :: mw)
  = if decide (m'.1 < m.1) then unmarked m :: marked_rows (m' :: mw)
    else match marked_rows (m' :: mw) with
         | p0 :: rest => (unmarked m ++ p0) :: rest
         | [] => [unmarked m]
         end.
Proof. done. Qed.

Lemma marked_rows_nonempty mw : mw ≠ [] → marked_rows mw ≠ [].
Proof.
  destruct mw as [|m [|m' mw]]; [done|done|]. intros _.
  rewrite marked_rows_cons2. destruct (decide (m'.1 < m.1)); [done|].
  by destruct (marked_rows (m' :: mw)).
Qed.

Lemma hd_letter_app A mw' :
  mw' ≠ [] → hd_letter (A ++ mw') ∈ A.*1 ++ [hd_letter mw'].
Proof.
  intros Hne. destruct A as [|m A]; [by left|]. by left.
Qed.

Lemma marked_rows_ascending A mw' :
  mw' ≠ [] →
  StronglySorted Z.le (A.*1 ++ [hd_letter mw']) →
  marked_rows (A ++ mw')
  = (mjoin (unmarked <$> A) ++ hd [] (marked_rows mw')) :: tail (marked_rows mw').
Proof.
  intros Hne. induction A as [|a A IH]; intros HS.
  { cbn. pose proof (marked_rows_nonempty mw' Hne).
    by destruct (marked_rows mw'). }
  cbn [fmap list_fmap app] in HS. apply StronglySorted_inv in HS as [HS Ha].
  specialize (IH HS).
  pose proof (hd_letter_app A mw' Hne) as Hhd.
  change ((a :: A) ++ mw') with (a :: (A ++ mw')).
  destruct (A ++ mw') as [|m' rest] eqn:E; [by destruct A|].
  rewrite marked_rows_cons2, IH.
  rewrite Forall_forall in Ha. specialize (Ha _ Hhd). cbn in Ha.
  destruct (decide (m'.1 < a.1)) as [Hd|_]; [unfold hd_letter in Ha; cbn in Ha; lia|].
  cbn [fmap list_fmap mjoin list_join]. by rewrite <-app_assoc.
Qed.

Lemma marked_rows_descent A mw' :
  A ≠ [] → mw' ≠ [] →
  StronglySorted Z.le A.*1 →
  Forall (λ a, hd_letter mw' < a) A.*1 →
  marked_rows (A ++ mw') = mjoin (unmarked <$> A) :: marked_rows mw'.
Proof.
  intros HA Hne. induction A as [|a A IH]; intros HS Hgt; [done|].
  cbn [fmap list_fmap] in HS, Hgt.
  apply StronglySorted_inv in HS as [HS Ha].
  apply Forall_cons in Hgt as [Hgta Hgt].
  destruct A as [|a' A].
  { destruct mw' as [|m' mw']; [done|].
    cbn [app]. rewrite marked_rows_cons2.
    unfold hd_letter in Hgta. cbn in Hgta.
    destruct (decide (m'.1 < a.1)); [|lia].
    cbn. by rewrite app_nil_r. }
  change ((a :: a' :: A) ++ mw') with (a :: a' :: (A ++ mw')).
  rewrite marked_rows_cons2.
  change (a' :: (A ++ mw')) with ((a' :: A) ++ mw').
  rewrite IH by done.
  apply Forall_cons in Ha as [Ha _].
  destruct (decide (a'.1 < a.1)); [lia|]. done.
Qed.

Lemma marked_rows_single A :
  A ≠ [] → StronglySorted Z.le A.*1 → marked_rows A = [mjoin (unmarked <$> A)].
Proof.
  intros HA. induction A as [|a A IH]; intros HS; [done|].
  cbn [fmap list_fmap] in HS. apply StronglySorted_inv in HS as [HS Ha].
  destruct A as [|a' A].
  { cbn. by rewrite app_nil_r. }
  rewrite marked_rows_cons2, IH by done.
  apply Forall_cons in Ha as [Ha _].
  destruct (decide (a'.1 < a.1)); [lia|]. done.
Qed.

Lemma mark_block_letters W : (mark_block W).*1 = W.
Proof.
  destruct W as [|a W]; [done|]. cbn. f_equal.
  rewrite <-list_fmap_compose. rewrite <-(list_fmap_id W) at 2.
  by apply list_fmap_ext.
Qed.

Lemma unmarked_letters (L : list Z) :
  mjoin (unmarked <$> ((λ x, (x, false)) <$> L)) = L.
Proof.
  induction L as [|a L IH]; [done|].
  change (mjoin (unmarked <$> ((λ x, (x, false)) <$> a :: L)))
    with ([a] ++ mjoin (unmarked <$> ((λ x, (x, false)) <$> L))).
  by rewrite IH.
Qed.

Lemma mark_block_unmarked W : mjoin (unmarked <$> mark_block W) = tail W.
Proof. destruct W as [|a W]; [done|]. cbn. apply unmarked_letters. Qed.

Lemma mark_block_app U L :
  U ≠ [] → mark_block (U ++ L) = mark_block U ++ ((λ x, (x, false)) <$> L).
Proof. destruct U as [|a U]; [done|]. intros _. cbn. by rewrite fmap_app. Qed.

(** *** Sorted lists without repetition *)

Lemma StronglySorted_le_lt l :
  StronglySorted Z.le l → NoDup l → StronglySorted Z.lt l.
Proof.
  induction 1 as [|a l Hl IH Ha]; intros Hnd; [constructor|].
  apply NoDup_cons in Hnd as [Hin Hnd]. constructor; [by apply IH|].
  rewrite Forall_forall in Ha |- *. intros x Hx. specialize (Ha x Hx).
  assert (a ≠ x) by (by intros ->). lia.
Qed.

Lemma StronglySorted_lt_le l : StronglySorted Z.lt l → StronglySorted Z.le l.
Proof.
  induction 1 as [|a l Hl IH Ha]; constructor; [done|].
  eapply Forall_impl; [exact Ha|]. cbn. intros; lia.
Qed.

Lemma StronglySorted_snoc l h :
  StronglySorted Z.le l → Forall (λ x, x ≤ h) l → StronglySorted Z.le (l ++ [h]).
Proof.
  induction 1 as [|a l Hl IH Ha]; intros Hh; [repeat constructor|].
  apply Forall_cons in Hh as [Hah Hh]. cbn. constructor; [by apply IH|].
  apply Forall_app. split; [done|]. by apply Forall_singleton.
Qed.

Lemma sorted_strict l : NoDup l → StronglySorted Z.lt (sorted l).
Proof.
  intros Hnd. apply StronglySorted_le_lt.
  - apply Sorted_StronglySorted; [intros x y z; lia|apply sorted_Sorted].
  - by rewrite sorted_Permutation.
Qed.

Lemma sorted_Forall (P : Z → Prop) l : Forall P l → Forall P (sorted l).
Proof. intros H. by rewrite sorted_Permutation. Qed.

Lemma filter_all {A} (P : A → Prop) `{!∀ x, Decision (P x)} l :
  Forall P l → filter P l = l.
Proof.
  induction 1 as [|a l Ha _ IH]; [done|].
  by rewrite filter_cons, decide_True, IH.
Qed.

Lemma filter_none {A} (P : A → Prop) `{!∀ x, Decision (P x)} l :
  Forall (λ x, ¬ P x) l → filter P l = [].
Proof.
  induction 1 as [|a l Ha _ IH]; [done|].
  by rewrite filter_cons, decide_False, IH.
Qed.

Lemma mj_word_parts h (els : list Z) :
  NoDup els →
  ∃ U L, mj_word h els = U ++ L
    ∧ StronglySorted Z.lt U ∧ Forall (λ x, h < x) U
    ∧ StronglySorted Z.lt L ∧ Forall (λ x, x ≤ h) L.
Proof.
  intros Hnd.
  exists (sorted (filter (λ j, ¬ j ≤ h) els)), (sorted (filter (λ j, j ≤ h) els)).
  split; [done|]. repeat split.
  - by apply sorted_strict, NoDup_filter.
  - apply sorted_Forall, Forall_forall. intros x Hx.
    apply list_elem_of_filter in Hx as [Hx _]. lia.
  - by apply sorted_strict, NoDup_filter.
  - apply sorted_Forall, Forall_forall. intros x Hx.
    by apply list_elem_of_filter in Hx as [Hx _].
Qed.

Lemma filter_junk (P : Z → Prop) `{!∀ x, Decision (P x)} (start : bool) X a :
  (start → X = []) → Forall (λ i, i ≤ a) X →
  (∀ i, P i → a < i ∨ start) → filter P X = [].
Proof.
  intros Hs HX HP. destruct start.
  - by rewrite Hs.
  - apply filter_none. eapply Forall_impl; [exact HX|]. cbn.
    intros i Hi HPi. destruct (HP i HPi) as [?|[]]. lia.
Qed.

Lemma mj_rows_recon c :
  valid c → c ≠ [] →
  ∃ p0 rest,
    rows (mj c) = p0 :: rest
    ∧ Forall (λ i, hd 0 (hd 0 <$> mj c) < i) p0
    ∧ length rest = length (_descents (hd 0 <$> mj c))
    ∧ ∀ (start : bool) X,
        (start → X = []) →
        Forall (λ i, i ≤ hd 0 (hd 0 <$> mj c)) X →
        recon start (hd 0 <$> mj c) ((X ++ p0) :: rest) = mj c.
Proof.
  induction c as [|B s IH]; intros Hv Hne; [done|].
  apply Forall_cons in Hv as [HB Hv].
  destruct (decide (s = [])) as [->|Hs].
  { cbn [mj].
    assert (StronglySorted Z.lt (sorted (elements B))) as HS
      by apply sorted_strict, NoDup_elements.
    destruct (sorted (elements B)) as [|a t] eqn:E.
    { apply sorted_nil_inv, elements_empty_inv in E.
      by apply leibniz_equiv in E. }
    apply StronglySorted_inv in HS as [HS Ha].
    exists t, []. unfold rows.
    change (mjoin (mark_block <$> [a :: t])) with (mark_block (a :: t) ++ []).
    rewrite app_nil_r, marked_rows_single; cycle 1; [done| |].
    { rewrite mark_block_letters. apply StronglySorted_lt_le.
      by constructor. }
    rewrite mark_block_unmarked. cbn [tail fmap list_fmap hd].
    repeat split; [done|].
    intros start X Hst HX. cbn [recon hd].
    rewrite filter_app, (filter_junk _ start X a), filter_all; try done.
    eapply Forall_impl; [exact Ha|]. cbn. intros; by left. }
  specialize (IH Hv Hs) as (p0' & rest' & Hrows & Hp0' & Hlen & Hrec).
  destruct (mj_cons_nonempty B s Hs Hv) as (x & W & C & E1 & E2).
  rewrite E2.
  destruct (mj_word_parts x (elements B) (NoDup_elements B))
    as (U & L & EW & HU & HUx & HL & HLx).
  rewrite EW.
  assert (U ++ L ≠ []) as HW.
  { rewrite <-EW. intros Hnil.
    pose proof (mj_word_Permutation x (elements B)) as HP.
    rewrite Hnil in HP. apply Permutation_nil_l in HP. symmetry in HP.
    apply elements_empty_inv in HP. by apply leibniz_equiv in HP. }
  set (mw' := mjoin (mark_block <$> mj s)).
  assert (marked_rows mw' = p0' :: rest') as Hmw' by done.
  assert (mw' ≠ [] ∧ hd_letter mw' = x) as [Hne' Hhd].
  { subst mw'. by rewrite E1. }
  assert (hd 0 <$> mj s = x :: (hd 0 <$> C)) as Hheads by (by rewrite E1).
  rewrite Hheads in Hp0', Hlen, Hrec. cbn [hd] in Hp0', Hrec.
  rewrite fmap_cons, Hheads.
  assert (rows ((U ++ L) :: mj s) = marked_rows (mark_block (U ++ L) ++ mw'))
    as -> by done.
  assert (StronglySorted Z.le (L ++ [x])) as HLs
    by (by apply StronglySorted_snoc; [apply StronglySorted_lt_le|]).
  destruct U as [|a t].
  - cbn [app] in HW |- *. destruct L as [|a t]; [done|].
    apply StronglySorted_inv in HL as [HL Ha].
    apply Forall_cons in HLx as [Hax HLx].
    rewrite marked_rows_ascending; [|done|]; cycle 1.
    { by rewrite mark_block_letters, Hhd. }
    rewrite mark_block_unmarked, Hmw'. cbn [tail hd].
    exists (t ++ p0'), rest'. repeat split.
    + apply Forall_app. split; [done|].
      eapply Forall_impl; [exact Hp0'|]. cbn. intros; lia.
    + rewrite _descents_cons, decide_False by lia.
      by rewrite app_nil_l, length_fmap.
    + intros start X Hst HX. cbn [hd] in HX.
      rewrite recon_cons2, decide_False by lia. cbn [hd tail].
      rewrite !filter_app.
      rewrite (filter_junk _ start X a), filter_all, filter_none; try done.
      * rewrite app_nil_l, app_nil_r. f_equal.
        rewrite app_assoc. apply Hrec; [done|].
        apply Forall_app. split; [|done].
        eapply Forall_impl; [exact HX|]. cbn. intros; lia.
      * eapply Forall_impl; [exact Hp0'|]. cbn. intros; lia.
      * apply Forall_forall. intros i Hi. rewrite Forall_forall in Ha, HLx.
        split; [left; by apply Ha|by apply HLx].
      * by intros i [Hi _].
  - apply StronglySorted_inv in HU as [HU Ha].
    apply Forall_cons in HUx as [Hax HUx].
    rewrite mark_block_app, <-app_assoc by done.
    assert (marked_rows (((λ x, (x, false)) <$> L) ++ mw')
            = (L ++ p0') :: rest') as HLrows.
    { rewrite marked_rows_ascending; [|done|]; cycle 1.
      { rewrite <-list_fmap_compose, Hhd.
        rewrite (list_fmap_ext _ id L) by done. by rewrite list_fmap_id. }
      by rewrite unmarked_letters, Hmw'. }
    rewrite marked_rows_descent; cycle 1.
    { done. }
    { by destruct L. }
    { rewrite mark_block_letters. apply StronglySorted_lt_le. by constructor. }
    { rewrite mark_block_letters.
      pose proof (hd_letter_app ((λ x, (x, false)) <$> L) mw' Hne') as Hin.
      rewrite <-list_fmap_compose, Hhd in Hin.
      rewrite (list_fmap_ext _ id L), list_fmap_id in Hin by done.
      assert (hd_letter (((λ x, (x, false)) <$> L) ++ mw') ≤ x) as Hle.
      { apply elem_of_app in Hin as [Hin|Hin].
        - rewrite Forall_forall in HLx. by apply HLx.
        - apply list_elem_of_singleton in Hin. lia. }
      eapply Forall_impl; [exact (Forall_cons_2 _ _ _ Hax HUx)|].
      cbn. intros; lia. }
    rewrite mark_block_unmarked, HLrows. cbn [tail hd app].
    exists t, ((L ++ p0') :: rest'). repeat split.
    + done.
    + rewrite _descents_cons, decide_True by lia.
      rewrite length_app, length_fmap. cbn. by rewrite Hlen.
    + intros start X Hst HX. cbn [hd] in HX.
      rewrite recon_cons2, decide_True by lia. cbn [hd tail].
      rewrite !filter_app.
      rewrite (filter_junk _ start X a), (filter_all _ t), (filter_all _ L),
        filter_none; try done.
      * rewrite app_nil_l, app_nil_r. f_equal. by apply Hrec.
      * eapply Forall_impl; [exact Hp0'|]. cbn. intros; lia.
      * eapply Forall_impl; [exact Ha|]. cbn. intros; by left.
Qed.

(** ** The family and the crystal behind [from_tableau] *)

Lemma OMPs_init_class cls fin cs fam :
  OMPs_init cls fin cs = Ok fam → fam_class fam = cls.
Proof.
  unfold OMPs_init. intros H.
  apply bind_Ok_inv in H as (cs' & _ & H). by injection H as <-.
Qed.

Lemma OMPs_two_args_class n ell k fam :
  OrderedMultisetPartitions [VInt n; VInt ell] {[ "length"%string := VInt k ]}
  = Ok fam →
  fam_class fam = OMPs_A_constraints (list_to_set (range 1 (n + 1))) ell.
Proof.
  unfold OrderedMultisetPartitions, normalize_weight, normalize_alphabet.
  rewrite lookup_singleton_ne by done. py_simpl.
  rewrite lookup_singleton_ne by done. py_simpl.
  cbn [alphabet_list]. py_simpl.
  rewrite !delete_singleton_ne by done.
  rewrite (bool_decide_eq_false_2 (_ = ∅)) by apply map_non_empty_singleton.
  intros H.
  repeat match type of H with
  | (if ?b then _ else _) = _ => destruct b
  end; try done; by apply OMPs_init_class in H.
Qed.

Lemma MinimajCrystal_init_inv n ell k B :
  MinimajCrystal_init n ell k = Ok B →
  0 < ell ∧ crystal_n B = n
  ∧ fam_class (_OMPs B) = OMPs_A_constraints (list_to_set (range 1 (n + 1))) ell.
Proof.
  unfold MinimajCrystal_init. case_bool_decide as Hell; [done|]. intros H.
  apply bind_Ok_inv in H as (fam & Hfam & H).
  apply bind_Ok_inv in H as (cos & _ & H).
  apply bind_Ok_inv in H as (gens & _ & H).
  injection H as <-. cbn. split; [lia|]. split; [done|].
  by apply OMPs_two_args_class in Hfam.
Qed.

(** *** Membership does not depend on the order of the letters in a block *)

Lemma block_ok_perm b b' : b ≡ₚ b' → block_ok b = block_ok b'.
Proof.
  intros Hp. unfold block_ok, Set_. apply bool_decide_ext.
  rewrite (list_to_set_perm_L b b' Hp), (Permutation_length Hp).
  split; intros [Hne Hl]; (split; [|done]); intros ->.
  - by apply Permutation_nil_r in Hp.
  - by apply Permutation_nil_l in Hp.
Qed.

Lemma _has_valid_blocks_perm x y :
  Forall2 (≡ₚ) x y → _has_valid_blocks x = _has_valid_blocks y.
Proof.
  unfold _has_valid_blocks. induction 1 as [|b b' x y Hb _ IH]; [done|].
  cbn [forallb]. by rewrite (block_ok_perm b b' Hb), IH.
Qed.

Lemma concat_perm (x y : list (list Z)) :
  Forall2 (≡ₚ) x y → mjoin x ≡ₚ mjoin y.
Proof.
  induction 1 as [|b b' x y Hb _ IH]; [done|].
  change (b ++ mjoin x ≡ₚ b' ++ mjoin y). by rewrite Hb, IH.
Qed.

Lemma len_fmap_perm (x y : list (list Z)) :
  Forall2 (≡ₚ) x y → len <$> x = len <$> y.
Proof.
  induction 1 as [|b b' x y Hb _ IH]; [done|].
  rewrite !fmap_cons, IH. f_equal. unfold len. by rewrite Hb.
Qed.

Lemma Set_fmap_perm (x y : list (list Z)) :
  Forall2 (≡ₚ) x y → Set_ <$> x = Set_ <$> y.
Proof.
  induction 1 as [|b b' x y Hb _ IH]; [done|].
  rewrite !fmap_cons, IH. f_equal. unfold Set_. by apply list_to_set_perm_L.
Qed.

Lemma _has_valid_blocks_A_perm A d x y :
  Forall2 (≡ₚ) x y → _has_valid_blocks_A A d x = _has_valid_blocks_A A d y.
Proof.
  intros H. unfold _has_valid_blocks_A, _concatenate, Set_. cbn zeta.
  rewrite (_has_valid_blocks_perm x y H), (len_fmap_perm x y H).
  by rewrite (list_to_set_perm_L _ _ (concat_perm x y H)).
Qed.

Lemma _satisfies_constraints_blocks_perm fam x y :
  Forall2 (≡ₚ) x y →
  _satisfies_constraints_blocks fam x = _satisfies_constraints_blocks fam y.
Proof.
  intros H. unfold _satisfies_constraints_blocks, OMPs_X_of_weight. cbn zeta.
  rewrite !Xtup_get_weight. unfold _has_valid_blocks_X, _concatenate. cbn zeta.
  rewrite (_has_valid_blocks_perm x y H), (Set_fmap_perm x y H).
  rewrite (sorted_unique _ _ (concat_perm x y H)).
  by rewrite bool_decide_eq_true_2 by done.
Qed.

Lemma contains_A_constraints fam A d x :
  fam_class fam = OMPs_A_constraints A d →
  contains fam x
  = if _has_valid_blocks_A A d x then _satisfies_constraints_blocks fam x
    else Ok false.
Proof. intros H. unfold contains. by rewrite H. Qed.

Lemma mj_iter_blocks_perm c : Forall2 (≡ₚ) (mj c) (iter_blocks c).
Proof.
  unfold iter_blocks. apply Forall2_fmap_r. apply mj_block_Permutation.
Qed.

(** *** The letters and the rows of the tableau *)

Lemma join_cons' {A} (l : list A) ls : mjoin (l :: ls) = l ++ mjoin ls.
Proof. done. Qed.

Lemma marked_rows_join mw : mjoin (marked_rows mw) = mjoin (unmarked <$> mw).
Proof.
  induction mw as [|m mw IH]; [done|].
  destruct mw as [|m' mw]; [reflexivity|].
  rewrite marked_rows_cons2, fmap_cons, join_cons', <-IH.
  destruct (decide (m'.1 < m.1)); [done|].
  pose proof (marked_rows_nonempty (m' :: mw) ltac:(done)) as Hne.
  destruct (marked_rows (m' :: mw)) as [|p0 rest]; [done|].
  by rewrite !join_cons', app_assoc.
Qed.

Lemma rows_letters Ws : mjoin (rows Ws) = mjoin (tail <$> Ws).
Proof.
  unfold rows. rewrite marked_rows_join.
  induction Ws as [|W Ws IH]; [done|].
  rewrite !fmap_cons, !join_cons', fmap_app, join_app, IH.
  by rewrite mark_block_unmarked.
Qed.

Lemma tableau_letters (P : Z → Prop) Ws :
  Forall (λ W, W ≠ []) Ws →
  Forall P (mjoin Ws) →
  Forall P (mjoin (tableau_of_rows (hd 0 <$> Ws) (rows Ws))).
Proof.
  intros Hne HP. rewrite Forall_forall in HP |- *. intros a Ha.
  apply HP. unfold tableau_of_rows in Ha.
  rewrite join_app in Ha. apply elem_of_app in Ha as [Ha|Ha].
  - apply list_elem_of_join in Ha as (l & Hal & Hl).
    rewrite elem_of_reverse in Hl.
    apply list_elem_of_fmap in Hl as (p & -> & Hp).
    rewrite elem_of_reverse in Hal.
    assert (a ∈ mjoin (rows Ws)) as Hin
      by (apply list_elem_of_join; by exists p).
    rewrite rows_letters in Hin.
    apply list_elem_of_join in Hin as (l & Hal' & Hl).
    apply list_elem_of_fmap in Hl as (W & -> & HW).
    apply list_elem_of_join. exists W. split; [|done].
    destruct W; [done|]. by right.
  - rewrite join_cons', app_nil_r in Ha.
    apply list_elem_of_fmap in Ha as (W & -> & HW).
    apply list_elem_of_join. exists W. split; [|done].
    rewrite Forall_forall in Hne. specialize (Hne W HW).
    destruct W; [done|]. by left.
Qed.

Lemma range_add n x y : range (n + x) (n + y) = (λ j, n + j) <$> range x y.
Proof.
  unfold range. replace (n + y - (n + x)) with (y - x) by lia.
  rewrite <-fmap_add_seqZ. done.
Qed.

Lemma index_app_r {A} (l1 l2 : list A) j :
  0 ≤ j → index (l1 ++ l2) (len l1 + j) = index l2 j.
Proof.
  intros Hj. pose proof (len_nonneg l1). rewrite !index_lookup by lia.
  rewrite lookup_app_r by (unfold len; lia).
  by replace (Z.to_nat (len l1 + j) - length l1)%nat with (Z.to_nat j)
    by (unfold len; lia).
Qed.

Lemma comprehension_index_prefix {A} (r w : list A) :
  comprehension (λ a, index (r ++ w) a) (range 0 (len r)) = Ok r.
Proof.
  rewrite (comprehension_ext _ (λ i, x ← index r i; Ok x)); cycle 1.
  { intros i Hi. apply elem_of_range in Hi. rewrite index_app_l by lia.
    by destruct (index r i). }
  rewrite comprehension_range_index.
  rewrite (comprehension_pure _ id) by done. by rewrite list_fmap_id.
Qed.

Lemma _partial_sum_hd l : ∃ S, _partial_sum l = 0 :: S.
Proof.
  destruct l as [|n l]; [by exists []|]. rewrite _partial_sum_cons. by eexists.
Qed.

Lemma split_at_partial_sums (t : list (list Z)) :
  comprehension
    (λ '(x, y), comprehension (λ a, index (mjoin t) a) (range x y))
    (zip (_partial_sum (len <$> t)) (tail (_partial_sum (len <$> t))))
  = Ok t.
Proof.
  induction t as [|r t IH]; [done|].
  rewrite fmap_cons, _partial_sum_cons.
  assert (Forall (λ x, 0 ≤ x) (_partial_sum (len <$> t))) as Hnn.
  { apply _partial_sum_nonneg, Forall_fmap, Forall_true.
    intros; apply len_nonneg. }
  destruct (_partial_sum_hd (len <$> t)) as (S & HS).
  rewrite HS in IH, Hnn |- *. cbn [tail] in IH |- *.
  rewrite fmap_cons, zip_cons.
  change (len r + 0 :: ((λ x, len r + x) <$> S))
    with ((λ x, len r + x) <$> (0 :: S)).
  rewrite zip_fmap_both. cbn [comprehension].
  rewrite join_cons', Z.add_0_r, comprehension_index_prefix. py_simpl.
  rewrite comprehension_fmap.
  rewrite (comprehension_ext _
    (λ '(x, y), comprehension (λ a, index (mjoin t) a) (range x y))); cycle 1.
  { intros [x y] Hxy. cbn [fst snd]. apply elem_of_zip_l in Hxy.
    rewrite Forall_forall in Hnn. specialize (Hnn x Hxy). cbn in Hnn.
    rewrite range_add, comprehension_fmap.
    apply comprehension_ext. intros j Hj. apply elem_of_range in Hj.
    apply index_app_r. lia. }
  by rewrite IH.
Qed.

Lemma Element_to_tableau_split (t : list (list Z)) :
  Element_to_tableau (mjoin t, _partial_sum (len <$> t)) = Ok t.
Proof.
  unfold Element_to_tableau.
  pose proof (comprehension_consecutive (_partial_sum (len <$> t))
    (λ '(x, y), comprehension (λ a, index (mjoin t) a) (range x y))) as H.
  cbv beta iota in H. rewrite H. apply split_at_partial_sums.
Qed.

(** ** The tableau inverse *)

Lemma to_minimaj_blocks_to_tableau c :
  valid c → c ≠ [] →
  ∃ t, to_tableau c = Ok t ∧ _to_minimaj_blocks t = Ok (mj c)
       ∧ t = tableau_of_rows (hd 0 <$> mj c) (rows (mj c)).
Proof.
  intros Hv Hne. eexists. split; [by apply to_tableau_rows|].
  split; [|done].
  destruct (mj_rows_recon c Hv Hne) as (p0 & rest & Hrows & _ & Hlen & Hrec).
  rewrite _to_minimaj_blocks_recon.
  - rewrite Hrows. f_equal. by apply (Hrec true []).
  - pose proof (mj_length c) as Hl. destruct c; [done|].
    by destruct (mj (_ :: _)).
  - rewrite Hrows. cbn. lia.
Qed.

(** C3. For an ordered multiset partition [c] of the family of a minimaj
    crystal [B] (the partitions over [{1,...,n}] of order [ell] with [k]
    blocks), the tableau [t = c.to_tableau()] is also the tableau of the
    element [b = B(c)] of the crystal, [B.from_tableau(t)] returns [b], and
    the blocks of [b] are the blocks of [c] in minimaj order: the inverse
    bijection recovers [c]. *)
Theorem from_tableau_to_tableau n ell k (B : MinimajCrystal) (c : omp) :
  MinimajCrystal_init n ell k = Ok B →
  contains (_OMPs B) (iter_blocks c) = Ok true →
  ∃ t b,
    to_tableau c = Ok t
    ∧ crystal_element_constructor B (iter_blocks c) = Ok b
    ∧ Element_to_tableau b = Ok t
    ∧ from_tableau B t = Ok b
    ∧ _minimaj_blocks_from_word_pair b = minimaj_blocks c
    ∧ ∃ mu : list (list Z),
        _minimaj_blocks_from_word_pair b = Ok mu ∧ Set_ <$> mu = c.
Proof.
  intros Hinit Hc.
  destruct (MinimajCrystal_init_inv n ell k B Hinit) as (Hell & Hn & Hcls).
  set (A := list_to_set (range 1 (n + 1)) : gset Z) in *.
  pose proof Hc as Hc'.
  rewrite (contains_A_constraints _ A ell _ Hcls) in Hc'.
  destruct (_has_valid_blocks_A A ell (iter_blocks c)) eqn:HA; [|done].
  unfold _has_valid_blocks_A in HA. cbn zeta in HA.
  apply andb_prop in HA as [HA Hletters]. apply andb_prop in HA as [Hrep Hord].
  apply bool_decide_eq_true_1 in Hord, Hletters.
  assert (valid c) as Hv.
  { unfold valid. unfold _has_valid_blocks, iter_blocks in Hrep.
    apply Is_true_true, forallb_True in Hrep.
    rewrite Forall_fmap in Hrep. eapply Forall_impl; [exact Hrep|].
    intros b Hb. cbn in Hb. apply Is_true_true, bool_decide_eq_true_1 in Hb as [Hb _].
    intros ->. by rewrite elements_empty in Hb. }
  assert (c ≠ []) as Hne.
  { intros ->. cbn in Hord. lia. }
  destruct (to_minimaj_blocks_to_tableau c Hv Hne) as (t & Ht & Hmu & Hteq).
  assert (Set_ <$> mj c = c) as Hsets.
  { rewrite (Set_fmap_perm _ _ (mj_iter_blocks_perm c)). apply Set_iter_blocks. }
  assert (OrderedMultisetPartition_of_sets c = c) as Hfil.
  { unfold OrderedMultisetPartition_of_sets. by apply filter_all. }
  assert (contains (_OMPs B) (mj c) = Ok true) as Hcmj.
  { rewrite (contains_A_constraints _ A ell (mj c) Hcls).
    rewrite (contains_A_constraints _ A ell (iter_blocks c) Hcls) in Hc.
    rewrite (_has_valid_blocks_A_perm _ _ _ _ (mj_iter_blocks_perm c)).
    by rewrite (_satisfies_constraints_blocks_perm _ _ _ (mj_iter_blocks_perm c)). }
  assert (element_of_tableau n t = Ok (mjoin t, _partial_sum (len <$> t))) as Hel.
  { unfold element_of_tableau.
    rewrite (comprehension_pure _ id); [by rewrite list_fmap_id|].
    intros a Ha. unfold Crystals.Letters.
    rewrite bool_decide_eq_true_2; [done|].
    revert a Ha. apply Forall_forall. subst t.
    apply tableau_letters; [by apply mj_nonempty|].
    apply Forall_forall. intros a Ha.
    pose proof (mj_concat_Permutation c) as HP. unfold _concatenate in HP.
    rewrite HP in Ha.
    assert (a ∈ A) as HaA.
    { apply Hletters. unfold Set_. by apply elem_of_list_to_set. }
    subst A. apply elem_of_list_to_set, elem_of_range in HaA. lia. }
  exists t, (mjoin t, _partial_sum (len <$> t)).
  split; [done|].
  assert (crystal_element_constructor B (mj c)
          = Ok (mjoin t, _partial_sum (len <$> t))) as Hb.
  { unfold crystal_element_constructor, element_constructor.
    rewrite Hcmj. py_simpl. rewrite Hsets, Hfil. py_simpl.
    rewrite Ht. py_simpl. by rewrite Hn. }
  split.
  { unfold crystal_element_constructor, element_constructor.
    rewrite Hc. py_simpl. rewrite Set_iter_blocks, Hfil. py_simpl.
    rewrite Ht. py_simpl. by rewrite Hn. }
  split; [apply Element_to_tableau_split|].
  split.
  { unfold from_tableau. rewrite Hmu. py_simpl. rewrite Hcmj. py_simpl. done. }
  unfold _minimaj_blocks_from_word_pair.
  rewrite Element_to_tableau_split. py_simpl. rewrite Hmu.
  split; [by rewrite minimaj_blocks_mj|]. by exists (mj c).
Qed.

Lemma from_tableau_to_tableau_witness :
  MinimajCrystal_init 2 3 2 = Ok crystal_2_3_2
  ∧ contains (_OMPs crystal_2_3_2) (iter_blocks (Set_ <$> [[1; 2]; [2]])) = Ok true
  ∧ ∃ t b,
      to_tableau (Set_ <$> [[1; 2]; [2]]) = Ok t
      ∧ crystal_element_constructor crystal_2_3_2
          (iter_blocks (Set_ <$> [[1; 2]; [2]])) = Ok b
      ∧ Element_to_tableau b = Ok t
      ∧ from_tableau crystal_2_3_2 t = Ok b
      ∧ _minimaj_blocks_from_word_pair b = minimaj_blocks (Set_ <$> [[1; 2]; [2]])
      ∧ ∃ mu : list (list Z),
          _minimaj_blocks_from_word_pair b = Ok mu
          ∧ Set_ <$> mu = Set_ <$> [[1; 2]; [2]].
Proof.
  assert (MinimajCrystal_init 2 3 2 = Ok crystal_2_3_2) as Hinit
    by (vm_compute; reflexivity).
  assert (contains (_OMPs crystal_2_3_2) (iter_blocks (Set_ <$> [[1; 2]; [2]]))
          = Ok true) as Hc by (vm_compute; reflexivity).
  split; [exact Hinit|]. split; [exact Hc|].
  exact (from_tableau_to_tableau 2 3 2 crystal_2_3_2 _ Hinit Hc).
Defined.

(** The crystal is a tensor power with [ell] factors: none is built for
    [ell = 0], and the empty tableau of the empty partition has no last row
    for [_to_minimaj_blocks] to read. *)
Remark no_crystal_without_letters n k :
  MinimajCrystal_init n 0 k = Raise AssertionError.
Proof. done. Qed.

Remark to_minimaj_blocks_empty_tableau :
  to_tableau [] = Ok [] ∧ _to_minimaj_blocks [] = Raise IndexError.
Proof. done. Qed.

(** * Further properties of the code *)

(** ** Further properties of the minimaj bijection *)

Lemma marked_rows_length (mw : list (Z * bool)) :
  mw ≠ [] → length (marked_rows mw) = S (length (_descents (mw.*1))).
Proof.
  induction mw as [|m mw IH]; [done|]. intros _.
  destruct mw as [|m' mw]; [done|].
  specialize (IH ltac:(done)).
  change (marked_rows (m :: m' :: mw)) with
    (if decide (m'.1 < m.1) then unmarked m :: marked_rows (m' :: mw)
     else match marked_rows (m' :: mw) with
          | p0 :: rest => (unmarked m ++ p0) :: rest
          | [] => [unmarked m]
          end).
  change ((m :: m' :: mw).*1) with (m.1 :: m'.1 :: mw.*1).
  change ((m' :: mw).*1) with (m'.1 :: mw.*1) in IH.
  rewrite _descents_cons, length_app, length_fmap.
  destruct (decide (m'.1 < m.1)); cbn [length]; [lia|].
  destruct (marked_rows (m' :: mw)); cbn [length] in *; lia.
Qed.

Lemma mark_blocks_letters (Ws : list (list Z)) :
  (mjoin (mark_block <$> Ws)).*1 = mjoin Ws.
Proof.
  induction Ws as [|W Ws IH]; [done|].
  change ((mjoin (mark_block <$> W :: Ws)).*1)
    with ((mark_block W ++ mjoin (mark_block <$> Ws)).*1).
  rewrite fmap_app, mark_block_letters, IH. done.
Qed.

Lemma rows_length (Ws : list (list Z)) :
  mjoin Ws ≠ [] → length (rows Ws) = S (length (_descents (mjoin Ws))).
Proof.
  intros Hne. unfold rows. rewrite marked_rows_length, mark_blocks_letters; [done|].
  intros E. apply Hne. rewrite <-mark_blocks_letters, E. done.
Qed.

Lemma heads_tails_Permutation (Ws : list (list Z)) :
  Forall (λ W, W ≠ []) Ws →
  mjoin (tail <$> Ws) ++ (hd 0 <$> Ws) ≡ₚ mjoin Ws.
Proof.
  induction 1 as [|W Ws HW _ IH]; [done|].
  destruct W as [|a W]; [done|]. cbn.
  rewrite <-IH. rewrite <-Permutation_middle.
  rewrite (assoc_L (++)). done.
Qed.

Lemma mjoin_reverse_Permutation {A} (L : list (list A)) :
  mjoin (reverse L) ≡ₚ mjoin L.
Proof.
  induction L as [|x L IH]; [done|].
  rewrite reverse_cons, join_app. cbn. rewrite app_nil_r, IH.
  apply Permutation_app_comm.
Qed.

Lemma mjoin_fmap_reverse_Permutation {A} (L : list (list A)) :
  mjoin (reverse <$> L) ≡ₚ mjoin L.
Proof.
  induction L as [|x L IH]; [done|].
  cbn. rewrite IH, reverse_Permutation. done.
Qed.

Lemma tableau_of_rows_Permutation (Ws : list (list Z)) :
  Forall (λ W, W ≠ []) Ws →
  mjoin (tableau_of_rows (hd 0 <$> Ws) (rows Ws)) ≡ₚ mjoin Ws.
Proof.
  intros HWs. unfold tableau_of_rows.
  rewrite join_app. cbn. rewrite app_nil_r.
  rewrite mjoin_reverse_Permutation, mjoin_fmap_reverse_Permutation.
  rewrite rows_letters. by apply heads_tails_Permutation.
Qed.

(** X1. For an ordered multiset partition [c] whose blocks are nonempty,
    [to_tableau] and [minimaj_blocks] return, and [_to_minimaj_blocks]
    applied to the tableau of [c] gives back exactly the minimaj blocks of
    [c], one per block of [c].  The tableau of the empty partition is the
    empty list, on which [_to_minimaj_blocks] raises [IndexError]. *)
Theorem to_minimaj_blocks_inverts_to_tableau (c : omp) :
  valid c →
  (c ≠ [] →
     ∃ t bb, to_tableau c = Ok t ∧ minimaj_blocks c = Ok bb
             ∧ _to_minimaj_blocks t = Ok bb ∧ length bb = length c)
  ∧ (c = [] →
     to_tableau c = Ok [] ∧ _to_minimaj_blocks [] = Raise IndexError).
Proof.
  intros Hv. split.
  - intros Hne.
    destruct (to_minimaj_blocks_to_tableau c Hv Hne) as (t & Ht & Hmu & _).
    exists t, (mj c). split; [done|].
    split; [by apply minimaj_blocks_mj|]. split; [done|]. apply mj_length.
  - intros ->. done.
Qed.

Lemma to_minimaj_blocks_inverts_to_tableau_witness :
  valid scenario4 ∧
  ((scenario4 ≠ [] →
     ∃ t bb, to_tableau scenario4 = Ok t ∧ minimaj_blocks scenario4 = Ok bb
             ∧ _to_minimaj_blocks t = Ok bb ∧ length bb = length scenario4)
  ∧ (scenario4 = [] →
     to_tableau scenario4 = Ok [] ∧ _to_minimaj_blocks [] = Raise IndexError)).
Proof.
  assert (H : valid scenario4) by (vm_compute; repeat constructor; done).
  split; [exact H|]. exact (to_minimaj_blocks_inverts_to_tableau scenario4 H).
Defined.

(** X2. The tableau of a partition [c] with nonempty blocks, [c] not empty:
    its last row lists the first letters of the minimaj blocks, it has one
    row above the last for every maximal run without descent of the minimaj
    word (number of descents plus one), and its letters are those of the
    minimaj word, each as often. *)
Theorem to_tableau_shape (c : omp) :
  valid c → c ≠ [] →
  ∃ t bb w,
    to_tableau c = Ok t ∧ minimaj_blocks c = Ok bb ∧ minimaj_word c = Ok w
    ∧ last t = Some (hd 0 <$> bb)
    ∧ length t = S (S (length (_descents w)))
    ∧ _concatenate t ≡ₚ w.
Proof.
  intros Hv Hne.
  exists (tableau_of_rows (hd 0 <$> mj c) (rows (mj c))), (mj c), (_concatenate (mj c)).
  split; [by apply to_tableau_rows|].
  split; [by apply minimaj_blocks_mj|].
  split; [by apply minimaj_word_mj|].
  pose proof (mj_nonempty c Hv) as Hmj.
  assert (mjoin (mj c) ≠ []) as Hw.
  { pose proof (mj_length c) as Hl.
    destruct (mj c) as [|W Ws]; [by destruct c|].
    apply Forall_cons in Hmj as [HW _]. by destruct W. }
  split; [|split].
  - unfold tableau_of_rows. by rewrite last_snoc.
  - unfold tableau_of_rows. rewrite length_app, length_reverse, length_fmap.
    rewrite rows_length by done. unfold _concatenate. cbn. lia.
  - by apply tableau_of_rows_Permutation.
Qed.

Lemma to_tableau_shape_witness :
  valid scenario4 ∧ scenario4 ≠ [] ∧
  ∃ t bb w,
    to_tableau scenario4 = Ok t ∧ minimaj_blocks scenario4 = Ok bb
    ∧ minimaj_word scenario4 = Ok w
    ∧ last t = Some (hd 0 <$> bb)
    ∧ length t = S (S (length (_descents w)))
    ∧ _concatenate t ≡ₚ w.
Proof.
  assert (H : valid scenario4) by (vm_compute; repeat constructor; done).
  assert (H' : scenario4 ≠ []) by done.
  split; [exact H|]. split; [exact H'|]. exact (to_tableau_shape scenario4 H H').
Defined.

(** ** Letter frequencies *)

Lemma get_weight_fold_lookup (l : list Z) (m : gmap Z Z) (k : Z) :
  foldl (λ out k, <[k := default 0 (out !! k) + 1]> out) m l !! k
  = if decide (k ∈ l)
    then Some (default 0 (m !! k) + len (filter (k =.) l))
    else m !! k.
Proof.
  revert m. induction l as [|x l IH]; intros m; [done|].
  cbn [foldl]. rewrite IH.
  destruct (decide (k = x)) as [<-|Hne].
  - rewrite filter_cons_True by done.
    rewrite lookup_insert_eq. cbn [default]. rewrite len_cons.
    rewrite (decide_True (P := k ∈ k :: l)) by left.
    destruct (decide (k ∈ l)) as [Hin|Hnin].
    + f_equal. unfold id. lia.
    + f_equal. rewrite (filter_none (k =.)); [unfold len; cbn; lia|].
      apply Forall_forall. intros y Hy ->. done.
  - rewrite filter_cons_False by done.
    rewrite lookup_insert_ne by done.
    destruct (decide (k ∈ l)) as [Hin|Hnin].
    + rewrite decide_True by by right. done.
    + rewrite decide_False; [done|]. intros [?|?]%elem_of_cons; done.
Qed.

Lemma get_weight_lookup (l : list Z) (k : Z) :
  _get_weight l !! k
  = if decide (k ∈ l) then Some (len (filter (k =.) l)) else None.
Proof.
  unfold _get_weight. rewrite get_weight_fold_lookup, lookup_empty.
  destruct (decide (k ∈ l)); [|done]. f_equal.
Qed.

(** X3. [_get_weight] counts: its dictionary holds exactly the letters of
    the list, each with its number of occurrences.  Listing the keys in
    increasing order, each as often as its value says (the [_Xtup] that
    [OrderedMultisetPartitions_X.__init__] builds from the items), gives the
    sorted list back. *)
Theorem get_weight_counts (l : list Z) :
  (∀ k, _get_weight l !! k
        = if decide (k ∈ l) then Some (len (filter (k =.) l)) else None)
  ∧ _Xtup (map_to_list (_get_weight l)) = sorted l.
Proof.
  split; [intros k; apply get_weight_lookup|apply Xtup_get_weight].
Qed.

(** ** Concatenation and deconcatenation *)

Lemma valid_app (a b : omp) : valid (a ++ b) ↔ valid a ∧ valid b.
Proof. apply Forall_app. Qed.

Lemma of_sets_valid (c : omp) :
  valid c → OrderedMultisetPartition_of_sets c = c.
Proof. intros Hv. by apply filter_all. Qed.

Lemma add_valid (a b : omp) : valid a → valid b → add a b = Ok (a ++ b).
Proof.
  intros Ha Hb. unfold add.
  apply (OMPs_X_self (a ++ b)). by apply valid_app.
Qed.

Lemma order_app (a b : omp) : order (a ++ b) = order a + order b.
Proof. unfold order. by rewrite fmap_app, sum_app. Qed.

Lemma get_multiset_app (a b : omp) :
  _get_multiset (a ++ b) ≡ₚ _get_multiset a ++ _get_multiset b.
Proof.
  unfold _get_multiset, _concatenate, iter_blocks.
  rewrite fmap_app, join_app. by rewrite !sorted_Permutation.
Qed.

(** X4. The sum [a + b] of two ordered multiset partitions with nonempty
    blocks is the list of the blocks of [a] followed by those of [b]; it
    never fails.  So the empty partition is neutral on both sides, the sum
    is associative, and order, number of blocks and multiset add up. *)
Theorem add_concatenates (a b c : omp) :
  valid a → valid b → valid c →
  add a b = Ok (a ++ b)
  ∧ add a [] = Ok a ∧ add [] a = Ok a
  ∧ (ab ← add a b; add ab c) = (bc ← add b c; add a bc)
  ∧ order (a ++ b) = order a + order b
  ∧ len (a ++ b) = len a + len b
  ∧ _get_multiset (a ++ b) = sorted (_get_multiset a ++ _get_multiset b).
Proof.
  intros Ha Hb Hc. split_and!.
  - by apply add_valid.
  - rewrite add_valid by (done || constructor). by rewrite app_nil_r.
  - by rewrite add_valid by (done || constructor).
  - rewrite !add_valid by done. py_simpl.
    rewrite !add_valid by (done || by apply valid_app).
    by rewrite (assoc_L (++)).
  - apply order_app.
  - apply len_app.
  - rewrite <-(sorted_unique _ _ (get_multiset_app a b)).
    apply (Sorted_unique Z.le); [apply sorted_Sorted..|].
    by rewrite !sorted_Permutation.
Qed.

Lemma add_concatenates_witness :
  valid scenario4 ∧ valid soll_C ∧ valid soll_D4 ∧
  add scenario4 soll_C = Ok (scenario4 ++ soll_C)
  ∧ (ab ← add scenario4 soll_C; add ab soll_D4)
    = (bc ← add soll_C soll_D4; add scenario4 bc).
Proof.
  assert (H1 : valid scenario4) by (apply (bool_decide_unpack _); by vm_compute).
  assert (H2 : valid soll_C) by (apply (bool_decide_unpack _); by vm_compute).
  assert (H3 : valid soll_D4) by (apply (bool_decide_unpack _); by vm_compute).
  split; [exact H1|]. split; [exact H2|]. split; [exact H3|].
  pose proof (add_concatenates scenario4 soll_C soll_D4 H1 H2 H3) as H.
  split; [exact (proj1 H)|].
  exact (proj1 (proj2 (proj2 (proj2 H)))).
Defined.

(** ** The parent used by [deconcatenate] and [split] *)

Lemma collapse_order_absent (m : gmap string value) :
  m !! "order"%string = None → m !! "min_order"%string = None →
  m !! "max_order"%string = None →
  collapse_bounds "order" "min_order" "max_order" m = Ok m.
Proof.
  intros H1 H2 H3. unfold collapse_bounds, get_bound.
  rewrite H1. rewrite bool_decide_eq_false_2 by (by intros [? ?]).
  by rewrite H2, H3.
Qed.

Lemma collapse_max_length (m : gmap string value) (n : Z) :
  m !! "length"%string = None → m !! "min_length"%string = None →
  m !! "max_length"%string = Some (VInt n) → 0 ≤ n →
  ∃ m', collapse_bounds "length" "min_length" "max_length" m = Ok m'
        ∧ ∀ key, key ≠ "length"%string → key ≠ "max_length"%string →
                 m' !! key = m !! key.
Proof.
  intros H1 H2 H3 Hn. unfold collapse_bounds, get_bound.
  rewrite H1. rewrite bool_decide_eq_false_2 by (by intros [? ?]).
  rewrite H2, H3. py_simpl. cbn [bound_le bound_eqb].
  rewrite bool_decide_eq_true_2 by done. cbn [negb].
  case_bool_decide as Hz.
  - unfold pop_required. rewrite H3. py_simpl.
    eexists. split; [done|]. intros key Hk1 Hk2.
    rewrite lookup_insert_ne by done.
    destruct (decide (key = "min_length"%string)) as [->|Hk3].
    + by rewrite lookup_delete_eq, H2.
    + by rewrite !lookup_delete_ne by done.
  - eexists. split; [done|]. done.
Qed.

Lemma all_constraints_parent (s : gset Z) (n : Z) :
  0 ≤ n →
  ∃ P, OrderedMultisetPartitions []
         {[ "alphabet"%string := VSet s; "max_length"%string := VInt n ]} = Ok P
       ∧ fam_class P = OMPs_all_constraints.
Proof.
  intros Hn. unfold OrderedMultisetPartitions, normalize_weight, normalize_alphabet.
  rewrite lookup_insert_ne by done. rewrite lookup_singleton_ne by done.
  py_simpl. rewrite lookup_insert_eq. cbn [value_alphabet]. py_simpl.
  rewrite insert_insert_eq.
  unfold OMPs_init, init_constraints.
  rewrite lookup_insert_eq. cbn [value_alphabet]. py_simpl.
  rewrite insert_insert_eq.
  rewrite lookup_insert_ne by done. rewrite lookup_singleton_ne by done.
  py_simpl.
  destruct (collapse_max_length
    {[ "alphabet"%string := VSet s; "max_length"%string := VInt n ]} n)
    as (m' & -> & Hm'); [by simplify_map_eq..|done|].
  py_simpl. rewrite collapse_order_absent; [py_simpl; eauto|..].
  all: rewrite Hm' by done; by simplify_map_eq.
Qed.

Lemma contains_all_constraints (P : family) (x : list (list Z)) :
  fam_class P = OMPs_all_constraints → contains P x = Ok (_has_valid_blocks x).
Proof. intros HP. unfold contains. by rewrite HP. Qed.

Lemma element_constructor_all (P : family) (c : omp) :
  fam_class P = OMPs_all_constraints → valid c →
  element_constructor P (iter_blocks c) = Ok c.
Proof.
  intros HP Hv. unfold element_constructor.
  rewrite contains_all_constraints by done. py_simpl.
  rewrite _has_valid_blocks_iter by done.
  by rewrite Set_iter_blocks, of_sets_valid.
Qed.

(** ** [deconcatenate] *)

Lemma elem_of_weak_compositions (n k : nat) (w : list Z) :
  w ∈ weak_compositions n k
  ↔ length w = k ∧ Forall (λ x, 0 ≤ x) w ∧ sum w = Z.of_nat n.
Proof.
  revert n w. induction k as [|k IH]; intros n w.
  - cbn [weak_compositions]. destruct n as [|n].
    + rewrite list_elem_of_singleton. split.
      * intros ->. done.
      * intros (Hl & _ & _). by destruct w.
    + split; [by intros ?%elem_of_nil|].
      intros (Hl & _ & Hs). destruct w; [|done]. cbn in Hs. lia.
  - cbn [weak_compositions]. rewrite list_elem_of_bind. split.
    + intros (a & Hw & Ha). apply list_elem_of_fmap in Hw as (w' & -> & Hw').
      apply elem_of_reverse, elem_of_seq in Ha.
      apply IH in Hw' as (Hl & Hnn & Hs).
      split; [cbn; by rewrite Hl|]. split; [constructor; [lia|done]|].
      rewrite sum_cons, Hs. lia.
    + intros (Hl & Hnn & Hs). destruct w as [|x w]; [done|].
      inv Hnn. rewrite sum_cons in Hs.
      assert (0 ≤ sum w) by by apply sum_nonneg.
      exists (Z.to_nat x). split.
      * apply list_elem_of_fmap. exists w. split; [f_equal; lia|].
        apply IH. split; [by injection Hl|]. split; [done|]. lia.
      * apply elem_of_reverse, elem_of_seq. lia.
Qed.

Lemma elem_of_IntegerListsLex_n_length (n k : Z) (w : list Z) :
  0 ≤ n → 0 ≤ k →
  w ∈ IntegerListsLex_n_length n k
  ↔ len w = k ∧ Forall (λ x, 0 ≤ x) w ∧ sum w = n.
Proof.
  intros Hn Hk. unfold IntegerListsLex_n_length.
  rewrite decide_False by lia. rewrite elem_of_weak_compositions.
  unfold len. split; intros (? & ? & ?); split_and!; try done; lia.
Qed.

Lemma index_fmap_range {A} (f : Z → A) (n i : Z) :
  0 ≤ i < n → index (f <$> range 0 n) i = Ok (f i).
Proof.
  intros Hi. apply index_Some; [lia|].
  rewrite list_lookup_fmap. unfold range.
  rewrite (lookup_seqZ_lt _ _ (Z.to_nat i)) by lia. cbn. f_equal. f_equal. lia.
Qed.

Lemma valid_fatten_chunk (c : omp) (g : list Z) (i : Z) :
  valid c → valid (fatten_chunk c g i).
Proof.
  intros Hv. unfold fatten_chunk, slice. by apply Forall_take, Forall_drop.
Qed.

Lemma deconcatenate_pieces (P : family) (c : omp) (g : list Z) (k : Z) :
  fam_class P = OMPs_all_constraints → valid c → len g = k →
  comprehension (λ i,
      a ← index ((λ i, sum (take (Z.to_nat i) g)) <$> range 0 (k + 1)) i;
      b ← index ((λ i, sum (take (Z.to_nat i) g)) <$> range 0 (k + 1)) (i + 1);
      element_constructor P (iter_blocks (slice c a b)))
    (range 0 (len ((λ i, sum (take (Z.to_nat i) g)) <$> range 0 (k + 1)) - 1))
  = Ok (fatten_chunk c g <$> range 0 (len g)).
Proof.
  intros HP Hv Hk.
  assert (0 ≤ k) as Hk0 by (subst k; apply len_nonneg).
  rewrite len_fmap.
  replace (len (range 0 (k + 1)) - 1) with (len g).
  2:{ unfold len at 2, range. rewrite length_seqZ. lia. }
  apply comprehension_pure. intros i Hi. apply elem_of_range in Hi.
  rewrite !index_fmap_range by lia. py_simpl.
  apply (element_constructor_all P (fatten_chunk c g i)); [done|].
  by apply valid_fatten_chunk.
Qed.

Lemma sum_len_take (t : list omp) (i : nat) :
  sum (take i (len <$> t)) = len (mjoin (take i t)).
Proof.
  revert i. induction t as [|x t IH]; intros [|i]; try done.
  cbn [fmap list_fmap take]. rewrite sum_cons.
  change (mjoin (x :: take i t)) with (x ++ mjoin (take i t)).
  rewrite len_app. f_equal. apply IH.
Qed.

Lemma drop_length_join (t : list omp) (i : nat) :
  drop (length (mjoin (take i t))) (mjoin t) = mjoin (drop i t).
Proof.
  revert i. induction t as [|x t IH]; intros [|i]; try done.
  cbn [take drop]. change (mjoin (x :: ?l)) with (x ++ mjoin l).
  change (mjoin (x :: take i t)) with (x ++ mjoin (take i t)).
  change (mjoin (x :: t)) with (x ++ mjoin t).
  rewrite length_app, drop_app_add'; [apply IH|done].
Qed.

Lemma chunks_of_lengths (t : list omp) :
  fatten_chunk (mjoin t) (len <$> t) <$> range 0 (len (len <$> t)) = t.
Proof.
  rewrite len_fmap, range_0_len, <-list_fmap_compose.
  apply list_eq. intros i. rewrite list_lookup_fmap.
  destruct (decide (i < length t)%nat) as [Hi|Hi].
  - rewrite lookup_seq_lt by done. cbn [fmap option_fmap option_map compose Nat.add].
    rewrite fatten_chunk_nat. rewrite !sum_len_take.
    destruct (lookup_lt_is_Some_2 t i Hi) as [x Hx]. rewrite Hx. f_equal.
    unfold len. rewrite !Nat2Z.id. rewrite drop_length_join.
    rewrite (take_S_r t i x Hx), join_app, length_app.
    rewrite (drop_S t x i Hx). cbn [mjoin list_join].
    rewrite app_nil_r.
    replace (length (mjoin (take i t)) + length x - length (mjoin (take i t)))%nat
      with (length x) by lia.
    by rewrite take_app_length.
  - rewrite lookup_seq_ge by lia. cbn. symmetry. apply lookup_ge_None. lia.
Qed.

Lemma add_all_join (t : list omp) (acc : omp) :
  valid acc → Forall valid t →
  foldl (λ acc x, a ← acc; add a x) (Ok acc) t = Ok (acc ++ mjoin t).
Proof.
  revert acc. induction t as [|x t IH]; intros acc Hacc Ht.
  { cbn. by rewrite app_nil_r. }
  inv Ht. cbn [foldl]. py_simpl. rewrite add_valid by done.
  rewrite IH; [|by apply valid_app|done].
  change (mjoin (x :: t)) with (x ++ mjoin t). by rewrite (assoc_L (++)).
Qed.

Lemma valid_join (t : list omp) : valid (mjoin t) → Forall valid t.
Proof.
  induction t as [|x t IH]; [done|].
  change (mjoin (x :: t)) with (x ++ mjoin t).
  intros [? ?]%valid_app. constructor; auto.
Qed.

(** X5. [deconcatenate(k)], for [k >= 0] and a partition [c] with nonempty
    blocks, returns exactly the [k]-tuples of (possibly empty) partitions
    whose blocks, put one after the other, are the blocks of [c]; adding up
    the members of such a tuple with [+] gives [c] again. *)
Theorem deconcatenate_spec (c : omp) (k : Z) :
  valid c → 0 ≤ k →
  ∃ S, deconcatenate c k = Ok S
       ∧ (∀ t, t ∈ S ↔ len t = k ∧ mjoin t = c)
       ∧ (∀ t, t ∈ S → foldl (λ acc x, a ← acc; add a x) (Ok []) t = Ok c).
Proof.
  intros Hv Hk. unfold deconcatenate.
  destruct (all_constraints_parent (letters c) (len c) (len_nonneg c))
    as (P & -> & HP). py_simpl.
  rewrite (comprehension_pure _ (λ g, fatten_chunk c g <$> range 0 (len g))).
  2:{ intros g Hg. apply elem_of_IntegerListsLex_n_length in Hg
        as (Hl & Hnn & Hs); [|apply len_nonneg|done].
      by apply deconcatenate_pieces. }
  py_simpl. eexists. split; [done|].
  assert (∀ t, t ∈ (list_to_set ((λ g, fatten_chunk c g <$> range 0 (len g))
                      <$> IntegerListsLex_n_length (len c) k) : gset (list omp))
               ↔ len t = k ∧ mjoin t = c) as Hchar.
  { intros t. rewrite elem_of_list_to_set, list_elem_of_fmap. split.
    - intros (g & -> & Hg).
      apply elem_of_IntegerListsLex_n_length in Hg
        as (Hl & Hnn & Hs); [|apply len_nonneg|done].
      split; [|by apply fatten_chunks_cover].
      rewrite len_fmap. unfold len at 1, range. rewrite length_seqZ. lia.
    - intros [Hl <-]. exists (len <$> t). split.
      + by rewrite chunks_of_lengths.
      + apply elem_of_IntegerListsLex_n_length; [apply len_nonneg|done|].
        split; [by rewrite len_fmap|]. split.
        * apply Forall_fmap, Forall_forall. intros x _. apply len_nonneg.
        * rewrite <-(firstn_all (len <$> t)), length_fmap, sum_len_take.
          by rewrite firstn_all. }
  split; [exact Hchar|].
  intros t [_ <-]%Hchar.
  rewrite (add_all_join t []); [done|constructor|by apply valid_join].
Qed.

Lemma deconcatenate_spec_witness :
  valid scenario4 ∧ 0 ≤ 3 ∧
  ∃ S, deconcatenate scenario4 3 = Ok S
       ∧ (∀ t, t ∈ S ↔ len t = 3 ∧ mjoin t = scenario4)
       ∧ (∀ t, t ∈ S →
            foldl (λ acc x, a ← acc; add a x) (Ok []) t = Ok scenario4).
Proof.
  assert (H1 : valid scenario4) by (apply (bool_decide_unpack _); by vm_compute).
  assert (H2 : 0 ≤ 3) by lia.
  split; [exact H1|]. split; [exact H2|].
  exact (deconcatenate_spec scenario4 3 H1 H2).
Defined.

(** ** Membership and rearrangements; [reversal] *)

Lemma sum_perm (l l' : list Z) : l ≡ₚ l' → sum l = sum l'.
Proof.
  induction 1 as [|x l l' _ IH|x y l|l1 l2 l3 _ IH1 _ IH2]; [done|..].
  - by rewrite !sum_cons, IH.
  - rewrite !sum_cons. lia.
  - by rewrite IH1.
Qed.

Lemma forallb_perm {A} (f : A → bool) (l l' : list A) :
  l ≡ₚ l' → forallb f l = forallb f l'.
Proof.
  induction 1 as [|x l l' _ IH|x y l|l1 l2 l3 _ IH1 _ IH2]; [done|..].
  - cbn. by rewrite IH.
  - cbn. by destruct (f x), (f y).
  - by rewrite IH1.
Qed.

Lemma sum_fmap_perm (x y : list (list Z)) :
  Forall2 (≡ₚ) x y → sum <$> x = sum <$> y.
Proof.
  induction 1 as [|b b' x y Hb _ IH]; [done|].
  rewrite !fmap_cons, IH. f_equal. by apply sum_perm.
Qed.

Lemma _has_valid_blocks_n_perm n x y :
  Forall2 (≡ₚ) x y → _has_valid_blocks_n n x = _has_valid_blocks_n n y.
Proof.
  intros H. unfold _has_valid_blocks_n, _concatenate. cbn zeta.
  rewrite (_has_valid_blocks_perm x y H), (sum_fmap_perm x y H).
  by rewrite (forallb_perm _ _ _ (concat_perm x y H)).
Qed.

Lemma _has_valid_blocks_X_perm X x y :
  Forall2 (≡ₚ) x y → _has_valid_blocks_X X x = _has_valid_blocks_X X y.
Proof.
  intros H. unfold _has_valid_blocks_X, _concatenate. cbn zeta.
  rewrite (_has_valid_blocks_perm x y H).
  by rewrite (sorted_unique _ _ (concat_perm x y H)).
Qed.

Lemma contains_letter_order (P : family) (x y : list (list Z)) :
  Forall2 (≡ₚ) x y → contains P x = contains P y.
Proof.
  intros H. unfold contains.
  destruct (fam_class P);
    rewrite ?(_has_valid_blocks_perm x y H), ?(_has_valid_blocks_n_perm _ x y H),
      ?(_has_valid_blocks_X_perm _ x y H), ?(_has_valid_blocks_A_perm _ _ x y H),
      ?(_satisfies_constraints_blocks_perm P x y H); done.
Qed.

Lemma _has_valid_blocks_n_block_order n (x y : list (list Z)) :
  x ≡ₚ y → _has_valid_blocks_n n x = _has_valid_blocks_n n y.
Proof.
  intros H. unfold _has_valid_blocks_n, _has_valid_blocks, _concatenate. cbn zeta.
  rewrite (forallb_perm _ x y H).
  rewrite (forallb_perm _ (mjoin x) (mjoin y)) by by rewrite H.
  by rewrite (sum_perm (sum <$> x) (sum <$> y)) by by rewrite H.
Qed.

Lemma _has_valid_blocks_X_block_order X (x y : list (list Z)) :
  x ≡ₚ y → _has_valid_blocks_X X x = _has_valid_blocks_X X y.
Proof.
  intros H. unfold _has_valid_blocks_X, _has_valid_blocks, _concatenate. cbn zeta.
  rewrite (forallb_perm _ x y H).
  by rewrite (sorted_unique (mjoin x) (mjoin y)) by by rewrite H.
Qed.

Lemma _has_valid_blocks_A_block_order A d (x y : list (list Z)) :
  x ≡ₚ y → _has_valid_blocks_A A d x = _has_valid_blocks_A A d y.
Proof.
  intros H. unfold _has_valid_blocks_A, _has_valid_blocks, _concatenate, Set_.
  cbn zeta. rewrite (forallb_perm _ x y H).
  rewrite (sum_perm (len <$> x) (len <$> y)) by by rewrite H.
  by rewrite (list_to_set_perm_L (mjoin x) (mjoin y)) by by rewrite H.
Qed.

Lemma get_multiset_perm (co co' : omp) :
  co ≡ₚ co' → _get_multiset co = _get_multiset co'.
Proof.
  intros H. unfold _get_multiset, _concatenate, iter_blocks.
  apply sorted_unique. by rewrite H.
Qed.

Lemma order_perm (co co' : omp) : co ≡ₚ co' → order co = order co'.
Proof. intros H. unfold order. apply sum_perm. by rewrite H. Qed.

Lemma union_of_sets_perm (co co' : omp) :
  co ≡ₚ co' → _union_of_sets co = _union_of_sets co'.
Proof.
  intros H. rewrite !_union_of_sets_Set. unfold Set_, _concatenate, iter_blocks.
  apply list_to_set_perm_L. by rewrite H.
Qed.

Lemma pass_test_perm (co co' : omp) key tst :
  co ≡ₚ co' → pass_test co key tst = pass_test co' key tst.
Proof.
  intros H. unfold pass_test, size, len.
  by rewrite (get_multiset_perm co co' H), (order_perm co co' H),
    (union_of_sets_perm co co' H), (Permutation_length H).
Qed.

Lemma all_pass_perm (co co' : omp) items :
  co ≡ₚ co' → all_pass co items = all_pass co' items.
Proof.
  intros H. induction items as [|[key val] items IH]; [done|].
  cbn [all_pass]. by rewrite (pass_test_perm co co' key val H), IH.
Qed.

Lemma _satisfies_constraints_blocks_block_order fam (x y : list (list Z)) :
  x ≡ₚ y →
  _satisfies_constraints_blocks fam x = _satisfies_constraints_blocks fam y.
Proof.
  intros H. unfold _satisfies_constraints_blocks, OMPs_X_of_weight. cbn zeta.
  rewrite !Xtup_get_weight.
  rewrite (_has_valid_blocks_X_block_order _ x y H).
  rewrite (sorted_unique (_concatenate x) (_concatenate y))
    by (unfold _concatenate; by rewrite H).
  destruct (_has_valid_blocks_X _ y); [|done]. py_simpl.
  apply all_pass_perm. by rewrite H.
Qed.

Lemma contains_block_order (P : family) (x y : list (list Z)) :
  x ≡ₚ y → contains P x = contains P y.
Proof.
  intros H. unfold contains.
  destruct (fam_class P);
    rewrite ?(_has_valid_blocks_n_block_order _ x y H),
      ?(_has_valid_blocks_X_block_order _ x y H),
      ?(_has_valid_blocks_A_block_order _ _ x y H),
      ?(_satisfies_constraints_blocks_block_order P x y H); try done.
  unfold _has_valid_blocks. by rewrite (forallb_perm _ x y H).
Qed.

(** X6. Membership of a list of blocks in a family, whatever the class and
    the constraints of the family, depends neither on the order in which the
    letters of a block are listed nor on the order of the blocks: if [z]
    lists the blocks of [x] with their letters rearranged and [y] is a
    rearrangement of the blocks of [z], then [x in P] and [y in P] give the
    same answer or raise the same exception. *)
Theorem contains_rearranged (P : family) (x z y : list (list Z)) :
  Forall2 (≡ₚ) x z → z ≡ₚ y → contains P x = contains P y.
Proof.
  intros Hxz Hzy.
  rewrite (contains_letter_order P x z Hxz). by apply contains_block_order.
Qed.

Lemma contains_rearranged_witness :
  Forall2 (≡ₚ) [[1; 2]; [3]] [[2; 1]; [3]]
  ∧ [[2; 1]; [3]] ≡ₚ [[3]; [2; 1]]
  ∧ contains (_OMPs crystal_2_3_2) [[1; 2]; [3]]
    = contains (_OMPs crystal_2_3_2) [[3]; [2; 1]].
Proof.
  assert (H1 : Forall2 (≡ₚ) [[1; 2]; [3]] [[2; 1]; [3]]).
  { repeat constructor. }
  assert (H2 : [[2; 1]; [3]] ≡ₚ [[3]; [2; 1]]) by apply perm_swap.
  split; [exact H1|]. split; [exact H2|].
  exact (contains_rearranged (_OMPs crystal_2_3_2) _ _ _ H1 H2).
Defined.

Lemma iter_blocks_reverse (c : omp) :
  iter_blocks (reverse c) = reverse (iter_blocks c).
Proof. unfold iter_blocks. by rewrite fmap_reverse. Qed.

Lemma valid_reverse (c : omp) : valid c → valid (reverse c).
Proof. intros H. by apply Forall_reverse. Qed.

Lemma element_constructor_member (P : family) (c : omp) :
  valid c → contains P (iter_blocks c) = Ok true →
  element_constructor P (iter_blocks c) = Ok c.
Proof.
  intros Hv Hc. unfold element_constructor. rewrite Hc. py_simpl.
  by rewrite Set_iter_blocks, of_sets_valid.
Qed.

(** X7. [reversal()] of an element [c] of its parent [P] returns the blocks
    of [c] in the opposite order; the result belongs to [P] again, and
    reversing it gives [c] back.  When [c] does not belong to [P] the
    element constructor raises [AssertionError]. *)
Theorem reversal_involution (P : family) (c : omp) :
  valid c →
  (contains P (iter_blocks c) = Ok true →
     reversal P c = Ok (reverse c)
     ∧ contains P (iter_blocks (reverse c)) = Ok true
     ∧ reversal P (reverse c) = Ok c)
  ∧ (contains P (iter_blocks c) = Ok false →
     reversal P c = Raise AssertionError).
Proof.
  intros Hv.
  assert (contains P (iter_blocks (reverse c)) = contains P (iter_blocks c)) as E.
  { apply contains_block_order. rewrite iter_blocks_reverse.
    apply reverse_Permutation. }
  split.
  - intros Hc. split_and!.
    + unfold reversal. apply element_constructor_member; [by apply valid_reverse|].
      by rewrite E.
    + by rewrite E.
    + unfold reversal. rewrite reverse_involutive.
      by apply element_constructor_member.
  - intros Hc. unfold reversal, element_constructor. by rewrite E, Hc.
Qed.

Lemma reversal_involution_witness :
  valid (Set_ <$> [[1; 2]; [1]]) ∧
  contains (_OMPs crystal_2_3_2) (iter_blocks (Set_ <$> [[1; 2]; [1]])) = Ok true ∧
  reversal (_OMPs crystal_2_3_2) (Set_ <$> [[1; 2]; [1]])
  = Ok (reverse (Set_ <$> [[1; 2]; [1]])).
Proof.
  assert (H1 : valid (Set_ <$> [[1; 2]; [1]]))
    by (apply (bool_decide_unpack _); by vm_compute).
  assert (H2 : contains (_OMPs crystal_2_3_2) (iter_blocks (Set_ <$> [[1; 2]; [1]]))
               = Ok true) by (vm_compute; reflexivity).
  split; [exact H1|]. split; [exact H2|].
  exact (proj1 (proj1 (reversal_involution (_OMPs crystal_2_3_2) _ H1) H2)).
Defined.

(** ** Lists with zeros *)

Lemma list_snoc_or_nil {A} (l : list A) : l = [] ∨ ∃ l' x, l = l' ++ [x].
Proof. induction l as [|x l _] using rev_ind; [by left|right; eauto]. Qed.

Lemma length_Set_NoDup (b : list Z) :
  length (elements (Set_ b)) = length b → NoDup b.
Proof.
  intros H.
  induction b as [|a b IH]; [constructor|].
  pose proof (length_elements_Set_le b) as Hle.
  assert (∀ X : gset Z, length (elements X) = base.size X) as Hsz by done.
  unfold Set_ in *. cbn [list_to_set length] in H.
  rewrite Hsz in H, Hle.
  destruct (decide (a ∈ b)) as [Hin|Hnin].
  - exfalso.
    assert (({[a]} ∪ list_to_set b : gset Z) = list_to_set b) as E by set_solver.
    rewrite E in H. lia.
  - constructor; [done|]. apply IH. rewrite Hsz.
    rewrite size_union in H by set_solver. rewrite size_singleton in H. lia.
Qed.

Lemma block_ok_NoDup (b : list Z) : block_ok b = true → NoDup b.
Proof.
  intros H. apply bool_decide_eq_true in H as [_ H]. by apply length_Set_NoDup.
Qed.

Lemma elements_Set_perm (b : list Z) :
  block_ok b = true → elements (Set_ b) ≡ₚ b.
Proof.
  intros H. apply block_ok_NoDup in H. unfold Set_.
  by apply elements_list_to_set.
Qed.

Lemma contains_true_blocks (P : family) (x : list (list Z)) :
  contains P x = Ok true → _has_valid_blocks x = true.
Proof.
  unfold contains, _has_valid_blocks_n, _has_valid_blocks_X, _has_valid_blocks_A.
  cbn zeta. destruct (fam_class P); destruct (_has_valid_blocks x); try done;
    cbn [andb]; try done.
Qed.

Lemma element_class_valid (P : family) (c : omp) :
  valid c →
  element_class P c
  = b ← contains P (iter_blocks c);
    if b : bool then Ok c else Raise ValueError.
Proof. intros Hv. unfold element_class. cbn zeta. by rewrite of_sets_valid. Qed.

Lemma Set_blocks_valid (bs : list (list Z)) :
  Forall (λ b, b ≠ []) bs → valid (Set_ <$> bs).
Proof.
  intros H. apply Forall_fmap. eapply Forall_impl; [exact H|].
  intros b Hb. cbn. unfold Set_. destruct b as [|a b]; [done|]. set_solver.
Qed.

Lemma element_class_blocks (P : family) (bs : list (list Z)) :
  _has_valid_blocks bs = true →
  element_class P (Set_ <$> bs)
  = b ← contains P bs;
    if b : bool then Ok (Set_ <$> bs) else Raise ValueError.
Proof.
  intros Hbs. apply Is_true_true, forallb_True in Hbs.
  rewrite element_class_valid.
  2:{ apply Set_blocks_valid. eapply Forall_impl; [exact Hbs|].
      intros b Hb. cbn in Hb. apply Is_true_true in Hb.
      by apply bool_decide_eq_true in Hb as [? _]. }
  rewrite (contains_letter_order P (iter_blocks (Set_ <$> bs)) bs); [done|].
  unfold iter_blocks. rewrite <-list_fmap_compose.
  apply Forall2_fmap_l, Forall_Forall2_diag.
  eapply Forall_impl; [exact Hbs|]. intros b Hb. cbn in *.
  apply elements_Set_perm. by apply Is_true_true.
Qed.

Lemma element_class_member (P : family) (bs : list (list Z)) :
  contains P bs = Ok true → element_class P (Set_ <$> bs) = Ok (Set_ <$> bs).
Proof.
  intros Hc. rewrite element_class_blocks by by apply (contains_true_blocks P).
  by rewrite Hc.
Qed.

Lemma zero_list_block (co : list (list Z)) (blk b : list Z) :
  Forall (λ a, a ≠ 0) b →
  foldl zero_list_step (co, blk) b = (co, blk ++ b).
Proof.
  revert blk. induction b as [|a b IH]; intros blk Hb.
  { by rewrite app_nil_r. }
  inv Hb. cbn [foldl zero_list_step].
  rewrite bool_decide_eq_false_2 by done.
  rewrite IH by done. by rewrite <-(assoc_L (++)).
Qed.

Lemma zero_list_blocks (co bs : list (list Z)) :
  Forall (λ b, b ≠ [] ∧ Forall (λ a, a ≠ 0) b) bs →
  foldl zero_list_step (co, []) (zero_list bs) = (co ++ bs, []).
Proof.
  revert co. induction bs as [|b bs IH]; intros co Hbs.
  { by rewrite app_nil_r. }
  inv Hbs. destruct H1 as [Hne Hnz]. unfold zero_list.
  rewrite fmap_cons. change (mjoin (?x :: ?l)) with (x ++ mjoin l).
  rewrite !foldl_app, zero_list_block by done.
  cbn [foldl zero_list_step app].
  rewrite bool_decide_eq_true_2 by done.
  rewrite bool_decide_eq_true_2 by done.
  unfold zero_list in IH. rewrite IH by done.
  by rewrite <-(assoc_L (++)).
Qed.

Lemma zero_list_snoc (bs : list (list Z)) (b : list Z) :
  zero_list (bs ++ [b]) = zero_list bs ++ b ++ [0].
Proof.
  unfold zero_list. rewrite fmap_app, join_app. cbn. by rewrite app_nil_r.
Qed.

Lemma from_zero_list_unfold (P : family) (l : list Z) :
  _from_zero_list P l
  = last ← index l (-1);
    let l' := if bool_decide (last ≠ 0) then l ++ [0] else l in
    b ← contains P (foldl zero_list_step ([], []) l').1;
    if b : bool
    then element_class P (Set_ <$> (foldl zero_list_step ([], []) l').1)
    else Raise ValueError.
Proof.
  unfold _from_zero_list. destruct (index l (-1)) as [last|e]; [|done].
  py_simpl. cbn zeta.
  match goal with
  | |- context [foldl ?f ([], []) ?l'] =>
      replace (foldl f ([], []) l') with (foldl zero_list_step ([], []) l')
  end.
  { by destruct (foldl zero_list_step _ _). }
  generalize (@nil (list Z), @nil Z).
  generalize (if bool_decide (last ≠ 0) then l ++ [0] else l).
  intros l'. induction l' as [|a l' IH]; intros [co blk]; [done|].
  cbn [foldl]. rewrite <-IH. done.
Qed.

Lemma Set_blocks_nonempty (bs : list (list Z)) :
  Forall (λ b, b ≠ []) bs →
  OrderedMultisetPartition_of_sets (Set_ <$> bs) = Set_ <$> bs.
Proof.
  intros H. apply of_sets_valid. apply Forall_fmap.
  eapply Forall_impl; [exact H|]. intros b Hb. cbn. unfold Set_.
  destruct b as [|a b]; [done|]. set_solver.
Qed.

Lemma existsb_false {A} (f : A → bool) (l : list A) :
  Forall (λ a, f a = false) l → existsb f l = false.
Proof. induction 1 as [|a l Ha _ IH]; [done|]. cbn. by rewrite Ha, IH. Qed.

Section zero_list.
Context (P : family) (bs : list (list Z)).
Hypothesis Hne : bs ≠ [].
Hypothesis Hblocks : Forall (λ b, b ≠ [] ∧ Forall (λ a, 0 < a) b) bs.

Lemma zero_list_blocks_nonzero :
  Forall (λ b, b ≠ [] ∧ Forall (λ a, a ≠ 0) b) bs.
Proof using Hblocks.
  eapply Forall_impl; [exact Hblocks|]. intros b [? Hb]. split; [done|].
  eapply Forall_impl; [exact Hb|]. intros a Ha; cbn in *. lia.
Qed.

Lemma zero_list_blocks_nonempty : Forall (λ b, b ≠ []) bs.
Proof using Hblocks.
  eapply Forall_impl; [exact Hblocks|]. by intros b [? _].
Qed.

Lemma from_zero_list_blocks :
  _from_zero_list P (zero_list bs)
  = b ← contains P bs;
    if b : bool then Ok (Set_ <$> bs) else Raise ValueError.
Proof using Hne Hblocks.
  rewrite from_zero_list_unfold.
  destruct (list_snoc_or_nil bs) as [?|(bs' & b & E)]; [done|].
  rewrite E at 1. rewrite zero_list_snoc.
  rewrite !(assoc_L (++)), index_last. py_simpl.
  rewrite bool_decide_eq_false_2 by (intros H; by apply H). cbn zeta.
  rewrite zero_list_blocks by apply zero_list_blocks_nonzero.
  cbn [fst app]. destruct (contains P bs) as [[|]|e] eqn:Hc; [|done..].
  py_simpl. by apply element_class_member.
Qed.

Lemma from_zero_list_no_last_zero :
  _from_zero_list P (removelast (zero_list bs))
  = b ← contains P bs;
    if b : bool then Ok (Set_ <$> bs) else Raise ValueError.
Proof using Hne Hblocks.
  rewrite <-from_zero_list_blocks.
  rewrite !from_zero_list_unfold.
  destruct (list_snoc_or_nil bs) as [?|(bs' & b & E)]; [done|].
  assert (b ≠ [] ∧ Forall (λ a, 0 < a) b) as [Hb Hpos].
  { rewrite Forall_forall in Hblocks. apply Hblocks. rewrite E. set_solver. }
  destruct (list_snoc_or_nil b) as [?|(b' & z & Eb)]; [done|].
  assert (0 < z) as Hz.
  { rewrite Forall_forall in Hpos. apply Hpos. rewrite Eb. set_solver. }
  rewrite E, zero_list_snoc.
  rewrite (assoc_L (++) _ b [0]), removelast_last.
  rewrite index_last. py_simpl.
  rewrite bool_decide_eq_false_2 by (intros H; by apply H). cbn zeta.
  rewrite Eb, (assoc_L (++) _ b' [z]), index_last. py_simpl.
  rewrite bool_decide_eq_true_2 by lia. cbn zeta.
  by rewrite <-!(assoc_L (++)).
Qed.

Lemma zero_list_has_zero : 0 ∈ zero_list bs.
Proof using Hne.
  clear Hblocks. destruct bs as [|b bs']; [done|]. unfold zero_list.
  rewrite fmap_cons. change (mjoin (?x :: ?l)) with (x ++ mjoin l).
  set_solver.
Qed.

Lemma zero_list_nonneg : Forall (λ a, 0 ≤ a) (zero_list bs).
Proof using Hblocks.
  unfold zero_list. apply Forall_forall. intros a Ha.
  apply list_elem_of_join in Ha as (l & Ha & Hl).
  apply list_elem_of_fmap in Hl as (b & -> & Hb).
  rewrite Forall_forall in Hblocks. destruct (Hblocks b Hb) as [_ Hpos].
  apply elem_of_app in Ha as [Ha|Ha].
  - rewrite Forall_forall in Hpos. specialize (Hpos a Ha). cbn in Hpos. lia.
  - apply list_elem_of_singleton in Ha as ->. done.
Qed.

Lemma from_list_blocks :
  from_list P (zero_list bs)
  = b ← contains P bs;
    if b : bool then Ok (Set_ <$> bs) else Raise ValueError.
Proof using Hne Hblocks.
  unfold from_list. rewrite existsb_false.
  2:{ eapply Forall_impl; [apply zero_list_nonneg|]. intros a Ha. cbn in *.
      apply bool_decide_eq_false. lia. }
  rewrite bool_decide_eq_true_2 by apply zero_list_has_zero.
  apply from_zero_list_blocks.
Qed.

End zero_list.

Lemma filter_nonzero_zero_list (bs : list (list Z)) :
  Forall (λ b, Forall (λ a, a ≠ 0) b) bs →
  filter (λ c, c ≠ 0) (zero_list bs) = mjoin bs.
Proof.
  unfold zero_list. induction 1 as [|b bs Hb _ IH]; [done|].
  rewrite fmap_cons. change (mjoin (?x :: ?l)) with (x ++ mjoin l).
  rewrite !filter_app, IH. rewrite (filter_all _ b) by done.
  rewrite filter_cons_False by (intros H; by apply H).
  rewrite filter_nil. by rewrite app_nil_r.
Qed.

Lemma OMPs_X_init (X : list (Z * Z)) :
  ∃ P, OMPs_init (OMPs_X_class X) true ∅ = Ok P
       ∧ fam_class P = OMPs_X_class X.
Proof.
  unfold OMPs_init.
  assert (init_constraints ∅ = Ok ∅) as -> by (vm_compute; reflexivity).
  py_simpl. eauto.
Qed.

Lemma contains_X_class (P : family) X (x : list (list Z)) :
  fam_class P = OMPs_X_class X →
  contains P x = Ok (_has_valid_blocks_X (_Xtup X) x).
Proof. intros HP. unfold contains. by rewrite HP. Qed.

(** X8. A list with zeros is read as it is written.  Let [bs] be a nonempty
    list of nonempty blocks of positive letters and [zero_list bs] the list
    that writes every block followed by a zero.  Then [from_list] of any
    parent [P] returns the partition with the blocks [bs] when [bs] belongs
    to [P], and raises [ValueError] when it does not; the final zero may be
    left out for [_from_zero_list]; and the constructor
    [OrderedMultisetPartition], whose parent is the family of the multiset of
    the nonzero entries, returns that partition unless a block repeats a
    letter, in which case it raises [ValueError]. *)
Theorem from_list_zero_list (P : family) (bs : list (list Z)) :
  bs ≠ [] →
  Forall (λ b, b ≠ [] ∧ Forall (λ a, 0 < a) b) bs →
  from_list P (zero_list bs)
    = (b ← contains P bs;
       if b : bool then Ok (Set_ <$> bs) else Raise ValueError)
  ∧ _from_zero_list P (removelast (zero_list bs)) = from_list P (zero_list bs)
  ∧ OrderedMultisetPartition_of_list (zero_list bs)
    = if _has_valid_blocks bs then Ok (Set_ <$> bs) else Raise ValueError.
Proof.
  intros Hne Hblocks. split_and!.
  - by apply from_list_blocks.
  - by rewrite from_zero_list_no_last_zero, from_list_blocks.
  - unfold OrderedMultisetPartition_of_list.
    rewrite bool_decide_eq_false_2.
    2:{ intros E. pose proof (zero_list_has_zero bs Hne) as H.
        rewrite E in H. by apply elem_of_nil in H. }
    destruct (OMPs_X_init (map_to_list (_get_weight (filter (λ c, c ≠ 0) (zero_list bs)))))
      as (Q & -> & HQ). py_simpl.
    rewrite from_list_blocks by done.
    rewrite (contains_X_class Q _ bs HQ). py_simpl.
    rewrite Xtup_get_weight, filter_nonzero_zero_list.
    2:{ eapply Forall_impl; [exact Hblocks|]. intros b [_ Hb].
        eapply Forall_impl; [exact Hb|]. intros a Ha; cbn in *. lia. }
    unfold _has_valid_blocks_X, _concatenate. cbn zeta.
    rewrite bool_decide_eq_true_2 by done. rewrite andb_true_r.
    destruct (_has_valid_blocks bs) eqn:Hbs; [|done]. py_simpl.
    apply element_class_member. rewrite (contains_X_class Q _ bs HQ).
    rewrite Xtup_get_weight, filter_nonzero_zero_list.
    2:{ eapply Forall_impl; [exact Hblocks|]. intros b [_ Hb].
        eapply Forall_impl; [exact Hb|]. intros a Ha; cbn in *. lia. }
    unfold _has_valid_blocks_X, _concatenate. cbn zeta.
    by rewrite Hbs, bool_decide_eq_true_2.
Qed.

Lemma from_list_zero_list_witness :
  [[1]; [1; 3; 5]; [2; 1]] ≠ [] ∧
  Forall (λ b, b ≠ [] ∧ Forall (λ a, 0 < a) b) [[1]; [1; 3; 5]; [2; 1]] ∧
  OrderedMultisetPartition_of_list (zero_list [[1]; [1; 3; 5]; [2; 1]])
  = if _has_valid_blocks [[1]; [1; 3; 5]; [2; 1]]
    then Ok (Set_ <$> [[1]; [1; 3; 5]; [2; 1]]) else Raise ValueError.
Proof.
  assert (H1 : [[1]; [1; 3; 5]; [2; 1]] ≠ []) by done.
  assert (H2 : Forall (λ b, b ≠ [] ∧ Forall (λ a, 0 < a) b)
                 [[1]; [1; 3; 5]; [2; 1]]).
  { repeat (constructor; [split; [done|]; repeat constructor|]). constructor. }
  split; [exact H1|]. split; [exact H2|].
  exact (proj2 (proj2 (from_list_zero_list
    (_OMPs crystal_2_3_2) [[1]; [1; 3; 5]; [2; 1]] H1 H2))).
Defined.

Lemma iter_blocks_singletons (lst : list Z) :
  iter_blocks ((λ x, {[x]}) <$> lst) = (λ x, [x]) <$> lst.
Proof.
  unfold iter_blocks. rewrite <-list_fmap_compose.
  apply list_fmap_ext. intros _ x _. cbn. apply elements_singleton.
Qed.

Lemma Set_singletons (lst : list Z) :
  (λ x, Set_ [x]) <$> lst = (λ x, {[x]}) <$> lst.
Proof. apply list_fmap_ext. intros _ x _. unfold Set_. set_solver. Qed.

Lemma singletons_valid (lst : list Z) : valid ((λ x, {[x]}) <$> lst).
Proof. apply Forall_fmap, Forall_forall. intros x _. cbn. set_solver. Qed.

Lemma has_valid_blocks_singletons (lst : list Z) :
  _has_valid_blocks ((λ x, [x]) <$> lst) = true.
Proof.
  rewrite <-iter_blocks_singletons. apply _has_valid_blocks_iter, singletons_valid.
Qed.

Lemma concatenate_singletons (lst : list Z) :
  _concatenate ((λ x, [x]) <$> lst) = lst.
Proof.
  unfold _concatenate. induction lst as [|a l IH]; [done|].
  rewrite fmap_cons. change (mjoin (?x :: ?l)) with (x ++ mjoin l).
  by rewrite IH.
Qed.

Lemma from_list_positive (P : family) (lst : list Z) :
  Forall (λ a, 0 < a) lst →
  from_list P lst
  = b ← contains P ((λ x, [x]) <$> lst);
    if b : bool then Ok ((λ x, {[x]}) <$> lst) else Raise ValueError.
Proof.
  intros Hpos. unfold from_list. rewrite existsb_false.
  2:{ eapply Forall_impl; [exact Hpos|]. intros a Ha. cbn in *.
      apply bool_decide_eq_false. lia. }
  rewrite bool_decide_eq_false_2.
  2:{ intros H0. rewrite Forall_forall in Hpos. specialize (Hpos 0 H0). lia. }
  rewrite Set_singletons, element_class_valid by apply singletons_valid.
  by rewrite iter_blocks_singletons.
Qed.

(** X9. A list of positive integers is read as a list of singleton blocks,
    and the element is checked against the parent.  [from_list] of a parent
    [P] returns one block per entry when that partition belongs to [P] and
    raises [ValueError] when it does not; for the family of size [n] this is
    decided by the sum of the list.  The constructor
    [OrderedMultisetPartition], whose parent is the family of the multiset
    of the entries, always returns the singleton blocks.  [_from_zero_list]
    on the same list puts all the entries into one block instead. *)
Theorem from_list_singletons (P : family) (lst : list Z) :
  Forall (λ a, 0 < a) lst →
  from_list P lst
    = (b ← contains P ((λ x, [x]) <$> lst);
       if b : bool then Ok ((λ x, {[x]}) <$> lst) else Raise ValueError)
  ∧ (∀ n, fam_class P = OMPs_n n →
       from_list P lst
       = if bool_decide (sum lst = n) then Ok ((λ x, {[x]}) <$> lst)
         else Raise ValueError)
  ∧ OrderedMultisetPartition_of_list lst = Ok ((λ x, {[x]}) <$> lst)
  ∧ (lst ≠ [] →
     _from_zero_list P lst
     = (b ← contains P [lst];
        if b : bool then Ok [Set_ lst] else Raise ValueError)).
Proof.
  intros Hpos. split; [by apply from_list_positive|]. split; [|split].
  - intros n HP. rewrite from_list_positive by done.
    unfold contains. rewrite HP. py_simpl.
    unfold _has_valid_blocks_n. cbn zeta.
    rewrite has_valid_blocks_singletons. cbn [andb].
    rewrite concatenate_singletons.
    assert (forallb (λ i, bool_decide (0 < i)) lst = true) as ->.
    { apply Is_true_true, forallb_True. eapply Forall_impl; [exact Hpos|].
      intros a Ha. cbn. by apply bool_decide_pack. }
    cbn [andb].
    assert (sum (sum <$> ((λ x, [x]) <$> lst)) = sum lst) as ->.
    { rewrite <-list_fmap_compose. f_equal. rewrite <-(list_fmap_id lst) at 2.
      apply list_fmap_ext. intros _ x _. cbn. lia. }
    by case_bool_decide.
  - unfold OrderedMultisetPartition_of_list. case_bool_decide as Hnil.
    + subst lst. vm_compute. reflexivity.
    + destruct (OMPs_X_init (map_to_list (_get_weight (filter (λ c, c ≠ 0) lst))))
        as (Q & -> & HQ). py_simpl.
      assert (contains Q ((λ x, [x]) <$> lst) = Ok true) as Hc.
      { rewrite (contains_X_class Q _ _ HQ). f_equal.
        rewrite Xtup_get_weight. unfold _has_valid_blocks_X. cbn zeta.
        rewrite has_valid_blocks_singletons. cbn [andb].
        apply bool_decide_eq_true. f_equal.
        rewrite filter_all.
        2:{ eapply Forall_impl; [exact Hpos|]. intros a Ha; cbn in *. lia. }
        apply concatenate_singletons. }
      rewrite from_list_positive, Hc by done. py_simpl.
      rewrite element_class_valid by apply singletons_valid.
      by rewrite iter_blocks_singletons, Hc.
  - intros Hne.
    pose proof (from_zero_list_no_last_zero P [lst] ltac:(done)) as H.
    unfold zero_list in H. cbn [fmap list_fmap mjoin list_join] in H.
    rewrite app_nil_r, removelast_last in H. apply H.
    constructor; [|constructor]. split; [done|]. done.
Qed.

Lemma from_list_singletons_witness :
  Forall (λ a, 0 < a) [1; 4; 8] ∧
  from_list {| fam_class := OMPs_n 3; fam_constraints := ∅;
               fam_full_constraints := ∅; fam_finite := true |} [1; 4; 8]
  = Raise ValueError ∧
  OrderedMultisetPartition_of_list [1; 4; 8]
  = Ok ((λ x, {[x]}) <$> [1; 4; 8]).
Proof.
  assert (H : Forall (λ a, 0 < a) [1; 4; 8]) by (repeat constructor).
  split; [exact H|].
  pose proof (from_list_singletons
    {| fam_class := OMPs_n 3; fam_constraints := ∅;
       fam_full_constraints := ∅; fam_finite := true |} [1; 4; 8] H) as Hs.
  split; [exact (proj1 (proj2 Hs) 3 eq_refl)|exact (proj1 (proj2 (proj2 Hs)))].
Defined.

(** ** [_split_block] *)

Lemma setitem_insert {A} (a : list A) (i : Z) (s v : A) :
  0 ≤ i → index a i = Ok s → setitem a i v = Ok (<[Z.to_nat i := v]> a).
Proof.
  intros Hi. unfold index, setitem. cbn zeta.
  rewrite (decide_False (P := i < 0)) by lia.
  rewrite (decide_False (P := i < 0)) by lia.
  destruct (a !! Z.to_nat i) eqn:E.
  2:{ rewrite decide_False by lia. done. }
  intros _. apply lookup_lt_Some in E.
  rewrite decide_False by lia. rewrite decide_True; [done|]. unfold len. lia.
Qed.

Lemma split_loop (X w : list Z) (a : list (gset Z)) :
  length w = length X →
  Forall (λ l, 0 ≤ l < len a) w →
  for_each (λ a pos,
      wp ← index w pos;
      xp ← index X pos;
      s ← index a wp;
      setitem a wp (s ∪ {[xp]}))
    a (range 0 (len X))
  = Ok (label_fold a (zip w X)).
Proof.
  intros Hl Hw.
  transitivity (for_each (λ a pos,
      wp ← index w pos;
      xp ← index X pos;
      s ← index a wp;
      Ok (<[Z.to_nat wp := s ∪ {[xp]}]> a))
    a (range 0 (len X))).
  - apply for_each_ext. intros a' pos Hpos.
    destruct (index w pos) as [wp|e] eqn:Ewp; [|done]. py_simpl.
    destruct (index X pos) as [xp|e]; [|done]. py_simpl.
    destruct (index a' wp) as [s|e] eqn:Es; [|done]. py_simpl.
    apply (setitem_insert a' wp s); [|done].
    apply elem_of_range in Hpos. rewrite index_lookup in Ewp by lia.
    destruct (w !! Z.to_nat pos) eqn:E; [|done]. injection Ewp as ->.
    rewrite Forall_forall in Hw.
    apply list_elem_of_lookup_2 in E. apply Hw in E. lia.
  - rewrite range_0_len. rewrite <-Hl.
    rewrite label_loop by (done || lia).
    rewrite Hl. f_equal. f_equal. apply take_ge. rewrite length_zip. lia.
Qed.

Lemma collect_loop {A B} (mk : A → result B) (mk' : A → B) (l : list A)
    (out0 : list B) :
  (∀ w, w ∈ l → mk w = Ok (mk' w)) →
  for_each (λ out w, a ← mk w; Ok (out ++ [a])) out0 l
  = Ok (out0 ++ (mk' <$> l)).
Proof.
  revert out0. induction l as [|w l IH]; intros out0 Hmk.
  { cbn. by rewrite app_nil_r. }
  cbn [for_each]. rewrite (Hmk w) by left. py_simpl.
  change (Py.bind (Ok (out0 ++ [mk' w])) ?k) with (k (out0 ++ [mk' w])).
  cbn beta. rewrite IH by (intros w' Hw'; apply Hmk; by right).
  by rewrite fmap_cons, <-(assoc_L (++)).
Qed.

Lemma _split_block_unfold (S : gset Z) (k : Z) :
  0 ≤ k →
  _split_block S k
  = Ok (list_to_set ((λ w, label_fold (replicate (Z.to_nat k) ∅)
                              (zip w (elements S)))
                     <$> Sage.IntegerListsLex (length (elements S)) (k - 1))).
Proof.
  intros Hk. unfold _split_block. cbn zeta.
  rewrite (collect_loop _ (λ w, label_fold (replicate (Z.to_nat k) ∅)
                                  (zip w (elements S)))).
  { done. }
  intros w Hw. apply elem_of_IntegerListsLex in Hw as [Hl Hw].
  apply split_loop; [done|].
  eapply Forall_impl; [exact Hw|]. intros l Hlk. cbn in *.
  unfold len. rewrite length_replicate. lia.
Qed.

Lemma label_fold_cons a l x wx :
  label_fold a ((l, x) :: wx)
  = label_fold (alter (λ s, s ∪ {[x]}) (Z.to_nat l) a) wx.
Proof. done. Qed.

Lemma label_fold_lookup (a : list (gset Z)) (wx : list (Z * Z)) (i : nat) s' :
  Forall (λ l, 0 ≤ l) wx.*1 →
  label_fold a wx !! i = Some s' →
  ∃ s, a !! i = Some s ∧ ∀ x, x ∈ s' ↔ x ∈ s ∨ (Z.of_nat i, x) ∈ wx.
Proof.
  revert a. induction wx as [|[l x0] wx IH]; intros a Hnn Hs'.
  { exists s'. split; [done|]. intros x. set_solver. }
  rewrite fmap_cons in Hnn. inv Hnn. cbn [fst] in *.
  rewrite label_fold_cons in Hs'.
  destruct (IH _ H2 Hs') as (s1 & Hs1 & Hchar).
  destruct (decide (i = Z.to_nat l)) as [->|Hne].
  - rewrite list_lookup_alter, decide_True in Hs1 by done.
    destruct (a !! Z.to_nat l) as [s|] eqn:E; [|done]. injection Hs1 as <-.
    exists s. split; [done|]. intros x. rewrite Hchar.
    rewrite elem_of_cons, elem_of_union, elem_of_singleton.
    rewrite Z2Nat.id by done.
    split.
    + intros [[?| ->]|?]; auto.
    + intros [?|[[= ->]|?]]; auto.
  - rewrite list_lookup_alter, decide_False in Hs1 by done.
    exists s1. split; [done|]. intros x. rewrite Hchar.
    rewrite elem_of_cons. split; [intros [?|?]; auto|].
    intros [?|[[= E ->]|?]]; auto. lia.
Qed.

Lemma elements_join_union (t : list (gset Z)) :
  (list_to_set (mjoin (elements <$> t)) : gset Z) = ⋃ t.
Proof.
  induction t as [|s t IH]; [done|].
  rewrite fmap_cons. change (mjoin (?x :: ?l)) with (x ++ mjoin l).
  rewrite list_to_set_app_L, IH, union_list_cons.
  by rewrite list_to_set_elements_L.
Qed.

Lemma NoDup_join_disjoint (t : list (gset Z)) :
  NoDup (mjoin (elements <$> t)) →
  ∀ i j a b, t !! i = Some a → t !! j = Some b → i ≠ j → a ## b.
Proof.
  induction t as [|s t IH]; [done|].
  rewrite fmap_cons. change (mjoin (?x :: ?l)) with (x ++ mjoin l).
  intros (_ & Hdisj & Hnd)%NoDup_app.
  assert (∀ b, b ∈ t → s ## b) as Hs.
  { intros b Hb x Hx1 Hx2. apply (Hdisj x); [by apply elem_of_elements|].
    apply list_elem_of_join. exists (elements b). split.
    - by apply elem_of_elements.
    - by apply list_elem_of_fmap_2. }
  intros [|i] [|j] a b Ha Hb Hij; try done; cbn in Ha, Hb.
  - injection Ha as <-. apply Hs. by eapply list_elem_of_lookup_2.
  - injection Hb as <-. symmetry. apply Hs. by eapply list_elem_of_lookup_2.
  - apply (IH Hnd i j); auto.
Qed.

Lemma replicate_empty_elements (k : nat) :
  mjoin (elements <$> replicate k (∅ : gset Z)) = [].
Proof.
  induction k as [|k IH]; [done|]. cbn [replicate].
  rewrite fmap_cons. change (mjoin (?x :: ?l)) with (x ++ mjoin l).
  by rewrite IH, elements_empty.
Qed.

Lemma split_word_sound (S : gset Z) (k : Z) (w : list Z) :
  0 ≤ k → length w = length (elements S) →
  Forall (λ a, 0 ≤ a ≤ k - 1) w →
  let t := label_fold (replicate (Z.to_nat k) ∅) (zip w (elements S)) in
  len t = k ∧ is_splitting S t.
Proof.
  intros Hk Hl Hw t.
  assert (mjoin (elements <$> t) ≡ₚ elements S) as Hperm.
  { unfold t.
    rewrite (label_fold_elements _ _ []).
    - rewrite snd_zip by lia. done.
    - rewrite fst_zip by lia. eapply Forall_impl; [exact Hw|].
      intros l Hlk. cbn in *. rewrite length_replicate. lia.
    - rewrite snd_zip by lia. cbn. apply NoDup_elements.
    - by rewrite replicate_empty_elements. }
  split; [|split].
  - unfold t, len. rewrite label_fold_length, length_replicate. lia.
  - rewrite <-elements_join_union.
    rewrite (list_to_set_perm_L _ _ Hperm). apply list_to_set_elements_L.
  - apply NoDup_join_disjoint. rewrite Hperm. apply NoDup_elements.
Qed.

Lemma part_index_spec (t : list (gset Z)) (x : Z) (i : nat) a :
  (∀ i j a b, t !! i = Some a → t !! j = Some b → i ≠ j → a ## b) →
  t !! i = Some a → x ∈ a → part_index t x = Z.of_nat i.
Proof.
  intros Hdisj Ha Hx. unfold part_index.
  destruct (list_find (λ s, x ∈ s) t) as [[j b]|] eqn:E.
  - apply list_find_Some in E as (Hb & Hxb & _).
    destruct (decide (i = j)) as [->|Hij]; [done|].
    exfalso. apply (Hdisj i j a b Ha Hb Hij x); done.
  - apply list_find_None in E. rewrite Forall_forall in E.
    exfalso. apply (E a); [by eapply list_elem_of_lookup_2|done].
Qed.

Lemma part_index_bound (t : list (gset Z)) (x : Z) :
  x ∈ ⋃ t → 0 ≤ part_index t x < len t ∧
             ∃ a, t !! Z.to_nat (part_index t x) = Some a ∧ x ∈ a.
Proof.
  intros Hx. apply elem_of_union_list in Hx as (a & Ha & Hxa).
  unfold part_index.
  destruct (list_find (λ s, x ∈ s) t) as [[j b]|] eqn:E.
  - apply list_find_Some in E as (Hb & Hxb & _).
    pose proof (lookup_lt_Some _ _ _ Hb). unfold len. split; [lia|].
    exists b. by rewrite Nat2Z.id.
  - apply list_find_None in E. rewrite Forall_forall in E.
    exfalso. by apply (E a).
Qed.

Lemma elem_of_zip_fmap (f : Z → Z) (X : list Z) (l x : Z) :
  (l, x) ∈ zip (f <$> X) X ↔ x ∈ X ∧ l = f x.
Proof.
  induction X as [|y X IH]; [set_solver|].
  rewrite fmap_cons. cbn [zip zip_with]. rewrite !elem_of_cons.
  fold (zip (f <$> X) X). rewrite IH. split.
  - intros [[= -> ->]|[? ?]]; auto.
  - intros [[ ->|?] ->]; auto.
Qed.

Lemma split_word_complete (S : gset Z) (t : list (gset Z)) :
  is_splitting S t →
  label_fold (replicate (length t) ∅) (zip (part_index t <$> elements S) (elements S)) = t.
Proof.
  intros [Hunion Hdisj].
  set (w := part_index t <$> elements S).
  assert (Forall (λ l, 0 ≤ l) (zip w (elements S)).*1) as Hnn.
  { rewrite fst_zip by (unfold w; rewrite length_fmap; lia).
    unfold w. apply Forall_fmap, Forall_forall. intros x Hx. cbn.
    apply elem_of_elements in Hx. rewrite <-Hunion in Hx.
    apply part_index_bound in Hx. lia. }
  apply list_eq_same_length with (length t);
    [done|by rewrite label_fold_length, length_replicate|].
  intros i s' a Hi Hs' Ha.
  destruct (label_fold_lookup _ _ i s' Hnn Hs') as (s & Hs & Hchar).
  apply lookup_replicate in Hs as [-> _].
  apply set_eq. intros x. rewrite Hchar. unfold w.
  rewrite elem_of_zip_fmap. split.
  - intros [?|[Hx Hix]]; [set_solver|].
    apply elem_of_elements in Hx. rewrite <-Hunion in Hx.
    apply part_index_bound in Hx as (_ & b & Hb & Hxb).
    rewrite <-Hix, Nat2Z.id in Hb. by simplify_eq.
  - intros Hx. right. split.
    + apply elem_of_elements. rewrite <-Hunion.
      apply elem_of_union_list. exists a. split; [|done].
      by eapply list_elem_of_lookup_2.
    + symmetry. by eapply part_index_spec.
Qed.

Lemma _split_block_char (S : gset Z) (k : Z) :
  0 ≤ k →
  ∃ R, _split_block S k = Ok R
       ∧ ∀ t, t ∈ R ↔ len t = k ∧ is_splitting S t.
Proof.
  intros Hk. rewrite _split_block_unfold by done.
  eexists. split; [done|]. intros t.
  rewrite elem_of_list_to_set, list_elem_of_fmap. split.
  - intros (w & -> & Hw). apply elem_of_IntegerListsLex in Hw as [Hl Hw].
    by apply split_word_sound.
  - intros [Hl Hsplit]. exists (part_index t <$> elements S). split.
    + rewrite <-(split_word_complete S t Hsplit) at 1.
      do 2 f_equal. unfold len in Hl. lia.
    + apply elem_of_IntegerListsLex. split; [by rewrite length_fmap|].
      apply Forall_fmap, Forall_forall. intros x Hx. cbn.
      apply elem_of_elements in Hx. destruct Hsplit as [Hunion _].
      rewrite <-Hunion in Hx. apply part_index_bound in Hx. lia.
Qed.

(** X10. [_split_block(S, k)], for [k >= 0], returns exactly the [k]-tuples
    of pairwise disjoint (possibly empty) sets whose union is [S]. *)
Theorem _split_block_spec (S : gset Z) (k : Z) :
  0 ≤ k →
  ∃ R, _split_block S k = Ok R
       ∧ ∀ t, t ∈ R ↔ len t = k ∧ is_splitting S t.
Proof.
  intros Hk. destruct (_split_block_char S k Hk) as (R & HR & Hchar).
  exists R. split; [exact HR|]. intros t. apply Hchar.
Qed.

Lemma _split_block_spec_witness :
  0 ≤ 2 ∧
  ∃ R, _split_block {[1; 2]} 2 = Ok R
       ∧ ∀ t, t ∈ R ↔ len t = 2 ∧ is_splitting {[1; 2]} t.
Proof.
  assert (H : 0 ≤ 2) by lia.
  split; [exact H|]. exact (_split_block_spec {[1; 2]} 2 H).
Defined.

(** ** [split] *)

Lemma union_loop {A B} `{Countable B} (F : A → result B) (F' : A → B)
    (l : list A) (out0 : gset B) :
  (∀ t, t ∈ l → F t = Ok (F' t)) →
  for_each (λ out t, tup ← F t; Ok (out ∪ {[ tup ]})) out0 l
  = Ok (out0 ∪ list_to_set (F' <$> l)).
Proof.
  revert out0. induction l as [|t l IH]; intros out0 HF.
  { cbn. f_equal. set_solver. }
  cbn [for_each]. rewrite (HF t) by left. py_simpl.
  change (Py.bind (Ok (out0 ∪ {[F' t]})) ?k) with (k (out0 ∪ {[F' t]})).
  cbn beta. rewrite IH by (intros t' Ht'; apply HF; by right).
  f_equal. rewrite fmap_cons. cbn [list_to_set]. set_solver.
Qed.

Lemma filter_nonempty_blocks (col : list (gset Z)) :
  filter (λ k : gset Z, 0 < len (elements k)) col = filter (λ B, B ≠ ∅) col.
Proof.
  apply list_filter_iff. intros B. unfold len. split.
  - intros Hl ->. rewrite elements_empty in Hl. cbn in Hl. lia.
  - intros HB. destruct (elements B) eqn:E; [|cbn; lia].
    apply elements_empty_inv, leibniz_equiv in E. done.
Qed.

Lemma valid_filter (col : list (gset Z)) : valid (filter (λ B, B ≠ ∅) col).
Proof.
  apply Forall_forall. intros B HB. by apply list_elem_of_filter in HB as [? _].
Qed.

Lemma zip_star_cons {A} (x : list A) (y : list A) (m : list (list A)) :
  zip_star (x :: y :: m) = zip_with cons x (zip_star (y :: m)).
Proof. done. Qed.

Lemma zip_star_length {A} (m : list (list A)) (k : nat) :
  m ≠ [] → Forall (λ s, length s = k) m → length (zip_star m) = k.
Proof.
  induction m as [|x m IH]; [done|]. intros _ Hm. inv Hm.
  destruct m as [|y m].
  - cbn. by rewrite length_fmap.
  - rewrite zip_star_cons, length_zip_with, IH by done. lia.
Qed.

Lemma order_cons (B : gset Z) (c : omp) :
  order (B :: c) = len (elements B) + order c.
Proof. unfold order. by rewrite fmap_cons, sum_cons. Qed.

Lemma order_filter_cons (a : gset Z) (col : list (gset Z)) :
  order (filter (λ B, B ≠ ∅) (a :: col))
  = len (elements a) + order (filter (λ B, B ≠ ∅) col).
Proof.
  rewrite filter_cons. case_decide as Ha.
  - apply order_cons.
  - subst a. rewrite elements_empty. unfold len at 1. cbn [length]. lia.
Qed.

Lemma sum_order_zip_cons (x : list (gset Z)) (cols : list (list (gset Z))) :
  length cols = length x →
  sum ((λ col, order (filter (λ B, B ≠ ∅) col)) <$> zip_with cons x cols)
  = order x + sum ((λ col, order (filter (λ B, B ≠ ∅) col)) <$> cols).
Proof.
  revert cols. induction x as [|a x IHx]; intros cols Hlen.
  { by destruct cols. }
  destruct cols as [|col cols]; [done|].
  cbn [zip_with]. rewrite !fmap_cons, !sum_cons, order_filter_cons, order_cons.
  rewrite IHx by (cbn in Hlen; lia). lia.
Qed.

Lemma sum_order_columns (m : list (list (gset Z))) (k : nat) :
  m ≠ [] → Forall (λ s, length s = k) m →
  sum ((λ col, order (filter (λ B, B ≠ ∅) col)) <$> zip_star m)
  = sum ((λ s, order s) <$> m).
Proof.
  induction m as [|x m IH]; [done|]. intros _ Hm. inv Hm.
  destruct m as [|y m].
  - cbn [zip_star]. rewrite <-list_fmap_compose. cbn [fmap list_fmap].
    rewrite sum_cons. cbn [sum foldr]. rewrite Z.add_0_r.
    unfold order at 2. f_equal. apply list_fmap_ext. intros _ a _.
    cbn [compose]. rewrite order_filter_cons. rewrite filter_nil.
    unfold order. cbn. lia.
  - rewrite zip_star_cons. rewrite fmap_cons, sum_cons, <-IH by done.
    apply sum_order_zip_cons.
    by apply zip_star_length.
Qed.

Lemma splitting_order (B : gset Z) (s : list (gset Z)) :
  is_splitting B s → order s = len (elements B).
Proof.
  intros [<- Hdisj]. induction s as [|a s IH]; [done|].
  rewrite order_cons, IH.
  2:{ intros i j x y Hx Hy Hij. apply (Hdisj (S i) (S j)); auto. }
  rewrite union_list_cons.
  assert (∀ X : gset Z, len (elements X) = Z.of_nat (base.size X)) as Hsz by done.
  rewrite !Hsz, size_union; [lia|].
  intros x Hxa (b & Hb & Hxb)%elem_of_union_list.
  apply list_elem_of_lookup_1 in Hb as [j Hj].
  by apply (Hdisj 0%nat (S j) a b eq_refl Hj ltac:(done) x).
Qed.

Section split.
Context (c : omp) (k : Z).
Hypothesis Hv : valid c.
Hypothesis Hne : c ≠ [].
Hypothesis Hk : 0 ≤ k.

Lemma split_unfold :
  split c k
  = Ok (list_to_set
      ((λ m, (λ col, filter (λ B, B ≠ ∅) col) <$> zip_star m)
       <$> Sage.cartesian_product
             ((λ B, elements (list_to_set
                 ((λ w, label_fold (replicate (Z.to_nat k) ∅) (zip w (elements B)))
                  <$> Sage.IntegerListsLex (length (elements B)) (k - 1)) : gset (list (gset Z))))
              <$> c))).
Proof using Hv Hne Hk.
  unfold split.
  destruct (all_constraints_parent (letters c) (len c) (len_nonneg c))
    as (P & -> & HP). py_simpl.
  rewrite bool_decide_eq_false_2 by done.
  rewrite (comprehension_pure _ (λ B, elements (list_to_set
                 ((λ w, label_fold (replicate (Z.to_nat k) ∅) (zip w (elements B)))
                  <$> Sage.IntegerListsLex (length (elements B)) (k - 1)) : gset (list (gset Z))))).
  2:{ intros B _. by rewrite _split_block_unfold by done. }
  py_simpl.
  rewrite (union_loop _ (λ m, (λ col, filter (λ B, B ≠ ∅) col) <$> zip_star m)).
  { f_equal. set_solver. }
  intros m _. apply comprehension_pure. intros col _.
  rewrite filter_nonempty_blocks.
  apply element_constructor_all; [done|apply valid_filter].
Qed.

Lemma split_members (u : list omp) :
  u ∈ (list_to_set
      ((λ m, (λ col, filter (λ B, B ≠ ∅) col) <$> zip_star m)
       <$> Sage.cartesian_product
             ((λ B, elements (list_to_set
                 ((λ w, label_fold (replicate (Z.to_nat k) ∅) (zip w (elements B)))
                  <$> Sage.IntegerListsLex (length (elements B)) (k - 1)) : gset (list (gset Z))))
              <$> c)) : gset (list omp))
  ↔ ∃ m, Forall2 (λ s B, len s = k ∧ is_splitting B s) m c
         ∧ u = (λ col, filter (λ B, B ≠ ∅) col) <$> zip_star m.
Proof using Hk.
  rewrite elem_of_list_to_set, list_elem_of_fmap.
  assert (∀ m,
    m ∈ Sage.cartesian_product
             ((λ B, elements (list_to_set
                 ((λ w, label_fold (replicate (Z.to_nat k) ∅) (zip w (elements B)))
                  <$> Sage.IntegerListsLex (length (elements B)) (k - 1)) : gset (list (gset Z))))
              <$> c)
    ↔ Forall2 (λ s B, len s = k ∧ is_splitting B s) m c) as Hm.
  { intros m. rewrite elem_of_cartesian_product, Forall2_fmap_r.
    assert (∀ s B,
      s ∈ elements (list_to_set
                 ((λ w, label_fold (replicate (Z.to_nat k) ∅) (zip w (elements B)))
                  <$> Sage.IntegerListsLex (length (elements B)) (k - 1)) : gset (list (gset Z)))
      ↔ len s = k ∧ is_splitting B s) as Hiff.
    { intros s B. rewrite elem_of_elements.
      destruct (_split_block_char B k Hk) as (R & HR & Hchar).
      rewrite _split_block_unfold in HR by done. injection HR as <-.
      apply Hchar. }
    split; intros H; (eapply Forall2_impl; [exact H|]); intros s B; apply Hiff. }
  split.
  - intros (m & -> & Hin). exists m. split; [by apply Hm|done].
  - intros (m & Hin & ->). exists m. split; [done|by apply Hm].
Qed.

End split.

(** X11. [split(k)], for [k >= 0] and a nonempty partition [c] with nonempty
    blocks, returns exactly the tuples obtained by splitting every block of
    [c] into [k] pairwise disjoint (possibly empty) parts and putting
    together, for each [j], the [j]-th parts of all blocks with the empty
    ones left out.  Every such tuple has [k] members with nonempty blocks,
    and their orders add up to the order of [c].  On the empty partition
    [split(k)] returns the one tuple of [k] empty partitions. *)
Theorem split_spec (c : omp) (k : Z) :
  valid c → 0 ≤ k →
  (c ≠ [] →
   ∃ R, split c k = Ok R
     ∧ (∀ u, u ∈ R ↔
          ∃ m, Forall2 (λ s B, len s = k ∧ is_splitting B s) m c
               ∧ u = (λ col, filter (λ B, B ≠ ∅) col) <$> zip_star m)
     ∧ (∀ u, u ∈ R →
          len u = k ∧ Forall valid u ∧ sum (order <$> u) = order c))
  ∧ split [] k = Ok {[ replicate (Z.to_nat k) [] ]}.
Proof.
  intros Hv Hk. split.
  - intros Hne. rewrite split_unfold by done.
    eexists. split; [done|]. split; [intros u; by apply split_members|].
    intros u (m & Hm & ->)%split_members; [|done].
    assert (m ≠ []) as Hmne.
    { intros ->. apply Forall2_nil_inv_l in Hm. done. }
    assert (Forall (λ s, length s = Z.to_nat k) m) as Hrows.
    { clear -Hm. induction Hm as [|s B m c [Hl _] _ IH]; constructor; [|done].
      unfold len in Hl. lia. }
    split_and!.
    + unfold len. rewrite length_fmap, (zip_star_length m (Z.to_nat k)) by done. lia.
    + apply Forall_fmap, Forall_forall. intros col _. apply valid_filter.
    + rewrite <-list_fmap_compose.
      change (order ∘ _) with (λ col : list (gset Z), order (filter (λ B, B ≠ ∅) col)).
      rewrite (sum_order_columns m (Z.to_nat k)) by done.
      unfold order at 2.
      f_equal. clear -Hm. induction Hm as [|s B m c [_ [HU Hdisj]] _ IH]; [done|].
      rewrite !fmap_cons, IH. f_equal. by apply splitting_order.
  - unfold split.
    destruct (all_constraints_parent (letters []) (len (@nil (gset Z))) ltac:(done))
      as (P & -> & HP). done.
Qed.

Lemma split_spec_witness :
  valid (Set_ <$> [[1; 2]; [4]]) ∧ 0 ≤ 2 ∧
  ∃ R, split (Set_ <$> [[1; 2]; [4]]) 2 = Ok R
       ∧ ∀ u, u ∈ R →
           len u = 2 ∧ Forall valid u
           ∧ sum (order <$> u) = order (Set_ <$> [[1; 2]; [4]]).
Proof.
  assert (H1 : valid (Set_ <$> [[1; 2]; [4]]))
    by (apply (bool_decide_unpack _); by vm_compute).
  assert (H2 : 0 ≤ 2) by lia.
  split; [exact H1|]. split; [exact H2|].
  destruct (proj1 (split_spec (Set_ <$> [[1; 2]; [4]]) 2 H1 H2) ltac:(done))
    as (R & HR & _ & Hall).
  exists R. split; [exact HR|exact Hall].
Defined.

(** ** [fatten] and [fatter], in full *)

Lemma Compositions_complete (n : nat) (g : list Z) :
  Forall (λ x, 0 < x) g → sum g = Z.of_nat n → g ∈ Sage.Compositions n.
Proof.
  revert g. induction n as [|n IH]; intros g Hpos Hs.
  - destruct g as [|x g]; [by left|]. inv Hpos. rewrite sum_cons in Hs.
    assert (0 ≤ sum g) by (apply sum_nonneg; eapply Forall_impl; [done|];
      intros ??; cbn in *; lia). lia.
  - destruct g as [|x g]; [cbn in Hs; lia|]. inv Hpos. rewrite sum_cons in Hs.
    cbn [Sage.Compositions]. apply elem_of_app.
    destruct (decide (x = 1)) as [->|Hx].
    + left. apply list_elem_of_fmap. exists g. split; [done|].
      apply IH; [done|lia].
    + right. apply list_elem_of_omap. exists (x - 1 :: g). split.
      * apply IH; [constructor; [lia|done]|]. rewrite sum_cons. lia.
      * cbn. do 2 f_equal. lia.
Qed.

Lemma union_of_sets_union_list (ch : omp) : _union_of_sets ch = ⋃ ch.
Proof.
  rewrite _union_of_sets_Set. unfold Set_, _concatenate, iter_blocks.
  apply elements_join_union.
Qed.

Lemma chunk_disjoint_iff (ch : omp) :
  chunk_disjoint ch = true
  ↔ ∀ i j a b, ch !! i = Some a → ch !! j = Some b → i ≠ j → a ## b.
Proof.
  split.
  - intros Hd. apply NoDup_join_disjoint.
    apply bool_decide_eq_true in Hd.
    rewrite _union_of_sets_Set, sum_len_iter_blocks in Hd.
    pose proof (length_elements_Set_le (_concatenate (iter_blocks ch))) as Hle.
    apply (length_Set_NoDup (_concatenate (iter_blocks ch))).
    unfold len in Hd. lia.
  - intros Hdisj. apply bool_decide_eq_true.
    rewrite union_of_sets_union_list.
    pose proof (splitting_order (⋃ ch) ch (conj eq_refl Hdisj)) as Ho.
    unfold order in Ho. lia.
Qed.

Lemma fatten_unions (c : omp) (g : list Z) :
  valid c → Forall (λ x, 0 < x) g → sum g = len c →
  fatten c g =
    if forallb chunk_disjoint (fatten_chunk c g <$> range 0 (len g))
    then Ok (_union_of_sets <$> (fatten_chunk c g <$> range 0 (len g)))
    else Raise ValueError.
Proof.
  intros Hv Hg Hs. rewrite fatten_result by done.
  destruct (forallb _ _); [|done]. f_equal.
  rewrite <-list_fmap_compose. apply list_fmap_ext. intros _ ch _.
  cbn [compose]. by rewrite _union_of_sets_Set.
Qed.

Lemma sorted_idemp (l : list Z) : sorted (sorted l) = sorted l.
Proof. apply sorted_unique, sorted_Permutation. Qed.

Lemma OMPs_X_multiset (X : list Z) (lst : list (list Z)) (x : omp) :
  OMPs_X X lst = Ok x → _get_multiset x = sorted X.
Proof.
  unfold OMPs_X, OMPs_X_of_weight. rewrite Xtup_get_weight.
  destruct (_has_valid_blocks_X _ _) eqn:E; [|done]. intros [= <-].
  apply andb_true_iff in E as [Hblocks Hpart].
  apply bool_decide_eq_true in Hpart. rewrite <-Hpart.
  unfold _get_multiset. apply sorted_unique.
  unfold _concatenate, iter_blocks. rewrite <-list_fmap_compose.
  apply concat_perm.
  apply Is_true_true, forallb_True in Hblocks. clear Hpart.
  induction Hblocks as [|b lst Hb _ IH]; [constructor|].
  rewrite fmap_cons. constructor; [|done].
  cbn [compose]. apply elements_Set_perm. by apply Is_true_true.
Qed.

Lemma fatten_multiset (c x : omp) (g : list Z) :
  fatten c g = Ok x → _get_multiset x = _get_multiset c.
Proof.
  rewrite fatten_unfold. case_bool_decide; [done|].
  destruct (forallb _ _); [|done]. intros Hx.
  apply OMPs_X_multiset in Hx. rewrite Hx. apply sorted_idemp.
Qed.

(** X12. [fatten(grouping)]: a grouping that does not sum to the number of
    blocks raises [ValueError].  For a composition [grouping] of the number
    of blocks, the consecutive runs of blocks it cuts out are merged: the
    result lists the union of every run, provided that in every run the
    union has as many letters as the blocks of the run together; otherwise
    [ValueError] is raised.  Whatever is returned has the multiset of
    [self], and the grouping [(1, ..., 1)] returns [self]. *)
Theorem fatten_spec (c : omp) (g : list Z) :
  valid c →
  (sum g ≠ len c → fatten c g = Raise ValueError)
  ∧ (Forall (λ x, 0 < x) g → sum g = len c →
     fatten c g =
       if forallb chunk_disjoint (fatten_chunk c g <$> range 0 (len g))
       then Ok (_union_of_sets <$> (fatten_chunk c g <$> range 0 (len g)))
       else Raise ValueError)
  ∧ (∀ x, fatten c g = Ok x → _get_multiset x = _get_multiset c)
  ∧ fatten c (replicate (length c) 1) = Ok c.
Proof.
  intros Hv. split_and!.
  - intros Hs. unfold fatten. by rewrite bool_decide_eq_true_2.
  - intros Hg Hs. by apply fatten_unions.
  - intros x. apply fatten_multiset.
  - by apply fatten_ones.
Qed.

Lemma fatten_spec_witness :
  valid (Set_ <$> [[1; 4; 5]; [2]; [1; 7]]) ∧
  fatten (Set_ <$> [[1; 4; 5]; [2]; [1; 7]]) [2; 1]
  = if forallb chunk_disjoint
         (fatten_chunk (Set_ <$> [[1; 4; 5]; [2]; [1; 7]]) [2; 1]
            <$> range 0 (len [2; 1]))
    then Ok (_union_of_sets <$>
               (fatten_chunk (Set_ <$> [[1; 4; 5]; [2]; [1; 7]]) [2; 1]
                  <$> range 0 (len [2; 1])))
    else Raise ValueError.
Proof.
  assert (H : valid (Set_ <$> [[1; 4; 5]; [2]; [1; 7]]))
    by (apply (bool_decide_unpack _); by vm_compute).
  split; [exact H|].
  apply (proj1 (proj2 (fatten_spec (Set_ <$> [[1; 4; 5]; [2]; [1; 7]]) [2; 1] H))).
  - repeat constructor.
  - reflexivity.
Defined.

Lemma fatter_members (c : omp) :
  valid c →
  ∃ G, fatter c = Ok G
       ∧ ∀ x, x ∈ G ↔ ∃ g, Forall (λ a, 0 < a) g ∧ sum g = len c
                           ∧ fatten c g = Ok x.
Proof.
  intros Hv. unfold fatter.
  rewrite fatter_loop.
  2:{ intros g Hg. apply Compositions_spec in Hg as [? ?].
      by apply fatten_ValueError_or_Ok. }
  eexists. split; [done|]. intros x.
  rewrite elem_of_union, elem_of_list_to_set, list_elem_of_omap. split.
  - intros [?|(g & Hg & Hx)]; [set_solver|].
    apply Compositions_spec in Hg as [? ?]. exists g. split_and!; [done..|].
    destruct (fatten c g); [|done]. cbn in Hx. by injection Hx as ->.
  - intros (g & Hpos & Hs & Hx). right. exists g. split.
    + by apply Compositions_complete.
    + by rewrite Hx.
Qed.

Lemma Forall_fmap_range_lookup {A} (P : A → Prop) (f : Z → A) (g : list Z) :
  (∀ (i : nat) x, g !! i = Some x → P (f (Z.of_nat i))) →
  Forall P (f <$> range 0 (len g)).
Proof.
  intros H. rewrite range_0_len. apply Forall_fmap, Forall_fmap, Forall_forall.
  intros i Hi. cbn [compose]. apply elem_of_seq in Hi as [_ Hi].
  destruct (lookup_lt_is_Some_2 g i Hi) as [x Hx]. by apply (H i x).
Qed.

Lemma fatter_char (c : omp) :
  valid c → ∃ G, fatter c = Ok G ∧ ∀ x, x ∈ G ↔ groups_into c x.
Proof.
  intros Hv. destruct (fatter_members c Hv) as (G & HG & Hchar).
  exists G. split; [done|]. intros x. rewrite Hchar. split.
  - intros (g & Hpos & Hs & Hx).
    assert (Forall (λ a, 0 ≤ a) g) as Hnn.
    { eapply Forall_impl; [exact Hpos|]. intros ??; cbn in *; lia. }
    rewrite fatten_unions in Hx by done.
    destruct (forallb chunk_disjoint _) eqn:Hd; [|done]. injection Hx as <-.
    exists (fatten_chunk c g <$> range 0 (len g)). split.
    + by apply fatten_chunks_cover.
    + apply Forall2_fmap_r, Forall_Forall2_diag.
      apply Is_true_true, forallb_True in Hd.
      rewrite Forall_forall in Hd. apply Forall_fmap_range_lookup.
      intros i a Ha. split_and!.
      * intros E. pose proof (fatten_chunk_length c g i a Hnn Hs Ha) as Hl.
        rewrite E in Hl. rewrite Forall_forall in Hpos.
        pose proof (Hpos a (list_elem_of_lookup_2 _ _ _ Ha)). cbn in *. lia.
      * by apply valid_fatten_chunk.
      * split; [by rewrite union_of_sets_union_list|].
        apply chunk_disjoint_iff, Is_true_true, Hd.
        apply list_elem_of_fmap_2, elem_of_range.
        pose proof (lookup_lt_Some _ _ _ Ha). unfold len. lia.
  - intros (t & Hjoin & Ht). exists (len <$> t).
    assert (Forall (λ a, 0 < a) (len <$> t)) as Hpos.
    { apply Forall_fmap. clear -Ht. induction Ht as [|ch B t x [Hne _] _ IH];
        constructor; [|done]. cbn. destruct ch; [done|]. unfold len. cbn. lia. }
    assert (sum (len <$> t) = len c) as Hs.
    { rewrite <-Hjoin. rewrite <-(firstn_all (len <$> t)), length_fmap, sum_len_take.
      by rewrite firstn_all. }
    split; [done|]. split; [done|].
    rewrite fatten_unions by done. rewrite <-Hjoin, chunks_of_lengths.
    replace (forallb chunk_disjoint t) with true.
    2:{ symmetry. apply Is_true_true, forallb_True.
        clear -Ht. induction Ht as [|ch B t x (_ & _ & _ & Hd) _ IH];
          constructor; [|done]. apply Is_true_true. by apply chunk_disjoint_iff. }
    f_equal. clear -Ht. induction Ht as [|ch B t x (_ & _ & HU & _) _ IH]; [done|].
    rewrite fmap_cons, IH. f_equal. by rewrite union_of_sets_union_list.
Qed.

(** ** [_refine_block] and [finer], in full *)

Lemma seqZ_StronglySorted (m n : Z) : StronglySorted Z.le (seqZ m n).
Proof.
  remember (Z.to_nat n) as k eqn:Hk. revert m n Hk.
  induction k as [|k IH]; intros m n Hk.
  - rewrite seqZ_nil by lia. constructor.
  - rewrite seqZ_cons by lia. constructor.
    + apply IH. lia.
    + apply Forall_forall. intros x Hx. apply elem_of_seqZ in Hx. lia.
Qed.

Lemma sorted_range (l : list Z) (n : Z) :
  NoDup l → (∀ j, j ∈ l ↔ 0 ≤ j < n) → sorted l = range 0 n.
Proof.
  intros Hnd Hl. apply (Sorted_unique Z.le).
  - apply sorted_Sorted.
  - apply StronglySorted_Sorted, seqZ_StronglySorted.
  - rewrite sorted_Permutation. apply NoDup_Permutation; [done|apply NoDup_seqZ|].
    intros x. rewrite Hl, elem_of_range. lia.
Qed.

Lemma valid_order_ge (a : omp) : valid a → len a ≤ order a.
Proof.
  induction 1 as [|s a Hs _ IH]; [done|].
  rewrite order_cons, len_cons.
  assert (0 < len (elements s)); [|lia].
  destruct (elements s) eqn:E; [|unfold len; cbn; lia].
  by apply elements_empty_inv, leibniz_equiv in E.
Qed.

Section refinement_complete.
Context (B : gset Z) (a : list (gset Z)).
Hypothesis Hne : a ≠ [].
Hypothesis Hva : valid a.
Hypothesis Hsplit : is_splitting B a.

Lemma splitting_word_values (j : Z) :
  j ∈ part_index a <$> elements B ↔ 0 ≤ j < len a.
Proof using Hva Hsplit.
  destruct Hsplit as [HU Hdisj]. split.
  - intros (x & -> & Hx)%list_elem_of_fmap.
    apply elem_of_elements in Hx. rewrite <-HU in Hx.
    by apply part_index_bound in Hx as [? _].
  - intros Hj. destruct (lookup_lt_is_Some_2 a (Z.to_nat j)) as [s Hs].
    { unfold len in Hj. lia. }
    assert (s ≠ ∅) as Hsne.
    { unfold valid in Hva. rewrite Forall_forall in Hva. apply Hva.
      by eapply list_elem_of_lookup_2. }
    apply set_choose_L in Hsne as [x Hx].
    apply list_elem_of_fmap. exists x. split.
    + rewrite (part_index_spec a x (Z.to_nat j) s Hdisj Hs Hx). lia.
    + apply elem_of_elements. rewrite <-HU. apply elem_of_union_list.
      exists s. split; [|done]. by eapply list_elem_of_lookup_2.
Qed.

Lemma splitting_word_nonempty : part_index a <$> elements B ≠ [].
Proof using Hne Hva Hsplit.
  intros E. assert (0 ∈ part_index a <$> elements B) as H.
  { apply splitting_word_values. destruct a; [done|]. unfold len. cbn. lia. }
  rewrite E in H. by apply elem_of_nil in H.
Qed.

Lemma splitting_word_max : max_or_0 (part_index a <$> elements B) = len a - 1.
Proof using Hne Hva Hsplit.
  pose proof (max_or_0_elem _ splitting_word_nonempty) as H1.
  apply splitting_word_values in H1.
  pose proof (max_or_0_le (part_index a <$> elements B)) as H2.
  rewrite Forall_forall in H2.
  assert (len a - 1 ∈ part_index a <$> elements B) as H3.
  { apply splitting_word_values. destruct a; [done|]. unfold len. cbn. lia. }
  apply H2 in H3. lia.
Qed.

Lemma splitting_word_initial :
  word_is_initial (part_index a <$> elements B) = true.
Proof using Hne Hva Hsplit.
  apply bool_decide_eq_true.
  rewrite (max_or_0_ext (sorted_set _) (part_index a <$> elements B)).
  2:{ intros E. pose proof splitting_word_nonempty as Hw.
      destruct (part_index a <$> elements B) as [|x w'] eqn:Ew; [done|].
      assert (x ∈ sorted_set (x :: w')) as Hx by (apply elem_of_sorted_set; by left).
      rewrite E in Hx. by apply elem_of_nil in Hx. }
  2:{ apply elem_of_sorted_set. }
  rewrite splitting_word_max. symmetry. unfold sorted_set.
  replace (len a - 1 + 1) with (len a) by lia.
  apply sorted_range; [apply NoDup_elements|].
  intros j. unfold Set_. rewrite elem_of_elements, elem_of_list_to_set.
  apply splitting_word_values.
Qed.

Lemma splitting_word_in_WordSet :
  part_index a <$> elements B
  ∈ Sage.IntegerListsLex (length (elements B)) (len (elements B) - 1).
Proof using Hne Hva Hsplit.
  apply elem_of_IntegerListsLex. split; [by rewrite length_fmap|].
  apply Forall_forall. intros j Hj. apply splitting_word_values in Hj.
  pose proof (valid_order_ge a Hva).
  pose proof (splitting_order B a Hsplit). lia.
Qed.

Lemma splitting_word_refinement :
  refinement_of_word (elements B) (part_index a <$> elements B) = a.
Proof using Hne Hva Hsplit.
  unfold refinement_of_word. rewrite splitting_word_max.
  replace (Z.to_nat (len a - 1 + 1)) with (length a) by (unfold len; lia).
  by apply split_word_complete.
Qed.

End refinement_complete.

Lemma _refine_block_char (B : gset Z) :
  B ≠ ∅ →
  ∃ R, _refine_block B false = Ok R
       ∧ ∀ a, a ∈ R ↔ a ≠ [] ∧ valid a ∧ is_splitting B a.
Proof.
  intros HB. unfold _refine_block.
  set (X := elements B). set (WordSet := Sage.IntegerListsLex (length X) (len X - 1)).
  assert (∀ w, w ∈ WordSet → length w = length X ∧ Forall (λ l, 0 ≤ l) w) as HW.
  { intros w Hw. apply elem_of_IntegerListsLex in Hw as [Hl Hall]. split; [done|].
    eapply Forall_impl; [exact Hall|]. intros l Hl'; simpl in *; lia. }
  rewrite (for_each_collect _ _ word_is_initial (refinement_of_word X)).
  2:{ intros w Hw. destruct (HW w Hw) as [Hl Hn]. split.
      - by apply (_is_initial_segment_word B).
      - apply label_blocks_Ok; [|done|done]. by apply (word_nonempty B). }
  py_simpl. eexists. split; [done|]. cbn [app]. intros a.
  rewrite elem_of_list_to_set, list_elem_of_omap. split.
  - intros (w & Hw & Ha). destruct (HW w Hw) as [Hl Hn].
    destruct (word_is_initial w) eqn:Hi; [|done]. injection Ha as <-.
    split_and!.
    + by apply refinement_nonempty.
    + by apply refinement_valid.
    + pose proof (refinement_elements B w Hl Hn) as Hel. split.
      * rewrite <-elements_join_union. fold X in Hel.
        rewrite (list_to_set_perm_L _ _ Hel). apply list_to_set_elements_L.
      * apply NoDup_join_disjoint. fold X in Hel. rewrite Hel.
        apply NoDup_elements.
  - intros (Hne & Hva & Hsplit). exists (part_index a <$> X). split.
    + by apply splitting_word_in_WordSet.
    + unfold X. rewrite splitting_word_initial by done.
      by rewrite splitting_word_refinement.
Qed.

Lemma elem_of_refinements (B : gset Z) (a : list (gset Z)) :
  B ≠ ∅ → a ∈ refinements B ↔ a ≠ [] ∧ valid a ∧ is_splitting B a.
Proof.
  intros HB. destruct (_refine_block_char B HB) as (R & HR & Hchar).
  unfold refinements. rewrite HR, elem_of_elements. apply Hchar.
Qed.

Lemma finer_char (c : omp) :
  valid c → ∃ F, finer c false = Ok F ∧ ∀ x, x ∈ F ↔ groups_into x c.
Proof.
  intros Hv. unfold finer. case_bool_decide as Hc.
  { subst c. eexists. split; [done|]. intros x. rewrite elem_of_singleton. split.
    - intros ->. exists []. split; [done|constructor].
    - intros (t & <- & Ht). by apply Forall2_nil_inv_r in Ht as ->. }
  rewrite (comprehension_pure _ refinements).
  2:{ intros B HB. unfold valid in Hv. rewrite Forall_forall in Hv.
      by destruct (refinements_spec B (Hv B HB)) as [-> _]. }
  py_simpl.
  rewrite (comprehension_pure _ mjoin).
  2:{ intros t Ht. apply elem_of_cartesian_product in Ht.
      destruct (choice_of_refinements c t Hv Ht) as (H1 & H2 & H3).
      rewrite OMPs_X_Ok.
      - by rewrite Set_iter_blocks.
      - by apply _has_valid_blocks_iter.
      - rewrite H3. unfold _get_multiset. by rewrite sorted_Permutation. }
  py_simpl. eexists. split; [done|]. intros x.
  rewrite elem_of_list_to_set, list_elem_of_fmap.
  assert (∀ t, t ∈ Sage.cartesian_product (refinements <$> c)
              ↔ Forall2 (λ ch B, ch ≠ [] ∧ valid ch ∧ is_splitting B ch) t c) as Ht.
  { intros t. rewrite elem_of_cartesian_product, Forall2_fmap_r.
    clear Hc. revert t. induction Hv as [|B c HB Hv IH]; intros t.
    - split; intros ->%Forall2_nil_inv_r; constructor.
    - split; intros (a & t' & Ha & Ht' & ->)%Forall2_cons_inv_r;
        (constructor; [by apply (elem_of_refinements B a HB)|by apply IH]). }
  unfold groups_into. split.
  - intros (t & -> & Hin). exists t. split; [done|by apply Ht].
  - intros (t & <- & Hin). exists t. split; [done|by apply Ht].
Qed.

(** X13. [_refine_block(S)] of a nonempty set [S] returns exactly the tuples
    of nonempty, pairwise disjoint sets whose union is [S] (the ordered set
    partitions of [S]).  On the empty set it raises [ValueError], from the
    [max] of an empty list in [_is_initial_segment]. *)
Theorem _refine_block_exact (B : gset Z) :
  B ≠ ∅ →
  (∃ R, _refine_block B false = Ok R
        ∧ ∀ a, a ∈ R ↔ a ≠ [] ∧ valid a ∧ is_splitting B a)
  ∧ _refine_block ∅ false = Raise ValueError.
Proof.
  intros HB. split; [by apply _refine_block_char|]. by vm_compute.
Qed.

Lemma _refine_block_exact_witness :
  ({[2; 3]} : gset Z) ≠ ∅ ∧
  ∃ R, _refine_block {[2; 3]} false = Ok R
       ∧ ∀ a, a ∈ R ↔ a ≠ [] ∧ valid a ∧ is_splitting {[2; 3]} a.
Proof.
  assert (H : ({[2; 3]} : gset Z) ≠ ∅) by (apply (bool_decide_unpack _); by vm_compute).
  split; [exact H|]. exact (proj1 (_refine_block_exact {[2; 3]} H)).
Defined.

Lemma groups_into_refinements (x c : omp) :
  valid c → groups_into x c →
  ∃ t, mjoin t = x ∧ Forall2 (λ a F, a ∈ F) t (refinements <$> c).
Proof.
  intros Hv (t & Hj & Ht). exists t. split; [done|].
  apply Forall2_fmap_r. clear Hj. revert t Ht.
  induction Hv as [|B c HB Hv IH]; intros t Ht.
  - apply Forall2_nil_inv_r in Ht as ->. constructor.
  - apply Forall2_cons_inv_r in Ht as (a & t' & Ha & Ht' & ->).
    constructor; [by apply elem_of_refinements|by apply IH].
Qed.

Lemma groups_into_facts (x c : omp) :
  valid c → groups_into x c →
  valid x ∧ (length c ≤ length x)%nat ∧ _get_multiset x = _get_multiset c.
Proof.
  intros Hv Hg. destruct (groups_into_refinements x c Hv Hg) as (t & <- & Ht).
  destruct (choice_of_refinements c t Hv Ht) as (H1 & H2 & H3).
  split; [done|]. split; [done|]. unfold _get_multiset. by apply sorted_unique.
Qed.

Lemma groups_into_self (c : omp) : valid c → groups_into c c.
Proof.
  intros Hv. exists ((λ B, [B]) <$> c). split.
  - clear. induction c as [|B c IH]; [done|]. cbn. by f_equal.
  - apply Forall2_fmap_l, Forall_Forall2_diag.
    eapply Forall_impl; [exact Hv|]. intros B HB. cbn.
    split; [done|]. split; [by constructor|]. split.
    + rewrite union_list_cons, union_list_nil. set_solver.
    + intros [|[|i]] [|[|j]] ?? Hi Hj Hij; done.
Qed.

(** X14. [finer()] of a partition [c] with nonempty blocks returns exactly
    the partitions that group into [c]: those whose list of blocks can be cut
    into consecutive nonempty runs, one for every block of [c], so that each
    block of [c] is the disjoint union of its run.  In particular [c] itself
    is returned, and every partition returned has nonempty blocks, at least
    as many blocks as [c], and the multiset of [c]. *)
Theorem finer_exact (c : omp) :
  valid c →
  ∃ F, finer c false = Ok F
       ∧ (∀ x, x ∈ F ↔ groups_into x c)
       ∧ c ∈ F
       ∧ ∀ x, x ∈ F →
           valid x ∧ (length c ≤ length x)%nat
           ∧ _get_multiset x = _get_multiset c.
Proof.
  intros Hv. destruct (finer_char c Hv) as (F & HF & Hchar).
  exists F. split; [done|]. split; [done|]. split.
  - apply Hchar. by apply groups_into_self.
  - intros x Hx. apply groups_into_facts; [done|]. by apply Hchar.
Qed.

Lemma finer_exact_witness :
  valid scenario4 ∧
  ∃ F, finer scenario4 false = Ok F
       ∧ (∀ x, x ∈ F ↔ groups_into x scenario4)
       ∧ scenario4 ∈ F
       ∧ ∀ x, x ∈ F →
           valid x ∧ (length scenario4 ≤ length x)%nat
           ∧ _get_multiset x = _get_multiset scenario4.
Proof.
  assert (H : valid scenario4) by (apply (bool_decide_unpack _); by vm_compute).
  split; [exact H|]. exact (finer_exact _ H).
Defined.

(** X15. [fatter()] of a partition [c] with nonempty blocks returns exactly
    the partitions into which [c] groups: those whose blocks are the
    disjoint unions of consecutive nonempty runs of blocks of [c] that
    together make up [c].  In particular [c] itself is returned, and every
    partition returned has nonempty blocks, at most as many blocks as [c],
    and the multiset of [c]. *)
Theorem fatter_exact (c : omp) :
  valid c →
  ∃ G, fatter c = Ok G
       ∧ (∀ x, x ∈ G ↔ groups_into c x)
       ∧ c ∈ G
       ∧ ∀ x, x ∈ G →
           valid x ∧ (length x ≤ length c)%nat
           ∧ _get_multiset x = _get_multiset c.
Proof.
  intros Hv. destruct (fatter_char c Hv) as (G & HG & Hchar).
  exists G. split; [done|]. split; [done|]. split.
  - apply Hchar. by apply groups_into_self.
  - intros x Hx. apply Hchar in Hx.
    assert (valid x) as Hvx.
    { destruct Hx as (t & _ & Ht). clear -Ht.
      induction Ht as [|ch B t x (Hne & Hvch & HU & _) _ IH]; constructor; [|done].
      intros ->. destruct ch as [|s ch]; [done|]. inv Hvch.
      rewrite union_list_cons in HU. set_solver. }
    destruct (groups_into_facts c x Hvx Hx) as (_ & ? & ?). done.
Qed.

Lemma fatter_exact_witness :
  valid scenario4 ∧
  ∃ G, fatter scenario4 = Ok G
       ∧ (∀ x, x ∈ G ↔ groups_into scenario4 x)
       ∧ scenario4 ∈ G
       ∧ ∀ x, x ∈ G →
           valid x ∧ (length x ≤ length scenario4)%nat
           ∧ _get_multiset x = _get_multiset scenario4.
Proof.
  assert (H : valid scenario4) by (apply (bool_decide_unpack _); by vm_compute).
  split; [exact H|]. exact (fatter_exact _ H).
Defined.

(** X16. [finer] and [fatter] are converse to each other: for partitions [c]
    and [x] with nonempty blocks, [x] is in [c.fatter()] exactly when [c] is
    in [x.finer()]. *)
Theorem fatter_finer_converse (c x : omp) :
  valid c → valid x →
  ∃ F G, finer x false = Ok F ∧ fatter c = Ok G ∧ (x ∈ G ↔ c ∈ F).
Proof.
  intros Hc Hx.
  destruct (finer_char x Hx) as (F & HF & HcharF).
  destruct (fatter_char c Hc) as (G & HG & HcharG).
  exists F, G. split; [done|]. split; [done|].
  by rewrite HcharF, HcharG.
Qed.

Lemma fatter_finer_converse_witness :
  valid (Set_ <$> [[1]; [2]; [3]; [4]]) ∧ valid (Set_ <$> [[1; 2; 3; 4]]) ∧
  ∃ F G, finer (Set_ <$> [[1; 2; 3; 4]]) false = Ok F
         ∧ fatter (Set_ <$> [[1]; [2]; [3]; [4]]) = Ok G
         ∧ (Set_ <$> [[1; 2; 3; 4]] ∈ G ↔ Set_ <$> [[1]; [2]; [3]; [4]] ∈ F).
Proof.
  assert (H1 : valid (Set_ <$> [[1]; [2]; [3]; [4]]))
    by (apply (bool_decide_unpack _); by vm_compute).
  assert (H2 : valid (Set_ <$> [[1; 2; 3; 4]]))
    by (apply (bool_decide_unpack _); by vm_compute).
  split; [exact H1|]. split; [exact H2|].
  exact (fatter_finer_converse _ _ H1 H2).
Defined.

(** ** The blocks of the minimaj ordering *)

Lemma mj_cons (B : gset Z) (c : omp) :
  mj (B :: c)
  = match mj c with
    | [] => [sorted (elements B)]
    | W :: C => mj_word (hd 0 W) (elements B) :: W :: C
    end.
Proof. cbn [mj]. by destruct (mj c). Qed.

Lemma mj_structure (c : omp) :
  valid c →
  ∀ (i : nat) W B, mj c !! i = Some W → c !! i = Some B →
    match mj c !! S i with
    | None => W = sorted (elements B)
    | Some W' =>
        ∃ x, head W' = Some x
             ∧ W = sorted (filter (λ j, ¬ j ≤ x) (elements B))
                   ++ sorted (filter (λ j, j ≤ x) (elements B))
    end.
Proof.
  induction 1 as [|B0 c HB0 Hv IH]; intros i W B HW HB; [done|].
  rewrite mj_cons in HW |- *.
  pose proof (mj_nonempty c Hv) as Hne.
  destruct (mj c) as [|W1 C] eqn:E.
  - destruct i as [|i]; [|done]. cbn in HW, HB. by simplify_eq.
  - destruct i as [|i].
    + cbn in HW, HB. simplify_eq. cbn [lookup list_lookup].
      apply Forall_cons in Hne as [HW1 _]. destruct W1 as [|x W1]; [done|].
      exists x. split; [done|]. done.
    + cbn in HW, HB. apply (IH i W B); done.
Qed.

(** X17. [minimaj_blocks()] of a partition [c] with nonempty blocks returns
    one word for every block of [c], which lists each letter of the block
    once.  The word of the last block is increasing; the word of any other
    block lists, in increasing order, first the letters of the block greater
    than the first letter [x] of the next word and then, in increasing
    order, the letters not above [x]. *)
Theorem minimaj_blocks_structure (c : omp) :
  valid c →
  ∃ bb, minimaj_blocks c = Ok bb
    ∧ length bb = length c
    ∧ ∀ (i : nat) W B, bb !! i = Some W → c !! i = Some B →
        Set_ W = B ∧ NoDup W
        ∧ match bb !! S i with
          | None => W = sorted (elements B)
          | Some W' =>
              ∃ x, head W' = Some x
                   ∧ W = sorted (filter (λ j, ¬ j ≤ x) (elements B))
                         ++ sorted (filter (λ j, j ≤ x) (elements B))
          end.
Proof.
  intros Hv. exists (mj c). split; [by apply minimaj_blocks_mj|].
  split; [apply mj_length|]. intros i W B HW HB.
  pose proof (mj_block_Permutation c) as Hperm.
  pose proof (Forall2_lookup_lr _ _ _ i W B Hperm HW HB) as HWB.
  split_and!.
  - unfold Set_. rewrite (list_to_set_perm_L _ _ HWB). apply list_to_set_elements_L.
  - rewrite HWB. apply NoDup_elements.
  - by apply mj_structure.
Qed.

Lemma minimaj_blocks_structure_witness :
  valid scenario4 ∧
  ∃ bb, minimaj_blocks scenario4 = Ok bb
    ∧ length bb = length scenario4
    ∧ ∀ (i : nat) W B, bb !! i = Some W → scenario4 !! i = Some B →
        Set_ W = B ∧ NoDup W
        ∧ match bb !! S i with
          | None => W = sorted (elements B)
          | Some W' =>
              ∃ x, head W' = Some x
                   ∧ W = sorted (filter (λ j, ¬ j ≤ x) (elements B))
                         ++ sorted (filter (λ j, j ≤ x) (elements B))
          end.
Proof.
  assert (H : valid scenario4) by (apply (bool_decide_unpack _); by vm_compute).
  split; [exact H|]. exact (minimaj_blocks_structure scenario4 H).
Defined.

(** ** Elements of the crystal and their tableaux *)

(** X18. The element of the crystal built from a tableau [t] with letters
    in [1..n] (the word of all letters with the breaks
    [_partial_sum([len(h) for h in t])]) gives [t] back under
    [Element.to_tableau], whatever the lengths of the rows, empty rows
    included; and [_partial_sum] of a list with [m] entries has [m + 1]
    entries, from [0] to the sum of the list. *)
Theorem element_of_tableau_to_tableau (n : Z) (t : list (list Z)) :
  Forall (λ a, 1 ≤ a ≤ n) (_concatenate t) →
  ∃ b, element_of_tableau n t = Ok b
       ∧ Element_to_tableau b = Ok t
       ∧ len b.2 = len t + 1
       ∧ head b.2 = Some 0
       ∧ last b.2 = Some (len (_concatenate t)).
Proof.
  intros Ht. unfold element_of_tableau.
  rewrite (comprehension_pure _ id).
  2:{ intros a Ha. rewrite Forall_forall in Ht. specialize (Ht a Ha).
      unfold Crystals.Letters. by rewrite bool_decide_eq_true_2. }
  py_simpl. rewrite list_fmap_id. eexists. split; [done|].
  split; [apply Element_to_tableau_split|]. cbn [snd].
  assert (∀ (l : list Z) acc,
    acc ≠ [] →
    len (foldl (λ result x, result ++ [default 0 (last result) + x]) acc l)
      = len acc + len l
    ∧ head (foldl (λ result x, result ++ [default 0 (last result) + x]) acc l)
      = head acc
    ∧ last (foldl (λ result x, result ++ [default 0 (last result) + x]) acc l)
      = Some (default 0 (last acc) + sum l)) as Hps.
  { induction l as [|x l IH]; intros acc Hacc.
    - cbn. split; [unfold len; cbn; lia|]. split; [done|].
      destruct (last acc) eqn:E; cbn; [f_equal; lia|].
      by apply last_None in E.
    - cbn [foldl]. destruct (IH (acc ++ [default 0 (last acc) + x])) as (H1 & H2 & H3).
      { by destruct acc. }
      rewrite H1, H2, H3. rewrite len_app, !len_cons, len_nil, last_snoc, sum_cons.
      split; [lia|]. split; [by destruct acc|]. cbn. f_equal. lia. }
  destruct (Hps (len <$> t) [0] ltac:(done)) as (H1 & H2 & H3).
  unfold _partial_sum. rewrite H1, H2, H3. rewrite len_fmap.
  split; [unfold len; cbn; lia|]. split; [done|]. cbn. f_equal.
  unfold _concatenate. clear. induction t as [|r t IH]; [done|].
  rewrite fmap_cons, sum_cons. change (mjoin (r :: t)) with (r ++ mjoin t).
  rewrite len_app. lia.
Qed.

Lemma element_of_tableau_to_tableau_witness :
  Forall (λ a, 1 ≤ a ≤ 4) (_concatenate [[3; 1]; []; [4; 3; 3]]) ∧
  ∃ b, element_of_tableau 4 [[3; 1]; []; [4; 3; 3]] = Ok b
       ∧ Element_to_tableau b = Ok [[3; 1]; []; [4; 3; 3]]
       ∧ len b.2 = len [[3; 1]; []; [4; 3; 3]] + 1
       ∧ head b.2 = Some 0
       ∧ last b.2 = Some (len (_concatenate [[3; 1]; []; [4; 3; 3]])).
Proof.
  assert (H : Forall (λ a, 1 ≤ a ≤ 4) (_concatenate [[3; 1]; []; [4; 3; 3]])).
  { cbn. repeat constructor; lia. }
  split; [exact H|]. exact (element_of_tableau_to_tableau 4 _ H).
Defined.

(** ** Derived attributes and the weight as a weak composition *)

Lemma expand_items_length (X : list (Z * Z)) :
  Forall (λ kv, 0 ≤ kv.2) X → len (expand_items X) = sum X.*2.
Proof.
  induction 1 as [|[k v] X Hv _ IH]; [done|].
  rewrite expand_items_cons, len_app, IH, fmap_cons, sum_cons.
  unfold len. rewrite length_replicate. cbn in *. lia.
Qed.

Lemma get_weight_values_nonneg (l : list Z) :
  Forall (λ kv, 0 < kv.2) (map_to_list (_get_weight l)).
Proof.
  apply Forall_forall. intros [k v] Hkv. apply elem_of_map_to_list in Hkv.
  rewrite get_weight_lookup in Hkv. case_decide as Hin; [|done].
  injection Hkv as <-. cbn.
  assert (k ∈ filter (eq k) l) as Hk by by apply list_elem_of_filter.
  destruct (filter (eq k) l); [by apply elem_of_nil in Hk|]. unfold len. cbn. lia.
Qed.

Lemma get_weight_values_sum (l : list Z) :
  sum (map_to_list (_get_weight l)).*2 = len l.
Proof.
  rewrite <-expand_items_length.
  - unfold len. by rewrite (get_weight_items l).
  - eapply Forall_impl; [apply get_weight_values_nonneg|].
    intros kv Hkv. cbn in *. lia.
Qed.

Lemma dom_get_weight (l : list Z) : dom (_get_weight l) = Set_ l.
Proof.
  apply set_eq. intros k. rewrite elem_of_dom, get_weight_lookup.
  unfold Set_. rewrite elem_of_list_to_set.
  case_decide; split; try done; by intros [? ?].
Qed.

Lemma order_len_multiset (c : omp) : order c = len (_get_multiset c).
Proof.
  unfold order. rewrite sum_len_iter_blocks. unfold _get_multiset, len.
  by rewrite sorted_Permutation.
Qed.

Lemma letters_multiset (c : omp) : letters c = Set_ (_get_multiset c).
Proof.
  unfold letters. rewrite _union_of_sets_Set. unfold Set_, _get_multiset.
  apply list_to_set_perm_L. by rewrite sorted_Permutation.
Qed.

Lemma sum_join (x : list (list Z)) : sum (mjoin x) = sum (sum <$> x).
Proof.
  induction x as [|b x IH]; [done|].
  change (mjoin (b :: x)) with (b ++ mjoin x).
  by rewrite sum_app, fmap_cons, sum_cons, IH.
Qed.

(** X19. The attributes of an ordered multiset partition agree with each
    other: the order is the length of the multiset, the sum of the values of
    the weight dictionary and the sum of [shape_from_cardinality()]; the keys
    of the weight dictionary are the letters; and when the size is defined
    it is the sum of [shape_from_size()], which otherwise returns
    nothing. *)
Theorem derived_attributes (c : omp) :
  order c = len (_get_multiset c)
  ∧ order c = sum (map_to_list (weight c)).*2
  ∧ order c = sum (shape_from_cardinality c)
  ∧ dom (weight c) = letters c
  ∧ match size c with
    | Some n => ∃ s, shape_from_size c = Some s ∧ sum s = n
    | None => shape_from_size c = None
    end.
Proof.
  split_and!.
  - apply order_len_multiset.
  - unfold weight. by rewrite get_weight_values_sum, order_len_multiset.
  - done.
  - unfold weight. by rewrite dom_get_weight, letters_multiset.
  - unfold shape_from_size. destruct (size c) as [n|] eqn:E; [|done].
    eexists. split; [done|]. unfold size in E.
    destruct (forallb _ _); [|done]. injection E as <-.
    unfold _get_multiset. rewrite (sum_perm _ _ (sorted_Permutation _)).
    unfold _concatenate, iter_blocks. rewrite sum_join.
    by rewrite <-list_fmap_compose.
Qed.

Section weak_composition.
Context (c : omp).
Hypothesis Hpos : Forall (λ a, 0 < a) (_get_multiset c).
Hypothesis Hne : letters c ≠ ∅.

Local Abbreviation m := (greatest_letter c).
Local Abbreviation f := (weak_comp_entry c).
Local Abbreviation L := (weak_comp_items c).

Lemma letters_elements_nonempty : elements (letters c) ≠ [].
Proof using Hne.
  intros E. by apply elements_empty_inv, leibniz_equiv in E.
Qed.

Lemma letter_bounds (k : Z) : k ∈ letters c → 1 ≤ k ≤ m.
Proof using Hpos.
  intros Hk. split.
  - rewrite letters_multiset in Hk. apply elem_of_list_to_set in Hk.
    rewrite Forall_forall in Hpos. specialize (Hpos k Hk). cbn in Hpos. lia.
  - pose proof (max_or_0_le (elements (letters c))) as H.
    rewrite Forall_forall in H. apply H. by apply elem_of_elements.
Qed.

Lemma max_letter_Ok : max_letter c = Ok (Some m).
Proof using Hne.
  unfold max_letter. rewrite bool_decide_eq_false_2 by done.
  by rewrite py_max_Ok by apply letters_elements_nonempty.
Qed.

Lemma max_letter_pos : 1 ≤ m.
Proof using Hpos Hne.
  assert (1 ≤ m ≤ m) as [? _]; [|done].
  apply letter_bounds. apply elem_of_elements.
  apply max_or_0_elem, letters_elements_nonempty.
Qed.

Lemma weight_lookup_Some (k v : Z) :
  weight c !! k = Some v → 1 ≤ k ≤ m ∧ 0 < v.
Proof using Hpos.
  intros Hkv. split.
  - apply letter_bounds. pose proof (derived_attributes_dom := dom_get_weight (_get_multiset c)).
    rewrite letters_multiset, <-derived_attributes_dom. apply elem_of_dom. by exists v.
  - apply elem_of_map_to_list in Hkv.
    pose proof (get_weight_values_nonneg (_get_multiset c)) as H.
    rewrite Forall_forall in H. by apply (H (k, v)).
Qed.

Lemma elem_of_L (k v : Z) : (k, v) ∈ L ↔ weight c !! k = Some v.
Proof using Hpos.
  unfold L. rewrite list_elem_of_filter, list_elem_of_fmap. cbn. split.
  - intros [Hv (i & [= -> ->] & Hi)]. unfold f in *.
    destruct (weight c !! i); cbn in *; [done|lia].
  - intros Hkv. destruct (weight_lookup_Some k v Hkv) as [Hk Hv].
    split; [done|]. exists k. split.
    + unfold f. by rewrite Hkv.
    + apply elem_of_range. lia.
Qed.

Lemma NoDup_L : NoDup L.*1.
Proof.
  unfold L. eapply sublist_NoDup.
  2:{ apply fmap_sublist, sublist_filter. }
  rewrite <-list_fmap_compose.
  rewrite (list_fmap_ext _ id (range 1 (m + 1))) by done.
  rewrite list_fmap_id. apply NoDup_seqZ.
Qed.

Lemma weight_of_L : (list_to_map (reverse L) : gmap Z Z) = weight c.
Proof using Hpos.
  apply map_eq. intros k. destruct (weight c !! k) as [v|] eqn:E.
  - apply elem_of_list_to_map_1.
    + rewrite fmap_reverse, reverse_Permutation. apply NoDup_L.
    + rewrite elem_of_reverse. by apply elem_of_L.
  - apply not_elem_of_list_to_map_1. rewrite fmap_reverse, elem_of_reverse.
    intros ([k' v] & -> & Hkv)%list_elem_of_fmap. apply elem_of_L in Hkv.
    cbn in E. by rewrite E in Hkv.
Qed.

Lemma f_nonneg (i : Z) : 0 ≤ f i.
Proof using Hpos.
  unfold f. destruct (weight c !! i) as [v|] eqn:E; [|done].
  apply weight_lookup_Some in E. cbn. lia.
Qed.

Lemma sum_filter_pos (l : list (Z * Z)) :
  Forall (λ kv, 0 ≤ kv.2) l →
  sum (filter (λ kv : Z * Z, 0 < kv.2) l).*2 = sum l.*2.
Proof.
  induction 1 as [|[k v] l Hv _ IH]; [done|].
  rewrite filter_cons. cbn [snd] in *. case_decide.
  - by rewrite !fmap_cons, !sum_cons, IH.
  - rewrite fmap_cons, sum_cons, IH. cbn. lia.
Qed.

Lemma sum_L : sum L.*2 = order c.
Proof using Hpos.
  transitivity (sum (map_to_list (weight c)).*2).
  - apply sum_perm, fmap_Permutation. apply NoDup_Permutation.
    + eapply NoDup_fmap_1. apply NoDup_L.
    + apply NoDup_map_to_list.
    + intros [k v]. rewrite elem_of_L. by rewrite elem_of_map_to_list.
  - unfold weight. by rewrite get_weight_values_sum, order_len_multiset.
Qed.

Lemma weight_as_weak_comp_round_trip :
  weight_as_weak_comp c = Ok (f <$> range 1 (m + 1))
  ∧ weight_dict (VList (f <$> range 1 (m + 1))) = Ok (weight c)
  ∧ sum (f <$> range 1 (m + 1)) = order c
  ∧ len (f <$> range 1 (m + 1)) = m.
Proof using Hpos Hne.
  pose proof max_letter_pos as Hm.
  assert (len (f <$> range 1 (m + 1)) = m) as Hlen.
  { rewrite len_fmap. unfold len, range. rewrite length_seqZ. lia. }
  split_and!.
  - unfold weight_as_weak_comp. by rewrite max_letter_Ok.
  - unfold weight_dict. f_equal. rewrite Hlen.
    replace ((λ i, i + 1) <$> range 0 m) with (range 1 (m + 1)).
    2:{ pose proof (range_add 1 0 m) as Hr.
        replace (1 + 0) with 1 in Hr by lia. replace (1 + m) with (m + 1) in Hr by lia.
        rewrite Hr. apply list_fmap_ext. intros ???. lia. }
    rewrite zip_with_fmap_r, zip_with_diag. apply weight_of_L.
  - rewrite <-sum_L. unfold L. rewrite sum_filter_pos.
    + rewrite <-list_fmap_compose. done.
    + apply Forall_fmap, Forall_forall. intros i _. apply f_nonneg.
  - done.
Qed.

End weak_composition.

(** X20. [weight(as_weak_comp=True)] and the [weight] keyword of
    [OrderedMultisetPartitions] are inverse to each other: for a partition
    with at least one letter, all letters positive, the list returned has
    as many entries as the greatest letter, its entries add up to the
    order, and read back as a weak composition by the constructor of
    families it gives the weight dictionary of the partition.  On a
    partition without letters, [weight(as_weak_comp=True)] raises
    [TypeError], from [None + 1]. *)
Theorem weight_as_weak_comp_spec (c : omp) :
  Forall (λ a, 0 < a) (_get_multiset c) →
  (letters c ≠ ∅ →
   ∃ wc m, weight_as_weak_comp c = Ok wc
           ∧ max_letter c = Ok (Some m)
           ∧ len wc = m
           ∧ sum wc = order c
           ∧ weight_dict (VList wc) = Ok (weight c))
  ∧ (letters c = ∅ → weight_as_weak_comp c = Raise TypeError).
Proof.
  intros Hpos. split.
  - intros Hne.
    destruct (weight_as_weak_comp_round_trip c Hpos Hne) as (H1 & H2 & H3 & H4).
    eexists _, _. split; [exact H1|]. split; [by apply max_letter_Ok|].
    split; [exact H4|]. split; [exact H3|exact H2].
  - intros He. unfold weight_as_weak_comp, max_letter.
    by rewrite bool_decide_eq_true_2.
Qed.

Lemma weight_as_weak_comp_spec_witness :
  Forall (λ a, 0 < a) (_get_multiset (Set_ <$> [[6; 1]; [1; 3]; [1; 3; 6]])) ∧
  ∃ wc m, weight_as_weak_comp (Set_ <$> [[6; 1]; [1; 3]; [1; 3; 6]]) = Ok wc
          ∧ max_letter (Set_ <$> [[6; 1]; [1; 3]; [1; 3; 6]]) = Ok (Some m)
          ∧ len wc = m
          ∧ sum wc = order (Set_ <$> [[6; 1]; [1; 3]; [1; 3; 6]])
          ∧ weight_dict (VList wc) = Ok (weight (Set_ <$> [[6; 1]; [1; 3]; [1; 3; 6]])).
Proof.
  assert (H : Forall (λ a, 0 < a)
                (_get_multiset (Set_ <$> [[6; 1]; [1; 3]; [1; 3; 6]]))).
  { apply (bool_decide_unpack _). by vm_compute. }
  split; [exact H|].
  apply (proj1 (weight_as_weak_comp_spec _ H)).
  apply (bool_decide_unpack _). by vm_compute.
Defined.

(** ** The cardinality of a family of given alphabet and order *)

Lemma sublists_of_length_length (k : nat) (l : list Z) :
  length (Sage.sublists_of_length k l) = choose (length l) k.
Proof.
  revert k. induction l as [|x l IH]; intros [|k]; try done.
  cbn [Sage.sublists_of_length length choose].
  by rewrite length_app, length_fmap, !IH.
Qed.

Lemma sublists_of_length_sublist (k : nat) (l s : list Z) :
  s ∈ Sage.sublists_of_length k l → s `sublist_of` l ∧ length s = k.
Proof.
  revert k s. induction l as [|x l IH]; intros [|k] s Hs.
  - apply list_elem_of_singleton in Hs as ->. split; [constructor|done].
  - by apply elem_of_nil in Hs.
  - apply list_elem_of_singleton in Hs as ->. split; [apply sublist_nil_l|done].
  - cbn [Sage.sublists_of_length] in Hs. apply elem_of_app in Hs as [Hs|Hs].
    + apply list_elem_of_fmap in Hs as (s' & -> & Hs').
      destruct (IH k s' Hs') as [? ?]. split; [by constructor|cbn; lia].
    + destruct (IH (S k) s Hs) as [? ?]. split; [by constructor|done].
Qed.

Lemma Subsets_sk_length (A : gset Z) (a : Z) :
  len (Sage.Subsets_sk A a) = binomial (len (elements A)) a.
Proof.
  unfold Sage.Subsets_sk, binomial, len. case_decide as Ha.
  - by rewrite decide_True by lia.
  - rewrite decide_False by lia.
    by rewrite length_fmap, sublists_of_length_length, Nat2Z.id.
Qed.

Lemma elem_of_Subsets_sk (A B : gset Z) (a : Z) :
  B ∈ Sage.Subsets_sk A a → 0 ≤ a ∧ B ⊆ A ∧ len (elements B) = a.
Proof.
  unfold Sage.Subsets_sk. case_decide as Ha; [by intros ?%elem_of_nil|].
  intros (s & -> & Hs)%list_elem_of_fmap.
  apply sublists_of_length_sublist in Hs as [Hsub Hlen].
  assert (NoDup s) as Hnd
    by (eapply sublist_NoDup; [apply (NoDup_elements A)|done]).
  split; [lia|]. split.
  - intros x Hx. apply elem_of_list_to_set in Hx.
    apply elem_of_elements. by eapply elem_of_sublist.
  - unfold len. rewrite (elements_list_to_set s Hnd). lia.
Qed.

Lemma cartesian_product_length {A} (factors : list (list A)) :
  len (Sage.cartesian_product factors) = prod (len <$> factors).
Proof.
  induction factors as [|F factors IH]; [done|].
  cbn [Sage.cartesian_product]. rewrite fmap_cons.
  change (prod (len F :: (len <$> factors)))
    with (len F * prod (len <$> factors)).
  rewrite <-IH. generalize (Sage.cartesian_product factors). intros l.
  induction F as [|x F IHF]; [unfold len; cbn; lia|].
  cbn [mbind list_bind]. rewrite len_app, IHF, len_fmap, len_cons. lia.
Qed.

Lemma len_bind {A B} (f : A → list B) (l : list A) :
  len (l ≫= f) = sum ((λ x, len (f x)) <$> l).
Proof.
  induction l as [|x l IH]; [done|].
  cbn [mbind list_bind]. by rewrite len_app, fmap_cons, sum_cons, IH.
Qed.

Lemma len_join {A} (ls : list (list A)) : len (mjoin ls) = sum (len <$> ls).
Proof.
  induction ls as [|l ls IH]; [done|].
  change (mjoin (l :: ls)) with (l ++ mjoin ls).
  by rewrite len_app, fmap_cons, sum_cons, IH.
Qed.

Lemma elem_of_Compositions_of (d k n : Z) (alpha : list Z) :
  alpha ∈ Sage.Compositions_of d (Some k) (Some n) →
  Forall (λ x, 0 < x) alpha ∧ sum alpha = d ∧ len alpha = k.
Proof.
  unfold Sage.Compositions_of. case_decide as Hd; [by intros ?%elem_of_nil|].
  intros [_ [Hk Hc]%list_elem_of_filter]%list_elem_of_filter.
  apply Compositions_spec in Hc as [? ?]. split; [done|]. split; [lia|done].
Qed.

Lemma OMPs_A_init (A : gset Z) (d : Z) :
  ∃ P, OMPs_init (OMPs_A A d) true ∅ = Ok P ∧ fam_class P = OMPs_A A d.
Proof.
  unfold OMPs_init.
  assert (init_constraints ∅ = Ok ∅) as -> by (vm_compute; reflexivity).
  py_simpl. eauto.
Qed.

Lemma contains_A_class (P : family) A d (x : list (list Z)) :
  fam_class P = OMPs_A A d → contains P x = Ok (_has_valid_blocks_A A d x).
Proof. intros HP. unfold contains. by rewrite HP. Qed.

Lemma choice_of_subsets (A : gset Z) (d : Z) (alpha : list Z) (co : omp) :
  Forall (λ x, 0 < x) alpha → sum alpha = d →
  Forall2 (λ B F, B ∈ F) co ((λ a, Sage.Subsets_sk A a) <$> alpha) →
  valid co ∧ _has_valid_blocks_A A d (iter_blocks co) = true.
Proof.
  intros Hpos Hs Hco. rewrite Forall2_fmap_r in Hco.
  assert (valid co ∧ sum (len <$> iter_blocks co) = sum alpha
          ∧ Set_ (_concatenate (iter_blocks co)) ⊆ A) as (Hv & Ho & Hl).
  { clear Hs. revert Hpos. induction Hco as [|B a co' alpha' HB _ IH]; intros Hpos.
    - split; [constructor|]. split; [done|]. set_solver.
    - inv Hpos. destruct (IH H2) as (IH1 & IH2 & IH3).
      apply elem_of_Subsets_sk in HB as (_ & Hsub & Hlen).
      split; [|split].
      + constructor; [|done]. intros ->. rewrite elements_empty in Hlen.
        unfold len in Hlen. cbn in Hlen. lia.
      + unfold iter_blocks in *. rewrite !fmap_cons, !sum_cons, IH2. lia.
      + unfold iter_blocks, _concatenate, Set_ in *. rewrite fmap_cons.
        change (mjoin (?x :: ?l)) with (x ++ mjoin l).
        rewrite list_to_set_app_L, list_to_set_elements_L. set_solver. }
  split; [done|]. unfold _has_valid_blocks_A.
  rewrite _has_valid_blocks_iter by done.
  rewrite bool_decide_eq_true_2 by lia.
  by rewrite bool_decide_eq_true_2.
Qed.

Lemma iterator_order_length (A : gset Z) (d : Z) (P : family) (k : Z) :
  fam_class P = OMPs_A A d →
  comprehension (λ co, element_constructor P (iter_blocks co))
    (alpha ← Sage.Compositions_of d (Some k) (Some (len (elements A)));
     Sage.cartesian_product ((λ a, Sage.Subsets_sk A a) <$> alpha))
  = Ok (alpha ← Sage.Compositions_of d (Some k) (Some (len (elements A)));
        Sage.cartesian_product ((λ a, Sage.Subsets_sk A a) <$> alpha)).
Proof.
  intros HP. rewrite (comprehension_pure _ id); [by rewrite list_fmap_id|].
  intros co Hco. apply list_elem_of_bind in Hco as (alpha & Hco & Halpha).
  apply elem_of_Compositions_of in Halpha as (Hpos & Hs & _).
  apply elem_of_cartesian_product in Hco.
  destruct (choice_of_subsets A d alpha co Hpos Hs Hco) as [Hv Hblocks].
  apply element_constructor_member; [done|]. unfold id.
  by rewrite (contains_A_class P A d), Hblocks.
Qed.

Lemma iterator_order_count (A : gset Z) (d k : Z) :
  len (alpha ← Sage.Compositions_of d (Some k) (Some (len (elements A)));
       Sage.cartesian_product ((λ a, Sage.Subsets_sk A a) <$> alpha))
  = cardinality_A_length A d k.
Proof.
  rewrite len_bind. unfold cardinality_A_length. cbn zeta. f_equal.
  apply list_fmap_ext. intros _ alpha _.
  rewrite cartesian_product_length, <-list_fmap_compose. f_equal.
  apply list_fmap_ext. intros _ a _. cbn [compose]. apply Subsets_sk_length.
Qed.

Lemma cardinality_A_length_0 (A : gset Z) (d : Z) :
  0 < d → cardinality_A_length A d 0 = 0.
Proof.
  intros Hd. unfold cardinality_A_length. cbn zeta.
  replace (Sage.Compositions_of d (Some 0) (Some (len (elements A)))) with (@nil (list Z));
    [done|].
  symmetry. destruct (Sage.Compositions_of d (Some 0) _) as [|alpha l] eqn:E; [done|].
  assert (alpha ∈ Sage.Compositions_of d (Some 0) (Some (len (elements A)))) as H
    by (rewrite E; left).
  apply elem_of_Compositions_of in H as (_ & Hs & Hl).
  destruct alpha; [cbn in Hs; lia|unfold len in Hl; cbn in Hl; lia].
Qed.

(** X21. For a nonempty alphabet [A] and an order [d > 0], the iterator
    [_iterator_order(A, d)] returns, every partition it yields is accepted
    by the element constructor of the family of order [d] over [A], and
    [OrderedMultisetPartitions_A.cardinality()] is the number of partitions
    yielded.  For order [0] the two disagree: the iterator yields the empty
    partition, and [cardinality()] returns [0]. *)
Theorem cardinality_A_counts_iterator (A : gset Z) (d : Z) :
  A ≠ ∅ →
  (0 < d →
   ∃ l, _iterator_order A d None = Ok l
        ∧ cardinality_A A d = Ok (len l)
        ∧ Forall (λ co, valid co ∧ _has_valid_blocks_A A d (iter_blocks co) = true) l)
  ∧ _iterator_order A 0 None = Ok [[]]
  ∧ cardinality_A A 0 = Ok 0.
Proof.
  intros HA.
  assert (0 < len (elements A)) as Hn.
  { destruct (elements A) eqn:E; [|unfold len; cbn; lia].
    by apply elements_empty_inv, leibniz_equiv in E. }
  split; [|split].
  - intros Hd. unfold _iterator_order, cardinality_A.
    destruct (OMPs_A_init A d) as (P & -> & HP). py_simpl.
    rewrite (bool_decide_eq_true_2 (d ≠ 0)) by lia.
    rewrite (bool_decide_eq_false_2 (d = 0)) by lia.
    unfold floordiv. rewrite decide_False by lia. py_simpl.
    set (n := len (elements A)) in *.
    rewrite (comprehension_pure _
      (λ k, alpha ← Sage.Compositions_of d (Some k) (Some n);
            Sage.cartesian_product ((λ a, Sage.Subsets_sk A a) <$> alpha))).
    2:{ intros k Hk. rewrite andb_false_r.
        by apply iterator_order_length. }
    py_simpl. eexists. split; [done|]. split.
    + f_equal. unfold _concatenate. rewrite len_join, <-list_fmap_compose.
      rewrite (foldl_add_sum (cardinality_A_length A d)).
      rewrite (list_fmap_ext _ (cardinality_A_length A d)
                 (range (Z.max 1 (d / n)) (d + 1))).
      2:{ intros _ k _. cbn [compose]. apply iterator_order_count. }
      assert (0 ≤ d / n) as Hq by (apply Z.div_pos; lia).
      destruct (decide (d / n = 0)) as [E|E].
      * rewrite E. rewrite (range_cons 0 (d + 1)) by lia.
        rewrite fmap_cons, sum_cons, cardinality_A_length_0 by done.
        replace (Z.max 1 0) with (Z.succ 0) by lia. lia.
      * replace (Z.max 1 (d / n)) with (d / n) by lia. lia.
    + apply Forall_forall. intros co Hco.
      apply list_elem_of_join in Hco as (l' & Hco & Hl').
      apply list_elem_of_fmap in Hl' as (k & -> & _).
      apply list_elem_of_bind in Hco as (alpha & Hco & Halpha).
      apply elem_of_Compositions_of in Halpha as (Hpos & Hs & _).
      apply elem_of_cartesian_product in Hco.
      by apply (choice_of_subsets A d alpha co).
  - unfold _iterator_order.
    destruct (OMPs_A_init A 0) as (P & -> & HP). py_simpl.
    cbn [comprehension]. unfold element_constructor.
    rewrite (contains_A_class P A 0) by done. py_simpl.
    assert (_has_valid_blocks_A A 0 [] = true) as ->.
    { unfold _has_valid_blocks_A. cbn. apply bool_decide_eq_true. set_solver. }
    done.
  - done.
Qed.

Lemma cardinality_A_counts_iterator_witness :
  ({[0; 42]} : gset Z) ≠ ∅ ∧
  ∃ l, _iterator_order {[0; 42]} 3 None = Ok l
       ∧ cardinality_A {[0; 42]} 3 = Ok (len l).
Proof.
  assert (H : ({[0; 42]} : gset Z) ≠ ∅) by (apply (bool_decide_unpack _); by vm_compute).
  split; [exact H|].
  destruct (proj1 (cardinality_A_counts_iterator {[0; 42]} 3 H) ltac:(lia))
    as (l & H1 & H2 & _).
  exists l. split; [exact H1|exact H2].
Defined.

(** ** [an_element] of the family of a fixed size *)

Lemma an_element_n_blocks (alpha : list Z) :
  an_element_n alpha
  = OrderedMultisetPartition_of_sets (Set_ <$> (an_element_n_block <$> alpha)).
Proof.
  unfold an_element_n. cbn zeta. do 2 f_equal.
  assert (∀ out, foldl (λ out a,
        if bool_decide (a ∈ [1; 2; 4]) then out ++ [[a]]
        else if bool_decide (a `mod` 2 ≠ 0) then out ++ [[a / 2 + 1; a / 2]]
        else out ++ [[a / 2; a / 2 - 1; 1]]) out alpha
      = out ++ (an_element_n_block <$> alpha)) as H; [|apply (H [])].
  induction alpha as [|a alpha IH]; intros out.
  { by rewrite app_nil_r. }
  cbn [foldl]. rewrite IH, fmap_cons. unfold an_element_n_block at 2.
  repeat case_bool_decide; by rewrite <-(assoc_L (++)).
Qed.

Lemma NoDup_block_ok (b : list Z) : b ≠ [] → NoDup b → block_ok b = true.
Proof.
  intros Hne Hnd. apply bool_decide_eq_true. split; [done|]. unfold Set_.
  by rewrite (elements_list_to_set _ Hnd).
Qed.

Lemma an_element_n_block_ok (a : Z) :
  0 < a →
  block_ok (an_element_n_block a) = true
  ∧ Forall (λ i, 0 < i) (an_element_n_block a)
  ∧ sum (an_element_n_block a) = a
  ∧ (length (an_element_n_block a) ≤ 3)%nat.
Proof.
  intros Ha. unfold an_element_n_block.
  case_bool_decide as H1.
  { split; [apply NoDup_block_ok; [done|repeat constructor; set_solver]|].
    split; [by repeat constructor|]. split; [cbn; lia|cbn; lia]. }
  assert (a ≠ 1 ∧ a ≠ 2 ∧ a ≠ 4) as (Hn1 & Hn2 & Hn4).
  { split_and!; intros ->; apply H1; set_solver. }
  pose proof (Z.div_mod a 2 ltac:(lia)) as Hdm.
  pose proof (Z.mod_pos_bound a 2 ltac:(lia)) as Hmod.
  case_bool_decide as Hodd.
  - assert (NoDup [a / 2 + 1; a / 2]) as Hnd.
    { repeat constructor; set_solver by lia. }
    split_and!.
    + by apply NoDup_block_ok.
    + repeat constructor; lia.
    + cbn. lia.
    + cbn. lia.
  - assert (NoDup [a / 2; a / 2 - 1; 1]) as Hnd.
    { repeat constructor; set_solver by lia. }
    split_and!.
    + by apply NoDup_block_ok.
    + repeat constructor; lia.
    + cbn. lia.
    + cbn. lia.
Qed.

(** X22. [OrderedMultisetPartitions_n.an_element()] returns a member of the
    family: whatever composition [alpha] of [n] the enumerator of
    compositions hands over, the partition built has one block for every
    part of [alpha], each with at most three letters, it is accepted by the
    membership test of the family of size [n], and its size is [n]. *)
Theorem an_element_n_member (n : Z) (alpha : list Z) (P : family) :
  Forall (λ a, 0 < a) alpha → sum alpha = n → fam_class P = OMPs_n n →
  contains P (iter_blocks (an_element_n alpha)) = Ok true
  ∧ valid (an_element_n alpha)
  ∧ len (an_element_n alpha) = len alpha
  ∧ Forall (λ B, len (elements B) ≤ 3) (an_element_n alpha)
  ∧ size (an_element_n alpha) = Some n.
Proof.
  intros Hpos Hs HP.
  assert (Forall (λ b, block_ok b = true ∧ Forall (λ i, 0 < i) b
                       ∧ (length b ≤ 3)%nat) (an_element_n_block <$> alpha)) as Hb.
  { apply Forall_fmap. eapply Forall_impl; [exact Hpos|]. intros a Ha. cbn.
    destruct (an_element_n_block_ok a Ha) as (? & ? & ? & ?). done. }
  assert (sum (sum <$> (an_element_n_block <$> alpha)) = n) as Hsum.
  { rewrite <-Hs, <-list_fmap_compose. f_equal.
    rewrite <-(list_fmap_id alpha) at 2.
    apply Forall_fmap_ext_1. eapply Forall_impl; [exact Hpos|]. intros a Ha. cbn.
    by destruct (an_element_n_block_ok a Ha) as (_ & _ & ? & _). }
  rewrite an_element_n_blocks.
  set (out := an_element_n_block <$> alpha) in *.
  assert (Forall (λ b, b ≠ []) out) as Hne.
  { eapply Forall_impl; [exact Hb|]. intros b (Hok & _). cbn in *.
    by apply bool_decide_eq_true in Hok as [? _]. }
  rewrite Set_blocks_nonempty by done.
  assert (Forall2 (≡ₚ) (iter_blocks (Set_ <$> out)) out) as Hperm.
  { unfold iter_blocks. rewrite <-list_fmap_compose.
    apply Forall2_fmap_l, Forall_Forall2_diag.
    eapply Forall_impl; [exact Hb|]. intros b (Hok & _). cbn.
    by apply elements_Set_perm. }
  assert (_has_valid_blocks_n n out = true) as Hvalid.
  { unfold _has_valid_blocks_n. cbn zeta.
    rewrite bool_decide_eq_true_2 by done. rewrite andb_true_r.
    apply andb_true_iff. split.
    - apply Is_true_true, forallb_True.
      eapply Forall_impl; [exact Hb|]. intros b (Hok & _). cbn. by rewrite Hok.
    - apply Is_true_true, forallb_True. unfold _concatenate.
      apply Forall_forall. intros i Hi. apply list_elem_of_join in Hi as (b & Hi & Hbo).
      rewrite Forall_forall in Hb. destruct (Hb b Hbo) as (_ & Hp & _).
      rewrite Forall_forall in Hp. apply bool_decide_pack. by apply Hp. }
  split_and!.
  - unfold contains. rewrite HP.
    by rewrite (_has_valid_blocks_n_perm n _ _ Hperm), Hvalid.
  - apply Forall_fmap. eapply Forall_impl; [exact Hne|]. intros b Hbne. cbn.
    unfold Set_. destruct b; [done|]. set_solver.
  - unfold out. by rewrite !len_fmap.
  - apply Forall_fmap. eapply Forall_impl; [exact Hb|]. intros b (_ & _ & Hl). cbn.
    pose proof (length_elements_Set_le b). unfold len. lia.
  - unfold size, _get_multiset.
    assert (_concatenate (iter_blocks (Set_ <$> out)) ≡ₚ _concatenate out) as Hc.
    { unfold _concatenate. by apply concat_perm. }
    rewrite (forallb_perm _ _ _ (sorted_Permutation _)).
    rewrite (forallb_perm _ _ _ Hc).
    apply andb_true_iff in Hvalid as [Hv1 _]. apply andb_true_iff in Hv1 as [_ Hv1].
    rewrite Hv1. f_equal.
    rewrite (sum_perm _ _ (sorted_Permutation _)), (sum_perm _ _ Hc).
    unfold _concatenate. by rewrite sum_join.
Qed.

Lemma an_element_n_member_witness :
  Forall (λ a, 0 < a) [4; 3; 6] ∧ sum [4; 3; 6] = 13 ∧
  valid (an_element_n [4; 3; 6]) ∧ size (an_element_n [4; 3; 6]) = Some 13.
Proof.
  assert (H1 : Forall (λ a, 0 < a) [4; 3; 6]) by (repeat constructor).
  assert (H2 : sum [4; 3; 6] = 13) by reflexivity.
  assert (H3 : fam_class {| fam_class := OMPs_n 13; fam_constraints := ∅;
                            fam_full_constraints := ∅; fam_finite := true |}
               = OMPs_n 13) by reflexivity.
  split; [exact H1|]. split; [exact H2|].
  pose proof (an_element_n_member 13 [4; 3; 6] _ H1 H2 H3) as H.
  split; [exact (proj1 (proj2 H))|exact (proj2 (proj2 (proj2 (proj2 H))))].
Defined.

(** ** [an_element] of the family of a fixed multiset *)

Lemma runs_join (w : list Z) : mjoin (runs w) = w.
Proof.
  induction w as [|a w IH]; [done|].
  rewrite runs_cons. destruct (runs w) as [|r rs]; [by rewrite <-IH|].
  case_decide; by rewrite <-IH.
Qed.

Lemma runs_increasing (w : list Z) :
  Forall (λ r, r ≠ [] ∧ StronglySorted Z.lt r) (runs w).
Proof.
  induction w as [|a w IH]; [constructor|].
  rewrite runs_cons. destruct (runs w) as [|r rs].
  { repeat constructor. done. }
  inv IH. destruct H1 as [Hr Hs]. case_decide as Ha.
  - constructor; [|done]. split; [done|]. constructor; [done|].
    destruct r as [|b r]; [done|]. cbn in Ha. inv Hs.
    constructor; [done|]. eapply Forall_impl; [done|]. intros ??; cbn in *; lia.
  - constructor; [|by constructor]. split; [done|]. repeat constructor.
Qed.

Lemma StronglySorted_lt_NoDup (r : list Z) : StronglySorted Z.lt r → NoDup r.
Proof.
  induction 1 as [|a r _ IH Ha]; constructor; [|done].
  intros Hin. rewrite Forall_forall in Ha. specialize (Ha a Hin). lia.
Qed.

Lemma an_element_X_loop_singles (co : list (list Z)) j elt i :
  Forall (λ b, len b = 1) co → co ≠ [] →
  an_element_X_loop co j elt i = (elt ++ co, Some (j + len co - 1)).
Proof.
  intros Hco. revert j elt i. induction Hco as [|b co Hb Hco IH]; intros j elt i Hne.
  { done. }
  cbn [an_element_X_loop]. rewrite bool_decide_eq_true_2 by done.
  destruct co as [|b' co'].
  - cbn. do 2 f_equal. unfold len. cbn. lia.
  - rewrite IH by done. rewrite <-(assoc_L (++)). do 2 f_equal.
    rewrite !len_cons. lia.
Qed.

Lemma an_element_X_loop_stop (singles rest : list (list Z)) b j elt i :
  Forall (λ b, len b = 1) singles → len b ≠ 1 →
  an_element_X_loop (singles ++ b :: rest) j elt i
  = (elt ++ singles, Some (j + len singles)).
Proof.
  intros Hs Hb. revert j elt i. induction Hs as [|s singles Hs1 _ IH]; intros j elt i.
  - cbn [app an_element_X_loop]. rewrite bool_decide_eq_false_2 by done.
    rewrite app_nil_r. do 2 f_equal. unfold len. cbn. lia.
  - cbn [app an_element_X_loop]. rewrite bool_decide_eq_true_2 by done.
    rewrite IH, <-(assoc_L (++)). do 2 f_equal. rewrite len_cons. lia.
Qed.

Lemma singles_or_stop (co : list (list Z)) :
  Forall (λ b, len b = 1) co
  ∨ ∃ singles b rest, co = singles ++ b :: rest
      ∧ Forall (λ b, len b = 1) singles ∧ len b ≠ 1.
Proof.
  induction co as [|b co IH]; [by left|].
  destruct (decide (len b = 1)) as [Hb|Hb].
  - destruct IH as [IH|(singles & b' & rest & -> & Hs & Hb')].
    + left. by constructor.
    + right. exists (b :: singles), b', rest. split; [done|]. split; [by constructor|done].
  - right. exists [], b, co. split; [done|]. split; [constructor|done].
Qed.

Lemma element_of_NoDup_blocks (elt : list (list Z)) :
  Forall NoDup elt →
  valid (OrderedMultisetPartition_of_sets (Set_ <$> elt))
  ∧ _concatenate (iter_blocks (OrderedMultisetPartition_of_sets (Set_ <$> elt)))
    ≡ₚ _concatenate elt.
Proof.
  intros Hnd. split; [apply valid_filter|].
  unfold _concatenate, iter_blocks, OrderedMultisetPartition_of_sets.
  induction Hnd as [|b elt Hb _ IH]; [done|].
  rewrite fmap_cons, filter_cons.
  change (mjoin (b :: elt)) with (b ++ mjoin elt). case_decide as Hne.
  - rewrite fmap_cons. change (mjoin (?x :: ?l)) with (x ++ mjoin l).
    rewrite IH. unfold Set_. by rewrite (elements_list_to_set _ Hb).
  - rewrite IH. destruct b as [|x b]; [done|]. exfalso.
    unfold Set_ in Hne. set_solver.
Qed.

Lemma an_element_X_unfold (P : family) (Xtup alpha : list Z) :
  Xtup ≠ [] →
  an_element_X P Xtup alpha
  = elt ← an_element_X_blocks alpha; element_class P (Set_ <$> elt).
Proof.
  intros Hne. unfold an_element_X, an_element_X_blocks.
  rewrite bool_decide_eq_false_2 by done. cbn zeta.
  destruct (an_element_X_loop _ _ _ _) as [elt [i|]]; [|done].
  by destruct (index _ i).
Qed.

Lemma has_valid_blocks_X_iff (X : list Z) (e : omp) :
  valid e →
  _has_valid_blocks_X (sorted X) (iter_blocks e)
  = bool_decide (sorted (_concatenate (iter_blocks e)) = sorted X).
Proof.
  intros Hv. unfold _has_valid_blocks_X. cbn zeta.
  by rewrite _has_valid_blocks_iter.
Qed.

Lemma an_element_X_blocks_spec (alpha : list Z) :
  alpha ≠ [] →
  ∃ elt, an_element_X_blocks alpha = Ok elt
    ∧ Forall NoDup elt
    ∧ (¬ Forall (λ b, len b = 1) (_break_at_descents alpha true) →
       _concatenate elt = alpha)
    ∧ (Forall (λ b, len b = 1) (_break_at_descents alpha true) →
       ∃ x, _concatenate elt = alpha ++ [x]).
Proof.
  intros Hne. unfold an_element_X_blocks. cbn zeta.
  rewrite _break_at_descents_runs.
  pose proof (runs_join alpha) as Hjoin.
  pose proof (runs_increasing alpha) as Hinc.
  assert (runs alpha ≠ []) as Hrne.
  { intros E. rewrite E in Hjoin. by destruct alpha. }
  assert (Forall NoDup (runs alpha)) as Hnd.
  { eapply Forall_impl; [exact Hinc|]. intros r [_ Hr]. cbn.
    by apply StronglySorted_lt_NoDup. }
  destruct (singles_or_stop (runs alpha)) as [Hsing|(singles & b & rest & E & Hs & Hb)].
  - (* no block with two letters *)
    rewrite an_element_X_loop_singles by done.
    destruct (list_snoc_or_nil (runs alpha)) as [?|(co' & r & Eco)]; [done|].
    assert (len r = 1) as Hr.
    { rewrite Forall_forall in Hsing. apply Hsing. rewrite Eco. set_solver. }
    destruct r as [|x [|??]]; [done| |unfold len in Hr; cbn in Hr; lia].
    replace (0 + len (runs alpha) - 1) with (len co').
    2:{ rewrite Eco, len_app. unfold len. cbn. lia. }
    rewrite Eco.
    rewrite (index_Some _ _ [x]);
      [|apply len_nonneg|unfold len; rewrite Nat2Z.id; by apply list_lookup_middle].
    py_simpl.
    change (Z.to_nat (len [x] / 2 + 1)) with 1%nat. cbn [take drop].
    rewrite (drop_ge (co' ++ [[x]])) by (rewrite length_app; unfold len; cbn; lia).
    rewrite app_nil_r.
    change ([] ++ co' ++ [[x]]) with (co' ++ [[x]]).
    eexists. split; [done|]. split; [|split].
    + rewrite <-Eco. repeat apply Forall_app_2; try done;
        repeat constructor; set_solver.
    + intros Hn. rewrite <-Eco in Hn. by destruct Hn.
    + intros _. exists x. unfold _concatenate.
      rewrite <-Eco, !join_app, Hjoin. cbn. by rewrite app_nil_r.
  - (* the loop stops at the block b *)
    rewrite E, an_element_X_loop_stop by done.
    replace (0 + len singles) with (len singles) by lia.
    rewrite (index_Some _ _ b);
      [|apply len_nonneg|unfold len; rewrite Nat2Z.id; by apply list_lookup_middle].
    py_simpl.
    replace (Z.to_nat (len singles + 1)) with (length (singles ++ [b])).
    2:{ rewrite length_app. unfold len. cbn. lia. }
    rewrite (cons_middle b singles rest), (assoc_L (++)), drop_app_length.
    set (q := Z.to_nat (len b / 2 + 1)).
    eexists. split; [done|]. split; [|split].
    + rewrite E in Hnd. apply Forall_app in Hnd as [Hn1 Hn2].
      apply Forall_cons in Hn2 as [Hnb Hn2].
      repeat apply Forall_app_2; try done.
      * repeat constructor. rewrite <-(take_drop q b) in Hnb.
        by apply NoDup_app in Hnb as (? & _ & _).
      * repeat constructor. rewrite <-(take_drop q b) in Hnb.
        by apply NoDup_app in Hnb as (_ & _ & ?).
    + intros _. unfold _concatenate. rewrite !join_app. cbn. rewrite !app_nil_r.
      rewrite <-(assoc_L (++) (mjoin singles)), take_drop.
      rewrite <-Hjoin, E, join_app. cbn. by rewrite (assoc_L (++)).
    + intros Hall. exfalso. apply Forall_app in Hall as [Hall _].
      apply Forall_app in Hall as [_ Hall].
      apply Forall_cons in Hall as [? _]. done.
Qed.

Lemma runs_replicate_singles (k : Z) (v : nat) :
  Forall (λ b, len b = 1) (runs (replicate v k)).
Proof.
  pose proof (runs_join (replicate v k)) as Hjoin.
  pose proof (runs_increasing (replicate v k)) as Hinc.
  apply Forall_forall. intros b Hb.
  assert (∀ y, y ∈ b → y = k) as Hall.
  { intros y Hy. assert (y ∈ replicate v k) as Hin.
    { rewrite <-Hjoin. apply list_elem_of_join. eauto. }
    by apply elem_of_replicate in Hin as [-> _]. }
  rewrite Forall_forall in Hinc. destruct (Hinc b Hb) as [Hne Hs].
  destruct b as [|y [|z b]]; [done|done|]. exfalso.
  assert (y = k) as -> by (apply Hall; set_solver).
  assert (z = k) as -> by (apply Hall; set_solver).
  inv Hs. inv H2. lia.
Qed.

(** X23. [OrderedMultisetPartitions_X.an_element()] cuts the permutation
    [alpha] of the multiset, handed over by the enumerator of permutations,
    after every position that is not an ascent, into blocks, and builds the
    element with the membership check of the family.  If some block has more
    than one letter, a member of the family is returned.  If all blocks are
    singletons, the loop ends without [break], the last block is appended a
    second time, the candidate has one letter too many and the call raises
    [ValueError].  This is what happens for every multiset that consists of
    one letter repeated. *)
Theorem an_element_X_spec (P : family) (X : list (Z * Z)) (alpha : list Z) :
  alpha ≠ [] →
  fam_class P = OMPs_X_class X →
  _Xtup X = sorted alpha →
  (¬ Forall (λ b, len b = 1) (_break_at_descents alpha true) →
     ∃ e, an_element_X P (_Xtup X) alpha = Ok e
          ∧ valid e
          ∧ contains P (iter_blocks e) = Ok true
          ∧ _concatenate (iter_blocks e) ≡ₚ alpha)
  ∧ (Forall (λ b, len b = 1) (_break_at_descents alpha true) →
     an_element_X P (_Xtup X) alpha = Raise ValueError)
  ∧ (∀ k v, alpha = replicate (S v) k →
     an_element_X P (_Xtup X) alpha = Raise ValueError).
Proof.
  intros Hne HP HX.
  assert (_Xtup X ≠ []) as HXne.
  { rewrite HX. by intros ?%sorted_nil_inv. }
  destruct (an_element_X_blocks_spec alpha Hne) as (elt & Helt & Hnd & Hcat1 & Hcat2).
  destruct (element_of_NoDup_blocks elt Hnd) as [Hv Hc].
  assert (an_element_X P (_Xtup X) alpha
          = if bool_decide (sorted (_concatenate elt) = sorted alpha)
            then Ok (OrderedMultisetPartition_of_sets (Set_ <$> elt))
            else Raise ValueError) as Hrun.
  { rewrite an_element_X_unfold, Helt by done. py_simpl.
    unfold element_class. cbn zeta.
    rewrite (contains_X_class P X _ HP), HX. py_simpl.
    rewrite has_valid_blocks_X_iff by done.
    by rewrite (sorted_unique _ _ Hc). }
  assert (Forall (λ b, len b = 1) (_break_at_descents alpha true) →
          an_element_X P (_Xtup X) alpha = Raise ValueError) as Hsingles.
  { intros Hall. destruct (Hcat2 Hall) as [x Hx]. rewrite Hrun.
    rewrite bool_decide_eq_false_2; [done|]. intros Eq.
    apply (f_equal length) in Eq.
    rewrite !(Permutation_length (sorted_Permutation _)) in Eq.
    rewrite Hx, length_app in Eq. cbn in Eq. lia. }
  split; [|split; [exact Hsingles|]].
  - intros Hnot. specialize (Hcat1 Hnot).
    exists (OrderedMultisetPartition_of_sets (Set_ <$> elt)).
    split; [|split; [done|split]].
    + rewrite Hrun, bool_decide_eq_true_2; [done|]. by rewrite Hcat1.
    + rewrite (contains_X_class P X _ HP), HX.
      rewrite has_valid_blocks_X_iff by done. f_equal.
      apply bool_decide_eq_true, sorted_unique. by rewrite Hc, Hcat1.
    + by rewrite Hc, Hcat1.
  - intros k v ->. apply Hsingles. rewrite _break_at_descents_runs.
    apply runs_replicate_singles.
Qed.

Lemma an_element_X_spec_witness :
  [1; 1] ≠ [] ∧
  fam_class {| fam_class := OMPs_X_class [(1, 2)]; fam_constraints := ∅;
               fam_full_constraints := ∅; fam_finite := true |}
  = OMPs_X_class [(1, 2)] ∧
  _Xtup [(1, 2)] = sorted [1; 1] ∧
  an_element_X {| fam_class := OMPs_X_class [(1, 2)]; fam_constraints := ∅;
                  fam_full_constraints := ∅; fam_finite := true |}
    (_Xtup [(1, 2)]) [1; 1]
  = Raise ValueError.
Proof.
  assert (H : [1; 1] ≠ @nil Z) by done.
  assert (HX : _Xtup [(1, 2)] = sorted [1; 1]) by (vm_compute; reflexivity).
  split; [exact H|]. split; [reflexivity|]. split; [exact HX|].
  exact (proj2 (proj2 (an_element_X_spec
    {| fam_class := OMPs_X_class [(1, 2)]; fam_constraints := ∅;
       fam_full_constraints := ∅; fam_finite := true |}
    [(1, 2)] [1; 1] H eq_refl HX)) 1 1%nat eq_refl).
Defined.

(** ** [is_finer] on different arguments *)

Lemma get_weight_eq_multiset (a b : omp) :
  _get_weight (_get_multiset a) = _get_weight (_get_multiset b) →
  _get_multiset a = _get_multiset b.
Proof.
  intros E. apply (f_equal (λ w, _Xtup (map_to_list w))) in E.
  rewrite !Xtup_get_weight in E. unfold _get_multiset in *.
  by rewrite !sorted_idemp in E.
Qed.

Lemma order_zero_nil (k : omp) : valid k → order k = 0 → k = [].
Proof.
  intros Hv Ho. pose proof (valid_order_ge k Hv) as Hle.
  destruct k; [done|]. rewrite len_cons in Hle. pose proof (len_nonneg k). lia.
Qed.

Lemma multiset_eq_order (a b : omp) :
  _get_multiset a = _get_multiset b → order a = order b.
Proof. intros E. by rewrite !order_len_multiset, E. Qed.

Lemma get_multiset_cancel_l (p x y : omp) :
  _get_multiset (p ++ x) = _get_multiset (p ++ y) →
  _get_multiset x = _get_multiset y.
Proof.
  intros E. unfold _get_multiset. apply sorted_unique.
  apply (Permutation_app_inv_l (_get_multiset p)).
  assert (∀ z, _get_multiset p ++ _concatenate (iter_blocks z)
               ≡ₚ _get_multiset (p ++ z)) as Hz.
  { intros z. rewrite get_multiset_app. apply Permutation_app_head.
    unfold _get_multiset. by rewrite sorted_Permutation. }
  by rewrite !Hz, E.
Qed.

Lemma trim_common_prefix_spec (co1 co2 : omp) :
  (∀ k, co2 ≠ co1 ++ k) → (∀ k, co1 ≠ co2 ++ k) →
  ∃ p a r1 b r2, co1 = p ++ a :: r1 ∧ co2 = p ++ b :: r2 ∧ a ≠ b
    ∧ trim_common_prefix co1 co2 = Ok (a :: r1, b :: r2).
Proof.
  revert co2. induction co1 as [|B1 co1 IH]; intros co2 H1 H2.
  { by destruct (H1 co2). }
  destruct co2 as [|B2 co2].
  { by destruct (H2 (B1 :: co1)). }
  cbn [trim_common_prefix]. destruct (decide (B1 = B2)) as [->|Hne].
  - destruct (IH co2) as (p & a & r1 & b & r2 & -> & -> & Hab & ->).
    + intros k ->. by apply (H1 k).
    + intros k ->. by apply (H2 k).
    + by exists (B2 :: p), a, r1, b, r2.
  - by exists [], B1, co1, B2, co2.
Qed.

Lemma trim_common_suffix_spec (co1 co2 : omp) :
  (∀ k, co2 ≠ k ++ co1) → (∀ k, co1 ≠ k ++ co2) →
  ∃ s a r1 b r2, co1 = r1 ++ a :: s ∧ co2 = r2 ++ b :: s ∧ a ≠ b
    ∧ trim_common_suffix co1 co2 = Ok (r1 ++ [a], r2 ++ [b]).
Proof.
  intros H1 H2. unfold trim_common_suffix.
  destruct (trim_common_prefix_spec (reverse co1) (reverse co2))
    as (p & a & r1 & b & r2 & E1 & E2 & Hab & ->).
  - intros k E. apply (f_equal reverse) in E.
    rewrite reverse_app, !reverse_involutive in E. by apply (H1 (reverse k)).
  - intros k E. apply (f_equal reverse) in E.
    rewrite reverse_app, !reverse_involutive in E. by apply (H2 (reverse k)).
  - apply (f_equal reverse) in E1, E2.
    rewrite reverse_involutive, reverse_app, reverse_cons in E1, E2.
    exists (reverse p), a, (reverse r1), b, (reverse r2).
    rewrite E1, E2, <-!(assoc_L (++)). split; [done|]. split; [done|].
    split; [done|]. py_simpl. by rewrite !reverse_cons.
Qed.

Lemma groups_into_app (x c x' c' : omp) :
  groups_into x c → groups_into x' c' → groups_into (x ++ x') (c ++ c').
Proof.
  intros (t & <- & Ht) (t' & <- & Ht'). exists (t ++ t').
  split; [by rewrite join_app|by apply Forall2_app].
Qed.

Lemma splitting_with_whole (B : gset Z) (ch1 ch2 : omp) :
  valid (ch1 ++ B :: ch2) → is_splitting B (ch1 ++ B :: ch2) →
  ch1 = [] ∧ ch2 = [].
Proof.
  intros Hv [Hu Hd].
  assert (∀ (i : nat) B', i ≠ length ch1 → (ch1 ++ B :: ch2) !! i = Some B' → False)
    as Hno.
  { intros i B' Hi HB'.
    assert (B' ## B) as Hdis.
    { apply (Hd i (length ch1)); [done| |done]. by apply list_lookup_middle. }
    assert (B' ⊆ B) as Hsub.
    { rewrite <-Hu. intros z Hz. apply elem_of_union_list. exists B'.
      split; [by eapply list_elem_of_lookup_2|done]. }
    unfold valid in Hv. rewrite Forall_lookup in Hv. specialize (Hv i B' HB').
    apply Hv. set_solver. }
  split.
  - destruct ch1 as [|B' ch1]; [done|]. exfalso. by apply (Hno 0%nat B').
  - destruct ch2 as [|B' ch2]; [done|]. exfalso.
    apply (Hno (S (length ch1)) B'); [lia|].
    rewrite lookup_app_r by lia.
    by replace (S (length ch1) - length ch1)%nat with 1%nat by lia.
Qed.

Lemma groups_into_cancel_l (p x c : omp) :
  groups_into (p ++ x) (p ++ c) → groups_into x c.
Proof.
  induction p as [|B p IH]; [done|]. intros (t & Ht & HF). apply IH.
  rewrite <-!app_comm_cons in *.
  apply Forall2_cons_inv_r in HF as (ch & t' & (Hne & Hv & Hs) & HF & ->).
  change (mjoin (ch :: t')) with (ch ++ mjoin t') in Ht.
  destruct ch as [|B0 ch]; [done|]. injection Ht as -> Ht.
  destruct (splitting_with_whole B [] ch Hv Hs) as [_ ->].
  by exists t'.
Qed.

Lemma groups_into_cancel_r (s x c : omp) :
  groups_into (x ++ s) (c ++ s) → groups_into x c.
Proof.
  induction s as [|B s IH] using rev_ind.
  { by rewrite !app_nil_r. }
  rewrite !(assoc_L (++)). intros (t & Ht & HF). apply IH.
  apply Forall2_app_inv_r in HF as (t1 & t2 & HF1 & HF2 & ->).
  apply Forall2_cons_inv_r in HF2 as (ch & t' & (Hne & Hv & Hs) & HF2 & ->).
  apply Forall2_nil_inv_r in HF2 as ->.
  rewrite join_app in Ht. cbn in Ht. rewrite app_nil_r in Ht.
  destruct (list_snoc_or_nil ch) as [?|(ch' & B0 & ->)]; [done|].
  rewrite (assoc_L (++)) in Ht. apply app_inj_tail in Ht as [Ht ->].
  destruct (splitting_with_whole B ch' [] Hv Hs) as [-> _].
  rewrite app_nil_r in Ht. by exists t1.
Qed.

(** X24. On two different partitions with nonempty blocks [is_finer] returns,
    and it answers whether [self] is one of the partitions of [co.finer()]:
    removing the blocks that the two partitions share at the front and at
    the end does not change the answer.  (On equal partitions it raises
    [IndexError].) *)
Theorem is_finer_decides (self co : omp) :
  valid self → valid co → self ≠ co →
  ∃ F, finer co false = Ok F
       ∧ is_finer self co = Ok (bool_decide (self ∈ F))
       ∧ (is_finer self co = Ok true ↔ groups_into self co).
Proof.
  intros Hs Hc Hne. destruct (finer_char co Hc) as (F & HF & Hchar).
  exists F. split; [done|].
  assert (is_finer self co = Ok (bool_decide (self ∈ F))) as Hdec.
  2:{ split; [done|]. rewrite Hdec, <-Hchar. split.
      - intros [= E]. by apply bool_decide_eq_true in E.
      - intros Hin. by rewrite bool_decide_eq_true_2. }
  unfold is_finer.
  change (OMPs_X_of_weight (_get_weight (_concatenate (iter_blocks co))))
    with (OMPs_X (_concatenate (iter_blocks co))).
  rewrite OMPs_X_self by done. py_simpl. case_bool_decide as Hw.
  { f_equal. symmetry. apply bool_decide_eq_false. intros Hin.
    apply Hchar, groups_into_facts in Hin as (_ & _ & Hms); [|done].
    apply Hw. by rewrite Hms. }
  apply get_weight_eq_multiset in Hw.
  assert (∀ a b k : omp, valid a → valid b →
            _get_multiset a = _get_multiset b →
            b = a ++ k ∨ b = k ++ a → a = b) as Hext.
  { intros a b k Ha Hb Hms [E|E]; subst b.
    - apply valid_app in Hb as [_ Hk]. apply multiset_eq_order in Hms.
      rewrite order_app in Hms.
      rewrite (order_zero_nil k) by (done || lia). by rewrite app_nil_r.
    - apply valid_app in Hb as [Hk _]. apply multiset_eq_order in Hms.
      rewrite order_app in Hms.
      by rewrite (order_zero_nil k) by (done || lia). }
  destruct (trim_common_prefix_spec self co)
    as (p & a & r1 & b & r2 & -> & -> & Hab & ->).
  { intros k E. apply Hne. apply (Hext _ _ k); auto. }
  { intros k E. apply Hne. symmetry. apply (Hext _ _ k); auto. }
  py_simpl.
  apply valid_app in Hs as [Hp Hs]. apply valid_app in Hc as [_ Hc].
  apply get_multiset_cancel_l in Hw.
  destruct (trim_common_suffix_spec (a :: r1) (b :: r2))
    as (s & x & m1 & y & m2 & E1 & E2 & Hxy & ->).
  { intros k E. apply Hab. assert (a :: r1 = b :: r2) as [= ? ?]; [|done].
    apply (Hext _ _ k); auto. }
  { intros k E. apply Hab. assert (b :: r2 = a :: r1) as [= ? ?]; [|done].
    apply (Hext _ _ k); auto. }
  py_simpl. rewrite E1, E2 in *.
  rewrite (cons_middle x), (assoc_L (++)) in Hs.
  rewrite (cons_middle y), (assoc_L (++)) in Hc.
  apply valid_app in Hs as [Hm1 Hsuf]. apply valid_app in Hc as [Hm2 _].
  rewrite !of_sets_valid by done.
  destruct (finer_char (m2 ++ [y]) Hm2) as (F2 & -> & Hchar2). py_simpl.
  f_equal. apply bool_decide_ext. rewrite Hchar2, Hchar.
  rewrite (cons_middle x m1 s), (cons_middle y m2 s), !(assoc_L (++) _ [_] s).
  split.
  - intros Hg. apply groups_into_app; [by apply groups_into_self|].
    apply groups_into_app; [done|by apply groups_into_self].
  - intros Hg. by apply groups_into_cancel_l, groups_into_cancel_r in Hg.
Qed.

Lemma is_finer_decides_witness :
  valid (Set_ <$> [[4]; [1]; [2]]) ∧ valid (Set_ <$> [[1; 4]; [2]]) ∧
  Set_ <$> [[4]; [1]; [2]] ≠ Set_ <$> [[1; 4]; [2]] ∧
  ∃ F, finer (Set_ <$> [[1; 4]; [2]]) false = Ok F
       ∧ is_finer (Set_ <$> [[4]; [1]; [2]]) (Set_ <$> [[1; 4]; [2]])
         = Ok (bool_decide (Set_ <$> [[4]; [1]; [2]] ∈ F))
       ∧ (is_finer (Set_ <$> [[4]; [1]; [2]]) (Set_ <$> [[1; 4]; [2]]) = Ok true
          ↔ groups_into (Set_ <$> [[4]; [1]; [2]]) (Set_ <$> [[1; 4]; [2]])).
Proof.
  assert (H1 : valid (Set_ <$> [[4]; [1]; [2]])).
  { apply (bool_decide_unpack _). by vm_compute. }
  assert (H2 : valid (Set_ <$> [[1; 4]; [2]])).
  { apply (bool_decide_unpack _). by vm_compute. }
  assert (H3 : Set_ <$> [[4]; [1]; [2]] ≠ Set_ <$> [[1; 4]; [2]]).
  { intros E. apply (f_equal length) in E. cbn in E. lia. }
  split; [exact H1|]. split; [exact H2|]. split; [exact H3|].
  exact (is_finer_decides _ _ H1 H2 H3).
Defined.

(** ** The major index *)

Lemma Sorted_pair_ge_reverse_zip (s n : Z) (l : list Z) :
  Sorted pair_ge (reverse (zip (seqZ s n) l)).
Proof.
  apply StronglySorted_Sorted.
  revert s n. induction l as [|x l IH]; intros s n.
  { rewrite zip_with_nil_r. constructor. }
  destruct (decide (0 < n)) as [Hn|Hn].
  2:{ rewrite seqZ_nil by lia. constructor. }
  rewrite seqZ_cons by lia. cbn [zip zip_with]. rewrite reverse_cons.
  assert (∀ (l' : list (Z * Z)) p,
    StronglySorted pair_ge l' → Forall (λ q, pair_ge q p) l' →
    StronglySorted pair_ge (l' ++ [p])) as Hsnoc.
  { intros l' p. induction 1 as [|q l' Hl' IH' Hq]; intros Hp.
    - repeat constructor.
    - apply Forall_cons in Hp as [Hqp Hp]. cbn. constructor; [by apply IH'|].
      apply Forall_app. split; [done|]. by apply Forall_singleton. }
  apply Hsnoc; [apply IH|].
  apply Forall_forall. intros [i y] Hq. rewrite elem_of_reverse in Hq.
  apply elem_of_zip_l in Hq. cbn in Hq. apply elem_of_seqZ in Hq.
  left. cbn. lia.
Qed.

Lemma sorted_reverse_enumerate (l : list Z) :
  sorted_reverse (enumerate l) = reverse (enumerate l).
Proof.
  unfold sorted_reverse, enumerate, range.
  apply (Sorted_unique pair_ge).
  - apply Sorted_merge_sort; apply _.
  - apply Sorted_pair_ge_reverse_zip.
  - by rewrite merge_sort_Permutation, reverse_Permutation.
Qed.

Lemma major_index_inner_nonzero (v w : list Z) (t : Z) (ps : list (Z * Z)) :
  Forall (λ p, p.1 ≠ 0) ps →
  for_each (λ '(v, w) '(i, wj),
      vj ← index v (-1);
      let vj := if bool_decide (i = 0) then vj + 1 else vj in
      Ok (v ++ [vj], w ++ [wj]))
    (v ++ [t], w) ps
  = Ok (v ++ [t] ++ replicate (length ps) t, w ++ ps.*2).
Proof.
  intros Hps. revert v w. induction Hps as [|[i wj] ps Hi _ IH]; intros v w.
  { cbn. by rewrite app_nil_r. }
  cbn [for_each]. rewrite index_last. py_simpl. cbn zeta.
  rewrite bool_decide_eq_false_2 by done.
  rewrite IH. cbn [length replicate fmap list_fmap snd].
  by rewrite <-!(assoc_L (++)).
Qed.

Lemma major_index_inner (v w : list Z) (t x : Z) (l : list Z) :
  for_each (λ '(v, w) '(i, wj),
      vj ← index v (-1);
      let vj := if bool_decide (i = 0) then vj + 1 else vj in
      Ok (v ++ [vj], w ++ [wj]))
    (v ++ [t], w) (sorted_reverse (enumerate (x :: l)))
  = Ok (v ++ [t] ++ replicate (length l) t ++ [t + 1], w ++ reverse (x :: l)).
Proof.
  rewrite sorted_reverse_enumerate. unfold enumerate, range.
  rewrite len_cons. pose proof (len_nonneg l).
  rewrite seqZ_cons by lia. cbn [zip zip_with]. rewrite reverse_cons.
  rewrite for_each_app, major_index_inner_nonzero.
  2:{ apply Forall_forall. intros [i y] Hq. rewrite elem_of_reverse in Hq.
      apply elem_of_zip_l in Hq. cbn in Hq. apply elem_of_seqZ in Hq. cbn. lia. }
  py_simpl. cbn [for_each].
  assert (length (reverse (zip (seqZ (Z.succ 0) (Z.pred (1 + len l - 0))) l))
          = length l) as ->.
  { rewrite length_reverse, length_zip_with, length_seqZ. unfold len. lia. }
  change ([t] ++ replicate (length l) t) with (replicate (S (length l)) t).
  rewrite replicate_S_end, (assoc_L (++) v), index_last. py_simpl. cbn zeta.
  rewrite bool_decide_eq_true_2 by done.
  f_equal. f_equal.
  - rewrite <-!(assoc_L (++)). f_equal. rewrite !(assoc_L (++)). f_equal.
    by rewrite <-replicate_S_end.
  - rewrite <-(assoc_L (++)). f_equal. rewrite reverse_cons. f_equal.
    rewrite fmap_reverse. f_equal. apply snd_zip.
    rewrite length_seqZ. unfold len. lia.
Qed.

Lemma sorted_elements_cons (B : gset Z) :
  B ≠ ∅ → ∃ x l, sorted (elements B) = x :: l
    ∧ length (elements B) = S (length l)
    ∧ StronglySorted Z.lt (x :: l)
    ∧ ∀ y, y ∈ B ↔ y ∈ x :: l.
Proof.
  intros HB. destruct (sorted (elements B)) as [|x l] eqn:E.
  { apply sorted_nil_inv in E. by apply elements_empty_inv, leibniz_equiv in E. }
  exists x, l. split; [done|]. split; [|split].
  - by rewrite <-(Permutation_length (sorted_Permutation _)), E.
  - rewrite <-E. apply sorted_strict, NoDup_elements.
  - intros y. by rewrite <-E, sorted_Permutation, elem_of_elements.
Qed.

Lemma major_index_loop (c : omp) (v w : list Z) (t : Z) :
  valid c →
  for_each (λ vw eblock,
      for_each (λ '(v, w) '(i, wj),
          vj ← index v (-1);
          let vj := if bool_decide (i = 0) then vj + 1 else vj in
          Ok (v ++ [vj], w ++ [wj]))
        vw (sorted_reverse eblock))
    (v ++ [t], w) ((λ k, enumerate (sorted (elements k))) <$> c)
  = Ok (v ++ [t] ++ major_index_v t c, w ++ major_index_w c).
Proof.
  intros Hv. revert v w t. induction Hv as [|B c HB _ IH]; intros v w t.
  { cbn. by rewrite !app_nil_r. }
  destruct (sorted_elements_cons B HB) as (x & l & E & Hlen & _ & _).
  cbn [fmap list_fmap for_each]. rewrite E, major_index_inner. py_simpl.
  rewrite (assoc_L (++) v [t]), (assoc_L (++) (v ++ [t])), IH.
  unfold major_index_w. cbn [major_index_v fmap list_fmap].
  change (mjoin (?a :: ?r)) with (a ++ mjoin r). rewrite E, Hlen.
  replace (S (length l) - 1)%nat with (length l) by lia.
  by rewrite <-!(assoc_L (++)).
Qed.

Lemma major_index_v_length (t : Z) (c : omp) :
  valid c → length (major_index_v t c) = length (major_index_w c).
Proof.
  intros Hv. revert t. induction Hv as [|B c HB _ IH]; intros t; [done|].
  unfold major_index_w. cbn [major_index_v fmap list_fmap].
  change (mjoin (?a :: ?r)) with (a ++ mjoin r).
  rewrite !length_app, length_replicate, length_reverse, IH.
  rewrite (Permutation_length (sorted_Permutation _)).
  assert (length (elements B) ≠ 0%nat).
  { intros E. apply length_zero_iff_nil in E.
    by apply elements_empty_inv, leibniz_equiv in E. }
  unfold major_index_w. cbn. lia.
Qed.

Lemma comprehension_app {A B} (f : A → result B) l1 l2 :
  comprehension f (l1 ++ l2)
  = r1 ← comprehension f l1; r2 ← comprehension f l2; Ok (r1 ++ r2).
Proof.
  induction l1 as [|a l1 IH].
  { cbn. by destruct (comprehension f l2). }
  cbn [app comprehension]. destruct (f a) as [b|e]; [|done]. py_simpl.
  rewrite IH. destruct (comprehension f l1) as [r1|e]; [|done]. py_simpl.
  by destruct (comprehension f l2).
Qed.

Lemma major_index_sum (w vs : list Z) (v0 : Z) :
  length vs = length w →
  ∃ maj, comprehension (λ j, index (v0 :: vs) (j + 1)) (_descents w) = Ok maj
         ∧ sum maj = descent_weights w vs.
Proof.
  revert vs v0. induction w as [|a w IH]; intros vs v0 Hlen.
  { exists []. done. }
  destruct vs as [|t vs]; [done|]. injection Hlen as Hlen.
  destruct w as [|b w].
  { exists []. rewrite _descents_short. done. }
  destruct (IH vs t Hlen) as (maj & Hmaj & Hsum).
  rewrite _descents_cons, comprehension_app, comprehension_fmap.
  rewrite (comprehension_ext _ (λ j, index (t :: vs) (j + 1))).
  2:{ intros j Hj. pose proof (_descents_nonneg (b :: w)) as Hnn.
      rewrite Forall_forall in Hnn. specialize (Hnn j Hj).
      replace (Z.succ j + 1) with (Z.succ (j + 1)) by lia.
      apply index_succ_cons. lia. }
  rewrite Hmaj. cbn [descent_weights]. destruct (decide (b < a)).
  - exists (t :: maj). split; [done|]. rewrite sum_cons, Hsum. done.
  - exists maj. split; [done|]. rewrite Hsum. done.
Qed.

Lemma descent_weights_cons (a t : Z) (w vs : list Z) :
  descent_weights (a :: w) (t :: vs)
  = match w with
    | b :: _ => if decide (b < a) then t else 0
    | [] => 0
    end + descent_weights w vs.
Proof. done. Qed.

Lemma descent_weights_run (d : list Z) (x t s : Z) (R V : list Z) :
  StronglySorted (flip Z.lt) (d ++ [x]) →
  descent_weights (d ++ x :: R) (replicate (length d) t ++ s :: V)
  = len d * t + descent_weights (x :: R) (s :: V).
Proof.
  induction d as [|a d IH]; intros Hs.
  { cbn [app length replicate]. unfold len. cbn. lia. }
  cbn [app length replicate] in *. inv Hs.
  rewrite len_cons, (descent_weights_cons a t), IH by done.
  assert (match d ++ x :: R with
          | [] => 0
          | b :: _ => if decide (b < a) then t else 0
          end = t) as ->; [|ring].
  rewrite Forall_forall in H2. destruct d as [|b d]; cbn.
  - rewrite decide_True; [done|]. apply (H2 x). set_solver.
  - rewrite decide_True; [done|]. apply (H2 b). set_solver.
Qed.

Lemma StronglySorted_reverse_lt (l : list Z) :
  StronglySorted Z.lt l → StronglySorted (flip Z.lt) (reverse l).
Proof.
  induction 1 as [|a l Hl IH Ha]; [constructor|].
  rewrite reverse_cons.
  assert (∀ l' p, StronglySorted (flip Z.lt) l' → Forall (λ q, p < q) l' →
                  StronglySorted (flip Z.lt) (l' ++ [p])) as Hsnoc.
  { intros l' p. induction 1 as [|q l' Hl' IH' Hq]; intros Hp.
    - repeat constructor.
    - apply Forall_cons in Hp as [Hqp Hp]. cbn. constructor; [by apply IH'|].
      apply Forall_app. split; [done|]. by apply Forall_singleton. }
  apply Hsnoc; [done|]. by rewrite Forall_reverse.
Qed.

Lemma major_index_w_head (B : gset Z) (c : omp) :
  B ≠ ∅ → ∃ b R, major_index_w (B :: c) = b :: R ∧ b ∈ B ∧ ∀ y, y ∈ B → y ≤ b.
Proof.
  intros HB. destruct (sorted_elements_cons B HB) as (x & l & E & _ & Hs & Hin).
  unfold major_index_w. cbn [fmap list_fmap].
  change (mjoin (?a :: ?r)) with (a ++ mjoin r). rewrite E.
  apply StronglySorted_reverse_lt in Hs.
  destruct (reverse (x :: l)) as [|b d] eqn:Er.
  { apply (f_equal length) in Er. rewrite length_reverse in Er. done. }
  exists b, (d ++ mjoin ((λ B0, reverse (sorted (elements B0))) <$> c)).
  split; [done|].
  assert (∀ y, y ∈ B ↔ y ∈ b :: d) as Hin'.
  { intros y. by rewrite Hin, <-Er, elem_of_reverse. }
  split; [apply Hin'; left|]. intros y Hy. apply Hin' in Hy. inv Hs.
  apply elem_of_cons in Hy as [->|Hy]; [lia|].
  rewrite Forall_forall in H2. specialize (H2 y Hy). unfold flip in H2. lia.
Qed.

Lemma descent_weights_blocks (t : Z) (c : omp) :
  valid c →
  descent_weights (major_index_w c) (major_index_v t c)
  = major_index_of_blocks t c.
Proof.
  intros Hv. revert t. induction Hv as [|B c HB Hc IH]; intros t; [done|].
  destruct (sorted_elements_cons B HB) as (x & l & E & Hlen & Hs & Hin).
  cbn [major_index_of_blocks major_index_v]. rewrite <-IH.
  unfold major_index_w at 1. cbn [fmap list_fmap].
  change (mjoin (?a :: ?r)) with (a ++ mjoin r).
  fold (major_index_w c).
  rewrite E, reverse_cons, <-(assoc_L (++)). cbn [app].
  rewrite Hlen. replace (S (length l) - 1)%nat with (length l) by lia.
  rewrite <-(length_reverse l).
  rewrite descent_weights_run.
  2:{ rewrite <-reverse_cons. by apply StronglySorted_reverse_lt. }
  unfold len. rewrite length_reverse, Hlen.
  rewrite (descent_weights_cons x (t + 1)).
  assert (match major_index_w c with
          | [] => 0
          | b :: _ => if decide (b < x) then t + 1 else 0
          end
          = match c with
            | [] => 0
            | B' :: _ =>
                if bool_decide (set_Forall (λ x0, set_Forall (λ y, y < x0) B') B)
                then t + 1 else 0
            end) as ->; [|lia].
  destruct Hc as [|B' c HB' Hc]; [done|].
  destruct (major_index_w_head B' c HB') as (b & R & -> & Hb & Hmax).
  assert (x ∈ B) as Hx by (apply Hin; left).
  assert (∀ y, y ∈ B → x ≤ y) as Hmin.
  { intros y Hy. apply Hin in Hy. inv Hs.
    apply elem_of_cons in Hy as [->|Hy]; [lia|].
    rewrite Forall_forall in H2. specialize (H2 y Hy). lia. }
  destruct (decide (b < x)) as [Hbx|Hbx].
  - rewrite bool_decide_eq_true_2; [done|].
    intros x0 Hx0 y Hy. specialize (Hmin x0 Hx0). specialize (Hmax y Hy). lia.
  - rewrite bool_decide_eq_false_2; [done|].
    intros Hall. apply Hbx. by apply (Hall x Hx b Hb).
Qed.

(** X25. The major index in terms of the blocks.  For a partition with
    nonempty blocks, [major_index()] returns the sum over the blocks of
    [b * (m - 1)], where the block has [m] letters and [b] blocks before it,
    plus [b + 1] for every block all of whose letters are above all letters of
    the block after it. *)
Theorem major_index_by_blocks (c : omp) :
  valid c → major_index c = Ok (major_index_of_blocks 0 c).
Proof.
  intros Hv. unfold major_index. cbn zeta.
  pose proof (major_index_loop c [] [] 0 Hv) as Hloop.
  cbn [app] in Hloop. rewrite Hloop. py_simpl.
  destruct (major_index_sum (major_index_w c) (major_index_v 0 c) 0)
    as (maj & -> & Hsum); [by apply major_index_v_length|].
  py_simpl. by rewrite Hsum, descent_weights_blocks.
Qed.

Lemma major_index_by_blocks_witness :
  valid (Set_ <$> [[3; 4; 5]; [2; 3; 4]; [1]; [4; 5]]) ∧
  major_index (Set_ <$> [[3; 4; 5]; [2; 3; 4]; [1]; [4; 5]]) = Ok 7.
Proof.
  assert (H : valid (Set_ <$> [[3; 4; 5]; [2; 3; 4]; [1]; [4; 5]])).
  { apply (bool_decide_unpack _). by vm_compute. }
  split; [exact H|].
  etrans; [exact (major_index_by_blocks _ H)|by vm_compute].
Defined.

(** ** The iterator of the partitions of a given size *)

Lemma elem_of_sublists (l L : list Z) : l ∈ Sage.sublists L ↔ l `sublist_of` L.
Proof.
  revert l. induction L as [|x L IH]; intros l; cbn [Sage.sublists].
  { rewrite list_elem_of_singleton, sublist_nil_r. done. }
  rewrite elem_of_app, list_elem_of_fmap, sublist_cons_r. split.
  - intros [(t & -> & Ht)|Hl].
    + right. exists t. split; [done|]. by apply IH.
    + left. by apply IH.
  - intros [Hl|(t & -> & Ht)].
    + right. by apply IH.
    + left. exists t. split; [done|]. by apply IH.
Qed.

Lemma StronglySorted_sublist (l L : list Z) :
  l `sublist_of` L → StronglySorted Z.lt L → StronglySorted Z.lt l.
Proof.
  induction 1 as [|x l L Hl IH|x l L Hl IH]; intros HL; [done|..].
  - inv HL. constructor; [by apply IH|].
    apply Forall_forall. intros y Hy. rewrite Forall_forall in H2.
    apply H2. by eapply elem_of_sublist.
  - inv HL. by apply IH.
Qed.

Lemma sorted_subseteq_sublist (l L : list Z) :
  StronglySorted Z.lt l → StronglySorted Z.lt L → (∀ x, x ∈ l → x ∈ L) →
  l `sublist_of` L.
Proof.
  intros Hl HL. revert l Hl. induction HL as [|y L HL IH Hy]; intros l Hl Hsub.
  { destruct l as [|x l]; [done|]. specialize (Hsub x). set_solver. }
  destruct l as [|x l]; [apply sublist_nil_l|].
  inversion Hl as [|? ? Hl' Hx]; subst.
  rewrite Forall_forall in Hx, Hy.
  destruct (decide (x = y)) as [->|Hxy].
  - apply sublist_skip. apply IH; [done|]. intros z Hz.
    assert (z ∈ y :: L) as Hz' by (apply Hsub; by right).
    apply elem_of_cons in Hz' as [->|?]; [|done]. specialize (Hx y Hz). lia.
  - apply sublist_cons. apply IH; [done|]. intros z Hz.
    assert (x ∈ L) as HxL.
    { assert (x ∈ y :: L) as Hx' by (apply Hsub; by left).
      by apply elem_of_cons in Hx' as [?|?]. }
    assert (z ∈ y :: L) as Hz' by by apply Hsub.
    apply elem_of_cons in Hz' as [->|?]; [|done]. exfalso.
    apply elem_of_cons in Hz as [->|Hz]; [done|].
    specialize (Hx y Hz). specialize (Hy x HxL). lia.
Qed.

Lemma range_strict (p q : Z) : StronglySorted Z.lt (range p q).
Proof.
  unfold range. apply StronglySorted_le_lt; [apply seqZ_StronglySorted|].
  apply NoDup_seqZ.
Qed.

Lemma elem_le_sum (l : list Z) (x : Z) :
  Forall (λ y, 0 < y) l → x ∈ l → x ≤ sum l.
Proof.
  induction 1 as [|y l Hy Hl IH]; [by intros ?%elem_of_nil|].
  rewrite sum_cons. intros [->|Hx]%elem_of_cons.
  - assert (0 ≤ sum l); [|lia]. apply sum_nonneg.
    eapply Forall_impl; [exact Hl|]. intros ??; cbn in *; lia.
  - specialize (IH Hx). lia.
Qed.

Lemma elem_of_IntegerListsLex_slope1 (a : Z) (l : list Z) :
  l ∈ Sage.IntegerListsLex_slope1 a 1 a
  ↔ StronglySorted Z.lt l ∧ Forall (λ x, 0 < x) l ∧ sum l = a.
Proof.
  unfold Sage.IntegerListsLex_slope1.
  rewrite list_elem_of_filter, elem_of_sublists. split.
  - intros [Hs Hsub]. split; [|split; [|done]].
    + eapply StronglySorted_sublist; [done|apply range_strict].
    + apply Forall_forall. intros x Hx.
      apply (elem_of_sublist _ _ _ Hx), elem_of_range in Hsub. lia.
  - intros (Hs & Hpos & Hsum). split; [done|].
    apply sorted_subseteq_sublist; [done|apply range_strict|].
    intros x Hx. apply elem_of_range. pose proof (elem_le_sum l x Hpos Hx).
    rewrite Forall_forall in Hpos. specialize (Hpos x Hx). lia.
Qed.

Lemma elem_of_Compositions_of_length (n : Z) (klen : option Z) (alpha : list Z) :
  0 ≤ n →
  alpha ∈ Sage.Compositions_of n klen None
  ↔ Forall (λ x, 0 < x) alpha ∧ sum alpha = n
    ∧ match klen with Some k => len alpha = k | None => True end.
Proof.
  intros Hn. unfold Sage.Compositions_of. rewrite decide_False by lia.
  assert (alpha ∈ Sage.Compositions (Z.to_nat n)
          ↔ Forall (λ x, 0 < x) alpha ∧ sum alpha = n) as Hc.
  { split.
    - intros [? ?]%Compositions_spec. split; [done|lia].
    - intros [? ?]. apply Compositions_complete; [done|lia]. }
  destruct klen as [k|].
  - rewrite list_elem_of_filter, Hc. naive_solver.
  - rewrite Hc. naive_solver.
Qed.

Lemma size_Some_iff (c : omp) (n : Z) :
  size c = Some n
  ↔ Forall (λ a, 0 < a) (_concatenate (iter_blocks c))
    ∧ sum (_concatenate (iter_blocks c)) = n.
Proof.
  unfold size, _get_multiset. cbn zeta.
  rewrite (forallb_perm _ _ _ (sorted_Permutation _)).
  rewrite (sum_perm _ _ (sorted_Permutation _)).
  destruct (forallb _ _) eqn:E.
  - apply Is_true_true, forallb_True in E. split.
    + intros [= <-]. split; [|done].
      eapply Forall_impl; [exact E|]. intros a Ha. cbn in Ha.
      by apply bool_decide_unpack in Ha.
    + by intros [_ <-].
  - split; [done|]. intros [Hpos _]. exfalso.
    assert (forallb (λ a : Z, bool_decide (0 < a)) (_concatenate (iter_blocks c))
            = true) as E'; [|by rewrite E' in E].
    apply Is_true_true, forallb_True.
    eapply Forall_impl; [exact Hpos|]. intros a Ha. cbn. by apply bool_decide_pack.
Qed.

Lemma OMPs_n_init (n : Z) :
  ∃ P, OMPs_init (OMPs_n n) true ∅ = Ok P ∧ fam_class P = OMPs_n n.
Proof.
  unfold OMPs_init.
  assert (init_constraints ∅ = Ok ∅) as -> by (vm_compute; reflexivity).
  py_simpl. eauto.
Qed.

(** The lists of blocks that [_iterator_size] hands to the element
    constructor, when no alphabet is given. *)
Lemma iterator_size_blocks (n : Z) (klen : option Z) (p : list (list Z)) :
  0 ≤ n →
  p ∈ (alpha ← Sage.Compositions_of n klen None;
       Sage.cartesian_product ((λ a, Sage.IntegerListsLex_slope1 a 1 a) <$> alpha))
  ↔ Forall (λ x, x ≠ [] ∧ StronglySorted Z.lt x ∧ Forall (λ i, 0 < i) x) p
    ∧ sum (sum <$> p) = n
    ∧ match klen with Some k => len p = k | None => True end.
Proof.
  intros Hn. rewrite list_elem_of_bind. split.
  - intros (alpha & Hp & Halpha).
    apply elem_of_Compositions_of_length in Halpha as (Hpos & Hsum & Hlen); [|done].
    apply elem_of_cartesian_product in Hp. rewrite Forall2_fmap_r in Hp.
    assert (alpha = sum <$> p ∧ length p = length alpha
            ∧ Forall (λ x, x ≠ [] ∧ StronglySorted Z.lt x ∧ Forall (λ i, 0 < i) x) p)
      as (-> & Hl & Hall).
    { clear Hsum Hlen. revert Hpos.
      induction Hp as [|x a p alpha Hx Hp IH]; intros Hpos; [done|].
      apply Forall_cons in Hpos as [Ha Hpos].
      apply elem_of_IntegerListsLex_slope1 in Hx as (Hs & Hxp & Hxs).
      destruct (IH Hpos) as (-> & Hl & Hall). split; [by rewrite fmap_cons, Hxs|].
      split; [by rewrite !length_cons, Hl|]. constructor; [|done].
      split; [|done]. intros ->. cbn in Hxs. lia. }
    split; [done|]. split; [done|]. destruct klen; [|done].
    by rewrite len_fmap in Hlen.
  - intros (Hall & Hsum & Hlen). exists (sum <$> p). split.
    + apply elem_of_cartesian_product. rewrite <-list_fmap_compose.
      apply Forall2_fmap_r.
      apply Forall_Forall2_diag. eapply Forall_impl; [exact Hall|].
      intros x (Hne & Hs & Hpos). cbn. by apply elem_of_IntegerListsLex_slope1.
    + apply elem_of_Compositions_of_length; [done|]. split; [|split; [done|]].
      * apply Forall_fmap. eapply Forall_impl; [exact Hall|].
        intros x (Hne & Hs & Hpos). cbn. destruct x as [|i x]; [done|].
        inv Hpos. rewrite sum_cons.
        assert (0 ≤ sum x); [|lia]. apply sum_nonneg.
        eapply Forall_impl; [done|]. intros ??; cbn in *; lia.
      * destruct klen; [|done]. by rewrite len_fmap.
Qed.

Lemma iterator_size_accepts (n : Z) (P : family) (p : list (list Z)) :
  fam_class P = OMPs_n n →
  Forall (λ x, x ≠ [] ∧ StronglySorted Z.lt x ∧ Forall (λ i, 0 < i) x) p →
  sum (sum <$> p) = n →
  element_constructor P p = Ok (Set_ <$> p).
Proof.
  intros HP Hall Hsum. unfold element_constructor, contains. rewrite HP.
  assert (_has_valid_blocks_n n p = true) as ->.
  { unfold _has_valid_blocks_n. cbn zeta.
    rewrite bool_decide_eq_true_2 by done. rewrite andb_true_r.
    apply andb_true_iff. split.
    - apply Is_true_true, forallb_True.
      eapply Forall_impl; [exact Hall|]. intros x (Hne & Hs & _). cbn.
      rewrite NoDup_block_ok; [done..|]. by apply StronglySorted_lt_NoDup.
    - apply Is_true_true, forallb_True. unfold _concatenate.
      apply Forall_forall. intros i Hi. apply list_elem_of_join in Hi as (x & Hi & Hx).
      rewrite Forall_forall in Hall. destruct (Hall x Hx) as (_ & _ & Hp).
      rewrite Forall_forall in Hp. apply bool_decide_pack. by apply Hp. }
  py_simpl. rewrite Set_blocks_nonempty; [done|].
  eapply Forall_impl; [exact Hall|]. by intros x (? & _).
Qed.

Lemma sorted_blocks_concat (p : list (list Z)) :
  Forall (λ x, x ≠ [] ∧ StronglySorted Z.lt x ∧ Forall (λ i, 0 < i) x) p →
  _concatenate (iter_blocks (Set_ <$> p)) ≡ₚ _concatenate p.
Proof.
  intros Hall. unfold _concatenate, iter_blocks. apply concat_perm.
  rewrite <-list_fmap_compose. apply Forall2_fmap_l, Forall_Forall2_diag.
  eapply Forall_impl; [exact Hall|]. intros x (Hne & Hs & _). cbn.
  apply elements_Set_perm, NoDup_block_ok; [done|].
  by apply StronglySorted_lt_NoDup.
Qed.

Lemma NoDup_sublists (L : list Z) : NoDup L → NoDup (Sage.sublists L).
Proof.
  induction 1 as [|x L Hx HL IH]; cbn [Sage.sublists].
  { apply NoDup_singleton. }
  apply NoDup_app. split; [|split; [|done]].
  - apply NoDup_fmap_2; [|done]. by intros t1 t2 [= ->].
  - intros t (t' & -> & _)%list_elem_of_fmap Ht. apply elem_of_sublists in Ht.
    apply Hx. eapply elem_of_sublist; [|done]. by left.
Qed.

Lemma NoDup_cartesian_product {A} (factors : list (list A)) :
  Forall NoDup factors → NoDup (Sage.cartesian_product factors).
Proof.
  induction 1 as [|F factors HF _ IH]; cbn [Sage.cartesian_product].
  { apply NoDup_singleton. }
  apply NoDup_bind; [| |done].
  - intros x1 x2 t _ _ (t1 & -> & _)%list_elem_of_fmap (t2 & E & _)%list_elem_of_fmap.
    by injection E.
  - intros x _. apply NoDup_fmap_2; [|done]. by intros t1 t2 [= ->].
Qed.

Lemma NoDup_omap {A B} (f : A → option B) (l : list A) :
  (∀ x y z, f x = Some z → f y = Some z → x = y) →
  NoDup l → NoDup (omap f l).
Proof.
  intros Hinj. induction 1 as [|x l Hx _ IH]; [constructor|].
  cbn [omap list_omap]. destruct (f x) as [z|] eqn:E; [|done].
  constructor; [|done]. intros (y & Hy & Ez)%list_elem_of_omap.
  apply Hx. by rewrite (Hinj x y z).
Qed.

Lemma NoDup_Compositions (n : nat) : NoDup (Sage.Compositions n).
Proof.
  induction n as [|n IH]; cbn [Sage.Compositions].
  { apply NoDup_singleton. }
  apply NoDup_app. split; [|split].
  - apply NoDup_fmap_2; [|done]. by intros t1 t2 [= ->].
  - intros g (g' & -> & _)%list_elem_of_fmap (h & Hh & Eh)%list_elem_of_omap.
    apply Compositions_spec in Hh as [Hpos _].
    destruct h as [|x h]; [done|]. injection Eh as E _.
    apply Forall_cons in Hpos as [? _]. lia.
  - apply NoDup_omap; [|done]. intros [|x g] [|y h] z; try done.
    cbn. intros [= <-] [= E ->]. f_equal. lia.
Qed.

(** X26. The iterator of the partitions of a given size is sound and
    complete.  For [n >= 0], [_iterator_size(n, length)] (no alphabet given)
    returns; what it yields are exactly the partitions with nonempty blocks
    of positive letters whose letters add up to [n], with [length] blocks if
    a length is given; and none is yielded twice. *)
Theorem iterator_size_exact (n : Z) (klen : option Z) :
  0 ≤ n →
  ∃ l, _iterator_size n klen None = Ok l
    ∧ (∀ c, c ∈ l ↔ valid c ∧ size c = Some n
                     ∧ match klen with Some k => len c = k | None => True end)
    ∧ NoDup l.
Proof.
  intros Hn. unfold _iterator_size.
  destruct (OMPs_n_init n) as (P & -> & HP). py_simpl.
  set (ps := alpha ← Sage.Compositions_of n klen None;
             Sage.cartesian_product
               ((λ a, Sage.IntegerListsLex_slope1 a 1 a) <$> alpha)).
  assert (∀ p, p ∈ ps ↔
    Forall (λ x, x ≠ [] ∧ StronglySorted Z.lt x ∧ Forall (λ i, 0 < i) x) p
    ∧ sum (sum <$> p) = n
    ∧ match klen with Some k => len p = k | None => True end) as Hps.
  { intros p. by apply iterator_size_blocks. }
  rewrite (comprehension_pure _ (fmap Set_)).
  2:{ intros p Hp. apply Hps in Hp as (Hall & Hsum & _).
      by apply (iterator_size_accepts n). }
  eexists. split; [done|]. split.
  - intros c. rewrite list_elem_of_fmap. split.
    + intros (p & -> & Hp). apply Hps in Hp as (Hall & Hsum & Hlen).
      split; [|split].
      * apply Forall_fmap. eapply Forall_impl; [exact Hall|].
        intros x (Hne & _). cbn. unfold Set_. destruct x; [done|]. set_solver.
      * apply size_Some_iff. pose proof (sorted_blocks_concat p Hall) as Hc.
        split.
        -- rewrite Hc. unfold _concatenate. apply Forall_forall. intros i Hi.
           apply list_elem_of_join in Hi as (x & Hi & Hx).
           rewrite Forall_forall in Hall. destruct (Hall x Hx) as (_ & _ & Hpos).
           rewrite Forall_forall in Hpos. by apply Hpos.
        -- rewrite (sum_perm _ _ Hc). unfold _concatenate. by rewrite sum_join.
      * destruct klen; [|done]. by rewrite len_fmap.
    + intros (Hv & Hsize & Hlen). apply size_Some_iff in Hsize as [Hpos Hsum].
      exists ((λ B, sorted (elements B)) <$> c). split.
      * rewrite <-list_fmap_compose. rewrite <-(list_fmap_id c) at 1.
        apply list_fmap_ext. intros _ B _. cbn. unfold Set_.
        rewrite (list_to_set_perm_L _ _ (sorted_Permutation _)).
        by rewrite list_to_set_elements_L.
      * assert (_concatenate ((λ B, sorted (elements B)) <$> c)
                ≡ₚ _concatenate (iter_blocks c)) as Hc.
        { unfold _concatenate, iter_blocks. apply concat_perm.
          apply Forall2_fmap, Forall_Forall2_diag, Forall_forall.
          intros B _. apply sorted_Permutation. }
        apply Hps. split; [|split].
        -- apply Forall_fmap, Forall_forall. intros B HB. cbn.
           unfold valid in Hv. rewrite Forall_forall in Hv. split; [|split].
           ++ intros E. apply sorted_nil_inv in E.
              by apply elements_empty_inv, leibniz_equiv, (Hv B HB) in E.
           ++ apply sorted_strict, NoDup_elements.
           ++ apply sorted_Forall. apply Forall_forall. intros i Hi.
              rewrite Forall_forall in Hpos. apply Hpos.
              unfold _concatenate, iter_blocks. apply list_elem_of_join.
              exists (elements B). split; [done|].
              apply list_elem_of_fmap. by exists B.
        -- rewrite <-sum_join. fold (_concatenate ((λ B, sorted (elements B)) <$> c)).
           by rewrite (sum_perm _ _ Hc).
        -- destruct klen; [|done]. by rewrite len_fmap.
  - apply NoDup_fmap_2_strong.
    + intros p q Hp Hq E. apply Hps in Hp as (Hp & _). apply Hps in Hq as (Hq & _).
      clear -Hp Hq E. revert q Hq E.
      induction Hp as [|x p (_ & Hx & _) _ IH]; intros q Hq E.
      { by destruct q. }
      destruct q as [|y q]; [done|]. apply Forall_cons in Hq as [(_ & Hy & _) Hq].
      injection E as Exy E. f_equal; [|by apply IH].
      apply (Sorted_unique Z.le).
      * by apply StronglySorted_Sorted, StronglySorted_lt_le.
      * by apply StronglySorted_Sorted, StronglySorted_lt_le.
      * apply NoDup_Permutation; [by apply StronglySorted_lt_NoDup..|].
        intros i. unfold Set_ in Exy.
        by rewrite <-!(elem_of_list_to_set (C := gset Z)), Exy.
    + unfold ps. apply NoDup_bind.
      * intros a1 a2 p Ha1 Ha2 Hp1 Hp2.
        apply elem_of_cartesian_product in Hp1, Hp2.
        rewrite Forall2_fmap_r in Hp1, Hp2.
        clear -Hp1 Hp2. revert a2 Hp2.
        induction Hp1 as [|x a p a1 Hx _ IH]; intros a2 Hp2; [by inv Hp2|].
        inv Hp2. f_equal; [|by apply IH].
        apply elem_of_IntegerListsLex_slope1 in Hx as (_ & _ & <-).
        by apply elem_of_IntegerListsLex_slope1 in H1 as (_ & _ & <-).
      * intros alpha _. apply NoDup_cartesian_product, Forall_fmap, Forall_forall.
        intros a _. cbn. unfold Sage.IntegerListsLex_slope1.
        apply NoDup_filter, NoDup_sublists. unfold range. apply NoDup_seqZ.
      * unfold Sage.Compositions_of. case_decide; [constructor|].
        destruct klen; [apply NoDup_filter|]; apply NoDup_Compositions.
Qed.

Lemma iterator_size_exact_witness :
  0 ≤ 3 ∧
  ∃ l, _iterator_size 3 None None = Ok l
    ∧ (∀ c, c ∈ l ↔ valid c ∧ size c = Some 3 ∧ True)
    ∧ NoDup l.
Proof.
  assert (H : 0 ≤ 3) by lia.
  split; [exact H|]. exact (iterator_size_exact 3 None H).
Defined.

(** ** The cardinality of the family of a given size *)

Lemma sublists_snoc (L : list Z) (x : Z) :
  Sage.sublists (L ++ [x])
  ≡ₚ Sage.sublists L ++ ((λ t, t ++ [x]) <$> Sage.sublists L).
Proof.
  induction L as [|y L IH]; [cbn; apply perm_swap|].
  cbn [app Sage.sublists]. rewrite IH, !fmap_app, <-!list_fmap_compose.
  rewrite <-!(assoc_L (++)). apply Permutation_app_head.
  rewrite !(assoc_L (++)). apply Permutation_app_tail, Permutation_app_comm.
Qed.

Lemma sum_snoc (t : list Z) (x : Z) : sum (t ++ [x]) = sum t + x.
Proof. rewrite sum_app. cbn. lia. Qed.

Lemma count_sublists_sum (m a : nat) :
  length (filter (λ l, sum l = Z.of_nat a) (Sage.sublists (seqZ 1 (Z.of_nat m))))
  = length (distinct_parts m a).
Proof.
  revert a. induction m as [|m IH]; intros a.
  { cbn. destruct a as [|a]; cbn; [done|]. rewrite decide_False by lia. done. }
  rewrite seqZ_S, sublists_snoc, filter_app, length_app, IH.
  cbn [distinct_parts]. rewrite length_app. f_equal.
  rewrite filter_fmap_comm, length_fmap.
  case_decide as Ha.
  - rewrite length_fmap, <-IH. f_equal. apply filter_ext_elem_of.
    intros t _. cbn. rewrite sum_snoc. lia.
  - cbn [length]. apply length_zero_iff_nil, filter_none.
    apply Forall_forall. intros t Ht. cbn. rewrite sum_snoc.
    apply elem_of_sublists in Ht.
    assert (0 ≤ sum t); [|lia]. apply sum_nonneg, Forall_forall.
    intros i Hi. apply (elem_of_sublist _ _ _ Hi), elem_of_seqZ in Ht. lia.
Qed.

Lemma IntegerListsLex_slope1_count (a : Z) :
  0 ≤ a → len (Sage.IntegerListsLex_slope1 a 1 a) = distinct_partition_count a.
Proof.
  intros Ha. unfold Sage.IntegerListsLex_slope1, distinct_partition_count, len, range.
  f_equal. replace (a + 1 - 1) with (Z.of_nat (Z.to_nat a)) by lia.
  rewrite <-count_sublists_sum. do 2 f_equal.
  apply filter_ext_elem_of. intros t _. cbn. lia.
Qed.

Lemma iterator_size_count (n : Z) :
  0 ≤ n →
  len (alpha ← Sage.Compositions_of n None None;
       Sage.cartesian_product ((λ a, Sage.IntegerListsLex_slope1 a 1 a) <$> alpha))
  = composition_formula n.
Proof.
  intros Hn. rewrite len_bind. unfold composition_formula, Sage.Compositions_of.
  rewrite decide_False by lia. f_equal.
  apply list_fmap_ext. intros i alpha Halpha. apply list_elem_of_lookup_2 in Halpha.
  apply Compositions_spec in Halpha as [Hpos _].
  rewrite cartesian_product_length, <-list_fmap_compose. f_equal.
  apply Forall_fmap_ext_1. eapply Forall_impl; [exact Hpos|].
  intros a Ha. cbn in *. apply IntegerListsLex_slope1_count. lia.
Qed.

(** X27. For every [n >= 0] the cardinality of the family of size [n] is the
    number of partitions that [_iterator_size(n)] yields, for the tabulated
    values up to [5] as for the values computed from the polynomial. *)
Theorem cardinality_n_counts_iterator (n : Z) :
  0 ≤ n →
  ∃ l, _iterator_size n None None = Ok l ∧ cardinality_n n = Ok (len l).
Proof.
  intros Hn. unfold _iterator_size.
  destruct (OMPs_n_init n) as (P & -> & HP). py_simpl.
  rewrite (comprehension_pure _ (fmap Set_)).
  2:{ intros p Hp. apply (iterator_size_blocks n None p Hn) in Hp as (Hall & Hsum & _).
      by apply (iterator_size_accepts n). }
  eexists. split; [done|]. rewrite len_fmap, iterator_size_count by done.
  destruct (decide (5 < n)) as [H|H]; [by apply cardinality_n_large|].
  assert (n = 0 ∨ n = 1 ∨ n = 2 ∨ n = 3 ∨ n = 4 ∨ n = 5) as Hcases by lia.
  destruct Hcases as [->|[->|[->|[->|[->| ->]]]]]; by vm_compute.
Qed.

Lemma cardinality_n_counts_iterator_witness :
  0 ≤ 6 ∧ ∃ l, _iterator_size 6 None None = Ok l ∧ cardinality_n 6 = Ok (len l).
Proof.
  assert (H : 0 ≤ 6) by lia.
  split; [exact H|]. exact (cardinality_n_counts_iterator 6 H).
Defined.

(** ** Cutting a word at its descents *)

Lemma runs_maximal (w : list Z) (i : nat) (r r' : list Z) :
  runs w !! i = Some r → runs w !! S i = Some r' →
  ∃ x y, last r = Some x ∧ head r' = Some y ∧ y ≤ x.
Proof.
  revert i r r'. induction w as [|a w IH]; intros i r r' Hr Hr'; [done|].
  pose proof (runs_increasing w) as Hinc.
  rewrite runs_cons in Hr, Hr'. destruct (runs w) as [|r0 rs] eqn:E; [done|].
  apply Forall_cons in Hinc as [[Hne _] _].
  destruct r0 as [|b r0]; [done|]. cbn [hd] in Hr, Hr'.
  destruct (decide (a < b)) as [Hab|Hab].
  - destruct i as [|i].
    + injection Hr as <-. change (last (a :: b :: r0)) with (last (b :: r0)).
      by apply (IH 0%nat).
    + by apply (IH (S i)).
  - destruct i as [|i].
    + injection Hr as <-. injection Hr' as <-. exists a, b. cbn.
      split; [done|]. split; [done|]. lia.
    + by apply (IH i).
Qed.

(** X28. [_break_at_descents(alpha)] cuts [alpha] into its maximal strictly
    increasing runs: the blocks put together give [alpha] back, every block
    is nonempty and strictly increasing, and the first letter of a block is
    never above the last letter of the block before it.  The empty word
    gives no block. *)
Theorem break_at_descents_maximal_runs (alpha : list Z) :
  _concatenate (_break_at_descents alpha true) = alpha
  ∧ Forall (λ r, r ≠ [] ∧ StronglySorted Z.lt r) (_break_at_descents alpha true)
  ∧ (∀ (i : nat) r r',
       _break_at_descents alpha true !! i = Some r →
       _break_at_descents alpha true !! S i = Some r' →
       ∃ x y, last r = Some x ∧ head r' = Some y ∧ y ≤ x)
  ∧ (_break_at_descents alpha true = [] ↔ alpha = []).
Proof.
  rewrite _break_at_descents_runs. split; [apply runs_join|].
  split; [apply runs_increasing|]. split; [apply runs_maximal|].
  split.
  - intros E. pose proof (runs_join alpha) as Hj. by rewrite E in Hj.
  - by intros ->.
Qed.

(** ** The iterator of the partitions of a given order over an alphabet *)

Lemma elem_of_sublists_of_length (k : nat) (l s : list Z) :
  s ∈ Sage.sublists_of_length k l ↔ s `sublist_of` l ∧ length s = k.
Proof.
  split; [apply sublists_of_length_sublist|].
  revert k s. induction l as [|x l IH]; intros k s [Hsub Hlen].
  { apply sublist_nil_r in Hsub as ->. cbn in Hlen. subst k. by left. }
  destruct k as [|k].
  { destruct s; [|done]. by left. }
  cbn [Sage.sublists_of_length]. apply elem_of_app.
  apply sublist_cons_r in Hsub as [Hsub|(s' & -> & Hsub)].
  - right. by apply IH.
  - left. apply list_elem_of_fmap. exists s'. split; [done|].
    apply IH. split; [done|]. cbn in Hlen. lia.
Qed.

Lemma sublist_same_elements (l s1 s2 : list Z) :
  NoDup l → s1 `sublist_of` l → s2 `sublist_of` l →
  (∀ x, x ∈ s1 ↔ x ∈ s2) → s1 = s2.
Proof.
  intros Hnd. revert s1 s2. induction Hnd as [|x l Hx Hnd IH]; intros s1 s2 H1 H2 Heq.
  { apply sublist_nil_r in H1 as ->. by apply sublist_nil_r in H2 as ->. }
  apply sublist_cons_r in H1 as [H1|(s1' & -> & H1)];
    apply sublist_cons_r in H2 as [H2|(s2' & -> & H2)].
  - by apply IH.
  - exfalso. apply Hx. apply (elem_of_sublist s1); [|done]. apply Heq. by left.
  - exfalso. apply Hx. apply (elem_of_sublist s2); [|done]. apply Heq. by left.
  - f_equal. apply IH; [done..|]. intros y.
    assert (x ∉ s1') by (intros ?; apply Hx; by eapply elem_of_sublist).
    assert (x ∉ s2') by (intros ?; apply Hx; by eapply elem_of_sublist).
    specialize (Heq y). rewrite !elem_of_cons in Heq.
    destruct (decide (y = x)) as [->|]; [done|]. naive_solver.
Qed.

Lemma NoDup_sublists_of_length (k : nat) (l : list Z) :
  NoDup l → NoDup (Sage.sublists_of_length k l).
Proof.
  intros Hnd. revert k. induction Hnd as [|x l Hx Hnd IH]; intros [|k];
    cbn [Sage.sublists_of_length]; try apply NoDup_singleton; [constructor|].
  apply NoDup_app. split; [|split; [|done]].
  - apply NoDup_fmap_2; [|done]. by intros t1 t2 [= ->].
  - intros t (t' & -> & _)%list_elem_of_fmap Ht.
    apply sublists_of_length_sublist in Ht as [Ht _].
    apply Hx. eapply elem_of_sublist; [|done]. by left.
Qed.

Lemma NoDup_Subsets_sk (A : gset Z) (a : Z) : NoDup (Sage.Subsets_sk A a).
Proof.
  unfold Sage.Subsets_sk. case_decide; [constructor|].
  apply NoDup_fmap_2_strong; [|apply NoDup_sublists_of_length, NoDup_elements].
  intros s1 s2 [H1 _]%sublists_of_length_sublist [H2 _]%sublists_of_length_sublist E.
  apply (sublist_same_elements (elements A)); [apply NoDup_elements|done..|].
  intros x. by rewrite <-!(elem_of_list_to_set (C := gset Z)), E.
Qed.

Lemma Subsets_sk_complete (A B : gset Z) :
  B ⊆ A → B ∈ Sage.Subsets_sk A (len (elements B)).
Proof.
  intros Hsub. unfold Sage.Subsets_sk. rewrite decide_False by (unfold len; lia).
  apply list_elem_of_fmap. exists (filter (λ x, x ∈ B) (elements A)).
  assert (filter (λ x, x ∈ B) (elements A) ≡ₚ elements B) as Hp.
  { apply NoDup_Permutation.
    - apply NoDup_filter, NoDup_elements.
    - apply NoDup_elements.
    - intros x. rewrite list_elem_of_filter, !elem_of_elements. set_solver. }
  split.
  - by rewrite (list_to_set_perm_L _ _ Hp), list_to_set_elements_L.
  - apply elem_of_sublists_of_length. split; [apply sublist_filter|].
    rewrite (Permutation_length Hp). unfold len. lia.
Qed.

Lemma elem_of_Compositions_of_bounded (d k n : Z) (alpha : list Z) :
  0 ≤ d →
  alpha ∈ Sage.Compositions_of d (Some k) (Some n)
  ↔ Forall (λ x, 0 < x) alpha ∧ sum alpha = d ∧ len alpha = k
    ∧ Forall (λ x, x ≤ n) alpha.
Proof.
  intros Hd. unfold Sage.Compositions_of. rewrite decide_False by lia.
  rewrite !list_elem_of_filter. split.
  - intros (Hn & Hk & [Hpos Hs]%Compositions_spec). split; [done|].
    split; [lia|done].
  - intros (Hpos & Hs & Hk & Hn). split; [done|]. split; [done|].
    apply Compositions_complete; [done|lia].
Qed.

(** The partitions that [_iterator_order] builds for the length [k]. *)
Lemma iterator_order_blocks (A : gset Z) (d k : Z) (co : omp) :
  0 ≤ d →
  co ∈ (alpha ← Sage.Compositions_of d (Some k) (Some (len (elements A)));
        Sage.cartesian_product ((λ a, Sage.Subsets_sk A a) <$> alpha))
  ↔ valid co ∧ Forall (λ B, B ⊆ A) co ∧ order co = d ∧ len co = k.
Proof.
  intros Hd. rewrite list_elem_of_bind. split.
  - intros (alpha & Hco & Halpha).
    apply elem_of_Compositions_of_bounded in Halpha as (Hpos & Hs & Hk & _); [|done].
    apply elem_of_cartesian_product in Hco. rewrite Forall2_fmap_r in Hco.
    assert (valid co ∧ Forall (λ B, B ⊆ A) co ∧ order co = sum alpha
            ∧ len co = len alpha) as (? & ? & ? & ?); [|split_and!; [done..|lia|lia]].
    clear Hs Hk. revert Hpos.
    induction Hco as [|B a co alpha HB _ IH]; intros Hpos.
    { split_and!; [constructor|constructor|done|done]. }
    apply Forall_cons in Hpos as [Ha Hpos]. destruct (IH Hpos) as (? & ? & ? & ?).
    apply elem_of_Subsets_sk in HB as (_ & HBA & HBa). split_and!.
    + constructor; [|done]. intros ->. rewrite elements_empty in HBa.
      unfold len in HBa. cbn in HBa. lia.
    + by constructor.
    + rewrite order_cons, sum_cons. lia.
    + rewrite !len_cons. lia.
  - intros (Hv & HA & Ho & Hk). exists ((λ B, len (elements B)) <$> co). split.
    + apply elem_of_cartesian_product. rewrite <-list_fmap_compose.
      apply Forall2_fmap_r, Forall_Forall2_diag.
      eapply Forall_impl; [exact HA|]. intros B HB. cbn.
      by apply Subsets_sk_complete.
    + apply elem_of_Compositions_of_bounded; [done|]. split_and!.
      * apply Forall_fmap. eapply Forall_impl; [exact Hv|]. intros B HB. cbn.
        destruct (elements B) eqn:E; [|unfold len; cbn; lia].
        by apply elements_empty_inv, leibniz_equiv in E.
      * done.
      * by rewrite len_fmap.
      * apply Forall_fmap. eapply Forall_impl; [exact HA|]. intros B HB. cbn.
        assert (∀ X : gset Z, len (elements X) = Z.of_nat (base.size X)) as Hsz
          by done.
        rewrite !Hsz. apply subseteq_size in HB. lia.
Qed.

Lemma order_le_blocks (A : gset Z) (c : omp) :
  Forall (λ B, B ⊆ A) c → order c ≤ len c * len (elements A).
Proof.
  induction 1 as [|B c HB _ IH]; [done|].
  rewrite order_cons, len_cons.
  assert (∀ X : gset Z, len (elements X) = Z.of_nat (base.size X)) as Hsz by done.
  rewrite !Hsz in *. apply subseteq_size in HB. lia.
Qed.

Lemma join_fmap_bind {A B} (f : A → list B) (l : list A) :
  mjoin (f <$> l) = l ≫= f.
Proof. induction l as [|x l IH]; [done|]. cbn. by rewrite <-IH. Qed.

(** X29. The iterator of the partitions of a given order over an alphabet
    is sound and complete.  For a nonempty alphabet [A] and [d >= 0],
    [_iterator_order(A, d)] returns; what it yields are exactly the
    partitions with nonempty blocks of letters of [A] that have order [d];
    and none is yielded twice. *)
Theorem iterator_order_exact (A : gset Z) (d : Z) :
  A ≠ ∅ → 0 ≤ d →
  ∃ l, _iterator_order A d None = Ok l
    ∧ (∀ c, c ∈ l ↔ valid c ∧ Forall (λ B, B ⊆ A) c ∧ order c = d)
    ∧ NoDup l.
Proof.
  intros HA Hd.
  assert (0 < len (elements A)) as Hn.
  { destruct (elements A) eqn:E; [|unfold len; cbn; lia].
    by apply elements_empty_inv, leibniz_equiv in E. }
  unfold _iterator_order.
  destruct (OMPs_A_init A d) as (P & -> & HP). py_simpl.
  destruct (decide (d = 0)) as [->|Hd0].
  { rewrite (bool_decide_eq_false_2 (0 ≠ 0)) by lia. py_simpl.
    cbn [comprehension]. unfold element_constructor.
    rewrite (contains_A_class P A 0) by done. py_simpl.
    assert (_has_valid_blocks_A A 0 [] = true) as ->.
    { unfold _has_valid_blocks_A. cbn. apply bool_decide_eq_true. set_solver. }
    py_simpl. exists [[]]. split; [done|]. split; [|apply NoDup_singleton].
    intros c. rewrite list_elem_of_singleton. split.
    - intros ->. split_and!; [constructor|constructor|done].
    - intros (Hv & _ & Ho). by apply order_zero_nil. }
  rewrite (bool_decide_eq_true_2 (d ≠ 0)) by lia.
  unfold floordiv. rewrite decide_False by lia. py_simpl.
  set (n := len (elements A)) in *.
  rewrite (comprehension_pure _
    (λ k, alpha ← Sage.Compositions_of d (Some k) (Some n);
          Sage.cartesian_product ((λ a, Sage.Subsets_sk A a) <$> alpha))).
  2:{ intros k Hk. rewrite (bool_decide_eq_false_2 (d = 0)) by done.
      rewrite andb_false_r. by apply iterator_order_length. }
  py_simpl. eexists. split; [done|]. unfold _concatenate.
  rewrite join_fmap_bind. split.
  - intros c. rewrite list_elem_of_bind. split.
    + intros (k & Hc & _). apply iterator_order_blocks in Hc as (? & ? & ? & _); done.
    + intros (Hv & HcA & Ho). exists (len c). split.
      * by apply iterator_order_blocks.
      * apply elem_of_range. pose proof (valid_order_ge c Hv) as Hle.
        pose proof (order_le_blocks A c HcA) as Hub. fold n in Hub.
        assert (d / n ≤ len c) as Hq.
        { apply Z.div_le_upper_bound; [lia|]. rewrite Z.mul_comm. lia. }
        assert (1 ≤ len c); [|lia].
        destruct c; [cbn in Ho; lia|]. rewrite len_cons.
        pose proof (len_nonneg c). lia.
  - apply NoDup_bind.
    + intros k1 k2 c _ _ H1 H2.
      apply iterator_order_blocks in H1 as (_ & _ & _ & <-); [|lia].
      by apply iterator_order_blocks in H2 as (_ & _ & _ & <-); [|lia].
    + intros k _. apply NoDup_bind.
      * intros a1 a2 c _ _ H1 H2. apply elem_of_cartesian_product in H1, H2.
        rewrite Forall2_fmap_r in H1, H2. clear -H1 H2. revert a2 H2.
        induction H1 as [|B a c a1 HB _ IH]; intros a2 H2; [by inv H2|].
        inv H2. f_equal; [|by apply IH].
        apply elem_of_Subsets_sk in HB as (_ & _ & <-).
        by apply elem_of_Subsets_sk in H1 as (_ & _ & <-).
      * intros alpha _. apply NoDup_cartesian_product, Forall_fmap, Forall_forall.
        intros a _. apply NoDup_Subsets_sk.
      * unfold Sage.Compositions_of. case_decide; [constructor|].
        do 2 apply NoDup_filter. apply NoDup_Compositions.
    + unfold range. apply NoDup_seqZ.
Qed.

Lemma iterator_order_exact_witness :
  ({[1; 4]} : gset Z) ≠ ∅ ∧ 0 ≤ 3 ∧
  ∃ l, _iterator_order {[1; 4]} 3 None = Ok l
    ∧ (∀ c, c ∈ l ↔ valid c ∧ Forall (λ B, B ⊆ ({[1; 4]} : gset Z)) c ∧ order c = 3)
    ∧ NoDup l.
Proof.
  assert (H : ({[1; 4]} : gset Z) ≠ ∅) by (apply (bool_decide_unpack _); by vm_compute).
  assert (H' : 0 ≤ 3) by lia.
  split; [exact H|]. split; [exact H'|].
  exact (iterator_order_exact {[1; 4]} 3 H H').
Defined.

(** ** The length keywords of a family *)

Lemma init_constraints_plain (cs : gmap string value) :
  cs !! "alphabet"%string = None → cs !! "weight"%string = None →
  init_constraints cs
  = constraints ← collapse_bounds "length" "min_length" "max_length" cs;
    collapse_bounds "order" "min_order" "max_order" constraints.
Proof.
  intros HA HW. unfold init_constraints. rewrite HA. py_simpl. by rewrite HW.
Qed.

Lemma collapse_bounds_exact (exact lo hi : string) (m : gmap string value) :
  is_Some (m !! exact) →
  collapse_bounds exact lo hi m = Ok (delete hi (delete lo m)).
Proof.
  intros He. unfold collapse_bounds.
  rewrite bool_decide_eq_true_2 by done. unfold get_bound.
  assert (delete hi (delete lo m) !! lo = None) as H1.
  { rewrite lookup_delete. case_decide; [done|]. apply lookup_delete_eq. }
  assert (delete hi (delete lo m) !! hi = None) as H2 by apply lookup_delete_eq.
  cbn zeta. rewrite H1. py_simpl. by rewrite H2.
Qed.

Lemma collapse_bounds_contradictory (exact lo hi : string)
    (m : gmap string value) (a b : Z) :
  m !! exact = None → m !! lo = Some (VInt a) → m !! hi = Some (VInt b) →
  b < a → collapse_bounds exact lo hi m = Raise AssertionError.
Proof.
  intros He Hlo Hhi Hba. unfold collapse_bounds.
  rewrite bool_decide_eq_false_2 by (rewrite He; by intros [? ?]).
  unfold get_bound. rewrite Hlo, Hhi. py_simpl. cbn [bound_le].
  by rewrite bool_decide_eq_false_2 by lia.
Qed.

Lemma collapse_bounds_equal (exact lo hi : string)
    (m : gmap string value) (a : Z) :
  lo ≠ hi →
  m !! exact = None → m !! lo = Some (VInt a) → m !! hi = Some (VInt a) →
  collapse_bounds exact lo hi m
  = Ok (<[exact := VInt a]> (delete lo (delete hi m))).
Proof.
  intros Hne He Hlo Hhi. unfold collapse_bounds.
  rewrite bool_decide_eq_false_2 by (rewrite He; by intros [? ?]).
  unfold get_bound. rewrite Hlo, Hhi. py_simpl. cbn [bound_le bound_eqb].
  rewrite !bool_decide_eq_true_2 by lia. cbn [negb].
  unfold pop_required. rewrite Hhi. py_simpl.
  by rewrite lookup_delete_ne, Hlo by done.
Qed.

(** X30. The keywords [min_length] and [max_length] in [__init__], for
    keywords without [alphabet] and [weight].  Bounds with
    [min_length > max_length] raise [AssertionError]; equal bounds give the
    family of the keyword [length] with that value; and when [length] is
    given the two bounds are dropped without being looked at, so any bounds,
    contradictory ones included, give the family of [length] alone. *)
Theorem init_length_bounds (cls : family_class) (fin : bool)
    (cs : gmap string value) (a b : Z) :
  cs !! "alphabet"%string = None → cs !! "weight"%string = None →
  cs !! "length"%string = None →
  cs !! "min_length"%string = Some (VInt a) →
  cs !! "max_length"%string = Some (VInt b) →
  (b < a → OMPs_init cls fin cs = Raise AssertionError)
  ∧ (a = b →
     OMPs_init cls fin cs
     = OMPs_init cls fin
         (<["length"%string := VInt a]>
            (delete "min_length"%string (delete "max_length"%string cs))))
  ∧ (∀ v,
     OMPs_init cls fin (<["length"%string := v]> cs)
     = OMPs_init cls fin
         (<["length"%string := v]>
            (delete "min_length"%string (delete "max_length"%string cs)))).
Proof.
  intros HA HW HL Hmin Hmax. split; [|split].
  - intros Hba. unfold OMPs_init. rewrite init_constraints_plain by done.
    by rewrite (collapse_bounds_contradictory _ _ _ _ a b).
  - intros <-. unfold OMPs_init.
    rewrite init_constraints_plain by done.
    rewrite init_constraints_plain by (by rewrite lookup_insert_ne, !lookup_delete_ne).
    rewrite (collapse_bounds_equal _ _ _ _ a) by done.
    rewrite collapse_bounds_exact by (by rewrite lookup_insert_eq).
    replace (delete "max_length"%string
               (delete "min_length"%string
                  (<["length"%string := VInt a]>
                     (delete "min_length"%string (delete "max_length"%string cs)))))
      with (<["length"%string := VInt a]>
              (delete "min_length"%string (delete "max_length"%string cs)));
      [done|].
    apply map_eq. intros k.
    destruct (decide (k = "max_length"%string)) as [->|];
      [by rewrite lookup_delete_eq, lookup_insert_ne, lookup_delete_ne, lookup_delete_eq|].
    rewrite lookup_delete_ne by done.
    destruct (decide (k = "min_length"%string)) as [->|];
      [by rewrite lookup_delete_eq, lookup_insert_ne, lookup_delete_eq|].
    by rewrite lookup_delete_ne.
  - intros v. unfold OMPs_init.
    rewrite init_constraints_plain by (by rewrite lookup_insert_ne).
    rewrite init_constraints_plain by (by rewrite lookup_insert_ne, !lookup_delete_ne).
    rewrite !collapse_bounds_exact by (by rewrite lookup_insert_eq).
    replace (delete "max_length"%string
               (delete "min_length"%string
                  (<["length"%string := v]>
                     (delete "min_length"%string (delete "max_length"%string cs)))))
      with (delete "max_length"%string
              (delete "min_length"%string (<["length"%string := v]> cs)));
      [done|].
    apply map_eq. intros k.
    destruct (decide (k = "max_length"%string)) as [->|];
      [by rewrite !lookup_delete_eq|].
    rewrite !(lookup_delete_ne _ "max_length"%string) by done.
    destruct (decide (k = "min_length"%string)) as [->|];
      [by rewrite !lookup_delete_eq|].
    rewrite !(lookup_delete_ne _ "min_length"%string) by done.
    destruct (decide (k = "length"%string)) as [->|];
      [by rewrite !lookup_insert_eq|].
    rewrite !lookup_insert_ne by done.
    by rewrite !lookup_delete_ne.
Qed.

Lemma init_length_bounds_witness :
  equal_length_bounds !! "alphabet"%string = None
  ∧ equal_length_bounds !! "weight"%string = None
  ∧ equal_length_bounds !! "length"%string = None
  ∧ equal_length_bounds !! "min_length"%string = Some (VInt 2)
  ∧ equal_length_bounds !! "max_length"%string = Some (VInt 2)
  ∧ OMPs_init (OMPs_n_constraints 4) true equal_length_bounds
    = OMPs_init (OMPs_n_constraints 4) true
        (<["length"%string := VInt 2]>
           (delete "min_length"%string
              (delete "max_length"%string equal_length_bounds))).
Proof.
  assert (H1 : equal_length_bounds !! "alphabet"%string = None) by reflexivity.
  assert (H2 : equal_length_bounds !! "weight"%string = None) by reflexivity.
  assert (H3 : equal_length_bounds !! "length"%string = None) by reflexivity.
  assert (H4 : equal_length_bounds !! "min_length"%string = Some (VInt 2))
    by reflexivity.
  assert (H5 : equal_length_bounds !! "max_length"%string = Some (VInt 2))
    by reflexivity.
  split; [exact H1|]. split; [exact H2|]. split; [exact H3|].
  split; [exact H4|]. split; [exact H5|].
  exact (proj1 (proj2 (init_length_bounds (OMPs_n_constraints 4) true
                         equal_length_bounds 2 2 H1 H2 H3 H4 H5)) eq_refl).
Defined.
